(** * GLIMPSE: personalized knowledge-graph summarization

    A shallow embedding of the core of the GLIMPSE repository
    ([src/base.py], [src/algorithms.py], [src/heap.py], [src/glimpse.py],
    [src/query.py]) and the properties its specification states.

    Conventions of the embedding.
    - Python [dict]s and [set]s are stdpp [gmap]s and [gset]s; entity and
      relation labels are strings; a triple is a (subject, relation, object)
      tuple.
    - Code that may raise returns a [Result]: [Ok v] or [Err e] with the
      Python exception class [e].
    - float64 values are exact rationals extended with the IEEE special
      values (infinities and NaN): rounding, overflow and the sign of zero
      are not modelled.
    - Python's iteration order over a [set] is left open (a variable of the
      model, constrained to enumerate the set); random draws come from an
      explicit stream of raw generator outputs. *)

From Stdlib Require Import QArith Qreduction Qround Lia Lqa.
From Stdlib Require Qcanon.
From stdpp Require Import gmap strings list fin_maps fin_sets sorting.

Local Close Scope Q_scope.
Local Open Scope string_scope.
Local Open Scope nat_scope.
Local Open Scope list_scope.

(** ** Exceptions and results *)

Inductive error : Set :=
| KeyError | IndexError | ZeroDivisionError | ValueError
| OverflowError | AttributeError
| OutOfFuel (* not a Python exception: a loop of the model ran out of fuel *).

Inductive Result (A : Type) : Type :=
| Ok (a : A)
| Err (e : error).
Arguments Ok {A} a.
Arguments Err {A} e.

#[global] Instance Result_ret : MRet Result := fun _ a => Ok a.
#[global] Instance Result_bind : MBind Result :=
  fun _ _ f m => match m with Ok a => f a | Err e => Err e end.

Definition is_Ok {A} (r : Result A) : Prop := exists a, r = Ok a.

Definition of_option {A} (e : error) (o : option A) : Result A :=
  match o with Some a => Ok a | None => Err e end.

(** Monadic left fold: a [for] loop whose body may raise. *)
Fixpoint foldM {A B} (f : B -> A -> Result B) (b : B) (l : list A) : Result B :=
  match l with
  | [] => Ok b
  | a :: l => b' ← f b a; foldM f b' l
  end.

(** Monadic map: a comprehension whose body may raise. *)
Fixpoint mapM_R {A B} (f : A -> Result B) (l : list A) : Result (list B) :=
  match l with
  | [] => Ok []
  | a :: l => b ← f a; bs ← mapM_R f l; Ok (b :: bs)
  end.

(** ** float64, idealised *)

Module Float.

Inductive float : Type :=
| Fin (q : Q)        (* a finite value *)
| Inf (neg : bool)   (* +inf (false) and -inf (true) *)
| NaN.

Definition zero : float := Fin 0.
Definition one : float := Fin 1.
Definition of_nat (n : nat) : float := Fin (inject_Z (Z.of_nat n)).
Definition of_Z (z : Z) : float := Fin (inject_Z z).

Definition Qltb (a b : Q) : bool := negb (Qle_bool b a).
Definition Qis0 (a : Q) : bool := Qeq_bool a 0.

(** x + y *)
Definition add (x y : float) : float :=
  match x, y with
  | NaN, _ | _, NaN => NaN
  | Inf a, Inf b => if Bool.eqb a b then Inf a else NaN
  | Inf a, Fin _ | Fin _, Inf a => Inf a
  | Fin a, Fin b => Fin (Qred (a + b))
  end.

(** x - y *)
Definition sub (x y : float) : float :=
  match x, y with
  | NaN, _ | _, NaN => NaN
  | Inf a, Inf b => if Bool.eqb a b then NaN else Inf a
  | Inf a, Fin _ => Inf a
  | Fin _, Inf b => Inf (negb b)
  | Fin a, Fin b => Fin (Qred (a - b))
  end.

(** x * y *)
Definition mul (x y : float) : float :=
  match x, y with
  | NaN, _ | _, NaN => NaN
  | Inf a, Inf b => Inf (xorb a b)
  | Inf a, Fin q | Fin q, Inf a =>
      if Qis0 q then NaN else Inf (xorb a (Qltb q 0))
  | Fin a, Fin b => Fin (Qred (a * b))
  end.

(** x / y on numpy arrays: a zero divisor gives NaN or an infinity (numpy
    warns and goes on; it raises nothing). *)
Definition div (x y : float) : float :=
  match x, y with
  | NaN, _ | _, NaN => NaN
  | Inf _, Inf _ => NaN
  | Inf a, Fin q => Inf (xorb a (Qltb q 0))
  | Fin _, Inf _ => Fin 0
  | Fin a, Fin b =>
      if Qis0 b then (if Qis0 a then NaN else Inf (Qltb a 0))
      else Fin (Qred (a / b))
  end.

(** x < y; every comparison with NaN is false. *)
Definition ltb (x y : float) : bool :=
  match x, y with
  | NaN, _ | _, NaN => false
  | Inf a, Inf b => a && negb b
  | Inf a, Fin _ => a
  | Fin _, Inf b => negb b
  | Fin a, Fin b => Qltb a b
  end.

(** x > y *)
Definition gtb (x y : float) : bool := ltb y x.

Definition is_finite (x : float) : Prop := exists q, x = Fin q.
Definition is_nan (x : float) : bool := match x with NaN => true | _ => false end.

(** A finite value that is not negative. *)
Definition nonneg (x : float) : Prop := exists q, x = Fin q /\ (0 <= q)%Q.

(** np.sum over a 1-d array. *)
Definition sum (l : list float) : float := foldl add zero l.

End Float.
Export Float.

(** Python's scalar [x / y] on floats: a zero divisor raises. *)
Definition py_div (x y : float) : Result float :=
  match y with
  | Fin q => if Qis0 q then Err ZeroDivisionError else Ok (div x y)
  | _ => Ok (div x y)
  end.

(** Python's [int(x)] on a float: truncation towards zero; NaN and the
    infinities raise. *)
Definition py_int (x : float) : Result Z :=
  match x with
  | Fin q => Ok (Z.quot (Qnum q) (Z.pos (Qden q)))
  | Inf _ => Err OverflowError
  | NaN => Err ValueError
  end.

(** np.log is numpy's, not the repository's: the model takes it as a
    parameter [np_log].  Exact rationals cannot hold a logarithm, so where a
    concrete function is needed (examples and counterexamples that evaluate
    the code) this approximation is used: exact at 1, accurate to about
    eighteen digits elsewhere, with numpy's results at the special values. *)
Definition ln2_approx : Q := (693147180559945309 # 1000000000000000000)%Q.

(** Rounding down to twenty decimal digits keeps the numbers small. *)
Definition Qtrunc20 (x : Q) : Q :=
  Qred (Qfloor (x * 100000000000000000000) # 100000000000000000000).

(** The first [n] terms of z + z^3/3 + z^5/5 + ..., from the term of
    exponent [k] on, [pow] being z^k and [z2] being z^2. *)
Fixpoint atanh_terms (n : nat) (z2 pow : Q) (k : positive) : Q :=
  match n with
  | 0 => 0%Q
  | S n =>
      Qred (Qtrunc20 (pow / (Z.pos k # 1))
            + atanh_terms n z2 (Qtrunc20 (pow * z2)) (k + 2))%Q
  end.

Definition np_log_approx (x : float) : float :=
  match x with
  | NaN => NaN
  | Inf true => NaN
  | Inf false => Inf false
  | Fin q =>
      if Qis0 q then Inf true
      else if Qltb q 0 then NaN
      else
        (* q = m * 2^e with m between 1/2 and 2; log m = 2 atanh z *)
        let e := (Z.log2 (Qnum q) - Z.log2 (Z.pos (Qden q)))%Z in
        let m := Qred (q / Qpower 2 e)%Q in
        let z := Qtrunc20 ((m - 1) / (m + 1))%Q in
        let l := (inject_Z e * ln2_approx
                  + 2 * atanh_terms 20 (Qtrunc20 (z * z)) z 1)%Q in
        Fin (Qred (Qfloor (l * 1000000000000000000) # 1000000000000000000))
  end.

(** ** The graph store ([src/base.py]) *)

Definition triple : Type := string * string * string.

(** The classes of the hierarchy: the base class, the three corpus classes
    and [Summary] ([src/glimpse.py]). Only the corpus classes define
    [is_entity]. *)
Inductive KGClass : Set :=
| KnowledgeGraphC | FreebaseC | YAGOC | DBPediaC | SummaryC.

Record KnowledgeGraph : Type := mkKG {
  class_ : KGClass;
  entities_ : gset string;
  relationships_ : gset string;
  triples_ : gmap string (gmap string (gset string));
  number_of_triples_ : nat;
  eid_ : nat;
  entity_id_ : gmap string nat;
  id_entity_ : gmap nat string;
  (* created by reset(); the attribute does not exist before *)
  entity_value_ : option (gmap string float);
  triple_value_ : option (gmap triple float)
}.

(** [__init__] *)
Definition KG_init (cls : KGClass) : KnowledgeGraph :=
  mkKG cls ∅ ∅ ∅ 0 0 ∅ ∅ None None.

Definition entities (kg : KnowledgeGraph) : gset string := entities_ kg.
Definition relationships (kg : KnowledgeGraph) : gset string := relationships_ kg.

(** The loop nest [for e1 in triples_: for r in triples_[e1]: for e2 in
    triples_[e1][r]], as the list of the triples it visits. *)
Definition triple_list (kg : KnowledgeGraph) : list triple :=
  '(e1, d) ← map_to_list (triples_ kg);
  '(r, s) ← map_to_list d;
  e2 ← elements s;
  [(e1, r, e2)].

(** [triples()]: the flat set. *)
Definition triples (kg : KnowledgeGraph) : gset triple :=
  list_to_set (triple_list kg).

Definition number_of_entities (kg : KnowledgeGraph) : nat := size (entities_ kg).
Definition number_of_relationships (kg : KnowledgeGraph) : nat :=
  size (relationships_ kg).
Definition number_of_triples (kg : KnowledgeGraph) : nat := number_of_triples_ kg.

Definition has_entity (kg : KnowledgeGraph) (entity : string) : bool :=
  bool_decide (entity ∈ entities_ kg).
Definition has_relationship (kg : KnowledgeGraph) (r : string) : bool :=
  bool_decide (r ∈ relationships_ kg).

(** [KG[entity]] *)
Definition getitem (kg : KnowledgeGraph) (entity : string)
  : Result (gmap string (gset string)) :=
  of_option KeyError (triples_ kg !! entity).

(** [entity in KG] *)
Definition contains (kg : KnowledgeGraph) (entity : string) : bool :=
  bool_decide (is_Some (triples_ kg !! entity)).

Definition has_triple (kg : KnowledgeGraph) (t : triple) : bool :=
  let '(e1, r, e2) := t in
  match triples_ kg !! e1 with
  | Some d =>
      match d !! r with
      | Some s => bool_decide (e2 ∈ s)
      | None => false
      end
  | None => false
  end.

(** The body of [for entity in (e1, e2)] in [add_triple]. *)
Definition record_entity (kg : KnowledgeGraph) (entity : string) : KnowledgeGraph :=
  if has_entity kg entity then kg
  else mkKG (class_ kg)
            ({[entity]} ∪ entities_ kg)
            (relationships_ kg)
            (triples_ kg)
            (number_of_triples_ kg)
            (S (eid_ kg))
            (<[entity := eid_ kg]> (entity_id_ kg))
            (<[eid_ kg := entity]> (id_entity_ kg))
            (entity_value_ kg) (triple_value_ kg).

Definition add_triple (kg : KnowledgeGraph) (t : triple) : KnowledgeGraph :=
  let '(e1, r, e2) := t in
  if has_triple kg t then kg
  else
    let kg := record_entity (record_entity kg e1) e2 in
    let d := default ∅ (triples_ kg !! e1) in
    let s := default ∅ (d !! r) in
    mkKG (class_ kg)
         (entities_ kg)
         ({[r]} ∪ relationships_ kg)
         (<[e1 := <[r := {[e2]} ∪ s]> d]> (triples_ kg))
         (S (number_of_triples_ kg))
         (eid_ kg) (entity_id_ kg) (id_entity_ kg)
         (entity_value_ kg) (triple_value_ kg).

(** A graph loaded by bulk insertion. *)
Definition KG_of_list (cls : KGClass) (ts : list triple) : KnowledgeGraph :=
  foldl add_triple (KG_init cls) ts.

Definition entity_id (kg : KnowledgeGraph) (entity : string) : Result nat :=
  of_option KeyError (entity_id_ kg !! entity).

Definition id_entity (kg : KnowledgeGraph) (eid : nat) : Result string :=
  of_option KeyError (id_entity_ kg !! eid).

(** [reset()]: two fresh [defaultdict(float)]. *)
Definition reset (kg : KnowledgeGraph) : KnowledgeGraph :=
  mkKG (class_ kg) (entities_ kg) (relationships_ kg) (triples_ kg)
       (number_of_triples_ kg) (eid_ kg) (entity_id_ kg) (id_entity_ kg)
       (Some ∅) (Some ∅).

(** Reading a [defaultdict(float)]: a missing key reads as 0.0. (Python also
    stores the default under the key; nothing in the repository observes
    it, and the model leaves the store unchanged.) *)
Definition entity_value (kg : KnowledgeGraph) (entity : string) : Result float :=
  match entity_value_ kg with
  | Some ev => Ok (default zero (ev !! entity))
  | None => Err AttributeError
  end.

Definition triple_value (kg : KnowledgeGraph) (t : triple) : Result float :=
  match triple_value_ kg with
  | Some tv => Ok (default zero (tv !! t))
  | None => Err AttributeError
  end.

Definition set_entity_value (kg : KnowledgeGraph) (entity : string) (v : float)
  : Result KnowledgeGraph :=
  match entity_value_ kg with
  | Some ev =>
      Ok (mkKG (class_ kg) (entities_ kg) (relationships_ kg) (triples_ kg)
            (number_of_triples_ kg) (eid_ kg) (entity_id_ kg) (id_entity_ kg)
            (Some (<[entity := v]> ev)) (triple_value_ kg))
  | None => Err AttributeError
  end.

Definition set_triple_value (kg : KnowledgeGraph) (t : triple) (v : float)
  : Result KnowledgeGraph :=
  match triple_value_ kg with
  | Some tv =>
      Ok (mkKG (class_ kg) (entities_ kg) (relationships_ kg) (triples_ kg)
            (number_of_triples_ kg) (eid_ kg) (entity_id_ kg) (id_entity_ kg)
            (entity_value_ kg) (Some (<[t := v]> tv)))
  | None => Err AttributeError
  end.

(** [startswith] and [endswith] *)
Definition startswith (s p : string) : bool := String.prefix p s.
Definition endswith (s p : string) : bool :=
  (String.length p <=? String.length s) &&
  bool_decide (String.substring (String.length s - String.length p) (String.length p) s = p).

(** [is_entity], defined by [Freebase], [YAGO] and [DBPedia] only. *)
Definition is_entity (kg : KnowledgeGraph) (s : string) : Result bool :=
  match class_ kg with
  | FreebaseC =>
      Ok (startswith s "m." || startswith s "g." ||
          startswith s "<f_m." || startswith s "<f_g.")
  | YAGOC => Ok true
  | DBPediaC => Ok (startswith s "<" && endswith s ">")
  | KnowledgeGraphC | SummaryC => Err AttributeError
  end.

(** ** scipy's sparse matrices, as far as the walk uses them

    scipy is not the repository's code; these follow its documented
    behaviour: a matrix built from (data, (row, col)) sums the entries that
    share a position, and [*] is the matrix product. *)

Record spmatrix : Type := mkSp {
  shape : nat * nat;
  data : gmap (nat * nat) float
}.

(** Adding one (row, col, value) entry: entries at one position add up. *)
Definition sp_accum (m : gmap (nat * nat) float) (i j : nat) (v : float)
  : gmap (nat * nat) float :=
  match m !! (i, j) with
  | Some u => <[(i, j) := add u v]> m
  | None => <[(i, j) := v]> m
  end.

(** [csr_matrix((data, (row, col)), shape=(n, n))] *)
Definition coo_to_csr (n : nat) (coo : list (nat * nat * float)) : Result spmatrix :=
  if forallb (fun '(i, j, _) => (i <? n) && (j <? n)) coo
  then Ok (mkSp (n, n) (foldl (fun m '(i, j, v) => sp_accum m i j v) ∅ coo))
  else Err ValueError.

(** [M.transpose()] *)
Definition sp_transpose (M : spmatrix) : spmatrix :=
  mkSp (prod_swap (shape M)) (kmap prod_swap (data M)).

(** [X * Y] for two sparse matrices *)
Definition sp_matmul (X Y : spmatrix) : Result spmatrix :=
  if decide ((shape X).2 = (shape Y).1) then
    Ok (mkSp ((shape X).1, (shape Y).2)
          (foldl (fun acc '((i, k), a) =>
                    foldl (fun acc '((k', j), b) =>
                             if decide (k = k') then sp_accum acc i j (mul a b)
                             else acc)
                          acc (map_to_list (data Y)))
                 ∅ (map_to_list (data X))))
  else Err ValueError.

(** [s * M] for a scalar s *)
Definition sp_scale (s : float) (M : spmatrix) : spmatrix :=
  mkSp (shape M) (mul s <$> data M).

(** [M * q] for a dense 1-d array q *)
Definition sp_matvec (M : spmatrix) (q : list float) : Result (list float) :=
  if decide ((shape M).2 = length q) then
    Ok (foldl (fun y '((i, j), v) =>
                 <[i := add (default zero (y !! i)) (mul v (default zero (q !! j)))]> y)
              (replicate (shape M).1 zero) (map_to_list (data M)))
  else Err ValueError.

(** ** Queries in the WebQSP format ([src/query.py]) *)

Record Constraint : Type := mkConstraint {
  SourceNodeIndex : nat;
  NodePredicate : string;
  Argument : string;
  constraint_EntityName : string
}.

Record Answer : Type := mkAnswer {
  AnswerType : string;
  AnswerArgument : string;
  answer_EntityName : string
}.

Record Parse : Type := mkParse {
  TopicEntityMid : string;
  TopicEntityName : string;
  InferentialChain : list string;
  Constraints : list Constraint;
  Answers : list Answer
}.

Record Query : Type := mkQuery {
  QuestionId : string;
  Parse_ : Parse
}.

(** ** Random draws

    The generator is a stream of raw outputs; a draw below [n] reduces the
    next output modulo [n]. An exhausted stream yields 0. *)
Notation RNG := (list nat) (only parsing).

Definition randbelow (n : nat) (g : RNG) : nat * RNG :=
  match g with
  | [] => (0, [])
  | d :: g => (d mod n, g)
  end.

(** [np.random.randint(0, n, size=size)]: independent draws. *)
Fixpoint randint (n size : nat) (g : RNG) : list nat * RNG :=
  match size with
  | 0 => ([], g)
  | S size =>
      let '(i, g) := randbelow n g in
      let '(l, g) := randint n size g in
      (i :: l, g)
  end.

(** [random.choice(seq)] *)
Definition random_choice {A} (seq : list A) (g : RNG) : Result (A * RNG) :=
  let '(i, g) := randbelow (length seq) g in
  match seq !! i with
  | Some a => Ok (a, g)
  | None => Err IndexError
  end.

(** ** The value model ([src/algorithms.py], [KnowledgeGraph.model_user_pref]) *)

(** The restart probability's default, 0.15. *)
Definition c_default : float := Fin (3 # 20).

Definition query_vector (KG : KnowledgeGraph) (query_log : list Query)
  : Result (list float) :=
  foldM (fun x query =>
           topic_eid ← entity_id KG (TopicEntityMid (Parse_ query));
           match x !! topic_eid with
           | Some v => Ok (<[topic_eid := add v one]> x)
           | None => Err IndexError
           end)
        (replicate (number_of_entities KG) zero) query_log.

(** The body of the loop of [random_walk_with_restart]. *)
Definition rwr_step (M : spmatrix) (c : float) (qr : list float * list float)
  : Result (list float * list float) :=
  let '(q, r) := qr in
  q ← sp_matvec (sp_scale (sub one c) M) q;
  let r := zip_with add r q in
  let s := sum r in
  let r := (fun v => div v s) <$> r in
  Ok (q, r).

Fixpoint rwr_loop (M : spmatrix) (c : float) (power : nat)
    (qr : list float * list float) : Result (list float * list float) :=
  match power with
  | 0 => Ok qr
  | S power => qr ← rwr_step M c qr; rwr_loop M c power qr
  end.

Definition random_walk_with_restart (M : spmatrix) (x : list float)
    (c : float) (power : nat) : Result (list float) :=
  let q := mul c <$> x in
  let r := q in
  qr ← rwr_loop M c power (q, r);
  Ok qr.2.

(** [csr_matrix()]: the adjacency matrix. *)
Definition csr_matrix (KG : KnowledgeGraph) : Result spmatrix :=
  coo ← mapM_R (fun '(e1, r, e2) =>
                  row ← entity_id KG e1;
                  col ← entity_id KG e2;
                  Ok (row, col, one))
               (triple_list KG);
  coo_to_csr (number_of_entities KG) coo.

(** [transition_matrix()] *)
Definition transition_matrix (KG : KnowledgeGraph) : Result spmatrix :=
  coo ← mapM_R (fun '(e1, r, e2) =>
                  row ← entity_id KG e1;
                  col ← entity_id KG e1;
                  Ok (row, col, div one one))
               (triple_list KG);
  D ← coo_to_csr (number_of_entities KG) coo;
  A ← csr_matrix KG;
  sp_matmul (sp_transpose A) D.

Section Model.

(** numpy's logarithm. *)
Variable np_log : float -> float.

(** The order in which Python iterates over a set of triples. *)
Variable iter_set : gset triple -> list triple.

Definition model_user_pref (KG : KnowledgeGraph) (query_log : list Query)
    (power : nat) : Result KnowledgeGraph :=
  let KG := reset KG in
  x ← query_vector KG query_log;
  M ← transition_matrix KG;
  x ← random_walk_with_restart M x c_default power;
  KG ← foldM (fun KG '(eid, val) =>
                entity ← id_entity KG eid;
                set_entity_value KG entity (np_log (add val one)))
             KG (imap pair x);
  foldM (fun KG '(e1, r, e2) =>
           eid1 ← entity_id KG e1;
           eid2 ← entity_id KG e2;
           v1 ← of_option IndexError (x !! eid1);
           v2 ← of_option IndexError (x !! eid2);
           set_triple_value KG (e1, r, e2) (np_log (add (mul v1 v2) one)))
        KG (triple_list KG).

(** ** Summaries ([src/glimpse.py]) *)

(** A [Summary] is a [KnowledgeGraph] with a reference to its parent. *)
Record Summary : Type := mkSummary {
  graph : KnowledgeGraph;
  parent_ : KnowledgeGraph
}.

Definition Summary_init (KG : KnowledgeGraph) : Summary :=
  mkSummary (KG_init SummaryC) KG.

Definition parent (S : Summary) : KnowledgeGraph := parent_ S.

Definition Summary_add_triple (S : Summary) (t : triple) : Summary :=
  mkSummary (add_triple (graph S) t) (parent_ S).

Definition marginal_value (S : Summary) (t : triple) : Result float :=
  let total := zero in
  let '(e1, r, e2) := t in
  total ← (if negb (has_entity (graph S) e1)
           then v ← entity_value (parent S) e1; Ok (add total v)
           else Ok total);
  total ← (if negb (has_entity (graph S) e2)
           then v ← entity_value (parent S) e2; Ok (add total v)
           else Ok total);
  total ← (if negb (has_triple (graph S) t)
           then v ← triple_value (parent S) t; Ok (add total v)
           else Ok total);
  Ok total.

Fixpoint fill (S : Summary) (ts : list triple) (k : nat) : Summary :=
  match ts with
  | [] => S
  | t :: ts =>
      if k <=? number_of_triples (graph S) then S
      else fill (Summary_add_triple S t) ts k
  end.

(** The summary after each [add_triple] that [fill] performs, in order. *)
Fixpoint fill_steps (S : Summary) (ts : list triple) (k : nat) : list Summary :=
  match ts with
  | [] => []
  | t :: ts =>
      if k <=? number_of_triples (graph S) then []
      else Summary_add_triple S t :: fill_steps (Summary_add_triple S t) ts k
  end.

(** ** heapq, after CPython's [Lib/heapq.py]

    The loops run on fuel that the callers choose large enough: the position
    moves strictly towards the root or towards a leaf on every turn. *)
Section heapq.
Context {A : Type} (lt : A -> A -> bool).

Definition lt_at (heap : list A) (i j : nat) : bool :=
  match heap !! i, heap !! j with
  | Some a, Some b => lt a b
  | _, _ => false
  end.

Fixpoint siftdown_loop (fuel : nat) (heap : list A) (startpos pos : nat)
    (newitem : A) : list A * nat :=
  match fuel with
  | 0 => (heap, pos)
  | S fuel =>
      if bool_decide (startpos < pos) then
        let parentpos := (pos - 1) / 2 in
        match heap !! parentpos with
        | Some parent =>
            if lt newitem parent
            then siftdown_loop fuel (<[pos := parent]> heap) startpos parentpos newitem
            else (heap, pos)
        | None => (heap, pos)
        end
      else (heap, pos)
  end.

Definition _siftdown (heap : list A) (startpos pos : nat) : list A :=
  match heap !! pos with
  | Some newitem =>
      let '(heap, pos) := siftdown_loop (S pos) heap startpos pos newitem in
      <[pos := newitem]> heap
  | None => heap
  end.

Fixpoint siftup_loop (fuel : nat) (heap : list A) (endpos pos : nat)
  : list A * nat :=
  match fuel with
  | 0 => (heap, pos)
  | S fuel =>
      let childpos := 2 * pos + 1 in
      if bool_decide (childpos < endpos) then
        let rightpos := childpos + 1 in
        let childpos :=
          if bool_decide (rightpos < endpos) && negb (lt_at heap childpos rightpos)
          then rightpos else childpos in
        match heap !! childpos with
        | Some child => siftup_loop fuel (<[pos := child]> heap) endpos childpos
        | None => (heap, pos)
        end
      else (heap, pos)
  end.

Definition _siftup (heap : list A) (pos : nat) : list A :=
  match heap !! pos with
  | Some newitem =>
      let '(heap', pos') := siftup_loop (length heap) heap (length heap) pos in
      _siftdown (<[pos' := newitem]> heap') pos pos'
  | None => heap
  end.

(** [for i in reversed(range(n//2)): _siftup(x, i)] *)
Definition heapify (x : list A) : list A :=
  foldl _siftup x (reverse (seq 0 (length x / 2))).

(** [heapreplace(heap, item)]: the list afterwards (the item returned is
    the old [heap[0]]). *)
Definition heapreplace (heap : list A) (item : A) : list A :=
  _siftup (<[0 := item]> heap) 0.

End heapq.

(** ** The candidate pool ([src/heap.py]) *)

(** [Heap.Triple]. The attribute [index_] is scratch space of [update]: it
    is written with the position of the object and read back before the
    object moves, so the model reads the position itself. *)
Record HeapTriple : Type := mkHeapTriple {
  triple_ : triple;
  value_ : float
}.

(** The attribute [heap_]; the objects in it are all distinct, so a
    reference to one of them is its position. *)
Notation Heap := (list HeapTriple) (only parsing).

Definition Heap_len (h : Heap) : nat := length h.

Definition Heap_triples (h : Heap) : list triple := triple_ <$> h.

Definition Heap_pop (h : Heap) : Result (triple * Heap) :=
  match last h with
  | Some item => Ok (triple_ item, removelast h)
  | None => Err ValueError
  end.

(** [Triple.__lt__], on two references into the pool. *)
Definition ref_lt (h : Heap) (i j : nat) : bool :=
  match h !! i, h !! j with
  | Some a, Some b => gtb (value_ a) (value_ b)
  | _, _ => false
  end.

(** [Triple.__eq__], on two references into the pool. *)
Definition ref_eq (h : Heap) (i j : nat) : bool :=
  match h !! i, h !! j with
  | Some a, Some b => bool_decide (triple_ a = triple_ b)
  | _, _ => false
  end.

Definition _update_marginal (S : Summary) (h : Heap) (item : nat) : Result Heap :=
  it ← of_option IndexError (h !! item);
  v ← marginal_value S (triple_ it);
  Ok (<[item := mkHeapTriple (triple_ it) v]> h).

Definition _lazy_greedy (S : Summary) (h : Heap) (triples : list nat)
  : Result (nat * nat * Heap) :=
  let triples := heapify (ref_lt h) triples in
  top ← of_option IndexError (triples !! 0);
  h ← _update_marginal S h top;
  let triples := heapreplace (ref_lt h) triples top in
  after ← of_option IndexError (triples !! 0);
  Ok (top, after, h).

Definition _move_to_top (h : Heap) (argmax : nat) : Heap :=
  match h !! argmax, last h with
  | Some a, Some l => <[argmax := l]> (<[length h - 1 := a]> h)
  | _, _ => h
  end.

(** The sample that [update] draws: [None] when it returns before
    sampling. *)
Definition Heap_sample (n : nat) (sample_size : Z) (g : RNG)
  : Result (option (list nat) * RNG) :=
  let sample_size := Z.min (Z.of_nat n) sample_size in
  if (n <=? 1) || (sample_size =? 0)%Z then Ok (None, g)
  else if (sample_size <? Z.of_nat n)%Z then
    if (sample_size <? 0)%Z then Err ValueError
    else let '(indices, g) := randint n (Z.to_nat sample_size) g in
         Ok (Some indices, g)
  else Ok (Some (seq 0 n), g).

Definition Heap_update (S : Summary) (h : Heap) (sample_size : Z) (g : RNG)
  : Result (Heap * RNG) :=
  sample ← Heap_sample (length h) sample_size g;
  match sample with
  | (None, g) => Ok (h, g)
  | (Some indices, g) =>
      '(before, after, h) ← _lazy_greedy S h indices;
      if ref_eq h before after then Ok (_move_to_top h after, g)
      else
        '(h, top, argmax) ←
          foldM (fun '(h, top, argmax) i =>
                   item ← of_option IndexError (h !! i);
                   let '(e1, r, e2) := triple_ item in
                   h ← (if has_entity (graph S) e1 || has_entity (graph S) e2
                        then _update_marginal S h i else Ok h);
                   vt ← of_option IndexError (value_ <$> h !! top);
                   vi ← of_option IndexError (value_ <$> h !! i);
                   if ltb vt vi then Ok (h, i, i) else Ok (h, top, argmax))
                (h, 0, 0) indices;
        Ok (_move_to_top h argmax, g)
  end.

(** ** GLIMPSE ([src/glimpse.py]) *)

(** What an execution does to the summary and which samples it draws, in
    order: the summary after each [add_triple], and the indices of each
    sample together with the size of the pool they index. This is ghost
    state: the code keeps no such log. *)
Inductive event : Type :=
| Added (S : Summary)
| Sampled (n : nat) (indices : list nat).

Definition sample_events (h : Heap) (sample_size : Z) (g : RNG) : list event :=
  match Heap_sample (length h) sample_size g with
  | Ok (Some indices, _) => [Sampled (length h) indices]
  | _ => []
  end.

(** [len(heap) if epsilon is None else int(len(heap) / K * np.log(1 / epsilon))] *)
Definition GLIMPSE_sample_size (n K : nat) (epsilon : option float) : Result Z :=
  match epsilon with
  | None => Ok (Z.of_nat n)
  | Some eps =>
      ratio ← py_div (of_nat n) (of_nat K);
      inv ← py_div one eps;
      py_int (mul ratio (np_log inv))
  end.

(** [Heap(KG)] *)
Definition Heap_init (KG : KnowledgeGraph) : Result Heap :=
  foldM (fun heap_ t =>
           let '(e1, r, e2) := t in
           v1 ← entity_value KG e1;
           v2 ← entity_value KG e2;
           v3 ← triple_value KG t;
           let total := add (add v1 v2) v3 in
           Ok (if gtb total zero then (heap_ ++ [mkHeapTriple t total])%list else heap_))
        [] (iter_set (triples KG)).

(** [while len(heap) and S.number_of_triples() < K]; every turn pops one
    candidate, so fuel [len(heap)] is enough. *)
Fixpoint GLIMPSE_loop (fuel : nat) (S : Summary) (heap : Heap) (g : RNG)
    (sample_size : Z) (K : nat) : list event * Result Summary :=
  if (0 <? Heap_len heap) && (number_of_triples (graph S) <? K) then
    match fuel with
    | 0 => ([], Err OutOfFuel)
    | S fuel =>
        match Heap_pop heap with
        | Err e => ([], Err e)
        | Ok (t, heap) =>
            let S := Summary_add_triple S t in
            let log := Added S :: sample_events heap sample_size g in
            match Heap_update S heap sample_size g with
            | Err e => (log, Err e)
            | Ok (heap, g) =>
                let '(log', res) := GLIMPSE_loop fuel S heap g sample_size K in
                ((log ++ log')%list, res)
            end
        end
    end
  else ([], Ok S).

(** Lines 92-109 of [GLIMPSE]: the selection on a scored graph. *)
Definition GLIMPSE_select (KG : KnowledgeGraph) (K : nat)
    (epsilon : option float) (g : RNG) : list event * Result Summary :=
  match Heap_init KG with
  | Err e => ([], Err e)
  | Ok heap =>
      let S := Summary_init KG in
      let '(log, res) :=
        if Heap_len heap <=? K then
          (Added <$> fill_steps S (Heap_triples heap) K,
           Ok (fill S (Heap_triples heap) K))
        else
          let log := sample_events heap (Z.of_nat (Heap_len heap)) g in
          match Heap_update S heap (Z.of_nat (Heap_len heap)) g with
          | Err e => (log, Err e)
          | Ok (heap, g) =>
              match GLIMPSE_sample_size (Heap_len heap) K epsilon with
              | Err e => (log, Err e)
              | Ok sample_size =>
                  let '(log', res) :=
                    GLIMPSE_loop (Heap_len heap) S heap g sample_size K in
                  ((log ++ log')%list, res)
              end
          end in
      match res with
      | Err e => (log, Err e)
      | Ok S' =>
          ((log ++ (Added <$> fill_steps S' (iter_set (triples KG)) K))%list,
           Ok (fill S' (iter_set (triples KG)) K))
      end
  end.

(** [GLIMPSE(KG, K, query_log, epsilon, power)] with its ghost log. *)
Definition GLIMPSE_exec (KG : KnowledgeGraph) (K : nat) (query_log : list Query)
    (epsilon : option float) (power : nat) (g : RNG)
  : list event * Result Summary :=
  match model_user_pref KG query_log power with
  | Err e => ([], Err e)
  | Ok KG => GLIMPSE_select KG K epsilon g
  end.

Definition GLIMPSE (KG : KnowledgeGraph) (K : nat) (query_log : list Query)
    (epsilon : option float) (power : nat) (g : RNG) : Result Summary :=
  (GLIMPSE_exec KG K query_log epsilon power g).2.

(** ** Answering and generating queries ([src/query.py]) *)

(** [constraints[index]] of the [defaultdict(list)] built from
    [parse['Constraints']]. *)
Definition constraints_at (constraints : list Constraint) (index : nat)
  : list Constraint :=
  filter (fun c => SourceNodeIndex c = index) constraints.

(** [KG[entity][predicate]] under the guard [entity in KG and predicate in
    KG[entity]], the empty set otherwise. *)
Definition objects (KG : KnowledgeGraph) (entity predicate : string) : gset string :=
  match triples_ KG !! entity with
  | Some d => default ∅ (d !! predicate)
  | None => ∅
  end.

(** The candidates of one hop. *)
Definition hop (KG : KnowledgeGraph) (result : gset string) (predicate : string)
  : gset string :=
  foldl (fun candidates entity => candidates ∪ objects KG entity predicate)
        ∅ (elements result).

(** [entity not in KG or predicate not in KG[entity] or argument not in
    KG[entity][predicate]] *)
Definition violates (KG : KnowledgeGraph) (predicate argument entity : string) : bool :=
  negb (bool_decide (argument ∈ objects KG entity predicate)).

(** The set [remove] that one constraint contributes. *)
Definition removed_by (KG : KnowledgeGraph) (predicate argument : string)
    (candidates : gset string) : gset string :=
  filter (fun entity => violates KG predicate argument entity = true) candidates.

(** The loop over [enumerate(inferential_chain)], from position [index]. *)
Fixpoint answer_loop (KG : KnowledgeGraph) (constraints : list Constraint)
    (index : nat) (chain : list string) (result : gset string) : gset string :=
  match chain with
  | [] => result
  | predicate :: chain =>
      let candidates := hop KG result predicate in
      let remove :=
        foldl (fun remove constraint =>
                 remove ∪ removed_by KG (NodePredicate constraint)
                                     (Argument constraint) candidates)
              ∅ (constraints_at constraints index) in
      answer_loop KG constraints (S index) chain (candidates ∖ remove)
  end.

Definition answer_query (KG : KnowledgeGraph) (query : Query) : gset string :=
  let parse := Parse_ query in
  let topic_mid := TopicEntityMid parse in
  let result :=
    answer_loop KG (Constraints parse) 0 (InferentialChain parse) {[topic_mid]} in
  result ∖ {[topic_mid]}.

Definition get_name (mid : string) (entity_names : gmap string string) : string :=
  default mid (entity_names !! mid).

(** The keys of a dict, as a list. *)
Definition keys {V} (d : gmap string V) : list string := (map_to_list d).*1.

(** First loop of [generate_query]: the chain, by a random walk. *)
Fixpoint generate_chain (KG : KnowledgeGraph) (exclude_preds : list string)
    (chain_len : nat) (entity : string) (g : RNG) : Result (list string * RNG) :=
  match chain_len with
  | 0 => Ok ([], g)
  | S chain_len =>
      let predicates :=
        match triples_ KG !! entity with
        | Some d => filter (fun pred => pred ∉ exclude_preds) (keys d)
        | None => []
        end in
      match predicates with
      | [] => Ok ([], g)
      | _ =>
          '(predicate, g) ← random_choice predicates g;
          d ← getitem KG entity;
          entities ← of_option KeyError (d !! predicate : option (gset string));
          '(entity, g) ← random_choice (elements entities) g;
          '(chain, g) ← generate_chain KG exclude_preds chain_len entity g;
          Ok (predicate :: chain, g)
      end
  end.

(** Second loop of [generate_query]: the answers and the constraint. *)
Fixpoint generate_loop (KG : KnowledgeGraph) (entity_names : gmap string string)
    (exclude_preds inferential_chain : list string) (constraint_index : option nat)
    (index : nat) (chain : list string) (result : gset string)
    (constraints : list Constraint) (g : RNG)
  : Result (gset string * list Constraint * RNG) :=
  match chain with
  | [] => Ok (result, constraints, g)
  | predicate :: chain =>
      let candidates := hop KG result predicate in
      '(candidates, constraints, g) ←
        (if negb (bool_decide (candidates = ∅)) &&
            bool_decide (constraint_index = Some index) then
           '(entity, g) ← random_choice (elements candidates) g;
           let predicates :=
             match triples_ KG !! entity with
             | Some d =>
                 filter (fun pred => (pred ∉ inferential_chain) ∧ (pred ∉ exclude_preds))
                        (keys d)
             | None => []
             end in
           match predicates with
           | [] => Ok (candidates, constraints, g)
           | _ =>
               '(predicate, g) ← random_choice predicates g;
               d ← getitem KG entity;
               objs ← of_option KeyError (d !! predicate : option (gset string));
               if bool_decide (objs = ∅) then Ok (candidates, constraints, g)
               else
                 '(argument, g) ← random_choice (elements objs) g;
                 let constraints :=
                   (constraints ++
                      [mkConstraint index predicate argument
                         (get_name entity entity_names)])%list in
                 let remove := removed_by KG predicate argument candidates in
                 Ok (candidates ∖ remove, constraints, g)
           end
         else Ok (candidates, constraints, g));
      generate_loop KG entity_names exclude_preds inferential_chain
        constraint_index (S index) chain candidates constraints g
  end.

Definition generate_query (KG : KnowledgeGraph) (topic_mid : string)
    (chain_len : nat) (qid : string) (entity_names : gmap string string)
    (constraint_index : option nat) (exclude_preds : list string) (g : RNG)
  : Result Query :=
  '(inferential_chain, g) ← generate_chain KG exclude_preds chain_len topic_mid g;
  '(result, constraints, g) ←
    generate_loop KG entity_names exclude_preds inferential_chain constraint_index
      0 inferential_chain {[topic_mid]} [] g;
  answers ← mapM_R (fun answer =>
                      b ← is_entity KG answer;
                      Ok (mkAnswer (if b : bool then "Entity" else "Value") answer
                            (get_name answer entity_names)))
                   (elements (result ∖ {[topic_mid]}));
  Ok (mkQuery qid
        (mkParse topic_mid (get_name topic_mid entity_names)
           inferential_chain constraints answers)).

End Model.

Notation Heap := (list HeapTriple) (only parsing).

(** ** Specification-level notions *)

(** The invariant of the identifier tables: labels and identifiers are in
    bijection, and the identifiers in use are 0 .. eid_ - 1. *)
Record ids_wf (kg : KnowledgeGraph) : Prop := mkIdsWf {
  wf_entity_dom : forall e, e ∈ entities_ kg <-> is_Some (entity_id_ kg !! e);
  wf_id_inverse : forall e i,
    entity_id_ kg !! e = Some i <-> id_entity_ kg !! i = Some e;
  wf_id_range : forall i, is_Some (id_entity_ kg !! i) <-> i < eid_ kg;
  wf_size : size (entities_ kg) = eid_ kg
}.

(** The invariant of a graph store: what holds of every graph built from an
    empty one by [add_triple]. *)
Record KG_wf (kg : KnowledgeGraph) : Prop := mkKGWf {
  wf_ids : ids_wf kg;
  wf_entities : forall e,
    e ∈ entities_ kg <-> exists t, t ∈ triples kg /\ (t.1.1 = e \/ t.2 = e);
  wf_count : number_of_triples_ kg = size (triples kg);
  wf_objects : forall e1 d, triples_ kg !! e1 = Some d ->
    d ≠ ∅ /\ forall r s, d !! r = Some s -> s ≠ ∅
}.

(** The matrix the specification describes: [T = A^T · D^-1], with [D] the
    diagonal matrix of the row sums (out-degrees) of the adjacency matrix
    [A]; so [T[j, i] = A[i, j] / D[i, i]]. *)
Definition out_degree (A : spmatrix) (i : nat) : float :=
  sum ((map_to_list (filter (fun '(k, _) => k.1 = i) (data A))).*2).

Definition column_stochastic_transition (KG : KnowledgeGraph) : Result spmatrix :=
  A ← csr_matrix KG;
  Ok (sp_transpose (mkSp (shape A)
        (map_imap (fun k a => Some (div a (out_degree A k.1))) (data A)))).

(** The sum of column [j]. *)
Definition column_sum (M : spmatrix) (j : nat) : float :=
  sum ((map_to_list (filter (fun '(k, _) => k.2 = j) (data M))).*2).

(** ** The walk, in the specification's words

    Vectors are functions from entity identifiers to values. *)
Definition vec : Type := nat -> float.

Definition topic (query : Query) : string := TopicEntityMid (Parse_ query).

(** The seed vector [x0]: one unit per query at its topic entity. *)
Definition seed_vector (KG : KnowledgeGraph) (query_log : list Query) : vec :=
  fun i =>
    of_nat (length (filter (fun query => entity_id_ KG !! topic query = Some i)
                           query_log)).

(** [(T · q)[i]]: the sum of [T[i, j] · q[j]] over the stored entries of
    row [i]. *)
Definition row_dot (T : spmatrix) (q : vec) (i : nat) : float :=
  foldl add zero
    ((fun kv => mul kv.2 (q kv.1.2))
       <$> filter (fun kv => kv.1.1 = i) (map_to_list (data T))).

(** One iteration: [q ← (1 − c) · T · q], [r ← r + q], [r ← r / sum(r)]. *)
Definition walk_step (n : nat) (T : spmatrix) (c : float) (qr : vec * vec)
  : vec * vec :=
  let q := row_dot (sp_scale (sub one c) T) qr.1 in
  let r := fun i => add (qr.2 i) (q i) in
  let s := sum (r <$> seq 0 n) in
  (q, fun i => div (r i) s).

Fixpoint walk_iter (n : nat) (T : spmatrix) (c : float) (power : nat)
    (qr : vec * vec) : vec * vec :=
  match power with
  | 0 => qr
  | S power => walk_iter n T c power (walk_step n T c qr)
  end.

(** The walk vector [r] after [power] iterations from [q = r = c · x0]. *)
Definition walk_vector (n : nat) (T : spmatrix) (c : float) (power : nat)
    (x0 : vec) : vec :=
  (walk_iter n T c power (fun i => mul c (x0 i), fun i => mul c (x0 i))).2.

(** A graph with the value annotation [ev], [tv]. *)
Definition with_values (KG : KnowledgeGraph) (ev : gmap string float)
    (tv : gmap triple float) : KnowledgeGraph :=
  mkKG (class_ KG) (entities_ KG) (relationships_ KG) (triples_ KG)
       (number_of_triples_ KG) (eid_ KG) (entity_id_ KG) (id_entity_ KG)
       (Some ev) (Some tv).

(** A finite value that is positive. *)
Definition positive_float (x : float) : Prop := exists q, x = Fin q /\ (0 < q)%Q.

(** An edge between two identifiers: some triple links their entities. *)
Definition id_edge (KG : KnowledgeGraph) (i j : nat) : Prop :=
  exists e1 r e2, (e1, r, e2) ∈ triples KG /\
                  entity_id_ KG !! e1 = Some i /\ entity_id_ KG !! e2 = Some j.

(** [edge KG a b]: some triple leads from [a] to [b]; an entity reaches
    another along a path of edges (of any length, zero included). *)
Definition edge (KG : KnowledgeGraph) (a b : string) : Prop :=
  exists r, (a, r, b) ∈ triples KG.

Definition reachable (KG : KnowledgeGraph) (a b : string) : Prop :=
  rtc (edge KG) a b.

(** A query whose only content is its topic entity (the value model reads
    nothing else). *)
Definition topic_query (topic_mid : string) : Query :=
  mkQuery "q" (mkParse topic_mid topic_mid [] [] []).

(** An identifier carries walk mass only if its entity is reached from a
    topic of the workload. *)
Definition tainted (KG : KnowledgeGraph) (query_log : list Query) (i : nat) : Prop :=
  exists query e, query ∈ query_log /\ entity_id_ KG !! e = Some i /\
                  reachable KG (topic query) e.

(** The invariant of the walk on a workload that is not empty. *)
Definition walk_inv (KG : KnowledgeGraph) (query_log : list Query) (n : nat)
    (qr : vec * vec) : Prop :=
  (forall i, nonneg (qr.1 i)) /\
  (forall i, nonneg (qr.2 i)) /\
  (exists i, i < n /\ positive_float (qr.2 i)) /\
  (forall i, ~ tainted KG query_log i -> qr.1 i = zero /\ qr.2 i = zero).


(** ** The objective of the selection, in the specification's words *)

(** A graph whose value annotation exists ([reset()] has run). *)
Definition scored (KG : KnowledgeGraph) : Prop :=
  is_Some (entity_value_ KG) /\ is_Some (triple_value_ KG).

(** The values as total functions (0.0 where nothing is stored). *)
Definition ev_of (KG : KnowledgeGraph) (e : string) : float :=
  default zero (default ∅ (entity_value_ KG) !! e).

Definition tv_of (KG : KnowledgeGraph) (t : triple) : float :=
  default zero (default ∅ (triple_value_ KG) !! t).

Definition values_finite (KG : KnowledgeGraph) : Prop :=
  (forall e, is_finite (ev_of KG e)) /\ (forall t, is_finite (tv_of KG t)).

(** [entities(X)]: the entities that the triples of [X] touch. *)
Definition entities_of (X : gset triple) : gset string :=
  set_map (fun t : triple => t.1.1) X ∪ set_map (fun t : triple => t.2) X.

(** The sum of [g] over a finite set. *)
Definition sum_over {A} `{Countable A} (g : A -> float) (X : gset A) : float :=
  sum (g <$> elements X).

(** [f(X)]: every entity of [X] counted once, plus every triple of [X]. *)
Definition objective (KG : KnowledgeGraph) (X : gset triple) : float :=
  add (sum_over (ev_of KG) (entities_of X)) (sum_over (tv_of KG) X).

(** The terms that [marginal_value] adds up, in order. *)
Definition marginal_terms (S : Summary) (t : triple) : list float :=
  ((if has_entity (graph S) t.1.1 then [] else [ev_of (parent S) t.1.1]) ++
   (if has_entity (graph S) t.2 then [] else [ev_of (parent S) t.2]) ++
   (if has_triple (graph S) t then [] else [tv_of (parent S) t]))%list.

(** A graph with one self-loop. *)
Definition loop_graph : KnowledgeGraph :=
  KG_of_list KnowledgeGraphC [("a", "r", "a")].

(** Every candidate of the pool holds a triple that satisfies [Q]. *)
Definition heap_all (Q : triple -> Prop) (h : list HeapTriple) : Prop :=
  Forall (fun it => Q (triple_ it)) h.

(** The invariant of a summary of [KG] under budget [K]. *)
Definition summary_inv (KG : KnowledgeGraph) (K : nat) (S : Summary) : Prop :=
  KG_wf (graph S) /\
  triples (graph S) ⊆ triples KG /\
  size (triples (graph S)) <= K /\
  number_of_triples (graph S) <= K.



(** ** Notions used by the further properties *)

(** The relations that the triples of [X] use. *)
Definition relations_of (X : gset triple) : gset string :=
  set_map (fun t : triple => t.1.2) X.

(** [follows KG constraints index chain a b]: a path of triples leads from
    [a] to [b] along the relations of [chain], and the entity reached by
    the k-th relation satisfies every constraint registered at position
    [index + k]: it has the constraint's argument under the constraint's
    relation. *)
Fixpoint follows (KG : KnowledgeGraph) (constraints : list Constraint)
    (index : nat) (chain : list string) (a b : string) : Prop :=
  match chain with
  | [] => a = b
  | predicate :: chain =>
      exists m : string,
        (a, predicate, m) ∈ triples KG /\
        Forall (fun c => (m, NodePredicate c, Argument c) ∈ triples KG)
               (constraints_at constraints index) /\
        follows KG constraints (S index) chain m b
  end.

(** The classes that define [is_entity]. *)
Definition corpus_class (cls : KGClass) : Prop :=
  cls = FreebaseC \/ cls = YAGOC \/ cls = DBPediaC.

(** ** Metrics ([src/metrics.py]) *)

(** Python's truth value of a number: zero is false, everything else
    (NaN included) is true. *)
Definition truthy (x : float) : bool :=
  match x with
  | Fin q => negb (Qis0 q)
  | _ => true
  end.

(** [tp / (tp + fp) if (tp + fp) > 0 else 0] *)
Definition precision (tp fp fn : nat) : Result float :=
  if 0 <? tp + fp then py_div (of_nat tp) (of_nat (tp + fp)) else Ok zero.

(** [tp / (tp + fn) if (tp + fn) > 0 else 0] *)
Definition recall (tp fp fn : nat) : Result float :=
  if 0 <? tp + fn then py_div (of_nat tp) (of_nat (tp + fn)) else Ok zero.

(** [(2 * P * R) / (P + R) if P and R else 0] *)
Definition f1_score (tp fp fn : nat) : Result float :=
  P ← precision tp fp fn;
  R ← recall tp fp fn;
  if truthy P && truthy R then py_div (mul (mul (of_nat 2) P) R) (add P R)
  else Ok zero.

(** The three numbers every metric function returns. *)
Definition metrics_of (tp fp fn : nat) : Result (float * float * float) :=
  f ← f1_score tp fp fn;
  p ← precision tp fp fn;
  r ← recall tp fp fn;
  Ok (f, p, r).

(** The counts of true positives, false positives and false negatives of
    a set of answers against the expected set. *)
Definition match_counts (summary_matches kg_matches : gset string) : nat * nat * nat :=
  (size (summary_matches ∩ kg_matches),
   size (summary_matches ∖ kg_matches),
   size (kg_matches ∖ summary_matches)).

Definition query_metrics (S : Summary) (query : Query)
  : Result (float * float * float) :=
  let kg_matches : gset string :=
    list_to_set (AnswerArgument <$> Answers (Parse_ query)) in
  let summary_matches := answer_query (graph S) query in
  let '(tp, fp, fn) := match_counts summary_matches kg_matches in
  metrics_of tp fp fn.

(** The loop of [total_query_log_metrics]: the counts over the whole log. *)
Definition total_counts (S : Summary) (query_log : list Query) : nat * nat * nat :=
  foldl (fun '(tp, fp, fn) query =>
           let kg_matches := answer_query (parent S) query in
           let summary_matches := answer_query (graph S) query in
           let '(tp', fp', fn') := match_counts summary_matches kg_matches in
           (tp + tp', fp + fp', fn + fn'))
        (0, 0, 0) query_log.

Definition total_query_log_metrics (S : Summary) (query_log : list Query)
  : Result (float * float * float) :=
  let '(tp, fp, fn) := total_counts S query_log in
  metrics_of tp fp fn.

(** [np.mean] of a list: the empty list gives NaN (numpy warns and raises
    nothing). *)
Definition np_mean (l : list float) : float := div (sum l) (of_nat (length l)).

Definition average_query_log_metrics (S : Summary) (query_log : list Query)
  : Result (float * float * float) :=
  ms ← mapM_R (query_metrics S) query_log;
  Ok (np_mean ((fun m => m.1.1) <$> ms),
      np_mean ((fun m => m.1.2) <$> ms),
      np_mean ((fun m => m.2) <$> ms)).

(** ** Query logs ([src/user.py]) *)

(** [1 - len(unique_qids) / len(query_log)] *)
Definition reuse (query_log : list Query) : Result float :=
  let unique_qids : gset string := list_to_set (QuestionId <$> query_log) in
  ratio ← py_div (of_nat (size unique_qids)) (of_nat (length query_log));
  Ok (sub one ratio).

(** [d[key] += 1] on a [defaultdict(int)] *)
Definition increment (d : gmap string nat) (key : string) : gmap string nat :=
  <[key := default 0 (d !! key) + 1]> d.

Definition entity_counts (query_log : list Query) : gmap string nat :=
  foldl (fun entities query => increment entities (TopicEntityName (Parse_ query)))
        ∅ query_log.

Definition predicate_counts (query_log : list Query) : gmap string nat :=
  foldl (fun relations query =>
           foldl increment relations (InferentialChain (Parse_ query)))
        ∅ query_log.

(** A value in the interval [0, 1]. *)
Definition unit_interval (x : float) : Prop :=
  exists q, x = Fin q /\ (0 <= q <= 1)%Q.

(** ** Notions for the selection *)

(** [x <= y] on finite values. *)
Definition float_le (x y : float) : Prop :=
  exists a b, x = Fin a /\ y = Fin b /\ (a <= b)%Q.

(** A value annotation without negative values (and without NaN or
    infinities). *)
Definition values_nonneg (KG : KnowledgeGraph) : Prop :=
  (forall e, nonneg (ev_of KG e)) /\ (forall t, nonneg (tv_of KG t)).

(** [KG.entity_value(e1) + KG.entity_value(e2) + KG.triple_value(triple)]:
    the value with which [Heap(KG)] enters a triple. *)
Definition total_value (KG : KnowledgeGraph) (t : triple) : float :=
  add (add (ev_of KG t.1.1) (ev_of KG t.2)) (tv_of KG t).

(** ** The matrices of the graph, entry by entry *)

(** [M[i, j]]: 0 where nothing is stored. *)
Definition entry (M : spmatrix) (i j : nat) : float :=
  default zero (data M !! (i, j)).

(** What a matrix of counts stores for a count: nothing for 0. *)
Definition count_entry (c : nat) : option float :=
  if c =? 0 then None else Some (of_nat c).

(** The number of triples from [e1] to [e2] (one per relation), and the
    number of triples with subject [e1]: the out-degree of [e1], parallel
    edges counted. *)
Definition links (KG : KnowledgeGraph) (e1 e2 : string) : nat :=
  size (filter (fun t : triple => t.1.1 = e1 /\ t.2 = e2) (triples KG)).

Definition out_links (KG : KnowledgeGraph) (e1 : string) : nat :=
  size (filter (fun t : triple => t.1.1 = e1) (triples KG)).

(** The identifier of a label, 0 for a label that has none. *)
Definition id_of (KG : KnowledgeGraph) (e : string) : nat :=
  default 0 (entity_id_ KG !! e).

(** ** The order of a heapq heap *)

(** [c] is a child of [p] in the implicit tree of heapq. *)
Definition child (p c : nat) : Prop := c = 2 * p + 1 \/ c = 2 * p + 2.

(** The positions of the subtree of [s]. *)
Inductive desc (s : nat) : nat -> Prop :=
| desc_refl : desc s s
| desc_child (p c : nat) : desc s p -> child p c -> desc s c.

Section heap_order.
Context {A : Type} (lt : A -> A -> bool).

(** [not heap[c] < heap[p]] *)
Definition le_at (heap : list A) (p c : nat) : Prop := lt_at lt heap c p = false.

(** heapq's invariant on the parents at [s] or after: no child is less
    than its parent. *)
Definition heap_from (s : nat) (heap : list A) : Prop :=
  forall p c, s <= p -> child p c -> le_at heap p c.

(** The invariant while the position [pos] is a hole: the pairs of parent
    and child that do not involve the hole are in order, and the parent of
    the hole is not after the children of the hole. *)
Definition hole_inv (start : nat) (heap : list A) (pos : nat) : Prop :=
  desc start pos /\ pos < length heap /\
  (forall p c, start <= p -> child p c -> p ≠ pos -> c ≠ pos -> le_at heap p c) /\
  (pos ≠ start -> forall c, child pos c -> le_at heap ((pos - 1) / 2) c).

(** The same while [newitem] moves up: it is not after the children of the
    hole. *)
Definition up_inv (start : nat) (heap : list A) (pos : nat) (newitem : A) : Prop :=
  hole_inv start heap pos /\
  (forall c x, child pos c -> heap !! c = Some x -> lt x newitem = false).

End heap_order.

(** ** Greedy selection *)

(** The marginal value as a number: the sum that [marginal_value]
    returns. *)
Definition mv (S : Summary) (t : triple) : float := sum (marginal_terms S t).

(** [S.has_entity(e1) or S.has_entity(e2)] *)
Definition touches (S : Summary) (t : triple) : bool :=
  has_entity (graph S) t.1.1 || has_entity (graph S) t.2.

(** What the pool knows of the marginal values: the value of a candidate
    is finite and at least its marginal value, and is its marginal value
    when the candidate shares no entity with the summary. *)
Definition pool_ok (S : Summary) (h : list HeapTriple) : Prop :=
  Forall (fun item =>
            is_finite (value_ item) /\
            float_le (mv S (triple_ item)) (value_ item) /\
            (touches S (triple_ item) = false ->
             value_ item = mv S (triple_ item))) h.

(** The candidate that [pop] returns next has the greatest marginal
    value of the pool. *)
Definition top_is_best (S : Summary) (h : list HeapTriple) : Prop :=
  forall top item, last h = Some top -> item ∈ h ->
    float_le (mv S (triple_ item)) (mv S (triple_ top)).

(** A sequence of greedy choices: each triple has, when it is added, the
    greatest marginal value among the triples of the graph. *)
Fixpoint greedy_chain (S : Summary) (ts : list triple) : Prop :=
  match ts with
  | [] => True
  | t :: ts =>
      (forall t', t' ∈ triples (parent S) -> float_le (mv S t') (mv S t)) /\
      greedy_chain (Summary_add_triple S t) ts
  end.

(** The invariant of the selection loop: the pool is disjoint from the
    summary, holds every triple of positive value that the summary lacks,
    and keeps its best candidate on top. *)
Definition loop_inv (S : Summary) (heap : list HeapTriple) : Prop :=
  KG_wf (graph S) /\ pool_ok S heap /\ NoDup (Heap_triples heap) /\
  top_is_best S heap /\
  (forall t, t ∈ Heap_triples heap ->
     t ∈ triples (parent S) /\ t ∉ triples (graph S)) /\
  (forall t, t ∈ triples (parent S) ->
     gtb (total_value (parent S) t) zero = true ->
     t ∈ triples (graph S) \/ t ∈ Heap_triples heap).

(** The candidates of a scored graph: its triples of positive value. *)
Definition candidates (KG : KnowledgeGraph) : gset triple :=
  filter (fun t => gtb (total_value KG t) zero = true) (triples KG).

(** A finite value that is not negative, as a test. *)
Definition nonnegb (x : float) : bool :=
  match x with
  | Fin q => Qle_bool 0 q
  | _ => false
  end.

(** ** The budget of [main.py] *)

(** [K = int(args.percent_triples * KG.number_of_triples())] *)
Definition main_K (percent_triples : float) (KG : KnowledgeGraph) : Result Z :=
  py_int (mul percent_triples (of_nat (number_of_triples KG))).

(** ** Loading a dump ([DBPedia.load])

    The dump is the list of its lines, each with its newline; strings are
    sequences of characters. *)

Definition newline : Ascii.ascii := Ascii.ascii_of_nat 10.
Definition space : Ascii.ascii := Ascii.ascii_of_nat 32.

(** [s.rstrip('\n')] *)
Fixpoint rstrip_newline (s : string) : string :=
  match s with
  | EmptyString => EmptyString
  | String c s' =>
      match rstrip_newline s' with
      | EmptyString =>
          if Ascii.eqb c newline then EmptyString else String c EmptyString
      | t => String c t
      end
  end.

(** [s[:-2]] *)
Definition drop_last2 (s : string) : string :=
  String.substring 0 (String.length s - 2) s.

(** [s.split(' ')] *)
Fixpoint split_space (s : string) : list string :=
  match s with
  | EmptyString => [EmptyString]
  | String c s' =>
      if Ascii.eqb c space then EmptyString :: split_space s'
      else match split_space s' with
           | w :: ws => String c w :: ws
           | [] => [String c EmptyString]
           end
  end.

(** [' '.join(l)] *)
Fixpoint join_space (l : list string) : string :=
  match l with
  | [] => EmptyString
  | w :: ws =>
      match ws with
      | [] => w
      | _ :: _ => w +:+ String space (join_space ws)
      end
  end.

(** The body of the loop up to [continue]: the fact of a line, [None] for
    a line that is skipped; unpacking [fact[:2]] raises ValueError when the
    line has fewer than two fields. *)
Definition DBPedia_fact (line : string) : Result (option triple) :=
  let fact := split_space (drop_last2 (rstrip_newline line)) in
  match fact with
  | e1 :: r :: rest =>
      let e2 := join_space rest in
      if bool_decide (e1 = "") || bool_decide (e2 = "") then Ok None
      else Ok (Some (e1, r, e2))
  | _ => Err ValueError
  end.

(** [load(head)] on the lines of the dump; [head] is None or a count. *)
Fixpoint DBPedia_load (kg : KnowledgeGraph) (head : option nat)
    (lines : list string) : Result KnowledgeGraph :=
  match lines with
  | [] => Ok kg
  | line :: lines =>
      fact ← DBPedia_fact line;
      match fact with
      | None => DBPedia_load kg head lines
      | Some t =>
          let kg := add_triple kg t in
          if bool_decide (head = Some (number_of_triples kg)) then Ok kg
          else DBPedia_load kg head lines
      end
  end.

(** Whether a character occurs in a string. *)
Fixpoint has_char (c : Ascii.ascii) (s : string) : bool :=
  match s with
  | EmptyString => false
  | String x s' => Ascii.eqb x c || has_char c s'
  end.

(** The line of a triple in the dump: subject, relation and object
    separated by single spaces, then [" ."] and the newline. *)
Definition dump_line (t : triple) : string :=
  t.1.1 +:+ String space (t.1.2 +:+ String space (t.2 +:+ String space
    ("." +:+ String newline EmptyString))).

(** What a triple must satisfy to survive the dump: no space inside the
    subject and the relation, and a subject and an object that are not
    empty. *)
Definition dumpable (t : triple) : Prop :=
  has_char space t.1.1 = false /\ has_char space t.1.2 = false /\
  t.1.1 ≠ "" /\ t.2 ≠ "".

(** ** The range of float64

    The model computes with exact rationals, which never overflow. The loop
    of [random_walk_with_restart] never normalises [q], so in float64 a long
    walk can leave the finite range. The largest float64 is just below
    2^1024; the bound below is half of it, which leaves room for the
    rounding that the exact rationals do not have. *)
Definition float64_bound : Q := inject_Z (2 ^ 1023).

Definition in_float64 (v : float) : bool :=
  match v with
  | Fin q => Qle_bool (- float64_bound) q && Qle_bool q float64_bound
  | _ => false
  end.

(** The values that [power] iterations of the loop compute stay within the
    bound: at every iteration the new [q], the sum [r + q] and its total. *)
Fixpoint rwr_in_range (M : spmatrix) (c : float) (power : nat)
    (qr : list float * list float) : bool :=
  match power with
  | 0 => true
  | S power =>
      match sp_matvec (sp_scale (sub one c) M) qr.1, rwr_step M c qr with
      | Ok q, Ok qr' =>
          forallb in_float64 q
          && forallb in_float64 (zip_with add qr.2 q)
          && in_float64 (sum (zip_with add qr.2 q))
          && rwr_in_range M c power qr'
      | _, _ => false
      end
  end.

(** The walk of [model_user_pref] on a graph and a workload stays within
    the bound, from [q = r = c · x0] on. *)
Definition walk_in_float64 (KG : KnowledgeGraph) (query_log : list Query)
    (power : nat) : bool :=
  match query_vector KG query_log, transition_matrix KG with
  | Ok x, Ok M =>
      forallb in_float64 (mul c_default <$> x)
      && rwr_in_range M c_default power (mul c_default <$> x, mul c_default <$> x)
  | _, _ => false
  end.

(** ** Example data *)

(** The graph of the specification's traversal scenario. *)
Definition friends_graph : KnowledgeGraph :=
  KG_of_list KnowledgeGraphC
    [("A", "friend", "B"); ("B", "friend", "C"); ("B", "age", "30")].

Definition friends_query (constraints : list Constraint) : Query :=
  mkQuery "q" (mkParse "A" "A" ["friend"; "friend"] constraints []).

Definition age_constraint (index : nat) (value : string) : Constraint :=
  mkConstraint index "age" value "B".

(** An entity with two outgoing edges. *)
Definition fork_graph : KnowledgeGraph :=
  KG_of_list KnowledgeGraphC [("a", "r", "b"); ("a", "r", "c")].

(** The same graph, loaded as a YAGO graph (a class with [is_entity]). *)
Definition friends_yago : KnowledgeGraph :=
  KG_of_list YAGOC
    [("A", "friend", "B"); ("B", "friend", "C"); ("B", "age", "30")].

(** A scored graph for the examples: a hand-written annotation of
    [fork_graph]. *)
Definition fork_scored : KnowledgeGraph :=
  with_values fork_graph
    {["a" := Fin (1 # 2); "b" := Fin (1 # 4)]}
    {[("a", "r", "b") := Fin (1 # 8)]}.

(** A graph with a cycle: four triples, every entity reached from a. *)
Definition cycle_graph : KnowledgeGraph :=
  KG_of_list KnowledgeGraphC
    [("a", "r", "b"); ("a", "r", "c"); ("b", "r", "c"); ("c", "s", "a")].

(** A path: no entity has more than one outgoing edge. *)
Definition chain_graph : KnowledgeGraph :=
  KG_of_list KnowledgeGraphC [("a", "r", "b"); ("b", "r", "c")].

(** A hub with ten self-loops, and an entity that leads to it. *)
Definition hub_graph : KnowledgeGraph :=
  KG_of_list KnowledgeGraphC
    [("a", "r0", "a"); ("a", "r1", "a"); ("a", "r2", "a"); ("a", "r3", "a");
     ("a", "r4", "a"); ("a", "r5", "a"); ("a", "r6", "a"); ("a", "r7", "a");
     ("a", "r8", "a"); ("a", "r9", "a"); ("d", "r", "a")].

(** * Properties *)

(** ** The graph store *)

Lemma bind_Ok {A B} (m : Result A) (f : A -> Result B) (b : B) :
  m ≫= f = Ok b <-> exists a, m = Ok a /\ f a = Ok b.
Proof.
  destruct m as [a|e]; simpl.
  - split; [intros H; exists a; auto | intros (a' & [= <-] & H); exact H].
  - split; [discriminate | intros (a' & [=] & _)].
Qed.

Lemma of_option_Ok {A} (e : error) (o : option A) (a : A) :
  of_option e o = Ok a <-> o = Some a.
Proof. destruct o; simpl; split; congruence. Qed.

Lemma elem_of_triple_list (kg : KnowledgeGraph) (e1 r e2 : string) :
  (e1, r, e2) ∈ triple_list kg <->
  exists d s, triples_ kg !! e1 = Some d /\ d !! r = Some s /\ e2 ∈ s.
Proof.
  unfold triple_list. rewrite list_elem_of_bind. split.
  - intros ([e1' d] & Hin & Hd). apply elem_of_map_to_list in Hd.
    apply list_elem_of_bind in Hin as ([r' s] & Hin & Hs).
    apply elem_of_map_to_list in Hs.
    apply list_elem_of_bind in Hin as (e2' & Hin & He2).
    apply list_elem_of_singleton in Hin. injection Hin as -> -> ->.
    apply elem_of_elements in He2. eauto.
  - intros (d & s & Hd & Hs & He2). exists (e1, d). split.
    + apply list_elem_of_bind. exists (r, s). split.
      * apply list_elem_of_bind. exists e2. split; [apply list_elem_of_singleton; done|].
        by apply elem_of_elements.
      * by apply elem_of_map_to_list.
    + by apply elem_of_map_to_list.
Qed.

Lemma has_triple_spec (kg : KnowledgeGraph) (e1 r e2 : string) :
  has_triple kg (e1, r, e2) = true <->
  exists d s, triples_ kg !! e1 = Some d /\ d !! r = Some s /\ e2 ∈ s.
Proof.
  unfold has_triple. split.
  - destruct (triples_ kg !! e1) as [d|]; [|discriminate].
    destruct (d !! r) as [s|] eqn:Hr; [|discriminate].
    intros H%bool_decide_eq_true. eauto.
  - intros (d & s & -> & -> & H). by apply bool_decide_eq_true.
Qed.

Lemma elem_of_triples (kg : KnowledgeGraph) (t : triple) :
  t ∈ triples kg <-> has_triple kg t = true.
Proof.
  destruct t as [[e1 r] e2]. unfold triples.
  rewrite elem_of_list_to_set, elem_of_triple_list, has_triple_spec. done.
Qed.

Lemma has_triple_add_triple (kg : KnowledgeGraph) (t t' : triple) :
  has_triple (add_triple kg t) t' = true <-> t' = t \/ has_triple kg t' = true.
Proof.
  destruct t as [[e1 r] e2], t' as [[e1' r'] e2'].
  unfold add_triple. destruct (has_triple kg (e1, r, e2)) eqn:Hh.
  { split; [auto | intros [[= -> -> ->] | H]; auto]. }
  assert (Htr : forall k e, triples_ (record_entity k e) = triples_ k).
  { intros k e. unfold record_entity. by destruct (has_entity k e). }
  rewrite !has_triple_spec. simpl. rewrite !Htr. split.
  - intros (d & s & Hd & Hs & He). destruct (decide (e1 = e1')) as [<-|Hne1].
    + rewrite lookup_insert_eq in Hd. injection Hd as <-.
      destruct (decide (r = r')) as [<-|Hner].
      * rewrite lookup_insert_eq in Hs. injection Hs as <-.
        apply elem_of_union in He as [He%elem_of_singleton | He]; [left; by subst|].
        right. destruct (triples_ kg !! e1) as [d0|] eqn:Hd0; simpl in *.
        -- destruct (d0 !! r) as [s0|] eqn:Hs0; simpl in *; [eauto 6|set_solver].
        -- rewrite lookup_empty in He. simpl in He. set_solver.
      * rewrite lookup_insert_ne in Hs by done. right.
        destruct (triples_ kg !! e1) as [d0|] eqn:Hd0; simpl in *; [eauto 6|].
        by rewrite lookup_empty in Hs.
    + rewrite lookup_insert_ne in Hd by done. right. eauto 6.
  - intros [[= -> -> ->] | (d & s & Hd & Hs & He)].
    + eexists _, _. rewrite !lookup_insert_eq. split; [done|]. split; [done|]. set_solver.
    + destruct (decide (e1 = e1')) as [<-|Hne1].
      * rewrite Hd. simpl. rewrite lookup_insert_eq.
        destruct (decide (r = r')) as [<-|Hner].
        -- rewrite Hs. simpl. eexists _, _. rewrite lookup_insert_eq.
           split; [done|]. split; [done|]. set_solver.
        -- eexists _, _. split; [done|]. rewrite lookup_insert_ne by done. eauto.
      * rewrite lookup_insert_ne by done. eauto 6.
Qed.

Lemma triples_add_triple (kg : KnowledgeGraph) (t : triple) :
  triples (add_triple kg t) = {[t]} ∪ triples kg.
Proof.
  apply set_eq. intros t'.
  rewrite elem_of_union, elem_of_singleton, !elem_of_triples.
  apply has_triple_add_triple.
Qed.

Lemma triples_init (cls : KGClass) : triples (KG_init cls) = ∅.
Proof. reflexivity. Qed.

Lemma ids_wf_record_entity (kg : KnowledgeGraph) (e : string) :
  ids_wf kg -> ids_wf (record_entity kg e).
Proof.
  intros [Hdom Hinv Hrange Hsize]. unfold record_entity, has_entity.
  case_bool_decide as He; [by constructor|].
  assert (Hnone : entity_id_ kg !! e = None).
  { apply eq_None_not_Some. by rewrite <- Hdom. }
  assert (Hnone' : id_entity_ kg !! eid_ kg = None).
  { apply eq_None_not_Some. rewrite Hrange. lia. }
  constructor; simpl.
  - intros e'. rewrite elem_of_union, elem_of_singleton, Hdom.
    destruct (decide (e = e')) as [<-|Hne].
    + rewrite lookup_insert_eq. split; eauto.
    + rewrite lookup_insert_ne by done. split; [intros [?|?]; [congruence|done] | auto].
  - intros e' i. destruct (decide (e = e')) as [<-|Hne].
    + rewrite lookup_insert_eq. split.
      * intros [= <-]. by rewrite lookup_insert_eq.
      * destruct (decide (eid_ kg = i)) as [<-|Hni]; [done|].
        rewrite lookup_insert_ne by done. intros H%Hinv. congruence.
    + rewrite lookup_insert_ne by done.
      destruct (decide (eid_ kg = i)) as [<-|Hni].
      * rewrite lookup_insert_eq. split; [|congruence].
        intros H%Hinv. congruence.
      * rewrite lookup_insert_ne by done. apply Hinv.
  - intros i. destruct (decide (eid_ kg = i)) as [<-|Hni].
    + rewrite lookup_insert_eq. split; [lia|eauto].
    + rewrite lookup_insert_ne by done. rewrite Hrange. lia.
  - rewrite size_union by set_solver. rewrite size_singleton. lia.
Qed.

Lemma record_entity_fields (kg : KnowledgeGraph) (e : string) :
  triples_ (record_entity kg e) = triples_ kg /\
  entities_ (record_entity kg e) = {[e]} ∪ entities_ kg /\
  number_of_triples_ (record_entity kg e) = number_of_triples_ kg /\
  class_ (record_entity kg e) = class_ kg /\
  entity_value_ (record_entity kg e) = entity_value_ kg /\
  triple_value_ (record_entity kg e) = triple_value_ kg.
Proof.
  unfold record_entity, has_entity. case_bool_decide; simpl; repeat split; try done.
  set_solver.
Qed.

Lemma entities_add_triple (kg : KnowledgeGraph) (e1 r e2 : string) :
  has_triple kg (e1, r, e2) = false ->
  entities_ (add_triple kg (e1, r, e2)) = {[e1; e2]} ∪ entities_ kg.
Proof.
  intros Hh. unfold add_triple. rewrite Hh. simpl.
  destruct (record_entity_fields (record_entity kg e1) e2) as (_ & -> & _).
  destruct (record_entity_fields kg e1) as (_ & -> & _). set_solver.
Qed.

Lemma KG_wf_init (cls : KGClass) : KG_wf (KG_init cls).
Proof.
  constructor; [constructor|..]; simpl.
  - intros e. rewrite lookup_empty. split; [set_solver | intros [? [=]]].
  - intros e i. rewrite !lookup_empty. done.
  - intros i. rewrite lookup_empty. split; [intros [? [=]] | lia].
  - done.
  - intros e. split; [set_solver|]. intros (t & Ht & _). by rewrite triples_init in Ht.
  - by rewrite triples_init.
  - intros e1 d. by rewrite lookup_empty.
Qed.

Lemma KG_wf_add_triple (kg : KnowledgeGraph) (t : triple) :
  KG_wf kg -> KG_wf (add_triple kg t).
Proof.
  intros Hwf. destruct (has_triple kg t) eqn:Hh.
  { destruct t as [[e1 r] e2]. unfold add_triple. by rewrite Hh. }
  destruct Hwf as [Hids Hent Hcount Hobj].
  constructor.
  - destruct t as [[e1 r] e2]. unfold add_triple. rewrite Hh.
    pose proof (ids_wf_record_entity _ e2 (ids_wf_record_entity _ e1 Hids)) as [H1 H2 H3 H4].
    constructor; simpl; done.
  - intros e. rewrite triples_add_triple. destruct t as [[e1 r] e2].
    rewrite entities_add_triple by done. rewrite elem_of_union, Hent. split.
    + intros [He | (t & Ht & Hor)].
      * exists (e1, r, e2). split; [set_solver|]. simpl. set_solver.
      * exists t. split; [set_solver | done].
    + intros (t & [Ht%elem_of_singleton | Ht]%elem_of_union & Hor).
      * subst t. simpl in Hor. left. set_solver.
      * right. eauto.
  - rewrite triples_add_triple. rewrite size_union.
    + rewrite size_singleton. destruct t as [[e1 r] e2]. unfold add_triple.
      rewrite Hh. simpl.
      destruct (record_entity_fields (record_entity kg e1) e2) as (_ & _ & -> & _).
      destruct (record_entity_fields kg e1) as (_ & _ & -> & _). lia.
    + apply disjoint_singleton_l. rewrite elem_of_triples. congruence.
  - destruct t as [[e1 r] e2]. unfold add_triple. rewrite Hh. simpl.
    destruct (record_entity_fields (record_entity kg e1) e2) as (-> & _).
    destruct (record_entity_fields kg e1) as (-> & _).
    intros e1' d. destruct (decide (e1 = e1')) as [<-|Hne].
    + rewrite lookup_insert_eq. intros [= <-]. split.
      * apply insert_non_empty.
      * intros r' s. destruct (decide (r = r')) as [<-|Hner].
        -- rewrite lookup_insert_eq. intros [= <-]. set_solver.
        -- rewrite lookup_insert_ne by done.
           destruct (triples_ kg !! e1) as [d0|] eqn:Hd0; simpl.
           ++ intros Hs. eapply Hobj; eauto.
           ++ by rewrite lookup_empty.
    + rewrite lookup_insert_ne by done. apply Hobj.
Qed.

Lemma KG_wf_foldl (kg : KnowledgeGraph) (ts : list triple) :
  KG_wf kg -> KG_wf (foldl add_triple kg ts).
Proof.
  revert kg. induction ts as [|t ts IH]; intros kg Hwf; simpl; [done|].
  apply IH. by apply KG_wf_add_triple.
Qed.

Lemma KG_wf_of_list (cls : KGClass) (ts : list triple) : KG_wf (KG_of_list cls ts).
Proof. apply KG_wf_foldl, KG_wf_init. Qed.

Lemma triples_foldl (kg : KnowledgeGraph) (ts : list triple) :
  triples (foldl add_triple kg ts) = list_to_set ts ∪ triples kg.
Proof.
  revert kg. induction ts as [|t ts IH]; intros kg; simpl; [set_solver|].
  rewrite IH, triples_add_triple. set_solver.
Qed.

Lemma triples_of_list (cls : KGClass) (ts : list triple) :
  triples (KG_of_list cls ts) = list_to_set ts.
Proof. unfold KG_of_list. rewrite triples_foldl, triples_init. set_solver. Qed.

(** ** Claim C8: the traversal scenario *)

Lemma answer_query_excludes_topic (KG : KnowledgeGraph) (query : Query) :
  TopicEntityMid (Parse_ query) ∉ answer_query KG query.
Proof. unfold answer_query. set_solver. Qed.

(** C8: on the graph {(A,friend,B), (B,friend,C), (B,age,30)} the query
    with topic A and chain [friend, friend] has answer {C}. The candidates
    of the first hop are {B}; [answer_query] filters them with the
    constraints whose [SourceNodeIndex] is the position of that hop in the
    chain, 0: the constraint (age, 30) on B keeps the answer {C}, and
    (age, 31) empties it. (A constraint at index 1 is evaluated against the
    candidates of the second relation, {C}, which has no age edge.) The
    answer of any query on any graph excludes the topic entity. *)
Theorem answer_query_friends_scenario :
  answer_query friends_graph (friends_query []) = {["C"]} /\
  answer_query friends_graph (friends_query [age_constraint 0 "30"]) = {["C"]} /\
  answer_query friends_graph (friends_query [age_constraint 0 "31"]) = ∅ /\
  answer_query friends_graph (friends_query [age_constraint 1 "30"]) = ∅ /\
  answer_query friends_graph (friends_query [age_constraint 1 "31"]) = ∅ /\
  (forall (KG : KnowledgeGraph) (query : Query),
     TopicEntityMid (Parse_ query) ∉ answer_query KG query).
Proof.
  split; [vm_compute; reflexivity|].
  split; [vm_compute; reflexivity|].
  split; [vm_compute; reflexivity|].
  split; [vm_compute; reflexivity|].
  split; [vm_compute; reflexivity|].
  apply answer_query_excludes_topic.
Qed.

(** ** Claim C1: the transition matrix *)

(** C1 fails on the code: [transition_matrix] inverts the entries of the
    degree matrix before scipy sums them, so [D] holds the out-degrees and
    not their inverses. On the graph {(a,r,b), (a,r,c)} (identifiers a=0,
    b=1, c=2) the entries of column 0 are 2 and its sum is 4, where
    [A^T · D^-1] has 1/2 and sum 1. *)
Theorem transition_matrix_fork_graph :
  exists M T : spmatrix,
    transition_matrix fork_graph = Ok M /\
    column_stochastic_transition fork_graph = Ok T /\
    map_to_list (data M) = [((2, 0), Fin 2); ((1, 0), Fin 2)] /\
    map_to_list (data T) = [((2, 0), Fin (1 # 2)); ((1, 0), Fin (1 # 2))] /\
    column_sum M 0 = Fin 4 /\
    column_sum T 0 = Fin 1.
Proof.
  eexists _, _. split; [vm_compute; reflexivity|].
  split; [vm_compute; reflexivity|].
  repeat split; vm_compute; reflexivity.
Qed.

(** ** Claim C9: generated queries replay to their recorded answers *)

Lemma constraints_at_none (cs : list Constraint) (index : nat) :
  Forall (fun c => S index <= SourceNodeIndex c) cs -> constraints_at cs index = [].
Proof.
  unfold constraints_at. induction 1 as [|c cs Hc _ IH]; [done|].
  rewrite filter_cons_False by lia. exact IH.
Qed.

Lemma mapM_R_Ok_fmap {A B C} (f : A -> Result B) (h : B -> C) (k : A -> C)
    (l : list A) (bs : list B) :
  (forall a b, f a = Ok b -> h b = k a) ->
  mapM_R f l = Ok bs -> h <$> bs = k <$> l.
Proof.
  intros Hf. revert bs. induction l as [|a l IH]; intros bs; simpl.
  - by intros [= <-].
  - intros (b & Hb & (bs' & Hbs & [= <-])%bind_Ok)%bind_Ok.
    simpl. f_equal; [by apply Hf | by apply IH].
Qed.

Lemma generate_loop_replay (KG : KnowledgeGraph) (entity_names : gmap string string)
    (exclude_preds inferential_chain : list string) (constraint_index : option nat)
    (chain : list string) :
  forall (index : nat) (result : gset string) (cs : list Constraint) (g : RNG)
         (result' : gset string) (cs' : list Constraint) (g' : RNG),
    generate_loop KG entity_names exclude_preds inferential_chain constraint_index
      index chain result cs g = Ok (result', cs', g') ->
    exists new : list Constraint,
      cs' = (cs ++ new)%list /\
      Forall (fun c => index <= SourceNodeIndex c) new /\
      forall C : list Constraint,
        (forall i, index <= i -> constraints_at C i = constraints_at new i) ->
        answer_loop KG C index chain result = result'.
Proof.
  induction chain as [|predicate chain IH];
    intros index result cs g result' cs' g'; simpl.
  - intros [= <- <- <-]. exists []. rewrite app_nil_r. auto.
  - intros ([[cand cs1] g1] & Hstep & Hrest)%bind_Ok.
    apply IH in Hrest as (new' & -> & Hnew' & Hreplay).
    set (candidates := hop KG result predicate) in *.
    assert (Hcase :
      (cs1 = cs /\ cand = candidates) \/
      (exists c, cs1 = (cs ++ [c])%list /\ SourceNodeIndex c = index /\
         cand = candidates ∖ removed_by KG (NodePredicate c) (Argument c) candidates)).
    { destruct (negb (bool_decide (candidates = ∅)) &&
                bool_decide (constraint_index = Some index)); [|left; by injection Hstep as <- <- _].
      apply bind_Ok in Hstep as ([entity g2] & _ & Hstep).
      destruct (match triples_ KG !! entity with
                | Some d => filter _ (keys d) | None => [] end) as [|p0 ps];
        [left; by injection Hstep as <- <- _|].
      apply bind_Ok in Hstep as ([pred g3] & _ & Hstep).
      apply bind_Ok in Hstep as (d & _ & Hstep).
      apply bind_Ok in Hstep as (objs & _ & Hstep).
      destruct (bool_decide (objs = ∅)); [left; by injection Hstep as <- <- _|].
      apply bind_Ok in Hstep as ([argument g4] & _ & Hstep).
      injection Hstep as <- <- _. right. eexists. split; [done|]. by split. }
    destruct Hcase as [[-> ->] | (c & -> & Hc & ->)].
    + exists new'. split; [done|]. split.
      { eapply Forall_impl; [exact Hnew'|]. simpl. lia. }
      intros C HC. rewrite HC by lia. rewrite constraints_at_none by done. simpl.
      replace (candidates ∖ ∅) with candidates by set_solver.
      apply Hreplay. intros i Hi. apply HC. lia.
    + exists (c :: new'). split; [by rewrite <- app_assoc|]. split.
      { constructor; [lia|]. eapply Forall_impl; [exact Hnew'|]. simpl. lia. }
      intros C HC. rewrite HC by lia. unfold constraints_at at 1.
      rewrite filter_cons_True by done. fold (constraints_at new' index).
      rewrite constraints_at_none by done. simpl.
      replace (∅ ∪ removed_by KG (NodePredicate c) (Argument c) candidates)
        with (removed_by KG (NodePredicate c) (Argument c) candidates) by set_solver.
      apply Hreplay. intros i Hi. rewrite HC by lia. unfold constraints_at.
      rewrite filter_cons_False by lia. done.
Qed.

(** C9: whenever [generate_query] returns a query, answering that query on
    the same graph gives exactly the recorded answer arguments -- for every
    graph, topic, chain length, constraint position and random draws. *)
Theorem generate_query_answer_consistent (KG : KnowledgeGraph) (topic_mid : string)
    (chain_len : nat) (qid : string) (entity_names : gmap string string)
    (constraint_index : option nat) (exclude_preds : list string) (g : RNG)
    (query : Query) :
  generate_query KG topic_mid chain_len qid entity_names constraint_index
    exclude_preds g = Ok query ->
  answer_query KG query = list_to_set (AnswerArgument <$> Answers (Parse_ query)).
Proof.
  unfold generate_query.
  intros ([chain g1] & _ & ([[result cs] g2] & Hloop & (answers & Hans & [= <-])%bind_Ok)%bind_Ok)%bind_Ok.
  apply generate_loop_replay in Hloop as (new & Hcs & _ & Hreplay).
  simpl in Hcs. subst cs. unfold answer_query. simpl.
  rewrite (Hreplay new) by done.
  assert (Harg : AnswerArgument <$> answers = id <$> elements (result ∖ {[topic_mid]})).
  { eapply mapM_R_Ok_fmap; [|exact Hans].
    intros a b (bb & _ & [= <-])%bind_Ok. done. }
  rewrite Harg, list_fmap_id. apply set_eq. intros x.
  rewrite elem_of_list_to_set, elem_of_elements. done.
Qed.

Lemma generate_query_answer_consistent_witness :
  exists query : Query,
    generate_query friends_yago "A" 2 "0" ∅ (Some 0) [] [0; 0; 1; 0; 0; 0; 0] = Ok query /\
    Constraints (Parse_ query) = [mkConstraint 0 "age" "30" "B"] /\
    answer_query friends_yago query
    = list_to_set (AnswerArgument <$> Answers (Parse_ query)).
Proof.
  eexists. split; [vm_compute; reflexivity|]. split; [reflexivity|].
  apply (generate_query_answer_consistent friends_yago "A" 2 "0" ∅ (Some 0) []
           [0; 0; 1; 0; 0; 0; 0]).
  vm_compute. reflexivity.
Defined.

(** ** Arithmetic of the float model *)

Lemma nonneg_zero : nonneg zero.
Proof. exists 0%Q. split; [done|]. apply Qle_refl. Qed.

Lemma nonneg_one : nonneg one.
Proof. exists 1%Q. split; [done|]. discriminate. Qed.

Lemma nonneg_add (x y : float) : nonneg x -> nonneg y -> nonneg (add x y).
Proof.
  intros (a & -> & Ha) (b & -> & Hb). eexists. split; [reflexivity|].
  rewrite Qred_correct. lra.
Qed.

Lemma nonneg_mul (x y : float) : nonneg x -> nonneg y -> nonneg (mul x y).
Proof.
  intros (a & -> & Ha) (b & -> & Hb). eexists. split; [reflexivity|].
  rewrite Qred_correct. by apply Qmult_le_0_compat.
Qed.

Lemma nonneg_of_nat (n : nat) : nonneg (of_nat n).
Proof.
  eexists. split; [reflexivity|]. unfold Qle. simpl. lia.
Qed.

Lemma Qis0_false (q : Q) : ~ (q == 0)%Q -> Qis0 q = false.
Proof.
  intros H. unfold Qis0. destruct (Qeq_bool q 0) eqn:E; [|done].
  apply Qeq_bool_iff in E. contradiction.
Qed.

Lemma Qis0_true (q : Q) : (q == 0)%Q -> Qis0 q = true.
Proof. intros H. unfold Qis0. by apply Qeq_bool_iff. Qed.


Lemma positive_nonneg (x : float) : positive_float x -> nonneg x.
Proof. intros (q & -> & Hq). exists q. split; [done|]. lra. Qed.

Lemma positive_add_l (x y : float) :
  positive_float x -> nonneg y -> positive_float (add x y).
Proof.
  intros (a & -> & Ha) (b & -> & Hb). eexists. split; [reflexivity|].
  rewrite Qred_correct. lra.
Qed.

Lemma positive_add_r (x y : float) :
  nonneg x -> positive_float y -> positive_float (add x y).
Proof.
  intros (a & -> & Ha) (b & -> & Hb). eexists. split; [reflexivity|].
  rewrite Qred_correct. lra.
Qed.

Lemma positive_mul (x y : float) :
  positive_float x -> positive_float y -> positive_float (mul x y).
Proof.
  intros (a & -> & Ha) (b & -> & Hb). eexists. split; [reflexivity|].
  rewrite Qred_correct. by apply Qmult_lt_0_compat.
Qed.

Lemma nonneg_div (x y : float) :
  nonneg x -> positive_float y -> nonneg (div x y).
Proof.
  intros (a & -> & Ha) (b & -> & Hb). simpl.
  rewrite Qis0_false by lra. eexists. split; [reflexivity|].
  rewrite Qred_correct. apply Qle_shift_div_l; lra.
Qed.

Lemma positive_div (x y : float) :
  positive_float x -> positive_float y -> positive_float (div x y).
Proof.
  intros (a & -> & Ha) (b & -> & Hb). simpl.
  rewrite Qis0_false by lra. eexists. split; [reflexivity|].
  rewrite Qred_correct. apply Qlt_shift_div_l; lra.
Qed.

Lemma mul_zero_r (x : float) : is_finite x -> mul x zero = zero.
Proof.
  intros [q ->]. unfold zero. simpl. change 0%Q with (Qred 0) at 2.
  f_equal. apply Qred_complete. ring.
Qed.

Lemma div_zero_l (y : float) : positive_float y -> div zero y = zero.
Proof.
  intros (b & -> & Hb). unfold zero. simpl. rewrite Qis0_false by lra.
  reflexivity.
Qed.

Lemma nonneg_finite (x : float) : nonneg x -> is_finite x.
Proof. intros (q & -> & _). by exists q. Qed.

Lemma nonneg_foldl_add (l : list float) (x : float) :
  nonneg x -> Forall nonneg l -> nonneg (foldl add x l).
Proof.
  intros Hx Hl. revert x Hx. induction Hl as [|y l Hy _ IH]; intros x Hx; simpl; [done|].
  apply IH. by apply nonneg_add.
Qed.

Lemma positive_foldl_add (l : list float) (x : float) :
  positive_float x -> Forall nonneg l -> positive_float (foldl add x l).
Proof.
  intros Hx Hl. revert x Hx. induction Hl as [|y l Hy _ IH]; intros x Hx; simpl; [done|].
  apply IH. by apply positive_add_l.
Qed.

Lemma positive_sum (l : list float) :
  Forall nonneg l -> Exists positive_float l -> positive_float (sum l).
Proof.
  unfold sum. intros Hl Hex. generalize nonneg_zero. generalize zero as x.
  induction Hl as [|y l Hy Hl IH]; intros x Hx; [by apply Exists_nil in Hex|].
  simpl. apply Exists_cons in Hex as [Hpos|Hex].
  - apply positive_foldl_add; [by apply positive_add_r | done].
  - apply IH; [done | by apply nonneg_add].
Qed.

Lemma foldl_add_zero (l : list float) :
  Forall (fun x => x = zero) l -> foldl add zero l = zero.
Proof.
  induction 1 as [|y l -> _ IH]; simpl; [done|]. exact IH.
Qed.

(** ** The value model *)

Lemma foldM_app {A B} (f : B -> A -> Result B) (b : B) (l1 l2 : list A) :
  foldM f b (l1 ++ l2) = foldM f b l1 ≫= fun b' => foldM f b' l2.
Proof.
  revert b. induction l1 as [|a l1 IH]; intros b; simpl; [done|].
  destruct (f b a) as [b'|e]; simpl; [apply IH | done].
Qed.

Lemma mapM_R_Ok {A B} (f : A -> Result B) (g : A -> B) (l : list A) :
  (forall a, a ∈ l -> f a = Ok (g a)) -> mapM_R f l = Ok (g <$> l).
Proof.
  induction l as [|a l IH]; intros H; simpl; [done|].
  rewrite H by left. simpl. rewrite IH; [done|]. intros a' Ha'. apply H. by right.
Qed.

Lemma wf_id_lt (kg : KnowledgeGraph) (e : string) (i : nat) :
  ids_wf kg -> entity_id_ kg !! e = Some i -> i < eid_ kg.
Proof.
  intros [_ Hinv Hrange _] H. apply Hrange. apply Hinv in H. eauto.
Qed.

Lemma wf_number_of_entities (kg : KnowledgeGraph) :
  ids_wf kg -> number_of_entities kg = eid_ kg.
Proof. intros [_ _ _ H]. exact H. Qed.

Lemma wf_triple_ids (kg : KnowledgeGraph) (e1 r e2 : string) :
  KG_wf kg -> (e1, r, e2) ∈ triple_list kg ->
  exists i j, entity_id_ kg !! e1 = Some i /\ entity_id_ kg !! e2 = Some j /\
              i < eid_ kg /\ j < eid_ kg.
Proof.
  intros [Hids Hent _ _] Hin.
  assert (Ht : (e1, r, e2) ∈ triples kg) by (unfold triples; by apply elem_of_list_to_set).
  assert (H1 : e1 ∈ entities_ kg) by (apply Hent; exists (e1, r, e2); auto).
  assert (H2 : e2 ∈ entities_ kg) by (apply Hent; exists (e1, r, e2); auto).
  apply (wf_entity_dom _ Hids) in H1 as [i Hi].
  apply (wf_entity_dom _ Hids) in H2 as [j Hj].
  exists i, j. split; [done|]. split; [done|]. split; eapply wf_id_lt; eauto.
Qed.

(** A list that tabulates a function on 0 .. n-1. *)
Lemma tabulate_lookup {A} (f : nat -> A) (n i : nat) :
  i < n -> (f <$> seq 0 n) !! i = Some (f i).
Proof. intros Hi. rewrite list_lookup_fmap, lookup_seq_lt by done. done. Qed.

Lemma tabulate_insert {A} (f : nat -> A) (n i : nat) (a : A) :
  <[i := a]> (f <$> seq 0 n) = (fun k => if decide (k = i) then a else f k) <$> seq 0 n.
Proof.
  apply list_eq. intros k. destruct (decide (k < n)) as [Hk|Hk].
  - rewrite tabulate_lookup by done. destruct (decide (k = i)) as [->|Hne].
    + rewrite list_lookup_insert_eq; [done|]. by rewrite length_fmap, length_seq.
    + rewrite list_lookup_insert_ne by done. by rewrite tabulate_lookup.
  - rewrite !lookup_ge_None_2; [done| |].
    + rewrite length_fmap, length_seq. lia.
    + rewrite length_insert, length_fmap, length_seq. lia.
Qed.

Lemma tabulate_ext {A} (f g : nat -> A) (n : nat) :
  (forall i, i < n -> f i = g i) -> f <$> seq 0 n = g <$> seq 0 n.
Proof.
  intros H. apply list_fmap_ext. intros i x Hx.
  apply lookup_seq in Hx as [-> Hlt]. apply H. lia.
Qed.

Lemma tabulate_zip_with {A} (h : A -> A -> A) (f g : nat -> A) (n : nat) :
  zip_with h (f <$> seq 0 n) (g <$> seq 0 n) = (fun i => h (f i) (g i)) <$> seq 0 n.
Proof.
  generalize 0. induction n as [|n IH]; intros k; simpl; [done|]. by rewrite IH.
Qed.

Lemma tabulate_replicate {A} (a : A) (n : nat) :
  replicate n a = (fun _ => a) <$> seq 0 n.
Proof.
  generalize 0. induction n as [|n IH]; intros k; simpl; [done|]. by rewrite <- IH.
Qed.

(** [sp_matvec], coordinate by coordinate. *)
Lemma sp_matvec_row_dot (M : spmatrix) (q : vec) (n : nat) :
  shape M = (n, n) ->
  (forall k v, data M !! k = Some v -> k.2 < n) ->
  sp_matvec M (q <$> seq 0 n) = Ok (row_dot M q <$> seq 0 n).
Proof.
  intros Hshape Hrange. unfold sp_matvec. rewrite Hshape. simpl.
  rewrite length_fmap, length_seq. rewrite decide_True by done. f_equal.
  unfold row_dot. rewrite tabulate_replicate.
  assert (Hl : forall kv, kv ∈ map_to_list (data M) -> kv.1.2 < n).
  { intros [k v] Hkv%elem_of_map_to_list. simpl. eauto. }
  revert Hl. generalize (map_to_list (data M)) as l. intros l Hl.
  enough (Hgen : forall g : nat -> float,
    foldl (fun y '(i, j, v) =>
             <[i := add (default zero (y !! i))
                        (mul v (default zero ((q <$> seq 0 n) !! j)))]> y)
          (g <$> seq 0 n) l
    = (fun i => foldl add (g i)
                  ((fun kv => mul kv.2 (q kv.1.2))
                     <$> filter (fun kv => kv.1.1 = i) l)) <$> seq 0 n)
    by apply Hgen.
  induction l as [|[[i j] v] l IH]; intros g; simpl; [done|].
  assert (Hj : j < n) by (apply (Hl ((i, j), v)); left).
  rewrite tabulate_insert. rewrite IH by (intros kv Hkv; apply Hl; by right).
  apply tabulate_ext. intros k Hk. destruct (decide (k = i)) as [->|Hne].
  - rewrite filter_cons_True by done. simpl.
    rewrite !tabulate_lookup by done. done.
  - rewrite filter_cons_False by (simpl; congruence). done.
Qed.

Lemma sp_accum_Forall (Q : nat * nat -> float -> Prop)
    (m : gmap (nat * nat) float) (i j : nat) (v : float) :
  (forall k u w, Q k u -> Q k w -> Q k (add u w)) ->
  map_Forall Q m -> Q (i, j) v -> map_Forall Q (sp_accum m i j v).
Proof.
  intros Hadd Hm Hv. unfold sp_accum. destruct (m !! (i, j)) as [u|] eqn:Hu.
  - apply map_Forall_insert_2; [|done]. apply Hadd; [|done]. by apply (Hm (i, j)).
  - by apply map_Forall_insert_2.
Qed.

Lemma foldl_sp_accum_Forall (Q : nat * nat -> float -> Prop)
    (coo : list (nat * nat * float)) (m : gmap (nat * nat) float) :
  (forall k u w, Q k u -> Q k w -> Q k (add u w)) ->
  map_Forall Q m -> Forall (fun e => Q e.1 e.2) coo ->
  map_Forall Q (foldl (fun m '(i, j, v) => sp_accum m i j v) m coo).
Proof.
  intros Hadd Hm Hcoo. revert m Hm.
  induction Hcoo as [|[[i j] v] coo Hv _ IH]; intros m Hm; simpl; [done|].
  apply IH. by apply sp_accum_Forall.
Qed.

Lemma coo_to_csr_Ok (n : nat) (coo : list (nat * nat * float)) :
  Forall (fun e => e.1.1 < n /\ e.1.2 < n) coo ->
  coo_to_csr n coo
  = Ok (mkSp (n, n) (foldl (fun m '(i, j, v) => sp_accum m i j v) ∅ coo)).
Proof.
  intros H. unfold coo_to_csr.
  assert (Hb : forallb (fun '(i, j, _) => (i <? n) && (j <? n)) coo = true).
  { apply forallb_forall. intros [[i j] v] Hin%list_elem_of_In.
    rewrite Forall_forall in H. destruct (H _ Hin) as [Hi Hj]. simpl in *.
    apply andb_true_intro. split; by apply Nat.ltb_lt. }
  by rewrite Hb.
Qed.

Lemma sp_matmul_Forall (X Y : spmatrix) (QX QY Q : nat * nat -> float -> Prop) :
  (shape X).2 = (shape Y).1 ->
  map_Forall QX (data X) -> map_Forall QY (data Y) ->
  (forall i k j a b, QX (i, k) a -> QY (k, j) b -> Q (i, j) (mul a b)) ->
  (forall k u w, Q k u -> Q k w -> Q k (add u w)) ->
  exists M, sp_matmul X Y = Ok M /\ shape M = ((shape X).1, (shape Y).2) /\
            map_Forall Q (data M).
Proof.
  intros Hshape HX HY Hmul Hadd. unfold sp_matmul. rewrite decide_True by done.
  eexists. split; [reflexivity|]. split; [reflexivity|]. simpl.
  apply map_Forall_to_list in HX. apply map_Forall_to_list in HY.
  revert HX HY. generalize (map_to_list (data X)) as lx.
  generalize (map_to_list (data Y)) as ly. intros ly lx HX HY.
  assert (Hempty : map_Forall Q (∅ : gmap (nat * nat) float)) by apply map_Forall_empty.
  revert Hempty. generalize (∅ : gmap (nat * nat) float) as acc.
  induction HX as [|[[i k] a] lx Ha _ IH]; intros acc Hacc; simpl; [done|].
  apply IH. clear IH. revert acc Hacc.
  induction HY as [|[[k' j] b] ly Hb _ IH]; intros acc Hacc; simpl; [done|].
  apply IH. destruct (decide (k = k')) as [<-|]; [|done].
  apply sp_accum_Forall; [done|done|]. by eapply Hmul.
Qed.

Lemma transition_matrix_ok (KG : KnowledgeGraph) :
  KG_wf KG ->
  exists T, transition_matrix KG = Ok T /\
    shape T = (number_of_entities KG, number_of_entities KG) /\
    map_Forall (fun k v => nonneg v /\ id_edge KG k.2 k.1 /\
                           k.1 < number_of_entities KG /\
                           k.2 < number_of_entities KG) (data T).
Proof.
  intros Hwf. set (n := number_of_entities KG).
  assert (Hn : n = eid_ KG) by apply wf_number_of_entities, Hwf.
  set (id := fun e => default 0 (entity_id_ KG !! e)).
  assert (Hid : forall e1 r e2, (e1, r, e2) ∈ triple_list KG ->
            entity_id KG e1 = Ok (id e1) /\ entity_id KG e2 = Ok (id e2) /\
            id e1 < n /\ id e2 < n /\ id_edge KG (id e1) (id e2)).
  { intros e1 r e2 Hin. destruct (wf_triple_ids _ _ _ _ Hwf Hin) as (i & j & Hi & Hj & Hlti & Hltj).
    unfold entity_id, id. rewrite Hi, Hj. simpl. repeat split; try lia.
    exists e1, r, e2. split; [|done]. unfold triples. by apply elem_of_list_to_set. }
  assert (HA : csr_matrix KG
               = Ok (mkSp (n, n)
                       (foldl (fun m '(i, j, v) => sp_accum m i j v) ∅
                          ((fun t : triple => (id t.1.1, id t.2, one)) <$> triple_list KG)))).
  { unfold csr_matrix.
    rewrite (mapM_R_Ok _ (fun t => (id t.1.1, id t.2, one))).
    2:{ intros [[e1 r] e2] Hin. destruct (Hid _ _ _ Hin) as (-> & -> & _). done. }
    simpl. rewrite coo_to_csr_Ok; [done|].
    apply Forall_fmap, Forall_forall. intros [[e1 r] e2] Hin. simpl.
    destruct (Hid _ _ _ Hin) as (_ & _ & ? & ? & _). done. }
  unfold transition_matrix. rewrite HA.
  rewrite (mapM_R_Ok _ (fun t => (id t.1.1, id t.1.1, div one one))).
  2:{ intros [[e1 r] e2] Hin. destruct (Hid _ _ _ Hin) as (-> & _). done. }
  simpl. rewrite coo_to_csr_Ok.
  2:{ apply Forall_fmap, Forall_forall. intros [[e1 r] e2] Hin. simpl.
      destruct (Hid _ _ _ Hin) as (_ & _ & ? & _). done. }
  simpl.
  match goal with |- context [sp_matmul ?X ?Y] =>
    destruct (sp_matmul_Forall X Y
      (fun k v => nonneg v /\ id_edge KG k.2 k.1 /\ k.1 < n /\ k.2 < n)
      (fun k v => nonneg v /\ k.1 = k.2)
      (fun k v => nonneg v /\ id_edge KG k.2 k.1 /\ k.1 < n /\ k.2 < n))
      as (M & HM & Hsh & HQ)
  end.
  - done.
  - simpl. intros k v Hk. rewrite <- (cancel prod_swap prod_swap k) in Hk.
    rewrite lookup_kmap in Hk; [|apply _].
    assert (Hall : map_Forall
              (fun k v => nonneg v /\ id_edge KG k.1 k.2 /\ k.2 < n /\ k.1 < n)
              (foldl (fun m '(i, j, v) => sp_accum m i j v) ∅
                 ((fun t : triple => (id t.1.1, id t.2, one)) <$> triple_list KG))).
    { apply foldl_sp_accum_Forall.
      + intros k0 u w (Hu & ?) (Hw & _). split; [by apply nonneg_add | done].
      + apply map_Forall_empty.
      + apply Forall_fmap, Forall_forall. intros [[e1 r] e2] Hin. simpl.
        destruct (Hid _ _ _ Hin) as (_ & _ & ? & ? & ?). split; [apply nonneg_one | done]. }
    specialize (Hall _ _ Hk). destruct k as [k1 k2]. simpl in *. done.
  - simpl. apply (foldl_sp_accum_Forall (fun k v => nonneg v /\ k.1 = k.2)).
    + intros k0 u w (Hu & ?) (Hw & _). split; [by apply nonneg_add | done].
    + apply map_Forall_empty.
    + apply Forall_fmap, Forall_forall. intros [[e1 r] e2] Hin. simpl.
      split; [|done]. exists 1%Q. split; [reflexivity | discriminate].
  - simpl. intros i k j a b (Ha & Hedge & Hi & Hk) (Hb & Hkj). simpl in *. subst j.
    split; [by apply nonneg_mul | done].
  - intros k0 u w (Hu & ?) (Hw & _). split; [by apply nonneg_add | done].
  - exists M. split; [exact HM|]. split; [exact Hsh | exact HQ].
Qed.

Lemma Qred_inject_Z (z : Z) : Qred (inject_Z z) = inject_Z z.
Proof. apply Qcanon.Qred_iff. simpl. apply Z.gcd_1_r. Qed.

Lemma add_of_nat_one (k : nat) : add (of_nat k) one = of_nat (S k).
Proof.
  unfold of_nat, one. simpl. f_equal.
  rewrite <- (Qred_inject_Z (Z.of_nat (S k))). apply Qred_complete.
  rewrite Nat2Z.inj_succ. unfold Z.succ. rewrite inject_Z_plus. reflexivity.
Qed.

Lemma query_vector_ok (KG : KnowledgeGraph) (query_log : list Query) :
  ids_wf KG ->
  Forall (fun query => topic query ∈ entities KG) query_log ->
  query_vector KG query_log
  = Ok (seed_vector KG query_log <$> seq 0 (number_of_entities KG)).
Proof.
  intros Hids Hlog. unfold query_vector, seed_vector.
  set (n := number_of_entities KG).
  enough (Hgen : forall c : nat -> nat,
    foldM (fun x query =>
             topic_eid ← of_option KeyError (entity_id_ KG !! topic query);
             match x !! topic_eid with
             | Some v => Ok (<[topic_eid := add v one]> x)
             | None => Err IndexError
             end)
          ((fun i => of_nat (c i)) <$> seq 0 n) query_log
    = Ok ((fun i => of_nat (c i + length (filter
             (fun query => entity_id_ KG !! topic query = Some i) query_log)))
          <$> seq 0 n)).
  { rewrite tabulate_replicate. apply (Hgen (fun _ => 0)). }
  induction Hlog as [|query l Hq _ IH]; intros c; simpl.
  - f_equal. apply tabulate_ext. intros i _. f_equal. lia.
  - apply (wf_entity_dom _ Hids) in Hq as [i Hi].
    assert (Hlt : i < n).
    { unfold n. rewrite (wf_number_of_entities _ Hids). by eapply wf_id_lt. }
    rewrite Hi. simpl.
    rewrite tabulate_lookup by done. rewrite tabulate_insert.
    rewrite add_of_nat_one.
    erewrite (tabulate_ext _ (fun k => of_nat ((if decide (k = i) then S (c k) else c k)))).
    2:{ intros k _. by destruct (decide (k = i)) as [->|]. }
    etrans; [exact (IH (fun k => if decide (k = i) then S (c k) else c k))|].
    f_equal. apply tabulate_ext. intros k _. f_equal.
    destruct (decide (k = i)) as [->|Hne].
    + rewrite filter_cons_True by done. simpl. lia.
    + rewrite filter_cons_False by congruence. done.
Qed.

Lemma rwr_loop_walk_iter (M : spmatrix) (c : float) (n power : nat) (q r : vec) :
  shape M = (n, n) ->
  (forall k v, data M !! k = Some v -> k.2 < n) ->
  rwr_loop M c power (q <$> seq 0 n, r <$> seq 0 n)
  = Ok ((walk_iter n M c power (q, r)).1 <$> seq 0 n,
        (walk_iter n M c power (q, r)).2 <$> seq 0 n).
Proof.
  intros Hshape Hrange. revert q r.
  induction power as [|power IH]; intros q r; simpl; [done|].
  rewrite (sp_matvec_row_dot _ _ n); [| done |].
  2:{ intros k v. simpl. rewrite lookup_fmap.
      destruct (data M !! k) as [u|] eqn:Hu; [|done]. intros _. eauto. }
  simpl. rewrite tabulate_zip_with. rewrite <- list_fmap_compose.
  rewrite (IH _ _). done.
Qed.

Lemma imap_pair_tabulate {A} (f : nat -> A) (n : nat) :
  imap pair (f <$> seq 0 n) = (fun i => (i, f i)) <$> seq 0 n.
Proof.
  apply list_eq. intros i. rewrite list_lookup_imap, !list_lookup_fmap.
  destruct (seq 0 n !! i) as [k|] eqn:Hk; simpl; [|done].
  apply lookup_seq in Hk as [-> _]. done.
Qed.

Lemma entity_value_loop (np_log : float -> float) (KG : KnowledgeGraph)
    (f : vec) (tv : gmap triple float) (l : list nat) :
  ids_wf KG -> Forall (fun i => i < eid_ KG) l ->
  forall ev : gmap string float,
    foldM (fun KG '(eid, val) =>
             entity ← id_entity KG eid;
             set_entity_value KG entity (np_log (add val one)))
          (with_values KG ev tv) ((fun i => (i, f i)) <$> l)
    = Ok (with_values KG
            (foldl (fun ev i => <[default "" (id_entity_ KG !! i) :=
                                    np_log (add (f i) one)]> ev) ev l)
            tv).
Proof.
  intros Hids Hl. induction Hl as [|i l Hi _ IH]; intros ev; simpl; [done|].
  apply (wf_id_range _ Hids) in Hi as [e He].
  assert (Hstep : id_entity (with_values KG ev tv) i = Ok e)
    by (unfold id_entity; simpl; by rewrite He).
  rewrite Hstep, He. simpl. exact (IH _).
Qed.

Lemma entity_value_map_lookup (KG : KnowledgeGraph) (val : nat -> float)
    (l : list nat) (e : string) :
  ids_wf KG -> Forall (fun i => i < eid_ KG) l ->
  forall ev : gmap string float,
    foldl (fun ev i => <[default "" (id_entity_ KG !! i) := val i]> ev) ev l !! e
    = match entity_id_ KG !! e with
      | Some i => if decide (i ∈ l) then Some (val i) else ev !! e
      | None => ev !! e
      end.
Proof.
  intros Hids Hl. induction Hl as [|i0 l Hi0 _ IH]; intros ev; simpl.
  - destruct (entity_id_ KG !! e) as [i|]; [|done].
    first [done | case_decide as Hd; [by apply not_elem_of_nil in Hd | done]].
  - rewrite IH. apply (wf_id_range _ Hids) in Hi0 as [e0 He0]. rewrite He0. simpl.
    pose proof (proj2 (wf_id_inverse _ Hids e0 i0) He0) as Hid0.
    destruct (entity_id_ KG !! e) as [i|] eqn:Hi.
    + destruct (decide (i = i0)) as [->|Hne].
      * assert (e = e0) as ->.
        { apply (wf_id_inverse _ Hids) in Hi. congruence. }
        rewrite (decide_True (P := i0 ∈ i0 :: l)) by left.
        destruct (decide (i0 ∈ l)); [done|]. by rewrite lookup_insert_eq.
      * assert (e0 ≠ e) by congruence.
        rewrite lookup_insert_ne by done.
        destruct (decide (i ∈ l)) as [Hin|Hnin].
        -- rewrite decide_True by (by right). done.
        -- rewrite decide_False; [done|]. intros [?|?]%elem_of_cons; done.
    + assert (e0 ≠ e) by congruence. by rewrite lookup_insert_ne.
Qed.

Lemma triple_value_loop (np_log : float -> float) (KG : KnowledgeGraph)
    (x : list float) (id : string -> nat) (f : vec) (ev : gmap string float)
    (l : list triple) :
  Forall (fun t => entity_id_ KG !! t.1.1 = Some (id t.1.1) /\
                   entity_id_ KG !! t.2 = Some (id t.2) /\
                   x !! id t.1.1 = Some (f (id t.1.1)) /\
                   x !! id t.2 = Some (f (id t.2))) l ->
  forall tv : gmap triple float,
    foldM (fun KG '(e1, r, e2) =>
             eid1 ← entity_id KG e1;
             eid2 ← entity_id KG e2;
             v1 ← of_option IndexError (x !! eid1);
             v2 ← of_option IndexError (x !! eid2);
             set_triple_value KG (e1, r, e2) (np_log (add (mul v1 v2) one)))
          (with_values KG ev tv) l
    = Ok (with_values KG ev
            (foldl (fun tv t =>
                      <[t := np_log (add (mul (f (id t.1.1)) (f (id t.2))) one)]> tv)
                   tv l)).
Proof.
  intros Hl. induction Hl as [|[[e1 r] e2] l (H1 & H2 & H3 & H4) _ IH]; intros tv;
    simpl in *; [done|].
  assert (Hs1 : entity_id (with_values KG ev tv) e1 = Ok (id e1))
    by (unfold entity_id; simpl; by rewrite H1).
  assert (Hs2 : entity_id (with_values KG ev tv) e2 = Ok (id e2))
    by (unfold entity_id; simpl; by rewrite H2).
  rewrite Hs1, Hs2. simpl. rewrite H3, H4. simpl. exact (IH _).
Qed.

Lemma foldl_insert_lookup {K V} `{Countable K} (h : K -> V) (l : list K) (k : K) :
  forall m : gmap K V,
    foldl (fun m t => <[t := h t]> m) m l !! k
    = if decide (k ∈ l) then Some (h k) else m !! k.
Proof.
  induction l as [|t l IH]; intros m; simpl.
  - first [done | case_decide as Hd; [by apply not_elem_of_nil in Hd | done]].
  - rewrite IH. destruct (decide (k ∈ l)) as [Hin|Hnin].
    + rewrite decide_True by (by right). done.
    + destruct (decide (k = t)) as [->|Hne].
      * rewrite decide_True by left. by rewrite lookup_insert_eq.
      * rewrite lookup_insert_ne by done.
        rewrite decide_False; [done|]. intros [?|?]%elem_of_cons; done.
Qed.

(** [model_user_pref], characterised: on a graph built by insertion and a
    workload whose topics are entities of the graph, it returns the graph
    annotated with the logarithms of the walk vector. *)
Lemma model_user_pref_char (np_log : float -> float) (KG : KnowledgeGraph)
    (query_log : list Query) (power : nat) :
  KG_wf KG ->
  Forall (fun query => topic query ∈ entities KG) query_log ->
  exists (T : spmatrix) (ev : gmap string float) (tv : gmap triple float),
    transition_matrix KG = Ok T /\
    model_user_pref np_log KG query_log power = Ok (with_values KG ev tv) /\
    (forall e, ev !! e
       = match entity_id_ KG !! e with
         | Some i =>
             Some (np_log (add (walk_vector (number_of_entities KG) T c_default
                                  power (seed_vector KG query_log) i) one))
         | None => None
         end) /\
    (forall e1 p e2, tv !! (e1, p, e2)
       = if has_triple KG (e1, p, e2) then
           match entity_id_ KG !! e1, entity_id_ KG !! e2 with
           | Some i, Some j =>
               let r := walk_vector (number_of_entities KG) T c_default power
                          (seed_vector KG query_log) in
               Some (np_log (add (mul (r i) (r j)) one))
           | _, _ => None
           end
         else None).
Proof.
  intros Hwf Hlog. pose proof (wf_ids _ Hwf) as Hids.
  destruct (transition_matrix_ok KG Hwf) as (T & HT & Hshape & HQ).
  set (n := number_of_entities KG) in *.
  assert (Hn : n = eid_ KG) by apply wf_number_of_entities, Hids.
  set (r := walk_vector n T c_default power (seed_vector KG query_log)).
  set (id := fun e => default 0 (entity_id_ KG !! e)).
  exists T.
  exists (foldl (fun ev i => <[default "" (id_entity_ KG !! i) :=
                                 np_log (add (r i) one)]> ev) ∅ (seq 0 n)).
  exists (foldl (fun tv t => <[t := np_log (add (mul (r (id t.1.1)) (r (id t.2))) one)]> tv)
                ∅ (triple_list KG)).
  split; [exact HT|]. split.
  - unfold model_user_pref.
    change (query_vector (reset KG) query_log) with (query_vector KG query_log).
    change (transition_matrix (reset KG)) with (transition_matrix KG).
    rewrite query_vector_ok by done. rewrite HT. simpl.
    unfold random_walk_with_restart. fold n.
    rewrite <- list_fmap_compose.
    rewrite (rwr_loop_walk_iter T c_default n power) by
      (first [done | intros k v Hk; by destruct (HQ k v Hk) as (_ & _ & _ & ?)]).
    simpl. rewrite imap_pair_tabulate.
    change (reset KG) with (with_values KG ∅ ∅).
    rewrite (entity_value_loop np_log KG _ ∅ (seq 0 n) Hids).
    2:{ apply Forall_forall. intros i Hi%elem_of_seq. lia. }
    simpl.
    apply (triple_value_loop np_log KG _ id r).
    apply Forall_forall. intros [[e1 p] e2] Hin. simpl.
    destruct (wf_triple_ids _ _ _ _ Hwf Hin) as (i & j & Hi & Hj & Hlti & Hltj).
    unfold id. rewrite Hi, Hj. simpl.
    rewrite !tabulate_lookup by lia. done.
  - split.
    + intros e. rewrite (entity_value_map_lookup KG _ (seq 0 n) e Hids).
      2:{ apply Forall_forall. intros i Hi%elem_of_seq. lia. }
      destruct (entity_id_ KG !! e) as [i|] eqn:Hi; [|done].
      rewrite decide_True; [done|]. apply elem_of_seq.
      pose proof (wf_id_lt _ _ _ Hids Hi). lia.
    + intros e1 p e2. rewrite foldl_insert_lookup.
      destruct (has_triple KG (e1, p, e2)) eqn:Hh.
      * assert (Hin : (e1, p, e2) ∈ triple_list KG).
        { apply elem_of_triples in Hh. unfold triples in Hh.
          by apply elem_of_list_to_set in Hh. }
        rewrite decide_True by done.
        destruct (wf_triple_ids _ _ _ _ Hwf Hin) as (i & j & Hi & Hj & _).
        unfold id. simpl. rewrite Hi, Hj. done.
      * rewrite decide_False; [done|]. intros Hin.
        assert ((e1, p, e2) ∈ triples KG)
          by (unfold triples; by apply elem_of_list_to_set).
        apply elem_of_triples in H. congruence.
Qed.

(** ** Claim C7: degenerate inputs of the value model *)

Lemma filter_none {A} (P : A -> Prop) `{forall x, Decision (P x)} (l : list A) :
  Forall (fun x => ~ P x) l -> filter P l = [].
Proof.
  induction 1 as [|x l Hx _ IH]; [done|]. by rewrite filter_cons_False.
Qed.

Section walk_invariant.
Variable KG : KnowledgeGraph.
Variable query_log : list Query.
Variable T : spmatrix.
Hypothesis Hwf : KG_wf KG.
Hypothesis HT : map_Forall (fun k v => nonneg v /\ id_edge KG k.2 k.1) (data T).

Lemma tainted_edge (i j : nat) : id_edge KG j i -> tainted KG query_log j -> tainted KG query_log i.
Proof.
  intros (e1 & r & e2 & Ht & H1 & H2) (query & e & Hq & He & Hreach).
  exists query, e2. split; [done|]. split; [done|].
  assert (e = e1) as ->.
  { pose proof (wf_ids _ Hwf) as Hids.
    apply (wf_id_inverse _ Hids) in He. apply (wf_id_inverse _ Hids) in H1.
    congruence. }
  eapply rtc_r; [exact Hreach|]. by exists r.
Qed.

Lemma row_dot_scaled_nonneg (c : float) (q : vec) (i : nat) :
  nonneg c -> (forall j, nonneg (q j)) -> nonneg (row_dot (sp_scale c T) q i).
Proof.
  intros Hc Hq. unfold row_dot. apply nonneg_foldl_add; [apply nonneg_zero|].
  apply Forall_fmap, Forall_forall. intros [k v] [_ Hin]%list_elem_of_filter.
  apply elem_of_map_to_list in Hin. simpl in *. rewrite lookup_fmap in Hin.
  destruct (data T !! k) as [u|] eqn:Hu; [|done]. injection Hin as <-.
  apply nonneg_mul; [|apply Hq]. apply nonneg_mul; [done|]. by apply (HT k u).
Qed.

Lemma row_dot_scaled_zero (c : float) (q : vec) (i : nat) :
  nonneg c -> ~ tainted KG query_log i -> (forall j, ~ tainted KG query_log j -> q j = zero) ->
  row_dot (sp_scale c T) q i = zero.
Proof.
  intros Hc Hi Hq. unfold row_dot. apply foldl_add_zero.
  apply Forall_fmap, Forall_forall. intros [k v] [Hrow Hin]%list_elem_of_filter.
  apply elem_of_map_to_list in Hin. simpl in *. rewrite lookup_fmap in Hin.
  destruct (data T !! k) as [u|] eqn:Hu; [|done]. injection Hin as <-.
  destruct (HT k u Hu) as [Hu' Hedge]. rewrite Hq.
  - apply mul_zero_r, nonneg_finite. by apply nonneg_mul.
  - intros Hk. apply Hi. rewrite <- Hrow. by apply (tainted_edge _ k.2).
Qed.

Lemma walk_step_inv (n : nat) (c : float) (qr : vec * vec) :
  nonneg (sub one c) -> walk_inv KG query_log n qr -> walk_inv KG query_log n (walk_step n T c qr).
Proof.
  intros Hc (Hq & Hr & (i0 & Hi0 & Hpos) & Hzero).
  set (q' := row_dot (sp_scale (sub one c) T) qr.1).
  assert (Hq' : forall i, nonneg (q' i)) by (intros i; by apply row_dot_scaled_nonneg).
  assert (Hs : positive_float (sum ((fun i => add (qr.2 i) (q' i)) <$> seq 0 n))).
  { apply positive_sum.
    - apply Forall_fmap, Forall_forall. intros i _. by apply nonneg_add.
    - apply Exists_exists. exists (add (qr.2 i0) (q' i0)). split.
      + apply list_elem_of_fmap. exists i0. split; [done|]. apply elem_of_seq. lia.
      + by apply positive_add_l. }
  unfold walk_inv, walk_step. simpl. fold q'. split; [done|]. split.
  { intros i. apply nonneg_div; [by apply nonneg_add | done]. }
  split.
  { exists i0. split; [done|]. apply positive_div; [by apply positive_add_l | done]. }
  intros i Hi. destruct (Hzero i Hi) as [_ Hri].
  assert (Hqi : q' i = zero).
  { apply row_dot_scaled_zero; [done|done|]. intros j Hj. by destruct (Hzero j Hj). }
  split; [done|].
  change (div (add (qr.2 i) (q' i))
              (sum ((fun i => add (qr.2 i) (q' i)) <$> seq 0 n)) = zero).
  rewrite Hri, Hqi. by apply div_zero_l.
Qed.

Lemma walk_iter_inv (n : nat) (c : float) (power : nat) (qr : vec * vec) :
  nonneg (sub one c) -> walk_inv KG query_log n qr -> walk_inv KG query_log n (walk_iter n T c power qr).
Proof.
  intros Hc. revert qr. induction power as [|power IH]; intros qr Hinv; simpl; [done|].
  apply IH. by apply walk_step_inv.
Qed.

Lemma seed_untainted (i : nat) : ~ tainted KG query_log i -> seed_vector KG query_log i = zero.
Proof.
  intros Hi. unfold seed_vector.
  replace (filter (fun query => entity_id_ KG !! topic query = Some i) query_log)
    with (@nil Query); [done|].
  symmetry. apply filter_none, Forall_forall. intros query Hin Hq.
  apply Hi. exists query, (topic query). split; [done|]. split; [done|].
  apply rtc_refl.
Qed.

Lemma seed_inv (n : nat) (c : float) :
  n = number_of_entities KG -> positive_float c -> query_log ≠ [] ->
  Forall (fun query => topic query ∈ entities KG) query_log ->
  walk_inv KG query_log n (fun i => mul c (seed_vector KG query_log i),
              fun i => mul c (seed_vector KG query_log i)).
Proof.
  intros Hn Hc Hne Hlog. pose proof (wf_ids _ Hwf) as Hids.
  assert (Hnn : forall i, nonneg (mul c (seed_vector KG query_log i))).
  { intros i. apply nonneg_mul; [by apply positive_nonneg | apply nonneg_of_nat]. }
  split; [done|]. split; [done|]. split.
  - destruct query_log as [|query l]; [done|].
    apply Forall_cons in Hlog as [Hq _].
    apply (wf_entity_dom _ Hids) in Hq as [i Hi]. exists i. split.
    + rewrite Hn, (wf_number_of_entities _ Hids). by eapply wf_id_lt.
    + apply positive_mul; [done|]. unfold seed_vector.
      rewrite filter_cons_True by done. eexists. split; [reflexivity|].
      unfold Qlt. simpl. lia.
  - intros i Hi. simpl. rewrite seed_untainted by done.
    split; apply mul_zero_r; destruct Hc as (q & -> & _); by eexists.
Qed.

End walk_invariant.

(** The walk on an all-zero seed vector: zero before the first iteration,
    0/0 = NaN from the first iteration on. *)
Lemma row_dot_zero_vec (T : spmatrix) (i : nat) :
  map_Forall (fun _ v => is_finite v) (data T) ->
  row_dot T (fun _ => zero) i = zero.
Proof.
  intros HT. unfold row_dot. apply foldl_add_zero.
  apply Forall_fmap, Forall_forall. intros [k v] [_ Hin]%list_elem_of_filter.
  apply elem_of_map_to_list in Hin. simpl. apply mul_zero_r. by apply (HT k).
Qed.

Lemma sum_zeros (n : nat) : sum ((fun _ : nat => zero) <$> seq 0 n) = zero.
Proof.
  unfold sum. apply foldl_add_zero, Forall_fmap, Forall_forall. done.
Qed.

Lemma walk_step_zero_seed (n : nat) (T : spmatrix) (c : float) (qr : vec * vec) :
  map_Forall (fun _ v => is_finite v) (data (sp_scale (sub one c) T)) ->
  (forall i, qr.1 i = zero) ->
  (forall i, qr.2 i = zero) \/ (forall i, qr.2 i = NaN) ->
  (forall i, (walk_step n T c qr).1 i = zero) /\
  (forall i, (walk_step n T c qr).2 i = NaN).
Proof.
  intros HT Hq Hr.
  assert (Hq' : forall i, row_dot (sp_scale (sub one c) T) qr.1 i = zero).
  { intros i. erewrite <- (row_dot_zero_vec _ i HT). unfold row_dot.
    f_equal. apply list_fmap_ext. intros ? kv _. by rewrite Hq. }
  split; [exact Hq'|]. intros i. unfold walk_step. simpl. rewrite Hq'.
  destruct Hr as [Hr|Hr].
  - erewrite (list_fmap_ext _ (fun _ => zero)); [|intros ? j _; by rewrite Hr, Hq'].
    rewrite sum_zeros, Hr. reflexivity.
  - rewrite Hr. reflexivity.
Qed.

Lemma walk_iter_zero_seed (n : nat) (T : spmatrix) (c : float) (power : nat)
    (qr : vec * vec) :
  map_Forall (fun _ v => is_finite v) (data (sp_scale (sub one c) T)) ->
  (forall i, qr.1 i = zero) ->
  (forall i, qr.2 i = zero) \/ (forall i, qr.2 i = NaN) ->
  0 < power ->
  forall i, (walk_iter n T c power qr).2 i = NaN.
Proof.
  intros HT. revert qr. induction power as [|power IH]; intros qr Hq Hr Hp; [lia|].
  simpl. destruct (walk_step_zero_seed n T c qr HT Hq Hr) as [Hq' Hr'].
  destruct power as [|power]; [exact Hr'|].
  apply IH; [done | by right | lia].
Qed.

(** C7, as stated, fails on an all-zero seed vector: with an empty workload
    and one iteration, [r / sum(r)] is 0/0, and every entity value is the
    logarithm of NaN, not log(1) = 0. *)
Lemma zero_seed_entity_value_nan :
  exists KG' : KnowledgeGraph,
    model_user_pref np_log_approx fork_graph [] 1 = Ok KG' /\
    entity_value KG' "b" = Ok NaN /\
    entity_value KG' "b" ≠ Ok (np_log_approx one).
Proof.
  eexists. split; [vm_compute; reflexivity|].
  split; [vm_compute; reflexivity|]. vm_compute. discriminate.
Qed.

(** C7, amended: on a graph built by insertion and a workload whose topics
    are entities of the graph, the value model completes without raising
    (with or without zero-out-degree entities, with or without queries).
    When the workload is not empty, or no iteration runs, and the walk stays
    within the range of float64 ([q] is never normalised: the values of
    every iteration are asked to stay below 2^1023), every entity that no
    topic entity reaches (itself no topic) gets the value log(1). When the
    workload is empty and at least one iteration runs, the walk vector is
    0/0 and every entity gets the value log(NaN) instead. *)
Theorem model_user_pref_degenerate (np_log : float -> float) (KG : KnowledgeGraph)
    (query_log : list Query) (power : nat) :
  KG_wf KG ->
  Forall (fun query => topic query ∈ entities KG) query_log ->
  exists KG' : KnowledgeGraph,
    model_user_pref np_log KG query_log power = Ok KG' /\
    (query_log ≠ [] \/ power = 0 ->
     walk_in_float64 KG query_log power = true ->
     forall e, e ∈ entities KG ->
       (forall query, query ∈ query_log -> ~ reachable KG (topic query) e) ->
       entity_value KG' e = Ok (np_log one)) /\
    (query_log = [] -> 0 < power ->
     forall e, e ∈ entities KG -> entity_value KG' e = Ok (np_log NaN)).
Proof.
  intros Hwf Hlog. pose proof (wf_ids _ Hwf) as Hids.
  destruct (model_user_pref_char np_log KG query_log power Hwf Hlog)
    as (T & ev & tv & HT & Hrun & Hev & _).
  destruct (transition_matrix_ok KG Hwf) as (T' & HT' & _ & HQ).
  rewrite HT in HT'. injection HT' as <-.
  assert (HQ' : map_Forall (fun k v => nonneg v /\ id_edge KG k.2 k.1) (data T)).
  { intros k v Hk. destruct (HQ k v Hk) as (? & ? & _). done. }
  assert (Hc : positive_float c_default) by (eexists; split; [reflexivity|reflexivity]).
  assert (Hc1 : nonneg (sub one c_default))
    by (eexists; split; [reflexivity|discriminate]).
  exists (with_values KG ev tv). split; [exact Hrun|]. split.
  - intros Hcase _ e He Hunreach.
    apply (wf_entity_dom _ Hids) in He as [i Hi].
    unfold entity_value. simpl. rewrite Hev, Hi. simpl. do 2 f_equal.
    assert (Hunt : ~ tainted KG query_log i).
    { intros (query & e' & Hq & He' & Hreach).
      assert (e' = e) as ->.
      { apply (wf_id_inverse _ Hids) in Hi. apply (wf_id_inverse _ Hids) in He'.
        congruence. }
      by apply (Hunreach query). }
    enough (Hr : walk_vector (number_of_entities KG) T c_default power
                   (seed_vector KG query_log) i = zero) by (rewrite Hr; reflexivity).
    unfold walk_vector. destruct Hcase as [Hne | ->].
    + pose proof (walk_iter_inv KG query_log T Hwf HQ' (number_of_entities KG)
                    c_default power _ Hc1
                    (seed_inv KG query_log Hwf _ c_default eq_refl Hc Hne Hlog))
        as (_ & _ & _ & Hzero).
      by destruct (Hzero i Hunt).
    + change (mul c_default (seed_vector KG query_log i) = zero).
      rewrite seed_untainted by done. reflexivity.
  - intros -> Hp e He. apply (wf_entity_dom _ Hids) in He as [i Hi].
    unfold entity_value. simpl. rewrite Hev, Hi. simpl. do 2 f_equal.
    unfold walk_vector. rewrite walk_iter_zero_seed; [reflexivity| | | |done].
    + intros k v Hk.
      change ((mul (sub one c_default) <$> data T) !! k = Some v) in Hk.
      apply lookup_fmap_Some in Hk as (u & <- & Hu).
      apply nonneg_finite, nonneg_mul; [done|]. by destruct (HQ' k u Hu).
    + intros j. reflexivity.
    + left. intros j. reflexivity.
Qed.

Lemma model_user_pref_degenerate_witness :
  walk_in_float64 friends_graph [topic_query "B"] 2 = true /\
  exists KG' : KnowledgeGraph,
    model_user_pref np_log_approx friends_graph [topic_query "B"] 2 = Ok KG' /\
    (([topic_query "B"] : list Query) ≠ [] \/ 2 = 0 ->
     walk_in_float64 friends_graph [topic_query "B"] 2 = true ->
     forall e, e ∈ entities friends_graph ->
       (forall query, query ∈ [topic_query "B"] ->
          ~ reachable friends_graph (topic query) e) ->
       entity_value KG' e = Ok (np_log_approx one)) /\
    (([topic_query "B"] : list Query) = [] -> 0 < 2 ->
     forall e, e ∈ entities friends_graph ->
       entity_value KG' e = Ok (np_log_approx NaN)).
Proof.
  split; [vm_compute; reflexivity|].
  apply (model_user_pref_degenerate np_log_approx friends_graph [topic_query "B"] 2).
  - apply KG_wf_of_list.
  - repeat constructor.
Defined.

(** The bound is a real restriction. On a hub with ten self-loops the
    matrix that [transition_matrix] returns has the entry 100 at the hub,
    [q] grows 85-fold with every iteration, and the walk from the hub leaves
    the bound at iteration 161. *)
Lemma walk_in_float64_hub_graph :
  walk_in_float64 hub_graph [topic_query "a"] 160 = true /\
  walk_in_float64 hub_graph [topic_query "a"] 161 = false.
Proof. split; vm_compute; reflexivity. Qed.

(** ** Claim C10: value lookups default, identifier lookups raise *)

Lemma foldM_Ok_Forall {A B} (f : B -> A -> Result B) (P : A -> Prop) (l : list A) :
  (forall b a b', f b a = Ok b' -> P a) ->
  forall b b', foldM f b l = Ok b' -> Forall P l.
Proof.
  intros Hf. induction l as [|a l IH]; intros b b'; simpl; [constructor|].
  intros (b1 & Hb1 & Hrest)%bind_Ok. constructor; eauto.
Qed.

Lemma model_user_pref_Ok_topics (np_log : float -> float) (KG KG' : KnowledgeGraph)
    (query_log : list Query) (power : nat) :
  ids_wf KG ->
  model_user_pref np_log KG query_log power = Ok KG' ->
  Forall (fun query => topic query ∈ entities KG) query_log.
Proof.
  intros Hids. unfold model_user_pref. intros (x & Hx & _)%bind_Ok.
  unfold query_vector in Hx. eapply foldM_Ok_Forall; [|exact Hx].
  intros b query b' (i & Hi%of_option_Ok & _)%bind_Ok.
  apply (wf_entity_dom _ Hids). simpl in Hi. by exists i.
Qed.

(** C10: right after [reset()] every value lookup returns 0.0; after the
    value model has run, [entity_value] and [triple_value] still never
    raise, and return 0.0 for every label that is no entity of the graph and
    for every triple that is not in the graph (the keys the model never
    scored); [entity_id] and [id_entity] raise KeyError on such a label and
    on an identifier never handed out. *)
Theorem value_lookups_default_id_lookups_raise (np_log : float -> float)
    (KG KG' : KnowledgeGraph) (query_log : list Query) (power : nat) :
  KG_wf KG ->
  model_user_pref np_log KG query_log power = Ok KG' ->
  (forall e t, entity_value (reset KG) e = Ok zero /\
               triple_value (reset KG) t = Ok zero) /\
  (forall e t, is_Ok (entity_value KG' e) /\ is_Ok (triple_value KG' t)) /\
  (forall e, e ∉ entities KG ->
     entity_value KG' e = Ok zero /\
     entity_id KG e = Err KeyError /\ entity_id KG' e = Err KeyError) /\
  (forall t, t ∉ triples KG -> triple_value KG' t = Ok zero) /\
  (forall i, number_of_entities KG <= i ->
     id_entity KG i = Err KeyError /\ id_entity KG' i = Err KeyError).
Proof.
  intros Hwf Hrun. pose proof (wf_ids _ Hwf) as Hids.
  pose proof (model_user_pref_Ok_topics _ _ _ _ _ Hids Hrun) as Hlog.
  destruct (model_user_pref_char np_log KG query_log power Hwf Hlog)
    as (T & ev & tv & _ & Hrun' & Hev & Htv).
  rewrite Hrun in Hrun'. injection Hrun' as ->.
  split; [|split; [|split; [|split]]].
  - intros e t. unfold entity_value, triple_value. simpl.
    by rewrite !lookup_empty.
  - intros e t. unfold entity_value, triple_value. simpl. split; eexists; reflexivity.
  - intros e He.
    assert (Hnone : entity_id_ KG !! e = None).
    { apply eq_None_not_Some. by rewrite <- (wf_entity_dom _ Hids). }
    unfold entity_value, entity_id. simpl. by rewrite Hev, Hnone.
  - intros [[e1 p] e2] Ht. unfold triple_value. simpl. rewrite Htv.
    destruct (has_triple KG (e1, p, e2)) eqn:Hh; [|done].
    by apply elem_of_triples in Hh.
  - intros i Hi.
    assert (Hnone : id_entity_ KG !! i = None).
    { apply eq_None_not_Some. rewrite (wf_id_range _ Hids).
      rewrite <- (wf_number_of_entities _ Hids). lia. }
    unfold id_entity. simpl. by rewrite Hnone.
Qed.

Lemma value_lookups_default_id_lookups_raise_witness :
  exists KG' : KnowledgeGraph,
    model_user_pref np_log_approx fork_graph [topic_query "a"] 1 = Ok KG' /\
    entity_value KG' "z" = Ok zero /\
    triple_value KG' ("a", "r", "z") = Ok zero /\
    entity_id KG' "z" = Err KeyError /\
    id_entity KG' 3 = Err KeyError.
Proof.
  destruct (model_user_pref np_log_approx fork_graph [topic_query "a"] 1)
    as [KG'|err] eqn:Hrun.
  2:{ vm_compute in Hrun. discriminate. }
  exists KG'. split; [reflexivity|].
  destruct (value_lookups_default_id_lookups_raise np_log_approx fork_graph KG'
              [topic_query "a"] 1 (KG_wf_of_list _ _) Hrun)
    as (_ & _ & He & Ht & Hi).
  assert (Hz : "z" ∉ entities fork_graph).
  { intros Hin. pose proof (bool_decide_pack _ Hin) as Hb. vm_compute in Hb. exact Hb. }
  assert (Htz : ("a", "r", "z") ∉ triples fork_graph).
  { intros Hin. pose proof (bool_decide_pack _ Hin) as Hb. vm_compute in Hb. exact Hb. }
  split; [apply (He _ Hz)|].
  split; [apply (Ht _ Htz)|].
  split; [apply (He _ Hz)|].
  apply Hi. vm_compute. lia.
Defined.

(** ** Claim C4: the marginal value *)

Lemma add_swap (a x y : float) : add (add a x) y = add (add a y) x.
Proof.
  destruct a as [a|[]|], x as [x|[]|], y as [y|[]|]; simpl; try reflexivity.
  f_equal. apply Qred_complete. rewrite !Qred_correct. ring.
Qed.

Lemma foldl_add_perm (l l' : list float) :
  l ≡ₚ l' -> forall a, foldl add a l = foldl add a l'.
Proof.
  induction 1 as [|x l l' _ IH|x y l|l l' l'' _ IH1 _ IH2]; intros a; simpl.
  - done.
  - apply IH.
  - by rewrite add_swap.
  - by rewrite IH1.
Qed.

Lemma sum_over_insert {A} `{Countable A} (g : A -> float) (X : gset A) (x : A) :
  x ∉ X -> sum_over g ({[x]} ∪ X) = add (sum_over g X) (g x).
Proof.
  intros Hx. unfold sum_over, sum.
  rewrite (foldl_add_perm _ (g <$> (elements X ++ [x]))).
  - by rewrite fmap_app, foldl_app.
  - apply fmap_Permutation. rewrite elements_union_singleton by done.
    by rewrite Permutation_cons_append.
Qed.

Lemma sum_finite (l : list float) :
  Forall is_finite l -> forall a, is_finite a -> is_finite (foldl add a l).
Proof.
  induction 1 as [|x l [q ->] _ IH]; intros a [p ->]; simpl; [by eexists|].
  apply IH. by eexists.
Qed.

Lemma sum_over_finite {A} `{Countable A} (g : A -> float) (X : gset A) :
  (forall x, is_finite (g x)) -> is_finite (sum_over g X).
Proof.
  intros Hg. unfold sum_over, sum. apply sum_finite; [|by eexists].
  apply Forall_fmap, Forall_forall. intros x _. apply Hg.
Qed.

Lemma entities_of_insert (X : gset triple) (e1 r e2 : string) :
  entities_of ({[(e1, r, e2)]} ∪ X) = {[e2]} ∪ ({[e1]} ∪ entities_of X).
Proof.
  unfold entities_of. apply set_eq. intros e.
  rewrite !elem_of_union, !elem_of_map, !elem_of_singleton. split.
  - intros [(t & -> & Ht) | (t & -> & Ht)];
      apply elem_of_union in Ht as [->%elem_of_singleton | Ht]; simpl; eauto 6.
  - intros [-> | [-> | [(t & -> & Ht) | (t & -> & Ht)]]].
    + right. exists (e1, r, e2). split; [done|]. set_solver.
    + left. exists (e1, r, e2). split; [done|]. set_solver.
    + left. exists t. split; [done|]. set_solver.
    + right. exists t. split; [done|]. set_solver.
Qed.

Lemma wf_has_entity (kg : KnowledgeGraph) (e : string) :
  KG_wf kg -> has_entity kg e = true <-> e ∈ entities_of (triples kg).
Proof.
  intros Hwf. unfold has_entity. rewrite bool_decide_eq_true, (wf_entities _ Hwf).
  unfold entities_of. rewrite elem_of_union, !elem_of_map. split.
  - intros (t & Ht & [<-|<-]); eauto.
  - intros [(t & -> & Ht) | (t & -> & Ht)]; eauto.
Qed.

Lemma scored_values (KG : KnowledgeGraph) :
  scored KG ->
  (forall e, entity_value KG e = Ok (ev_of KG e)) /\
  (forall t, triple_value KG t = Ok (tv_of KG t)).
Proof.
  intros [[ev Hev] [tv Htv]]. unfold entity_value, triple_value, ev_of, tv_of.
  rewrite Hev, Htv. done.
Qed.

Lemma marginal_value_terms (S : Summary) (t : triple) :
  scored (parent S) -> marginal_value S t = Ok (sum (marginal_terms S t)).
Proof.
  intros Hsc. destruct (scored_values _ Hsc) as [Hev Htv].
  destruct t as [[e1 r] e2]. unfold marginal_value, marginal_terms. cbn [fst snd].
  destruct (has_entity (graph S) e1), (has_entity (graph S) e2),
    (has_triple (graph S) (e1, r, e2)); cbn [negb]; rewrite ?Hev, ?Htv; reflexivity.
Qed.

Lemma sum_over_insert_dec {A} `{Countable A} (g : A -> float) (X : gset A) (x : A) :
  sum_over g ({[x]} ∪ X)
  = if decide (x ∈ X) then sum_over g X else add (sum_over g X) (g x).
Proof.
  destruct (decide (x ∈ X)) as [Hin|Hnin].
  - f_equal. set_solver.
  - by apply sum_over_insert.
Qed.

(** C4, as stated, fails on a self-loop: for the triple (a, r, a) and the
    empty summary the code adds the value of [a] twice, while [f] counts the
    entity once. *)
Lemma marginal_value_self_loop :
  exists (P : KnowledgeGraph) (m : float),
    model_user_pref np_log_approx loop_graph [topic_query "a"] 1 = Ok P /\
    marginal_value (Summary_init P) ("a", "r", "a") = Ok m /\
    m ≠ sub (objective P ({[("a", "r", "a")]} ∪ triples (graph (Summary_init P))))
            (objective P (triples (graph (Summary_init P)))).
Proof.
  eexists _, _. split; [vm_compute; reflexivity|].
  split; [vm_compute; reflexivity|]. vm_compute. discriminate.
Qed.

(** C4, amended: [marginal_value(S, t)] is the sum of the value of [e1] if
    [e1] is not in [S], the value of [e2] if [e2] is not in [S] and the
    value of [t] if [t] is not in [S]; it is zero when [t] is already in
    [S]; and for [t] not in [S] it equals [f(S ∪ {t}) − f(S)] whenever the
    two entities of [t] differ or [e1] is already in [S] (values being
    finite). For a self-loop on an entity outside [S] the code counts the
    entity twice. *)
Theorem marginal_value_objective (S : Summary) (e1 r e2 : string) :
  KG_wf (graph S) -> scored (parent S) ->
  marginal_value S (e1, r, e2) = Ok (sum (marginal_terms S (e1, r, e2))) /\
  ((e1, r, e2) ∈ triples (graph S) -> marginal_value S (e1, r, e2) = Ok zero) /\
  ((e1, r, e2) ∉ triples (graph S) ->
   e1 ≠ e2 \/ e1 ∈ entities (graph S) ->
   values_finite (parent S) ->
   marginal_value S (e1, r, e2)
   = Ok (sub (objective (parent S) ({[(e1, r, e2)]} ∪ triples (graph S)))
             (objective (parent S) (triples (graph S))))).
Proof.
  intros Hwf Hsc. pose proof (marginal_value_terms S (e1, r, e2) Hsc) as Hm.
  split; [exact Hm|]. split.
  - intros Hin. rewrite Hm. unfold marginal_terms. cbn [fst snd].
    assert (H1 : has_entity (graph S) e1 = true).
    { apply bool_decide_eq_true, (wf_entities _ Hwf). exists (e1, r, e2). auto. }
    assert (H2 : has_entity (graph S) e2 = true).
    { apply bool_decide_eq_true, (wf_entities _ Hwf). exists (e1, r, e2). auto. }
    apply elem_of_triples in Hin. rewrite H1, H2, Hin. reflexivity.
  - intros Hnin Hcond [Hfe Hft]. rewrite Hm. f_equal.
    unfold objective, marginal_terms. cbn [fst snd].
    set (X := triples (graph S)) in *. set (P := parent S) in *.
    rewrite entities_of_insert.
    rewrite (sum_over_insert _ X) by done.
    rewrite !sum_over_insert_dec.
    assert (Hh : has_triple (graph S) (e1, r, e2) = false).
    { destruct (has_triple (graph S) (e1, r, e2)) eqn:Hh; [|done].
      by apply elem_of_triples in Hh. }
    rewrite Hh.
    assert (Hbe : forall e, has_entity (graph S) e = bool_decide (e ∈ entities_of X)).
    { intros e. unfold has_entity. apply bool_decide_ext.
      pose proof (wf_has_entity (graph S) e Hwf) as He. unfold has_entity in He.
      rewrite bool_decide_eq_true in He. exact He. }
    rewrite !Hbe.
    destruct (sum_over_finite (ev_of P) (entities_of X) Hfe) as [a Ha].
    destruct (sum_over_finite (tv_of P) X Hft) as [b Hb].
    destruct (Hfe e1) as [p Hp]. destruct (Hfe e2) as [q Hq].
    destruct (Hft (e1, r, e2)) as [w Hw].
    rewrite Ha, Hb, Hw, Hp, Hq.
    assert (Hmem2 : e2 ∈ {[e1]} ∪ entities_of X <-> e2 ∈ entities_of X).
    { split; [|set_solver]. intros [->%elem_of_singleton|?]%elem_of_union; [|done].
      destruct Hcond as [?|Hin]; [done|].
      apply (wf_has_entity _ _ Hwf). by apply bool_decide_eq_true. }
    destruct (decide (e1 ∈ entities_of X)) as [Hin1|Hnin1];
      [rewrite (bool_decide_eq_true_2 _ Hin1) | rewrite (bool_decide_eq_false_2 _ Hnin1)];
      (destruct (decide (e2 ∈ {[e1]} ∪ entities_of X)) as [Hin2|Hnin2];
       [rewrite (bool_decide_eq_true_2 _ (proj1 Hmem2 Hin2))
       |rewrite (bool_decide_eq_false_2 (e2 ∈ entities_of X))
          by (intros Hc; apply Hnin2, Hmem2, Hc)]);
      simpl; unfold sum; simpl;
      f_equal; apply Qred_complete; rewrite !Qred_correct; ring.
Qed.

Lemma marginal_value_objective_witness :
  marginal_value (Summary_init fork_scored) ("a", "r", "b")
  = Ok (sum (marginal_terms (Summary_init fork_scored) ("a", "r", "b"))) /\
  (("a", "r", "b") ∈ triples (graph (Summary_init fork_scored)) ->
   marginal_value (Summary_init fork_scored) ("a", "r", "b") = Ok zero) /\
  (("a", "r", "b") ∉ triples (graph (Summary_init fork_scored)) ->
   "a" ≠ "b" \/ "a" ∈ entities (graph (Summary_init fork_scored)) ->
   values_finite (parent (Summary_init fork_scored)) ->
   marginal_value (Summary_init fork_scored) ("a", "r", "b")
   = Ok (sub (objective (parent (Summary_init fork_scored))
                ({[("a", "r", "b")]} ∪ triples (graph (Summary_init fork_scored))))
             (objective (parent (Summary_init fork_scored))
                (triples (graph (Summary_init fork_scored)))))).
Proof.
  apply (marginal_value_objective (Summary_init fork_scored) "a" "r" "b").
  - apply KG_wf_init.
  - split; eexists; reflexivity.
Defined.

(** ** heapq keeps the elements it is given *)

Section heapq_facts.
Context {A : Type} (lt : A -> A -> bool) (P : A -> Prop).

Lemma siftdown_loop_facts (fuel : nat) :
  forall (heap : list A) (startpos pos : nat) (newitem : A),
    Forall P heap ->
    Forall P (siftdown_loop lt fuel heap startpos pos newitem).1 /\
    length (siftdown_loop lt fuel heap startpos pos newitem).1 = length heap.
Proof.
  induction fuel as [|fuel IH]; intros heap startpos pos newitem Hheap; simpl; [done|].
  case_bool_decide; [|done].
  match goal with |- context [heap !! ?p] =>
    destruct (heap !! p) as [parent|] eqn:Hp; [|done];
    destruct (lt newitem parent); [|done];
    destruct (IH (<[pos := parent]> heap) startpos p newitem) as [H1 H2]
  end.
  - apply Forall_insert; [done|]. by eapply Forall_lookup_1.
  - split; [done|]. by rewrite H2, length_insert.
Qed.

Lemma _siftdown_facts (heap : list A) (startpos pos : nat) :
  Forall P heap ->
  Forall P (_siftdown lt heap startpos pos) /\
  length (_siftdown lt heap startpos pos) = length heap.
Proof.
  intros Hheap. unfold _siftdown.
  destruct (heap !! pos) as [newitem|] eqn:Hn; [|done].
  destruct (siftdown_loop_facts (S pos) heap startpos pos newitem Hheap) as [H1 H2].
  destruct (siftdown_loop lt (S pos) heap startpos pos newitem) as [heap' pos'].
  simpl in *. split.
  - apply Forall_insert; [done|]. exact (Forall_lookup_1 _ _ _ _ Hheap Hn).
  - by rewrite length_insert.
Qed.

Lemma siftup_loop_facts (fuel : nat) :
  forall (heap : list A) (endpos pos : nat),
    Forall P heap ->
    Forall P (siftup_loop lt fuel heap endpos pos).1 /\
    length (siftup_loop lt fuel heap endpos pos).1 = length heap.
Proof.
  induction fuel as [|fuel IH]; intros heap endpos pos Hheap; simpl; [done|].
  case_bool_decide; [|done].
  match goal with |- context [heap !! ?c] =>
    destruct (heap !! c) as [child|] eqn:Hc; [|done];
    destruct (IH (<[pos := child]> heap) endpos c) as [H1 H2]
  end.
  - apply Forall_insert; [done|]. by eapply Forall_lookup_1.
  - split; [done|]. by rewrite H2, length_insert.
Qed.

Lemma _siftup_facts (heap : list A) (pos : nat) :
  Forall P heap ->
  Forall P (_siftup lt heap pos) /\ length (_siftup lt heap pos) = length heap.
Proof.
  intros Hheap. unfold _siftup.
  destruct (heap !! pos) as [newitem|] eqn:Hn; [|done].
  destruct (siftup_loop_facts (length heap) heap (length heap) pos Hheap) as [H1 H2].
  destruct (siftup_loop lt (length heap) heap (length heap) pos) as [heap' pos'].
  simpl in *.
  destruct (_siftdown_facts (<[pos' := newitem]> heap') pos pos') as [H3 H4].
  - apply Forall_insert; [done|]. exact (Forall_lookup_1 _ _ _ _ Hheap Hn).
  - split; [done|]. by rewrite H4, length_insert.
Qed.

Lemma heapify_facts (x : list A) :
  Forall P x -> Forall P (heapify lt x) /\ length (heapify lt x) = length x.
Proof.
  unfold heapify. generalize (reverse (seq 0 (length x / 2))) as ps.
  intros ps. revert x. induction ps as [|p ps IH]; intros x Hx; simpl; [done|].
  destruct (_siftup_facts x p Hx) as [H1 H2].
  destruct (IH _ H1) as [H3 H4]. split; [done|]. by rewrite H4.
Qed.

Lemma heapreplace_facts (heap : list A) (item : A) :
  Forall P heap -> P item ->
  Forall P (heapreplace lt heap item) /\
  length (heapreplace lt heap item) = length heap.
Proof.
  intros Hheap Hitem. unfold heapreplace.
  destruct (_siftup_facts (<[0 := item]> heap) 0) as [H1 H2].
  - by apply Forall_insert.
  - split; [done|]. by rewrite H2, length_insert.
Qed.

End heapq_facts.

(** ** The candidate pool *)

Lemma foldM_invariant {A B} (f : B -> A -> Result B) (I : B -> Prop) (l : list A) :
  (forall b a b', I b -> f b a = Ok b' -> I b') ->
  forall b b', I b -> foldM f b l = Ok b' -> I b'.
Proof.
  intros Hf. induction l as [|a l IH]; intros b b' Hb; simpl.
  - by intros [= <-].
  - intros (b1 & Hb1 & Hrest)%bind_Ok. eapply IH; [|exact Hrest]. eauto.
Qed.

Lemma foldM_total {A B} (f : B -> A -> Result B) (I : B -> Prop) (l : list A) :
  (forall b a, a ∈ l -> I b -> exists b', f b a = Ok b' /\ I b') ->
  forall b, I b -> exists b', foldM f b l = Ok b' /\ I b'.
Proof.
  induction l as [|a l IH]; intros Hf b Hb; simpl; [eauto|].
  destruct (Hf b a) as (b1 & Hb1 & HI1); [left|done|].
  rewrite Hb1. simpl. apply IH; [|done]. intros b0 a0 Ha0. apply Hf. by right.
Qed.

Lemma marginal_value_ok (S : Summary) (t : triple) :
  scored (parent S) -> exists v, marginal_value S t = Ok v.
Proof. intros Hsc. eexists. by apply marginal_value_terms. Qed.

Section heap_facts.
Variable Q : triple -> Prop.

Lemma _update_marginal_facts (S : Summary) (h h' : Heap) (i : nat) :
  _update_marginal S h i = Ok h' ->
  length h' = length h /\ (heap_all Q h -> heap_all Q h').
Proof.
  unfold _update_marginal.
  intros (it & Hit%of_option_Ok & (v & _ & [= <-])%bind_Ok)%bind_Ok.
  split; [by rewrite length_insert|]. intros Hall.
  apply Forall_insert; [done|]. simpl.
  exact (Forall_lookup_1 _ _ _ _ Hall Hit).
Qed.

Lemma _update_marginal_ok (S : Summary) (h : Heap) (i : nat) :
  scored (parent S) -> i < length h -> exists h', _update_marginal S h i = Ok h'.
Proof.
  intros Hsc Hi. unfold _update_marginal.
  destruct (lookup_lt_is_Some_2 h i Hi) as [it Hit]. rewrite Hit. simpl.
  destruct (marginal_value_ok S (triple_ it) Hsc) as [v Hv]. rewrite Hv. simpl. eauto.
Qed.

Lemma _move_to_top_facts (h : Heap) (argmax : nat) :
  length (_move_to_top h argmax) = length h /\
  (heap_all Q h -> heap_all Q (_move_to_top h argmax)).
Proof.
  unfold _move_to_top. destruct (h !! argmax) as [a|] eqn:Ha; [|done].
  destruct (last h) as [l|] eqn:Hl; [|done]. split.
  - by rewrite !length_insert.
  - intros Hall. apply Forall_insert; [apply Forall_insert|]; try done.
    + exact (Forall_lookup_1 _ _ _ _ Hall Ha).
    + rewrite last_lookup in Hl. exact (Forall_lookup_1 _ _ _ _ Hall Hl).
Qed.

Lemma Heap_pop_facts (h h' : Heap) (t : triple) :
  Heap_pop h = Ok (t, h') ->
  length h = S (length h') /\ (heap_all Q h -> Q t /\ heap_all Q h').
Proof.
  unfold Heap_pop. destruct (last h) as [item|] eqn:Hl; [|done].
  intros [= <- <-]. revert Hl.
  destruct h as [|x h _] using rev_ind; intros Hl; [simpl in Hl; discriminate|].
  rewrite last_snoc in Hl. injection Hl as ->.
  rewrite removelast_last, length_app. simpl. split; [lia|].
  intros [Hh Hx]%Forall_app. rewrite Forall_singleton in Hx. split; [exact Hx | exact Hh].
Qed.

Lemma Heap_pop_ok (h : Heap) :
  0 < length h -> exists t h', Heap_pop h = Ok (t, h').
Proof.
  intros Hlen. unfold Heap_pop. revert Hlen.
  destruct h as [|x h _] using rev_ind; intros Hlen; [simpl in Hlen; lia|].
  rewrite last_snoc. eauto.
Qed.

End heap_facts.

Lemma randint_facts (n size : nat) (g : RNG) :
  0 < n ->
  Forall (fun i => i < n) (randint n size g).1 /\ length (randint n size g).1 = size.
Proof.
  intros Hn. revert g. induction size as [|size IH]; intros g; simpl; [done|].
  destruct (randbelow n g) as [i g1] eqn:Hr.
  specialize (IH g1). destruct (randint n size g1) as [l g2]. simpl in *.
  destruct IH as [IH1 IH2]. split; [|by rewrite IH2].
  constructor; [|done]. unfold randbelow in Hr. destruct g as [|d g].
  - injection Hr as <- _. done.
  - injection Hr as <- _. apply Nat.mod_upper_bound. lia.
Qed.

(** What [update] samples: nothing when the pool has at most one candidate
    or the sample size is zero; otherwise [min(n, sample_size)] indices
    below [n], drawn independently when that is less than [n], and the whole
    range 0 .. n-1 when it is not. *)
Lemma Heap_sample_facts (n : nat) (sample_size : Z) (g g' : RNG) (indices : list nat) :
  Heap_sample n sample_size g = Ok (Some indices, g') ->
  2 <= n /\ (0 < sample_size)%Z /\
  length indices = Z.to_nat (Z.min (Z.of_nat n) sample_size) /\
  Forall (fun i => i < n) indices /\
  ((sample_size < Z.of_nat n)%Z ->
     (indices, g') = randint n (Z.to_nat sample_size) g) /\
  ((Z.of_nat n <= sample_size)%Z -> indices = seq 0 n).
Proof.
  unfold Heap_sample.
  destruct (n <=? 1) eqn:Hn1; [done|]. apply Nat.leb_gt in Hn1.
  destruct (Z.min (Z.of_nat n) sample_size =? 0)%Z eqn:H0; [done|].
  apply Z.eqb_neq in H0. simpl.
  destruct (Z.min (Z.of_nat n) sample_size <? Z.of_nat n)%Z eqn:Hlt.
  - apply Z.ltb_lt in Hlt.
    destruct (Z.min (Z.of_nat n) sample_size <? 0)%Z eqn:Hneg; [done|].
    apply Z.ltb_ge in Hneg.
    destruct (randint n (Z.to_nat (Z.min (Z.of_nat n) sample_size)) g) as [l g1] eqn:Hr.
    intros [= <- <-].
    pose proof (randint_facts n (Z.to_nat (Z.min (Z.of_nat n) sample_size)) g) as Hf.
    rewrite Hr in Hf. simpl in Hf. destruct Hf as [Hf1 Hf2]; [lia|].
    assert (Hmin : Z.min (Z.of_nat n) sample_size = sample_size) by lia.
    split; [lia|]. split; [lia|]. split; [done|]. split; [done|].
    split; [|lia]. intros _. by rewrite <- Hmin, Hr.
  - apply Z.ltb_ge in Hlt. intros [= <- <-].
    split; [lia|]. split; [lia|]. split.
    + rewrite length_seq. lia.
    + split; [|split; [lia|done]]. apply Forall_forall. intros i Hi%elem_of_seq. lia.
Qed.

Lemma Heap_sample_ok (n : nat) (sample_size : Z) (g : RNG) :
  (0 <= sample_size)%Z -> exists r, Heap_sample n sample_size g = Ok r.
Proof.
  intros Hss. unfold Heap_sample.
  destruct ((n <=? 1) || (Z.min (Z.of_nat n) sample_size =? 0)%Z); [eauto|].
  destruct (Z.min (Z.of_nat n) sample_size <? Z.of_nat n)%Z; [|eauto].
  destruct (Z.min (Z.of_nat n) sample_size <? 0)%Z eqn:Hneg.
  - apply Z.ltb_lt in Hneg. lia.
  - destruct (randint n _ g). eauto.
Qed.

Lemma _lazy_greedy_facts (Q : triple -> Prop) (S : Summary) (h h' : list HeapTriple)
    (triples : list nat) (top after : nat) :
  _lazy_greedy S h triples = Ok (top, after, h') ->
  length h' = length h /\ (heap_all Q h -> heap_all Q h').
Proof.
  unfold _lazy_greedy.
  intros (top' & _ & (h1 & Hup & (after' & _ & [= <- <- <-])%bind_Ok)%bind_Ok)%bind_Ok.
  by apply (_update_marginal_facts Q) in Hup.
Qed.

Lemma _lazy_greedy_ok (S : Summary) (h : list HeapTriple) (triples : list nat) :
  scored (parent S) -> 0 < length triples ->
  Forall (fun i => i < length h) triples ->
  exists r, _lazy_greedy S h triples = Ok r.
Proof.
  intros Hsc Hlen Hrange. unfold _lazy_greedy.
  destruct (heapify_facts (ref_lt h) (fun i => i < length h) triples Hrange) as [Hf Hl].
  destruct (lookup_lt_is_Some_2 (heapify (ref_lt h) triples) 0) as [top Htop]; [lia|].
  rewrite Htop. simpl.
  pose proof (Forall_lookup_1 _ _ _ _ Hf Htop) as Htoplt.
  destruct (_update_marginal_ok S h top Hsc Htoplt) as [h1 Hh1]. rewrite Hh1. simpl.
  destruct (heapreplace_facts (ref_lt h1) (fun i => i < length h)
              (heapify (ref_lt h) triples) top Hf Htoplt) as [_ Hl2].
  destruct (lookup_lt_is_Some_2
              (heapreplace (ref_lt h1) (heapify (ref_lt h) triples) top) 0)
    as [after Hafter]; [lia|].
  rewrite Hafter. simpl. eauto.
Qed.

Lemma Heap_update_facts (Q : triple -> Prop) (S : Summary) (h h' : list HeapTriple)
    (sample_size : Z) (g g' : list nat) :
  Heap_update S h sample_size g = Ok (h', g') ->
  length h' = length h /\ (heap_all Q h -> heap_all Q h').
Proof.
  unfold Heap_update. intros ([[indices|] g1] & Hs & Hrest)%bind_Ok.
  2:{ by injection Hrest as <- <-. }
  apply bind_Ok in Hrest as ([[before after] h1] & Hlg & Hrest).
  apply (_lazy_greedy_facts Q) in Hlg as [Hlen1 Hall1].
  destruct (ref_eq h1 before after).
  { injection Hrest as <- <-.
    destruct (_move_to_top_facts Q h1 after) as [Hlen2 Hall2].
    split; [congruence | auto]. }
  apply bind_Ok in Hrest as ([[h2 top] argmax] & Hfold & [= <- <-]).
  apply (foldM_invariant _
           (fun st => length st.1.1 = length h /\ (heap_all Q h -> heap_all Q st.1.1)))
    in Hfold; [| |by split].
  - simpl in Hfold. destruct Hfold as [Hlen2 Hall2].
    destruct (_move_to_top_facts Q h2 argmax) as [Hlen3 Hall3].
    split; [congruence | auto].
  - intros [[hh tp] am] i [[hh' tp'] am'] [Hl Ha]. simpl in *.
    intros (item & _ & Hstep)%bind_Ok. destruct (triple_ item) as [[e1 r] e2].
    apply bind_Ok in Hstep as (hh1 & Hupd & Hstep).
    assert (Hfacts : length hh1 = length hh /\ (heap_all Q hh -> heap_all Q hh1)).
    { destruct (has_entity (graph S) e1 || has_entity (graph S) e2).
      - by apply (_update_marginal_facts Q) in Hupd.
      - by injection Hupd as <-. }
    destruct Hfacts as [Hl1 Ha1].
    apply bind_Ok in Hstep as (vt & _ & (vi & _ & Hstep)%bind_Ok).
    destruct (ltb vt vi); injection Hstep as <- _ _; split; try congruence; auto.
Qed.

Lemma Heap_update_ok (S : Summary) (h : list HeapTriple) (sample_size : Z)
    (g : list nat) :
  scored (parent S) -> (0 <= sample_size)%Z ->
  exists r, Heap_update S h sample_size g = Ok r.
Proof.
  intros Hsc Hss. unfold Heap_update.
  destruct (Heap_sample_ok (length h) sample_size g Hss) as [[[indices|] g1] Hs];
    rewrite Hs; simpl; [|eauto].
  apply Heap_sample_facts in Hs as (Hn & Hpos & Hlen & Hrange & _).
  destruct (_lazy_greedy_ok S h indices Hsc) as [[[before after] h1] Hlg]; [lia|done|].
  rewrite Hlg. simpl.
  apply (_lazy_greedy_facts (fun _ => True)) in Hlg as [Hlen1 _].
  destruct (ref_eq h1 before after); [eauto|].
  match goal with |- context [foldM ?f ?b0 indices] =>
    pose proof (fun Hstep =>
                  foldM_total f
                    (fun st => length st.1.1 = length h /\ st.1.2 < length h)
                    indices Hstep b0) as Htot
  end.
  destruct Htot as ([[h2 top] argmax] & Hfold & _).
  - intros [[hh tp] am] i Hi [Hl Ht]. simpl in *.
    assert (Hilt : i < length hh).
    { rewrite Hl. by apply (proj1 (Forall_forall _ _) Hrange). }
    destruct (lookup_lt_is_Some_2 hh i Hilt) as [item Hitem]. rewrite Hitem. simpl.
    destruct (triple_ item) as [[e1 r] e2].
    assert (Hupd : exists hh1,
              (if has_entity (graph S) e1 || has_entity (graph S) e2
               then _update_marginal S hh i else Ok hh) = Ok hh1 /\
              length hh1 = length hh).
    { destruct (has_entity (graph S) e1 || has_entity (graph S) e2); [|eauto].
      destruct (_update_marginal_ok S hh i Hsc Hilt) as [hh1 Hhh1].
      exists hh1. split; [done|].
      by apply (_update_marginal_facts (fun _ => True)) in Hhh1 as [? _]. }
    destruct Hupd as (hh1 & -> & Hl1). simpl.
    destruct (lookup_lt_is_Some_2 hh1 tp) as [it1 Hit1]; [lia|].
    destruct (lookup_lt_is_Some_2 hh1 i) as [it2 Hit2]; [lia|].
    rewrite Hit1, Hit2. simpl.
    destruct (ltb (value_ it1) (value_ it2)); eexists; (split; [reflexivity|]);
      simpl; split; lia.
  - simpl. split; [done|lia].
  - rewrite Hfold. simpl. eauto.
Qed.

(** ** Summaries under construction *)

Lemma number_of_triples_wf (kg : KnowledgeGraph) :
  KG_wf kg -> number_of_triples kg = size (triples kg).
Proof. intros Hwf. apply (wf_count _ Hwf). Qed.

Lemma summary_inv_init (KG : KnowledgeGraph) (K : nat) :
  summary_inv KG K (Summary_init KG).
Proof.
  split; [apply KG_wf_init|]. simpl. rewrite triples_init.
  split; [set_solver|]. rewrite size_empty. split; [lia|]. unfold number_of_triples. simpl. lia.
Qed.

Lemma summary_inv_add (KG : KnowledgeGraph) (K : nat) (S : Summary) (t : triple) :
  summary_inv KG K S -> number_of_triples (graph S) < K -> t ∈ triples KG ->
  summary_inv KG K (Summary_add_triple S t).
Proof.
  intros (Hwf & Hsub & Hsize & Hnum) Hlt Ht.
  assert (Hwf' : KG_wf (add_triple (graph S) t)) by by apply KG_wf_add_triple.
  assert (Hsz : size (triples (add_triple (graph S) t)) <= K).
  { rewrite triples_add_triple, size_union_alt, size_singleton.
    rewrite (number_of_triples_wf _ Hwf) in Hlt.
    etrans; [apply Nat.add_le_mono_l, subseteq_size, subseteq_difference_l; reflexivity|].
    lia. }
  split; [done|]. simpl. split.
  - rewrite triples_add_triple. set_solver.
  - split; [done|]. by rewrite (number_of_triples_wf _ Hwf').
Qed.

Lemma fill_facts (KG : KnowledgeGraph) (K : nat) (ts : list triple) :
  Forall (fun t => t ∈ triples KG) ts ->
  forall S, summary_inv KG K S ->
    Forall (summary_inv KG K) (fill_steps S ts K) /\
    summary_inv KG K (fill S ts K) /\
    parent (fill S ts K) = parent S /\
    (number_of_triples (graph (fill S ts K)) = K \/
     triples (graph (fill S ts K)) = triples (graph S) ∪ list_to_set ts).
Proof.
  induction 1 as [|t ts Ht _ IH]; intros S Hinv; simpl.
  - split; [constructor|]. split; [done|]. split; [done|]. right. set_solver.
  - destruct (K <=? number_of_triples (graph S)) eqn:Hk.
    + apply Nat.leb_le in Hk. split; [constructor|]. split; [done|]. split; [done|].
      left. destruct Hinv as (_ & _ & _ & Hnum). lia.
    + apply Nat.leb_gt in Hk.
      pose proof (summary_inv_add KG K S t Hinv Hk Ht) as Hinv'.
      destruct (IH _ Hinv') as (H1 & H2 & H3 & H4).
      split; [by constructor|]. split; [done|]. split; [done|].
      destruct H4 as [H4|H4]; [by left|right].
      rewrite H4. simpl. rewrite triples_add_triple. set_solver.
Qed.

(** The padding phase reaches the requested size. *)
Lemma fill_all_size (KG : KnowledgeGraph) (K : nat) (ts : list triple) (S : Summary) :
  list_to_set ts = triples KG -> summary_inv KG K S ->
  size (triples (graph (fill S ts K))) = K `min` size (triples KG) /\
  (size (triples KG) <= K -> triples (graph (fill S ts K)) = triples KG).
Proof.
  intros Hts Hinv.
  assert (Hall : Forall (fun t => t ∈ triples KG) ts).
  { apply Forall_forall. intros t Ht. rewrite <- Hts. by apply elem_of_list_to_set. }
  destruct (fill_facts KG K ts Hall S Hinv) as (_ & (Hwf & Hsub & Hsize & Hnum) & _ & Hcase).
  pose proof (subseteq_size _ _ Hsub) as Hle.
  destruct Hcase as [Hk|Heq].
  - rewrite (number_of_triples_wf _ Hwf) in Hk. split; [lia|].
    intros HK. apply set_subseteq_size_eq; [done|lia].
  - assert (Heq' : triples (graph (fill S ts K)) = triples KG).
    { rewrite Heq, Hts. destruct Hinv as (_ & Hsub0 & _). set_solver. }
    split; [|done]. rewrite Heq' in *. lia.
Qed.

Lemma foldM_invariant_in {A B} (f : B -> A -> Result B) (I : B -> Prop) (l : list A) :
  (forall b a b', a ∈ l -> I b -> f b a = Ok b' -> I b') ->
  forall b b', I b -> foldM f b l = Ok b' -> I b'.
Proof.
  induction l as [|a l IH]; intros Hf b b' Hb; simpl.
  - by intros [= <-].
  - intros (b1 & Hb1 & Hrest)%bind_Ok. eapply IH; [| |exact Hrest].
    + intros b0 a0 b0' Ha0. apply Hf. by right.
    + eapply Hf; [left|exact Hb|exact Hb1].
Qed.

Lemma set_entity_value_triples (KG KG' : KnowledgeGraph) (e : string) (v : float) :
  set_entity_value KG e v = Ok KG' -> triples_ KG' = triples_ KG.
Proof.
  unfold set_entity_value. destruct (entity_value_ KG); [|done]. by intros [= <-].
Qed.

Lemma set_triple_value_triples (KG KG' : KnowledgeGraph) (t : triple) (v : float) :
  set_triple_value KG t v = Ok KG' -> triples_ KG' = triples_ KG.
Proof.
  unfold set_triple_value. destruct (triple_value_ KG); [|done]. by intros [= <-].
Qed.

Lemma triples_ext (KG KG' : KnowledgeGraph) :
  triples_ KG' = triples_ KG -> triples KG' = triples KG.
Proof. intros H. unfold triples, triple_list. by rewrite H. Qed.

(** The value model changes the annotation only. *)
Lemma model_user_pref_triples (np_log : float -> float) (KG KG' : KnowledgeGraph)
    (query_log : list Query) (power : nat) :
  model_user_pref np_log KG query_log power = Ok KG' -> triples KG' = triples KG.
Proof.
  unfold model_user_pref.
  intros (x & _ & (M & _ & (x' & _ & (KG1 & H1 & H2)%bind_Ok)%bind_Ok)%bind_Ok)%bind_Ok.
  apply triples_ext.
  apply (foldM_invariant _ (fun kg => triples_ kg = triples_ KG)) in H1; [| |done].
  - apply (foldM_invariant _ (fun kg => triples_ kg = triples_ KG)) in H2; [done| |done].
    intros kg [[e1 r] e2] kg' Hkg.
    intros (i & _ & (j & _ & (v1 & _ & (v2 & _ & Hset)%bind_Ok)%bind_Ok)%bind_Ok)%bind_Ok.
    apply set_triple_value_triples in Hset. congruence.
  - intros kg [eid val] kg' Hkg (e & _ & Hset)%bind_Ok.
    apply set_entity_value_triples in Hset. congruence.
Qed.

(** No error of the code is the model's [OutOfFuel]. *)
Lemma bind_no_fuel {A B} (m : Result A) (k : A -> Result B) :
  m ≠ Err OutOfFuel -> (forall a, m = Ok a -> k a ≠ Err OutOfFuel) ->
  m ≫= k ≠ Err OutOfFuel.
Proof. intros H1 H2. destruct m; simpl; [by apply H2 | congruence]. Qed.

Lemma of_option_no_fuel {A} (e : error) (o : option A) :
  e ≠ OutOfFuel -> of_option e o ≠ Err OutOfFuel.
Proof. destruct o; simpl; congruence. Qed.

Lemma foldM_no_fuel {A B} (f : B -> A -> Result B) (l : list A) :
  (forall b a, f b a ≠ Err OutOfFuel) -> forall b, foldM f b l ≠ Err OutOfFuel.
Proof.
  intros Hf. induction l as [|a l IH]; intros b; simpl; [done|].
  apply bind_no_fuel; auto.
Qed.

Lemma entity_value_no_fuel (KG : KnowledgeGraph) (e : string) :
  entity_value KG e ≠ Err OutOfFuel.
Proof. unfold entity_value. by destruct (entity_value_ KG). Qed.

Lemma triple_value_no_fuel (KG : KnowledgeGraph) (t : triple) :
  triple_value KG t ≠ Err OutOfFuel.
Proof. unfold triple_value. by destruct (triple_value_ KG). Qed.

Lemma marginal_value_no_fuel (S : Summary) (t : triple) :
  marginal_value S t ≠ Err OutOfFuel.
Proof.
  destruct t as [[e1 r] e2]. unfold marginal_value.
  repeat (apply bind_no_fuel; [|intros ? _]); try done;
    (case_match; [|done]; apply bind_no_fuel; [|done]);
    first [apply entity_value_no_fuel | apply triple_value_no_fuel].
Qed.

Lemma _update_marginal_no_fuel (S : Summary) (h : list HeapTriple) (item : nat) :
  _update_marginal S h item ≠ Err OutOfFuel.
Proof.
  unfold _update_marginal. apply bind_no_fuel; [by apply of_option_no_fuel|].
  intros it _. apply bind_no_fuel; [apply marginal_value_no_fuel|done].
Qed.

Lemma _lazy_greedy_no_fuel (S : Summary) (h : list HeapTriple) (l : list nat) :
  _lazy_greedy S h l ≠ Err OutOfFuel.
Proof.
  unfold _lazy_greedy. apply bind_no_fuel; [by apply of_option_no_fuel|].
  intros top _. apply bind_no_fuel; [apply _update_marginal_no_fuel|].
  intros h' _. apply bind_no_fuel; [by apply of_option_no_fuel|done].
Qed.

Lemma Heap_sample_no_fuel (n : nat) (sample_size : Z) (g : list nat) :
  Heap_sample n sample_size g ≠ Err OutOfFuel.
Proof.
  unfold Heap_sample. repeat case_match; done.
Qed.

Lemma Heap_update_no_fuel (S : Summary) (h : list HeapTriple) (sample_size : Z)
    (g : list nat) :
  Heap_update S h sample_size g ≠ Err OutOfFuel.
Proof.
  unfold Heap_update. apply bind_no_fuel; [apply Heap_sample_no_fuel|].
  intros [[indices|] g'] _; [|done].
  apply bind_no_fuel; [apply _lazy_greedy_no_fuel|].
  intros [[b a] h'] _. case_match; [done|].
  apply bind_no_fuel; [|by intros [[? ?] ?] _].
  apply foldM_no_fuel. intros [[hh tp] am] i.
  apply bind_no_fuel; [by apply of_option_no_fuel|].
  intros item _. destruct (triple_ item) as [[e1 r] e2].
  apply bind_no_fuel; [case_match; [apply _update_marginal_no_fuel|done]|].
  intros h2 _. apply bind_no_fuel; [by apply of_option_no_fuel|].
  intros vt _. apply bind_no_fuel; [by apply of_option_no_fuel|].
  intros vi _. by case_match.
Qed.

Section selection.
Variable np_log : float -> float.
Variable iter_set : gset triple -> list triple.
Hypothesis iter_set_perm : forall X : gset triple, iter_set X ≡ₚ elements X.

Lemma iter_set_elem (X : gset triple) (t : triple) : t ∈ iter_set X <-> t ∈ X.
Proof. by rewrite iter_set_perm, elem_of_elements. Qed.

Lemma iter_set_to_set (X : gset triple) : list_to_set (iter_set X) = X.
Proof.
  apply set_eq. intros t. by rewrite elem_of_list_to_set, iter_set_elem.
Qed.

Lemma Heap_init_facts (KG : KnowledgeGraph) (heap : list HeapTriple) :
  Heap_init iter_set KG = Ok heap -> heap_all (fun t => t ∈ triples KG) heap.
Proof.
  unfold Heap_init.
  apply (foldM_invariant_in _ (heap_all (fun t => t ∈ triples KG))); [|constructor].
  intros h [[e1 r] e2] h' Hin Hh.
  intros (v1 & _ & (v2 & _ & (v3 & _ & [= <-])%bind_Ok)%bind_Ok)%bind_Ok.
  case_match; [|done]. apply Forall_app. split; [done|].
  apply Forall_singleton. simpl. by apply iter_set_elem.
Qed.


Lemma GLIMPSE_loop_facts (KG : KnowledgeGraph) (K : nat) (sample_size : Z) (fuel : nat) :
  forall (S : Summary) (heap : list HeapTriple) (g : list nat),
    length heap <= fuel -> summary_inv KG K S ->
    heap_all (fun t => t ∈ triples KG) heap ->
    (forall S', Added S' ∈ (GLIMPSE_loop fuel S heap g sample_size K).1 ->
       summary_inv KG K S') /\
    (forall n indices,
       Sampled n indices ∈ (GLIMPSE_loop fuel S heap g sample_size K).1 ->
       n < length heap /\
       exists g1 g2, Heap_sample n sample_size g1 = Ok (Some indices, g2)) /\
    (GLIMPSE_loop fuel S heap g sample_size K).2 ≠ Err OutOfFuel /\
    (forall S', (GLIMPSE_loop fuel S heap g sample_size K).2 = Ok S' ->
       summary_inv KG K S' /\ parent S' = parent S).
Proof.
  induction fuel as [|fuel IH]; intros S heap g Hfuel Hinv Hheap.
  - destruct heap; [|simpl in Hfuel; lia]. simpl.
    split; [intros ? []%not_elem_of_nil|]. split; [intros ? ? []%not_elem_of_nil|].
    split; [done|]. by intros S' [= <-].
  - cbn [GLIMPSE_loop].
    destruct ((0 <? Heap_len heap) && (number_of_triples (graph S) <? K)) eqn:Hcond.
    2:{ simpl. split; [intros ? []%not_elem_of_nil|].
        split; [intros ? ? []%not_elem_of_nil|]. split; [done|]. by intros S' [= <-]. }
    apply andb_true_iff in Hcond as [Hlen%Nat.ltb_lt Hnum%Nat.ltb_lt].
    destruct (Heap_pop_ok heap Hlen) as (t & heap1 & Hpop). rewrite Hpop.
    apply (Heap_pop_facts (fun t => t ∈ triples KG)) in Hpop as [Hlen1 Hpop].
    destruct (Hpop Hheap) as [Ht Hheap1].
    pose proof (summary_inv_add KG K S t Hinv Hnum Ht) as Hinv1.
    assert (Hev : forall n indices,
              Sampled n indices ∈ sample_events heap1 sample_size g ->
              n < length heap /\
              exists g1 g2, Heap_sample n sample_size g1 = Ok (Some indices, g2)).
    { intros n indices. unfold sample_events.
      destruct (Heap_sample _ _ _) as [[[idx|] g2]|] eqn:Hs;
        try (by intros []%not_elem_of_nil).
      intros [= -> ->]%list_elem_of_singleton. split; [lia|eauto]. }
    destruct (Heap_update (Summary_add_triple S t) heap1 sample_size g)
      as [[heap2 g2]|err] eqn:Hupd.
    2:{ simpl. split.
        { intros S' [[= ->]|Hin]%elem_of_cons; [done|].
          unfold sample_events in Hin.
          destruct (Heap_sample _ _ _) as [[[?|] ?]|];
            first [by apply not_elem_of_nil in Hin
                  | by apply list_elem_of_singleton in Hin]. }
        split.
        { intros n indices [[=]|Hin]%elem_of_cons. by apply Hev. }
        split; [|done]. intros [= ->]. by apply Heap_update_no_fuel in Hupd. }
    apply (Heap_update_facts (fun t => t ∈ triples KG)) in Hupd as [Hlen2 Hheap2].
    specialize (IH (Summary_add_triple S t) heap2 g2).
    destruct IH as (IH1 & IH2 & IH3 & IH4); [lia|done|auto|].
    destruct (GLIMPSE_loop fuel (Summary_add_triple S t) heap2 g2 sample_size K)
      as [log' res]. simpl in *.
    split.
    { intros S' [[= ->]|[Hin|Hin]%elem_of_app]%elem_of_cons; [done| |by apply IH1].
      unfold sample_events in Hin.
      destruct (Heap_sample _ _ _) as [[[?|] ?]|];
        first [by apply not_elem_of_nil in Hin
              | by apply list_elem_of_singleton in Hin]. }
    split.
    { intros n indices [[=]|[Hin|Hin]%elem_of_app]%elem_of_cons; [by apply Hev|].
      destruct (IH2 _ _ Hin) as [? ?]. split; [lia|done]. }
    split; [done|]. intros S' HS'. destruct (IH4 _ HS') as [? ?]. done.
Qed.

End selection.

Lemma py_div_no_fuel (x y : float) : py_div x y ≠ Err OutOfFuel.
Proof. unfold py_div. repeat case_match; done. Qed.

Lemma py_int_no_fuel (x : float) : py_int x ≠ Err OutOfFuel.
Proof. by destruct x. Qed.

Lemma GLIMPSE_sample_size_no_fuel (np_log : float -> float) (n K : nat)
    (epsilon : option float) :
  GLIMPSE_sample_size np_log n K epsilon ≠ Err OutOfFuel.
Proof.
  unfold GLIMPSE_sample_size. destruct epsilon as [eps|]; [|done].
  apply bind_no_fuel; [apply py_div_no_fuel|]. intros ratio _.
  apply bind_no_fuel; [apply py_div_no_fuel|]. intros inv _.
  apply py_int_no_fuel.
Qed.

Lemma Heap_init_no_fuel (iter_set : gset triple -> list triple) (KG : KnowledgeGraph) :
  Heap_init iter_set KG ≠ Err OutOfFuel.
Proof.
  unfold Heap_init. apply foldM_no_fuel. intros h [[e1 r] e2].
  apply bind_no_fuel; [apply entity_value_no_fuel|]. intros v1 _.
  apply bind_no_fuel; [apply entity_value_no_fuel|]. intros v2 _.
  apply bind_no_fuel; [apply triple_value_no_fuel|]. by intros v3 _.
Qed.


Lemma summary_inv_ext (KG KG' : KnowledgeGraph) (K : nat) (S : Summary) :
  triples KG' = triples KG -> summary_inv KG' K S -> summary_inv KG K S.
Proof. unfold summary_inv. by intros ->. Qed.

Lemma GLIMPSE_loop_ok (K : nat) (sample_size : Z) (fuel : nat) :
  (0 <= sample_size)%Z ->
  forall (S : Summary) (heap : list HeapTriple) (g : list nat),
    length heap <= fuel -> scored (parent S) ->
    exists S', (GLIMPSE_loop fuel S heap g sample_size K).2 = Ok S'.
Proof.
  intros Hss. induction fuel as [|fuel IH]; intros S heap g Hfuel Hsc.
  - destruct heap; [|simpl in Hfuel; lia]. simpl. eauto.
  - cbn [GLIMPSE_loop].
    destruct ((0 <? Heap_len heap) && (number_of_triples (graph S) <? K)) eqn:Hcond;
      [|simpl; eauto].
    apply andb_true_iff in Hcond as [Hlen%Nat.ltb_lt Hnum%Nat.ltb_lt].
    destruct (Heap_pop_ok heap Hlen) as (t & heap1 & Hpop). rewrite Hpop.
    apply (Heap_pop_facts (fun _ => True)) in Hpop as [Hlen1 _].
    destruct (Heap_update_ok (Summary_add_triple S t) heap1 sample_size g Hsc Hss)
      as [[heap2 g2] Hupd].
    rewrite Hupd.
    apply (Heap_update_facts (fun _ => True)) in Hupd as [Hlen2 _].
    destruct (IH (Summary_add_triple S t) heap2 g2) as [S' HS']; [lia|done|].
    destruct (GLIMPSE_loop fuel (Summary_add_triple S t) heap2 g2 sample_size K)
      as [log' res].
    simpl in *. eauto.
Qed.

Section selection_facts.
Variable np_log : float -> float.
Variable iter_set : gset triple -> list triple.
Hypothesis iter_set_perm : forall X : gset triple, iter_set X ≡ₚ elements X.

Lemma Added_fill_steps (KG : KnowledgeGraph) (K : nat) (S S' : Summary)
    (ts : list triple) :
  Forall (fun t => t ∈ triples KG) ts -> summary_inv KG K S ->
  Added S' ∈ Added <$> fill_steps S ts K -> summary_inv KG K S'.
Proof.
  intros Hts Hinv (S1 & [= ->] & Hin)%list_elem_of_fmap.
  destruct (fill_facts KG K ts Hts S Hinv) as (Hsteps & _).
  by apply (proj1 (Forall_forall _ _) Hsteps).
Qed.

Lemma Sampled_fill_steps (K n : nat) (S : Summary) (ts : list triple)
    (indices : list nat) :
  Sampled n indices ∉ Added <$> fill_steps S ts K.
Proof. by intros (S1 & [=] & _)%list_elem_of_fmap. Qed.

Lemma iter_set_Forall (KG : KnowledgeGraph) :
  Forall (fun t => t ∈ triples KG) (iter_set (triples KG)).
Proof. apply Forall_forall. intros t. by rewrite (iter_set_elem iter_set). Qed.

(** The selection on a graph [KG]: what every execution guarantees. *)
Lemma GLIMPSE_select_facts (KG : KnowledgeGraph) (K : nat) (epsilon : option float)
    (g : list nat) :
  (forall S, Added S ∈ (GLIMPSE_select np_log iter_set KG K epsilon g).1 ->
     summary_inv KG K S) /\
  (GLIMPSE_select np_log iter_set KG K epsilon g).2 ≠ Err OutOfFuel /\
  (forall S, (GLIMPSE_select np_log iter_set KG K epsilon g).2 = Ok S ->
     summary_inv KG K S /\
     size (triples (graph S)) = K `min` size (triples KG) /\
     (size (triples KG) <= K -> triples (graph S) = triples KG)) /\
  (forall heap n indices,
     Heap_init iter_set KG = Ok heap ->
     Sampled n indices ∈ (GLIMPSE_select np_log iter_set KG K epsilon g).1 ->
     (n = length heap /\ K < n /\
      exists g1 g2, Heap_sample n (Z.of_nat n) g1 = Ok (Some indices, g2)) \/
     (n < length heap /\
      exists m0, GLIMPSE_sample_size np_log (length heap) K epsilon = Ok m0 /\
      exists g1 g2, Heap_sample n m0 g1 = Ok (Some indices, g2))).
Proof.
  unfold GLIMPSE_select.
  destruct (Heap_init iter_set KG) as [heap|err] eqn:Hinit.
  2:{ simpl. split; [intros ? []%not_elem_of_nil|].
      split; [intros [= ->]; by apply Heap_init_no_fuel in Hinit|].
      split; [done|]. intros ? ? ? [=]. }
  pose proof (Heap_init_facts iter_set iter_set_perm KG heap Hinit) as Hheap.
  pose proof (summary_inv_init KG K) as Hinv0.
  assert (Hts : Forall (fun t => t ∈ triples KG) (Heap_triples heap)).
  { unfold Heap_triples. apply Forall_fmap. exact Hheap. }
  match goal with |- context [let '(log, res) := ?p in _] => set (P := p) end.
  assert (HP : (forall S, Added S ∈ P.1 -> summary_inv KG K S) /\
               P.2 ≠ Err OutOfFuel /\
               (forall S, P.2 = Ok S -> summary_inv KG K S) /\
               (forall n indices, Sampled n indices ∈ P.1 ->
                  (n = length heap /\ K < n /\
                   exists g1 g2, Heap_sample n (Z.of_nat n) g1 = Ok (Some indices, g2)) \/
                  (n < length heap /\
                   exists m0, GLIMPSE_sample_size np_log (length heap) K epsilon = Ok m0 /\
                   exists g1 g2, Heap_sample n m0 g1 = Ok (Some indices, g2)))).
  { subst P. destruct (Heap_len heap <=? K) eqn:HlenK.
    { simpl. split; [intros S; by apply Added_fill_steps|]. split; [done|].
      split; [intros S [= <-]; by apply (fill_facts KG K _ Hts)|].
      intros n indices Hin. by apply Sampled_fill_steps in Hin. }
    apply Nat.leb_gt in HlenK. unfold Heap_len in *.
    assert (Hev : forall n indices,
              Sampled n indices ∈ sample_events heap (Z.of_nat (length heap)) g ->
              n = length heap /\ K < n /\
              exists g1 g2, Heap_sample n (Z.of_nat n) g1 = Ok (Some indices, g2)).
    { intros n indices. unfold sample_events.
      destruct (Heap_sample _ _ _) as [[[idx|] g2]|] eqn:Hs;
        try (by intros []%not_elem_of_nil).
      intros [= -> ->]%list_elem_of_singleton. eauto. }
    assert (Hnoadd : forall S, Added S ∉ sample_events heap (Z.of_nat (length heap)) g).
    { intros S. unfold sample_events.
      destruct (Heap_sample _ _ _) as [[[idx|] g2]|];
        first [apply not_elem_of_nil | by intros [=]%list_elem_of_singleton]. }
    destruct (Heap_update (Summary_init KG) heap (Z.of_nat (length heap)) g)
      as [[heap1 g1]|err] eqn:Hupd.
    2:{ simpl. split; [intros S Hin; by apply Hnoadd in Hin|].
        split; [intros [= ->]; by apply Heap_update_no_fuel in Hupd|].
        split; [done|]. intros n indices Hin. left. by apply Hev. }
    apply (Heap_update_facts (fun t => t ∈ triples KG)) in Hupd as [Hlen1 Hheap1].
    rewrite Hlen1.
    destruct (GLIMPSE_sample_size np_log (length heap) K epsilon)
      as [sample_size|err] eqn:Hss.
    2:{ simpl. split; [intros S Hin; by apply Hnoadd in Hin|].
        split; [intros [= ->]; by apply GLIMPSE_sample_size_no_fuel in Hss|].
        split; [done|]. intros n indices Hin. left. by apply Hev. }
    destruct (GLIMPSE_loop_facts KG K sample_size (length heap)
                (Summary_init KG) heap1 g1) as (L1 & L2 & L3 & L4); [lia|done|auto|].
    destruct (GLIMPSE_loop (length heap) (Summary_init KG) heap1 g1 sample_size K)
      as [log' res].
    simpl in *. split.
    { intros S [Hin|Hin]%elem_of_app; [by apply Hnoadd in Hin | by apply L1]. }
    split; [done|]. split; [intros S HS; by apply L4|].
    intros n indices [Hin|Hin]%elem_of_app; [left; by apply Hev|].
    right. destruct (L2 _ _ Hin) as [Hn Hs]. split; [lia|]. eauto. }
  destruct P as [log res]. simpl in HP. destruct HP as (P1 & P2 & P3 & P4).
  destruct res as [S'|err]; simpl.
  2:{ split; [done|]. split; [done|]. split; [done|]. intros ? ? ? [= <-]. auto. }
  specialize (P3 S' eq_refl).
  destruct (fill_facts KG K _ (iter_set_Forall KG) S' P3) as (F1 & F2 & _).
  destruct (fill_all_size KG K (iter_set (triples KG)) S'
              (iter_set_to_set iter_set iter_set_perm _) P3) as [F3 F4].
  split.
  { intros S [Hin|Hin]%elem_of_app; [by apply P1|].
    exact (Added_fill_steps KG K S' S _ (iter_set_Forall KG) P3 Hin). }
  split; [done|]. split; [by intros S [= <-]|].
  intros heap' n indices [= <-] [Hin|Hin]%elem_of_app; [by apply P4|].
  by apply Sampled_fill_steps in Hin.
Qed.


End selection_facts.

(** ** The value model raises Python's errors only *)

Lemma mapM_R_no_fuel {A B} (f : A -> Result B) (l : list A) :
  (forall a, f a ≠ Err OutOfFuel) -> mapM_R f l ≠ Err OutOfFuel.
Proof.
  intros Hf. induction l as [|a l IH]; simpl; [done|].
  apply bind_no_fuel; [apply Hf|]. intros b _.
  apply bind_no_fuel; [apply IH|]. by intros bs _.
Qed.

Lemma entity_id_no_fuel (KG : KnowledgeGraph) (e : string) :
  entity_id KG e ≠ Err OutOfFuel.
Proof. by apply of_option_no_fuel. Qed.

Lemma id_entity_no_fuel (KG : KnowledgeGraph) (i : nat) :
  id_entity KG i ≠ Err OutOfFuel.
Proof. by apply of_option_no_fuel. Qed.

Lemma coo_to_csr_no_fuel (n : nat) (coo : list (nat * nat * float)) :
  coo_to_csr n coo ≠ Err OutOfFuel.
Proof. unfold coo_to_csr. by case_match. Qed.

Lemma csr_matrix_no_fuel (KG : KnowledgeGraph) : csr_matrix KG ≠ Err OutOfFuel.
Proof.
  unfold csr_matrix. apply bind_no_fuel; [|intros; apply coo_to_csr_no_fuel].
  apply mapM_R_no_fuel. intros [[e1 r] e2].
  apply bind_no_fuel; [apply entity_id_no_fuel|]. intros row _.
  apply bind_no_fuel; [apply entity_id_no_fuel|]. by intros col _.
Qed.

Lemma transition_matrix_no_fuel (KG : KnowledgeGraph) :
  transition_matrix KG ≠ Err OutOfFuel.
Proof.
  unfold transition_matrix. apply bind_no_fuel.
  { apply mapM_R_no_fuel. intros [[e1 r] e2].
    apply bind_no_fuel; [apply entity_id_no_fuel|]. intros row _.
    apply bind_no_fuel; [apply entity_id_no_fuel|]. by intros col _. }
  intros coo _. apply bind_no_fuel; [apply coo_to_csr_no_fuel|]. intros D _.
  apply bind_no_fuel; [apply csr_matrix_no_fuel|]. intros A _.
  unfold sp_matmul. by case_match.
Qed.

Lemma query_vector_no_fuel (KG : KnowledgeGraph) (query_log : list Query) :
  query_vector KG query_log ≠ Err OutOfFuel.
Proof.
  unfold query_vector. apply foldM_no_fuel. intros x query.
  apply bind_no_fuel; [apply entity_id_no_fuel|]. intros i _. by case_match.
Qed.

Lemma rwr_loop_no_fuel (M : spmatrix) (c : float) (power : nat)
    (qr : list float * list float) :
  rwr_loop M c power qr ≠ Err OutOfFuel.
Proof.
  revert qr. induction power as [|power IH]; intros [q r]; simpl; [done|].
  apply bind_no_fuel; [|intros; apply IH].
  apply bind_no_fuel; [|done]. unfold sp_matvec. by case_match.
Qed.

Lemma model_user_pref_no_fuel (np_log : float -> float) (KG : KnowledgeGraph)
    (query_log : list Query) (power : nat) :
  model_user_pref np_log KG query_log power ≠ Err OutOfFuel.
Proof.
  unfold model_user_pref.
  apply bind_no_fuel; [apply query_vector_no_fuel|]. intros x _.
  apply bind_no_fuel; [apply transition_matrix_no_fuel|]. intros M _.
  apply bind_no_fuel.
  { unfold random_walk_with_restart.
    apply bind_no_fuel; [apply rwr_loop_no_fuel|done]. }
  intros x' _. apply bind_no_fuel.
  { apply foldM_no_fuel. intros kg [eid val].
    apply bind_no_fuel; [apply id_entity_no_fuel|]. intros e _.
    unfold set_entity_value. by case_match. }
  intros KG1 _. apply foldM_no_fuel. intros kg [[e1 r] e2].
  apply bind_no_fuel; [apply entity_id_no_fuel|]. intros i _.
  apply bind_no_fuel; [apply entity_id_no_fuel|]. intros j _.
  apply bind_no_fuel; [by apply of_option_no_fuel|]. intros v1 _.
  apply bind_no_fuel; [by apply of_option_no_fuel|]. intros v2 _.
  unfold set_triple_value. by case_match.
Qed.

(** ** Claim C3: the summary under construction *)

(** C3: in every execution of [GLIMPSE(G, K, workload)] (whatever the
    workload, [epsilon], [power] and the random draws, and also when the
    execution ends in an error) the summary holds at most [K] triples after
    every [add_triple] of the selection loop and of the two padding phases,
    and at the end, and each of its triples is a triple of [G]. The loop of
    the model never runs out of fuel, so this covers every execution of the
    code. *)
Theorem GLIMPSE_summary_invariant (np_log : float -> float)
    (iter_set : gset triple -> list triple) (KG : KnowledgeGraph) (K : nat)
    (query_log : list Query) (epsilon : option float) (power : nat) (g : list nat) :
  (forall X : gset triple, iter_set X ≡ₚ elements X) ->
  (forall S,
     Added S ∈ (GLIMPSE_exec np_log iter_set KG K query_log epsilon power g).1 ->
     size (triples (graph S)) <= K /\
     number_of_triples (graph S) <= K /\
     triples (graph S) ⊆ triples KG) /\
  (forall S,
     GLIMPSE np_log iter_set KG K query_log epsilon power g = Ok S ->
     size (triples (graph S)) <= K /\
     number_of_triples (graph S) <= K /\
     triples (graph S) ⊆ triples KG) /\
  GLIMPSE np_log iter_set KG K query_log epsilon power g ≠ Err OutOfFuel.
Proof.
  intros Hperm. unfold GLIMPSE, GLIMPSE_exec.
  destruct (model_user_pref np_log KG query_log power) as [KG'|err] eqn:Hrun.
  2:{ simpl. split; [intros ? []%not_elem_of_nil|]. split; [done|].
      intros [= ->]. by apply model_user_pref_no_fuel in Hrun. }
  pose proof (model_user_pref_triples _ _ _ _ _ Hrun) as Htr.
  destruct (GLIMPSE_select_facts np_log iter_set Hperm KG' K epsilon g)
    as (H1 & H2 & H3 & _).
  split.
  { intros S HS. destruct (summary_inv_ext KG KG' K S Htr (H1 S HS))
      as (_ & ? & ? & ?). done. }
  split; [|done].
  intros S HS. destruct (H3 S HS) as [Hinv _].
  destruct (summary_inv_ext KG KG' K S Htr Hinv) as (_ & ? & ? & ?). done.
Qed.

Lemma GLIMPSE_summary_invariant_witness :
  (forall S,
     Added S ∈ (GLIMPSE_exec np_log_approx elements cycle_graph 2
                  [topic_query "a"] (Some (Fin (1 # 1000))) 1 []).1 ->
     size (triples (graph S)) <= 2 /\
     number_of_triples (graph S) <= 2 /\
     triples (graph S) ⊆ triples cycle_graph) /\
  (forall S,
     GLIMPSE np_log_approx elements cycle_graph 2
       [topic_query "a"] (Some (Fin (1 # 1000))) 1 [] = Ok S ->
     size (triples (graph S)) <= 2 /\
     number_of_triples (graph S) <= 2 /\
     triples (graph S) ⊆ triples cycle_graph) /\
  GLIMPSE np_log_approx elements cycle_graph 2
    [topic_query "a"] (Some (Fin (1 # 1000))) 1 [] ≠ Err OutOfFuel.
Proof.
  apply (GLIMPSE_summary_invariant np_log_approx elements cycle_graph 2
           [topic_query "a"] (Some (Fin (1 # 1000))) 1 []).
  intros X. reflexivity.
Defined.

(** ** Claim C2: the size of the summary *)





(** ** Claim C6: the samples of the selection loop *)




(** * Further properties of the code *)

(** ** The graph store ([src/base.py]) *)

Lemma relationships_record_entity (kg : KnowledgeGraph) (e : string) :
  relationships_ (record_entity kg e) = relationships_ kg.
Proof. unfold record_entity. by destruct (has_entity kg e). Qed.

Lemma relationships_add_triple (kg : KnowledgeGraph) (e1 r e2 : string) :
  relationships_ (add_triple kg (e1, r, e2))
  = if has_triple kg (e1, r, e2) then relationships_ kg
    else {[r]} ∪ relationships_ kg.
Proof.
  unfold add_triple. destruct (has_triple kg (e1, r, e2)); [done|].
  simpl. by rewrite !relationships_record_entity.
Qed.

Lemma relations_of_insert (X : gset triple) (e1 r e2 : string) :
  relations_of ({[(e1, r, e2)]} ∪ X) = {[r]} ∪ relations_of X.
Proof. unfold relations_of. by rewrite set_map_union_L, set_map_singleton_L. Qed.

Lemma relationships_foldl (ts : list triple) :
  forall kg : KnowledgeGraph,
    relationships_ kg = relations_of (triples kg) ->
    relationships_ (foldl add_triple kg ts)
    = relations_of (triples (foldl add_triple kg ts)).
Proof.
  induction ts as [|[[e1 r] e2] ts IH]; intros kg Hkg; [done|].
  cbn [foldl]. apply IH. rewrite relationships_add_triple, triples_add_triple.
  destruct (has_triple kg (e1, r, e2)) eqn:Hh.
  - apply elem_of_triples in Hh. rewrite Hkg. f_equal. set_solver.
  - by rewrite relations_of_insert, Hkg.
Qed.

(** X1: a graph loaded by any sequence of [add_triple] calls (repeats
    allowed) stores exactly the triples inserted: [triples()] is their set,
    [number_of_triples()] counts the distinct ones, [entities()] is the set
    of their subjects and objects ([number_of_entities()] its size),
    [relationships()] the set of their relations, and [has_triple] answers
    membership. *)
Theorem KG_of_list_store (cls : KGClass) (ts : list triple) :
  triples (KG_of_list cls ts) = list_to_set ts /\
  number_of_triples (KG_of_list cls ts) = size (list_to_set ts : gset triple) /\
  entities (KG_of_list cls ts) = entities_of (list_to_set ts) /\
  number_of_entities (KG_of_list cls ts) = size (entities_of (list_to_set ts)) /\
  relationships (KG_of_list cls ts) = relations_of (list_to_set ts) /\
  number_of_relationships (KG_of_list cls ts) = size (relations_of (list_to_set ts)) /\
  (forall t, has_triple (KG_of_list cls ts) t = bool_decide (t ∈ ts)) /\
  (forall e, has_entity (KG_of_list cls ts) e
             = bool_decide (e ∈ entities_of (list_to_set ts))) /\
  (forall r, has_relationship (KG_of_list cls ts) r
             = bool_decide (r ∈ relations_of (list_to_set ts))).
Proof.
  pose proof (KG_wf_of_list cls ts) as Hwf.
  pose proof (triples_of_list cls ts) as Htr.
  assert (Hent : entities (KG_of_list cls ts) = entities_of (list_to_set ts)).
  { apply set_eq. intros e. rewrite <- Htr.
    rewrite <- (wf_has_entity _ e Hwf). unfold has_entity, entities.
    by rewrite bool_decide_eq_true. }
  assert (Hrel : relationships (KG_of_list cls ts) = relations_of (list_to_set ts)).
  { rewrite <- Htr. unfold relationships, KG_of_list. by apply relationships_foldl. }
  split; [exact Htr|]. split; [rewrite <- Htr; apply (wf_count _ Hwf)|].
  split; [exact Hent|].
  split; [unfold number_of_entities; by rewrite <- Hent|].
  split; [exact Hrel|].
  split; [unfold number_of_relationships; by rewrite <- Hrel|].
  split.
  { intros t. apply eq_true_iff_eq.
    rewrite <- elem_of_triples, Htr, bool_decide_eq_true. apply elem_of_list_to_set. }
  split.
  - intros e. unfold has_entity. by rewrite <- Hent.
  - intros r. unfold has_relationship. by rewrite <- Hrel.
Qed.

Lemma entity_id_record_entity (kg : KnowledgeGraph) (e e' : string) (i : nat) :
  ids_wf kg -> entity_id_ kg !! e = Some i ->
  entity_id_ (record_entity kg e') !! e = Some i.
Proof.
  intros Hids He. unfold record_entity, has_entity.
  destruct (decide (e' ∈ entities_ kg)) as [Hin|Hnin].
  - by rewrite (bool_decide_eq_true_2 _ Hin).
  - rewrite (bool_decide_eq_false_2 _ Hnin). simpl.
    rewrite lookup_insert_ne; [done|]. intros ->. apply Hnin.
    apply (wf_entity_dom _ Hids). eauto.
Qed.

Lemma id_entity_record_entity (kg : KnowledgeGraph) (e e' : string) (i : nat) :
  ids_wf kg -> id_entity_ kg !! i = Some e ->
  id_entity_ (record_entity kg e') !! i = Some e.
Proof.
  intros Hids He. unfold record_entity. destruct (has_entity kg e'); [done|]. simpl.
  rewrite lookup_insert_ne; [done|]. intros <-.
  assert (eid_ kg < eid_ kg); [|lia]. apply (wf_id_range _ Hids). eauto.
Qed.

(** X2: on a graph built by [add_triple], inserting a triple a second time
    changes nothing at all (triples, counters and identifier tables), and
    inserting any triple never changes the identifier of an entity that has
    one, nor the entity of an identifier in use. *)
Theorem add_triple_idempotent_ids_stable (kg : KnowledgeGraph) (t : triple) :
  KG_wf kg ->
  add_triple (add_triple kg t) t = add_triple kg t /\
  (forall e i, entity_id kg e = Ok i -> entity_id (add_triple kg t) e = Ok i) /\
  (forall e i, id_entity kg i = Ok e -> id_entity (add_triple kg t) i = Ok e).
Proof.
  intros Hwf. pose proof (wf_ids _ Hwf) as Hids. split.
  { assert (Hh : has_triple (add_triple kg t) t = true)
      by (apply has_triple_add_triple; by left).
    destruct t as [[e1 r] e2]. unfold add_triple at 1. by rewrite Hh. }
  destruct t as [[e1 r] e2]. unfold entity_id, id_entity, add_triple.
  destruct (has_triple kg (e1, r, e2)); [done|]. simpl. split.
  - intros e i He%of_option_Ok. apply of_option_Ok.
    apply entity_id_record_entity; [by apply ids_wf_record_entity|].
    by apply entity_id_record_entity.
  - intros e i He%of_option_Ok. apply of_option_Ok.
    apply id_entity_record_entity; [by apply ids_wf_record_entity|].
    by apply id_entity_record_entity.
Qed.

Lemma add_triple_idempotent_ids_stable_witness :
  add_triple (add_triple fork_graph ("c", "s", "d")) ("c", "s", "d")
  = add_triple fork_graph ("c", "s", "d") /\
  (forall e i, entity_id fork_graph e = Ok i ->
     entity_id (add_triple fork_graph ("c", "s", "d")) e = Ok i) /\
  (forall e i, id_entity fork_graph i = Ok e ->
     id_entity (add_triple fork_graph ("c", "s", "d")) i = Ok e).
Proof.
  apply (add_triple_idempotent_ids_stable fork_graph ("c", "s", "d")).
  apply KG_wf_of_list.
Defined.

(** X3: on a graph loaded by [add_triple] calls, [entity_id] and
    [id_entity] are inverse bijections between the entities and the
    identifiers 0 .. number_of_entities() - 1: each returns exactly on
    that domain (KeyError outside it) and undoes the other. *)
Theorem entity_id_id_entity_inverse (cls : KGClass) (ts : list triple) :
  (forall e i, entity_id (KG_of_list cls ts) e = Ok i
               <-> id_entity (KG_of_list cls ts) i = Ok e) /\
  (forall e, e ∈ entities (KG_of_list cls ts) ->
     exists i, entity_id (KG_of_list cls ts) e = Ok i /\
               i < number_of_entities (KG_of_list cls ts)) /\
  (forall e, e ∉ entities (KG_of_list cls ts) ->
     entity_id (KG_of_list cls ts) e = Err KeyError) /\
  (forall i, i < number_of_entities (KG_of_list cls ts) ->
     exists e, id_entity (KG_of_list cls ts) i = Ok e /\
               e ∈ entities (KG_of_list cls ts)) /\
  (forall i, number_of_entities (KG_of_list cls ts) <= i ->
     id_entity (KG_of_list cls ts) i = Err KeyError).
Proof.
  pose proof (wf_ids _ (KG_wf_of_list cls ts)) as Hids.
  set (KG := KG_of_list cls ts) in *.
  pose proof (wf_number_of_entities _ Hids) as Hn.
  unfold entity_id, id_entity, entities.
  split; [intros e i; rewrite !of_option_Ok; apply (wf_id_inverse _ Hids)|].
  split.
  { intros e [i Hi]%(wf_entity_dom _ Hids). exists i. rewrite Hi. split; [done|].
    rewrite Hn. by apply (wf_id_lt _ e). }
  split.
  { intros e He. destruct (entity_id_ KG !! e) as [i|] eqn:Hi; [|done].
    exfalso. apply He, (wf_entity_dom _ Hids). eauto. }
  split.
  { intros i Hi. rewrite Hn in Hi. apply (wf_id_range _ Hids) in Hi as [e He].
    exists e. rewrite He. split; [done|].
    apply (wf_entity_dom _ Hids). exists i. by apply (wf_id_inverse _ Hids). }
  intros i Hi. destruct (id_entity_ KG !! i) as [e|] eqn:He; [|done].
  exfalso. assert (i < eid_ KG); [|lia]. apply (wf_id_range _ Hids). eauto.
Qed.

Lemma elem_of_objects (KG : KnowledgeGraph) (e r o : string) :
  o ∈ objects KG e r <-> (e, r, o) ∈ triples KG.
Proof.
  rewrite elem_of_triples, has_triple_spec. unfold objects. split.
  - destruct (triples_ KG !! e) as [d|]; [|set_solver].
    destruct (d !! r) as [s|] eqn:Hr; simpl; [eauto|set_solver].
  - intros (d & s & -> & Hr & Ho). by rewrite Hr.
Qed.

(** X4: [KG[e]] and [e in KG] are about subjects only. On a graph loaded by
    [add_triple] calls, [e in KG] holds exactly when [e] is the subject of a
    triple, and [KG[e]] raises KeyError otherwise, also for an entity of the
    graph that occurs only as an object; when [KG[e]] returns, every
    relation it lists has a set of objects that is not empty, and that set
    holds exactly the objects of the triples of [e] with the relation. *)
Theorem getitem_subjects_only (cls : KGClass) (ts : list triple) (e : string) :
  (contains (KG_of_list cls ts) e = true <-> exists r o, (e, r, o) ∈ ts) /\
  (getitem (KG_of_list cls ts) e = Err KeyError <-> ~ exists r o, (e, r, o) ∈ ts) /\
  (forall d, getitem (KG_of_list cls ts) e = Ok d ->
     d ≠ ∅ /\
     forall r s, d !! r = Some s ->
       s ≠ ∅ /\ forall o, o ∈ s <-> (e, r, o) ∈ ts) /\
  ((exists s r, (s, r, e) ∈ ts) -> (~ exists r o, (e, r, o) ∈ ts) ->
   has_entity (KG_of_list cls ts) e = true /\
   contains (KG_of_list cls ts) e = false).
Proof.
  pose proof (KG_wf_of_list cls ts) as Hwf.
  pose proof (triples_of_list cls ts) as Htr.
  set (KG := KG_of_list cls ts) in *.
  assert (Hin : forall t, t ∈ ts <-> t ∈ triples KG)
    by (intros t; by rewrite Htr, elem_of_list_to_set).
  assert (Hsub : is_Some (triples_ KG !! e) <-> exists r o, (e, r, o) ∈ ts).
  { split.
    - intros [d Hd]. destruct (wf_objects _ Hwf e d Hd) as [Hne Hs].
      apply map_choose in Hne as (r & s & Hr).
      pose proof (Hs r s Hr) as [o Ho]%set_choose_L.
      exists r, o. apply Hin, elem_of_triples, has_triple_spec. eauto.
    - intros (r & o & Ht). apply Hin, elem_of_triples, has_triple_spec in Ht
        as (d & s & Hd & _). eauto. }
  assert (Hc : contains KG e = true <-> exists r o, (e, r, o) ∈ ts).
  { unfold contains. by rewrite bool_decide_eq_true. }
  split; [exact Hc|]. split.
  { unfold getitem. rewrite <- Hsub. destruct (triples_ KG !! e) as [d|]; simpl.
    - split; [done|]. intros []. eauto.
    - split; [|done]. by intros _ [? ?]. }
  split.
  { intros d Hd%of_option_Ok. destruct (wf_objects _ Hwf e d Hd) as [Hne Hs].
    split; [done|]. intros r s Hr. split; [by apply (Hs r)|].
    intros o. rewrite Hin, <- elem_of_objects. unfold objects. by rewrite Hd, Hr. }
  intros (s & r & Hs) Hno. split.
  - apply (wf_has_entity _ _ Hwf). rewrite Htr. unfold entities_of.
    apply elem_of_union_r, elem_of_map. exists (s, r, e). split; [done|].
    by apply elem_of_list_to_set.
  - apply not_true_is_false. by rewrite Hc.
Qed.

(** ** Answering queries ([src/query.py]) *)

Lemma elem_of_foldl_union {A} (f : A -> gset string) (l : list A) :
  forall (init : gset string) (x : string),
    x ∈ foldl (fun acc a => acc ∪ f a) init l <->
    x ∈ init \/ exists a, a ∈ l /\ x ∈ f a.
Proof.
  induction l as [|a l IH]; intros init x; simpl.
  - split; [auto|]. intros [H|(a & []%not_elem_of_nil & _)]. exact H.
  - rewrite IH, elem_of_union. split.
    + intros [[H|H]|(b & Hb & H)]; [by left| |].
      * right. exists a. split; [left|done].
      * right. exists b. split; [by right|done].
    + intros [H|(b & Hb & H)]; [by left; left|].
      apply elem_of_cons in Hb as [->|Hb]; [left; by right|]. right. eauto.
Qed.

Lemma elem_of_hop (KG : KnowledgeGraph) (result : gset string) (predicate o : string) :
  o ∈ hop KG result predicate <->
  exists e, e ∈ result /\ (e, predicate, o) ∈ triples KG.
Proof.
  unfold hop. rewrite elem_of_foldl_union. split.
  - intros [[]%not_elem_of_empty|(e & He%elem_of_elements & Ho%elem_of_objects)]. eauto.
  - intros (e & He & Ho). right. exists e.
    by rewrite elem_of_elements, elem_of_objects.
Qed.

Lemma elem_of_removed_by (KG : KnowledgeGraph) (predicate argument e : string)
    (candidates : gset string) :
  e ∈ removed_by KG predicate argument candidates <->
  e ∈ candidates /\ (e, predicate, argument) ∉ triples KG.
Proof.
  unfold removed_by, violates. rewrite elem_of_filter, negb_true_iff.
  rewrite bool_decide_eq_false, elem_of_objects. tauto.
Qed.

Lemma answer_loop_follows (KG : KnowledgeGraph) (constraints : list Constraint)
    (chain : list string) :
  forall (index : nat) (result : gset string) (x : string),
    x ∈ answer_loop KG constraints index chain result <->
    exists a, a ∈ result /\ follows KG constraints index chain a x.
Proof.
  induction chain as [|predicate chain IH]; intros index result x; simpl.
  - split; [eauto|]. by intros (a & Ha & ->).
  - rewrite IH. split.
    + intros (m & Hm & Hrest). apply elem_of_difference in Hm as [Hm Hrem].
      apply elem_of_hop in Hm as (a & Ha & Ham). exists a. split; [done|].
      exists m. split; [done|]. split; [|done].
      apply Forall_forall. intros c Hc.
      destruct (decide ((m, NodePredicate c, Argument c) ∈ triples KG)) as [|Hn];
        [done|].
      exfalso. apply Hrem. apply elem_of_foldl_union. right. exists c.
      split; [done|]. apply elem_of_removed_by. split; [|done].
      apply elem_of_hop. eauto.
    + intros (a & Ha & m & Ham & Hcs & Hrest). exists m. split; [|done].
      apply elem_of_difference. split; [apply elem_of_hop; eauto|].
      intros [[]%not_elem_of_empty|(c & Hc & Hrem)]%elem_of_foldl_union.
      apply elem_of_removed_by in Hrem as [_ Hn]. apply Hn.
      by apply (proj1 (Forall_forall _ _) Hcs).
Qed.

Lemma elem_of_answer_query (KG : KnowledgeGraph) (query : Query) (a : string) :
  a ∈ answer_query KG query <->
  a ≠ TopicEntityMid (Parse_ query) /\
  follows KG (Constraints (Parse_ query)) 0 (InferentialChain (Parse_ query))
    (TopicEntityMid (Parse_ query)) a.
Proof.
  unfold answer_query. cbn zeta.
  rewrite elem_of_difference, answer_loop_follows, elem_of_singleton. split.
  - intros [(t & ->%elem_of_singleton & Hf) Hne]. done.
  - intros [Hne Hf]. split; [|done]. exists (TopicEntityMid (Parse_ query)).
    split; [by apply elem_of_singleton|done].
Qed.

(** X5: [answer_query] returns exactly the entities, other than the topic
    entity, that a path of triples reaches from the topic entity along the
    relations of the inferential chain, where the entity reached by the
    relation at position [i] has, for every constraint whose
    [SourceNodeIndex] is [i], the constraint's argument under the
    constraint's relation. It never raises; an empty chain, or a topic that
    is the subject of no triple, gives the empty set. *)
Theorem answer_query_paths (KG : KnowledgeGraph) (query : Query) :
  (forall a,
     a ∈ answer_query KG query <->
     a ≠ TopicEntityMid (Parse_ query) /\
     follows KG (Constraints (Parse_ query)) 0 (InferentialChain (Parse_ query))
       (TopicEntityMid (Parse_ query)) a) /\
  (InferentialChain (Parse_ query) = [] -> answer_query KG query = ∅) /\
  (contains KG (TopicEntityMid (Parse_ query)) = false ->
   answer_query KG query = ∅).
Proof.
  split; [apply elem_of_answer_query|]. split.
  - intros Hnil. apply set_eq. intros a. rewrite elem_of_answer_query, Hnil. simpl.
    split; [intros [Hne Heq]; by destruct Hne|intros []%not_elem_of_empty].
  - intros Hc. apply set_eq. intros a. rewrite elem_of_answer_query.
    split; [|intros []%not_elem_of_empty]. intros [Hne Hf]. exfalso.
    destruct (InferentialChain (Parse_ query)) as [|p chain]; simpl in Hf.
    + by destruct Hne.
    + destruct Hf as (m & Hm & _).
      apply elem_of_triples, has_triple_spec in Hm as (d & s & Hd & _).
      unfold contains in Hc. apply bool_decide_eq_false in Hc. apply Hc. eauto.
Qed.

Lemma follows_mono (KG1 KG2 : KnowledgeGraph) (C1 C2 : list Constraint)
    (chain : list string) :
  triples KG1 ⊆ triples KG2 -> C2 ⊆ C1 ->
  forall (index : nat) (a b : string),
    follows KG1 C1 index chain a b -> follows KG2 C2 index chain a b.
Proof.
  intros Hsub HC. induction chain as [|p chain IH]; intros index a b; simpl; [done|].
  intros (m & Hm & Hcs & Hrest). exists m. split; [by apply Hsub|].
  split; [|by apply IH]. apply Forall_forall. intros c Hc. apply Hsub.
  apply (proj1 (Forall_forall _ _) Hcs). unfold constraints_at in *.
  apply list_elem_of_filter in Hc as [Hi Hc]. apply list_elem_of_filter. auto.
Qed.

Lemma answer_query_sub (KG1 KG2 : KnowledgeGraph) (qid1 qid2 topic_mid : string)
    (name1 name2 : string) (chain : list string) (C1 C2 : list Constraint)
    (A1 A2 : list Answer) (a : string) :
  triples KG1 ⊆ triples KG2 -> C2 ⊆ C1 ->
  a ∈ answer_query KG1 (mkQuery qid1 (mkParse topic_mid name1 chain C1 A1)) ->
  a ∈ answer_query KG2 (mkQuery qid2 (mkParse topic_mid name2 chain C2 A2)).
Proof.
  intros Hsub HC. rewrite !elem_of_answer_query. simpl.
  intros [Hne Hf]. split; [done|]. by apply (follows_mono KG1 KG2 C1 C2).
Qed.

Lemma answer_query_subgraph (KG1 KG2 : KnowledgeGraph) (query : Query) :
  triples KG1 ⊆ triples KG2 -> answer_query KG1 query ⊆ answer_query KG2 query.
Proof.
  intros Hsub a. destruct query as [qid [topic_mid name chain C A]].
  by apply answer_query_sub.
Qed.

(** X6: [answer_query] grows with the graph and shrinks with the
    constraints: on a graph with more triples, or with some constraints
    left out, a query (same topic entity and inferential chain) has at
    least the same answers. *)
Theorem answer_query_monotone (KG1 KG2 : KnowledgeGraph) (qid1 qid2 topic_mid : string)
    (name1 name2 : string) (chain : list string) (C1 C2 : list Constraint)
    (A1 A2 : list Answer) :
  triples KG1 ⊆ triples KG2 -> C2 ⊆ C1 ->
  answer_query KG1 (mkQuery qid1 (mkParse topic_mid name1 chain C1 A1))
  ⊆ answer_query KG2 (mkQuery qid2 (mkParse topic_mid name2 chain C2 A2)).
Proof.
  intros Hsub HC a. by apply answer_query_sub.
Qed.

Lemma answer_query_monotone_witness :
  answer_query (KG_of_list SummaryC [("A", "friend", "B"); ("B", "friend", "C")])
    (friends_query [age_constraint 0 "30"])
  ⊆ answer_query friends_graph (friends_query []).
Proof.
  apply (answer_query_monotone _ friends_graph "q" "q" "A" "A" "A"
           ["friend"; "friend"] [age_constraint 0 "30"] [] [] []).
  - unfold friends_graph. rewrite !triples_of_list. set_solver.
  - set_solver.
Defined.

(** ** Generating queries ([src/query.py]) *)

Lemma randbelow_lt (n : nat) (g : list nat) : 0 < n -> (randbelow n g).1 < n.
Proof.
  intros Hn. destruct g as [|d g]; simpl; [done|]. apply Nat.mod_upper_bound. lia.
Qed.

Lemma random_choice_elem {A} (l : list A) (g g' : list nat) (a : A) :
  random_choice l g = Ok (a, g') -> a ∈ l.
Proof.
  unfold random_choice. destruct (randbelow (length l) g) as [i g1].
  destruct (l !! i) as [b|] eqn:Hi; [|done]. intros [= <- _].
  by apply list_elem_of_lookup_2 in Hi.
Qed.

Lemma random_choice_ok {A} (l : list A) (g : list nat) :
  l ≠ [] -> exists a g', random_choice l g = Ok (a, g').
Proof.
  intros Hl. unfold random_choice.
  pose proof (randbelow_lt (length l) g) as Hlt.
  destruct (randbelow (length l) g) as [i g1]. simpl in Hlt.
  destruct (lookup_lt_is_Some_2 l i) as [a Ha].
  { apply Hlt. destruct l; [done|simpl; lia]. }
  rewrite Ha. eauto.
Qed.

Lemma elem_of_keys {V} (d : gmap string V) (k : string) :
  k ∈ keys d <-> is_Some (d !! k).
Proof.
  unfold keys. rewrite list_elem_of_fmap. split.
  - intros ([k' v] & -> & Hkv%elem_of_map_to_list). eauto.
  - intros [v Hv]. exists (k, v). split; [done|]. by apply elem_of_map_to_list.
Qed.

Lemma generate_chain_facts (KG : KnowledgeGraph) (exclude_preds : list string)
    (chain_len : nat) :
  forall (entity : string) (g : list nat) (chain : list string) (g' : list nat),
    generate_chain KG exclude_preds chain_len entity g = Ok (chain, g') ->
    length chain <= chain_len /\
    Forall (fun predicate => predicate ∉ exclude_preds) chain /\
    exists b, follows KG [] 0 chain entity b.
Proof.
  induction chain_len as [|n IH]; intros entity g chain g'; simpl.
  { intros [= <- _]. simpl. eauto. }
  destruct (triples_ KG !! entity) as [d|] eqn:Hd.
  2:{ intros [= <- _]. simpl. split; [lia|]. eauto. }
  destruct (filter (fun pred => pred ∉ exclude_preds) (keys d)) as [|p0 ps] eqn:Hps.
  { intros [= <- _]. simpl. split; [lia|]. eauto. }
  rewrite <- Hps.
  intros ([predicate g1] & Hp%random_choice_elem & Hrest)%bind_Ok.
  apply list_elem_of_filter in Hp as [Hex Hkey].
  apply bind_Ok in Hrest as (d' & Hd'%of_option_Ok & Hrest).
  rewrite Hd in Hd'. injection Hd' as <-.
  apply bind_Ok in Hrest as (entities & Hent%of_option_Ok & Hrest).
  apply bind_Ok in Hrest as ([entity' g2] & He%random_choice_elem & Hrest).
  apply elem_of_elements in He.
  apply bind_Ok in Hrest as ([chain' g3] & Hrec & [= <- _]).
  apply IH in Hrec as (Hlen & Hall & b & Hb).
  split; [simpl; lia|]. split; [by constructor|].
  exists b. simpl. exists entity'. split; [|split; [constructor|]].
  - apply elem_of_triples, has_triple_spec. eauto.
  - clear -Hb. revert Hb. generalize entity', 0. 
    induction chain' as [|p c IHc]; intros a i; simpl; [done|].
    intros (m & Hm & _ & Hrest). exists m. split; [done|].
    split; [constructor|]. by apply IHc.
Qed.

Lemma generate_loop_constraints (KG : KnowledgeGraph)
    (entity_names : gmap string string)
    (exclude_preds inferential_chain : list string) (constraint_index : option nat)
    (chain : list string) :
  forall (index : nat) (result : gset string) (cs : list Constraint) (g : list nat)
         (result' : gset string) (cs' : list Constraint) (g' : list nat),
    generate_loop KG entity_names exclude_preds inferential_chain constraint_index
      index chain result cs g = Ok (result', cs', g') ->
    cs' = cs \/
    exists c : Constraint,
      cs' = (cs ++ [c])%list /\
      constraint_index = Some (SourceNodeIndex c) /\
      index <= SourceNodeIndex c < index + length chain /\
      (NodePredicate c ∉ inferential_chain) /\
      (NodePredicate c ∉ exclude_preds) /\
      exists entity,
        (entity, NodePredicate c, Argument c) ∈ triples KG /\
        constraint_EntityName c = get_name entity entity_names.
Proof.
  induction chain as [|predicate chain IH];
    intros index result cs g result' cs' g'; simpl.
  - intros [= _ <- _]. by left.
  - intros ([[cand cs1] g1] & Hstep & Hrest)%bind_Ok.
    apply IH in Hrest. set (candidates := hop KG result predicate) in *.
    assert (Hcase :
      cs1 = cs \/
      (exists c, cs1 = (cs ++ [c])%list /\ SourceNodeIndex c = index /\
         constraint_index = Some index /\
         (NodePredicate c ∉ inferential_chain) /\ (NodePredicate c ∉ exclude_preds) /\
         exists entity,
           (entity, NodePredicate c, Argument c) ∈ triples KG /\
           constraint_EntityName c = get_name entity entity_names)).
    { destruct (negb (bool_decide (candidates = ∅))); simpl in Hstep;
        [|left; by injection Hstep as _ <- _].
      destruct (bool_decide (constraint_index = Some index)) eqn:Hci;
        [|left; by injection Hstep as _ <- _].
      apply bool_decide_eq_true in Hci.
      apply bind_Ok in Hstep as ([entity g2] & _ & Hstep).
      destruct (triples_ KG !! entity) as [d|] eqn:Hd;
        [|left; by injection Hstep as _ <- _].
      destruct (filter (fun pred => (pred ∉ inferential_chain) /\ (pred ∉ exclude_preds))
                  (keys d)) as [|p0 ps] eqn:Hps;
        [left; by injection Hstep as _ <- _|].
      rewrite <- Hps in Hstep.
      apply bind_Ok in Hstep as ([pred g3] & Hp%random_choice_elem & Hstep).
      apply list_elem_of_filter in Hp as [[Hnc Hne] Hkey].
      apply bind_Ok in Hstep as (d' & Hd'%of_option_Ok & Hstep).
      rewrite Hd in Hd'. injection Hd' as <-.
      apply bind_Ok in Hstep as (objs & Hobjs%of_option_Ok & Hstep).
      destruct (bool_decide (objs = ∅)); [left; by injection Hstep as _ <- _|].
      apply bind_Ok in Hstep as ([argument g4] & Ha%random_choice_elem & Hstep).
      apply elem_of_elements in Ha.
      injection Hstep as _ <- _. right. eexists. split; [done|]. simpl.
      split; [done|]. split; [done|]. split; [done|]. split; [done|].
      exists entity. split; [|done].
      apply elem_of_triples, has_triple_spec. eauto. }
    destruct Hcase as [->|(c & -> & Hidx & Hci & Hrestc)].
    + destruct Hrest as [->|(c & -> & Hci & Hrange & Hrest)]; [by left|].
      right. exists c. split; [done|]. split; [done|]. split; [lia|done].
    + destruct Hrest as [->|(c' & -> & Hci' & Hrange & _)].
      * right. exists c. split; [done|]. split; [by rewrite Hidx|].
        split; [lia|done].
      * rewrite Hci in Hci'. injection Hci' as Heq. lia.
Qed.

(** X7: the shape of a generated query. Whenever [generate_query] returns,
    the query keeps the given id and topic entity; its inferential chain
    has at most [chain_len] relations, none of them excluded, and is a path
    of the graph that starts at the topic entity; it carries no constraint
    when [constraint_index] is None and at most one otherwise, placed at
    [constraint_index], inside the chain, on a relation that is neither in
    the chain nor excluded, with an argument the graph holds for some
    entity under that relation; the recorded answers are pairwise distinct
    and never the topic entity. *)
Theorem generate_query_shape (KG : KnowledgeGraph) (topic_mid : string)
    (chain_len : nat) (qid : string) (entity_names : gmap string string)
    (constraint_index : option nat) (exclude_preds : list string) (g : list nat)
    (query : Query) :
  generate_query KG topic_mid chain_len qid entity_names constraint_index
    exclude_preds g = Ok query ->
  QuestionId query = qid /\
  TopicEntityMid (Parse_ query) = topic_mid /\
  TopicEntityName (Parse_ query) = get_name topic_mid entity_names /\
  length (InferentialChain (Parse_ query)) <= chain_len /\
  Forall (fun predicate => predicate ∉ exclude_preds)
         (InferentialChain (Parse_ query)) /\
  (exists b, follows KG [] 0 (InferentialChain (Parse_ query)) topic_mid b) /\
  (Constraints (Parse_ query) = [] \/
   exists c : Constraint,
     Constraints (Parse_ query) = [c] /\
     constraint_index = Some (SourceNodeIndex c) /\
     SourceNodeIndex c < length (InferentialChain (Parse_ query)) /\
     (NodePredicate c ∉ InferentialChain (Parse_ query)) /\
     (NodePredicate c ∉ exclude_preds) /\
     exists entity,
       (entity, NodePredicate c, Argument c) ∈ triples KG /\
       constraint_EntityName c = get_name entity entity_names) /\
  NoDup (AnswerArgument <$> Answers (Parse_ query)) /\
  (topic_mid ∉ AnswerArgument <$> Answers (Parse_ query)) /\
  Forall (fun a => answer_EntityName a = get_name (AnswerArgument a) entity_names)
         (Answers (Parse_ query)).
Proof.
  unfold generate_query.
  intros ([chain g1] & Hchain &
          ([[result cs] g2] & Hloop & (answers & Hans & [= <-])%bind_Ok)%bind_Ok)%bind_Ok.
  simpl. apply generate_chain_facts in Hchain as (Hlen & Hexcl & Hpath).
  apply generate_loop_constraints in Hloop.
  assert (Harg : AnswerArgument <$> answers = id <$> elements (result ∖ {[topic_mid]})).
  { eapply mapM_R_Ok_fmap; [|exact Hans].
    intros a b (bb & _ & [= <-])%bind_Ok. done. }
  rewrite list_fmap_id in Harg.
  split; [done|]. split; [done|]. split; [done|]. split; [done|].
  split; [done|]. split; [done|]. split.
  { destruct Hloop as [->|(c & -> & Hci & Hrange & Hrest)]; [by left|].
    right. exists c. split; [done|]. split; [done|]. split; [lia|done]. }
  rewrite Harg. split; [apply NoDup_elements|]. split; [set_solver|].
  clear -Hans. revert answers Hans.
  induction (elements (result ∖ {[topic_mid]})) as [|a l IH]; intros answers; simpl.
  - intros [= <-]. constructor.
  - intros (b & (bb & _ & [= <-])%bind_Ok & (bs & Hbs & [= <-])%bind_Ok)%bind_Ok.
    constructor; [done|]. by apply IH.
Qed.

Lemma generate_query_shape_witness :
  exists query : Query,
    generate_query friends_yago "A" 2 "0" ∅ (Some 0) [] [0; 0; 1; 0; 0; 0; 0]
    = Ok query /\
    QuestionId query = "0" /\
    length (InferentialChain (Parse_ query)) <= 2 /\
    NoDup (AnswerArgument <$> Answers (Parse_ query)) /\
    "A" ∉ AnswerArgument <$> Answers (Parse_ query).
Proof.
  destruct (generate_query friends_yago "A" 2 "0" ∅ (Some 0) []
              [0; 0; 1; 0; 0; 0; 0]) as [query|err] eqn:Hgen.
  2:{ vm_compute in Hgen. discriminate. }
  exists query. split; [reflexivity|].
  destruct (generate_query_shape _ _ _ _ _ _ _ _ _ Hgen)
    as (Hq & _ & _ & Hlen & _ & _ & _ & Hnd & Htopic & _).
  auto.
Defined.

Lemma generate_chain_ok (KG : KnowledgeGraph) (exclude_preds : list string)
    (chain_len : nat) :
  KG_wf KG ->
  forall (entity : string) (g : list nat),
    exists chain g', generate_chain KG exclude_preds chain_len entity g = Ok (chain, g').
Proof.
  intros Hwf. induction chain_len as [|n IH]; intros entity g; simpl; [eauto|].
  destruct (triples_ KG !! entity) as [d|] eqn:Hd; [|eauto].
  destruct (filter (fun pred => pred ∉ exclude_preds) (keys d)) as [|p0 ps] eqn:Hps;
    [eauto|].
  rewrite <- Hps.
  destruct (random_choice_ok (filter (fun pred => pred ∉ exclude_preds) (keys d)) g)
    as (predicate & g1 & Hrc); [by rewrite Hps|].
  rewrite Hrc. simpl.
  apply random_choice_elem, list_elem_of_filter in Hrc as [_ [s Hs]%elem_of_keys].
  unfold getitem. rewrite Hd. simpl. rewrite Hs. simpl.
  destruct (wf_objects _ Hwf entity d Hd) as [_ Hne].
  destruct (random_choice_ok (elements s) g1) as (entity' & g2 & Hrc2).
  { intros Hnil%elements_empty_inv. apply (Hne predicate s Hs).
    by apply leibniz_equiv. }
  rewrite Hrc2. simpl.
  destruct (IH entity' g2) as (chain & g3 & ->). simpl. eauto.
Qed.

Lemma generate_loop_ok (KG : KnowledgeGraph) (entity_names : gmap string string)
    (exclude_preds inferential_chain : list string) (constraint_index : option nat)
    (chain : list string) :
  KG_wf KG ->
  forall (index : nat) (result : gset string) (cs : list Constraint) (g : list nat),
    exists r,
      generate_loop KG entity_names exclude_preds inferential_chain constraint_index
        index chain result cs g = Ok r.
Proof.
  intros Hwf. induction chain as [|predicate chain IH]; intros index result cs g;
    simpl; [eauto|].
  set (candidates := hop KG result predicate).
  match goal with |- exists r, ?step ≫= _ = Ok r =>
    assert (Hstep : exists r1, step = Ok r1)
  end.
  { destruct (bool_decide (candidates = ∅)) eqn:Hc; simpl; [eauto|].
    destruct (bool_decide (constraint_index = Some index)); [|eauto].
    apply bool_decide_eq_false in Hc.
    destruct (random_choice_ok (elements candidates) g) as (entity & g1 & ->).
    { intros Hnil%elements_empty_inv. by apply Hc, leibniz_equiv. }
    simpl. destruct (triples_ KG !! entity) as [d|] eqn:Hd; [|eauto].
    destruct (filter (fun pred => (pred ∉ inferential_chain) /\ (pred ∉ exclude_preds))
                (keys d)) as [|p0 ps] eqn:Hps; [eauto|].
    rewrite <- Hps.
    destruct (random_choice_ok
                (filter (fun pred => (pred ∉ inferential_chain) /\ (pred ∉ exclude_preds))
                   (keys d)) g1) as (pred & g2 & Hrc); [by rewrite Hps|].
    rewrite Hrc. simpl.
    apply random_choice_elem, list_elem_of_filter in Hrc as [_ [s Hs]%elem_of_keys].
    unfold getitem. rewrite Hd. simpl. rewrite Hs. simpl.
    destruct (bool_decide (s = ∅)) eqn:Hse; [eauto|].
    apply bool_decide_eq_false in Hse.
    destruct (random_choice_ok (elements s) g2) as (argument & g3 & ->).
    { intros Hnil%elements_empty_inv. by apply Hse, leibniz_equiv. }
    simpl. eauto. }
  destruct Hstep as ([[cand cs1] g1] & ->). simpl. apply IH.
Qed.

(** X8: [generate_query] and the classes of the graph. On a graph built by
    [add_triple], [generate_query] never raises when the graph is a
    Freebase, YAGO or DBPedia graph, whatever the topic, the parameters and
    the random draws. On a plain [KnowledgeGraph] or a [Summary], which
    define no [is_entity], it raises AttributeError as soon as the generated
    query has an answer, and returns (a query without answers) otherwise. *)
Theorem generate_query_raises (KG : KnowledgeGraph) (topic_mid : string)
    (chain_len : nat) (qid : string) (entity_names : gmap string string)
    (constraint_index : option nat) (exclude_preds : list string) (g : list nat) :
  KG_wf KG ->
  (corpus_class (class_ KG) ->
   exists query,
     generate_query KG topic_mid chain_len qid entity_names constraint_index
       exclude_preds g = Ok query) /\
  (~ corpus_class (class_ KG) ->
   generate_query KG topic_mid chain_len qid entity_names constraint_index
     exclude_preds g = Err AttributeError \/
   exists query,
     generate_query KG topic_mid chain_len qid entity_names constraint_index
       exclude_preds g = Ok query /\
     Answers (Parse_ query) = []).
Proof.
  intros Hwf. unfold generate_query.
  destruct (generate_chain_ok KG exclude_preds chain_len Hwf topic_mid g)
    as (chain & g1 & ->).
  simpl.
  destruct (generate_loop_ok KG entity_names exclude_preds chain constraint_index
              chain Hwf 0 {[topic_mid]} [] g1) as ([[result cs] g2] & ->).
  simpl. split.
  - intros Hcls.
    assert (His : forall a, exists b, is_entity KG a = Ok b).
    { intros a. unfold is_entity. destruct Hcls as [-> | [-> | ->]]; eauto. }
    induction (elements (result ∖ {[topic_mid]})) as [|a l IH]; simpl; [eauto|].
    destruct (His a) as [b ->]. simpl.
    destruct IH as [query Hq].
    apply bind_Ok in Hq as (answers & -> & _). simpl. eauto.
  - intros Hcls.
    assert (His : forall a, is_entity KG a = Err AttributeError).
    { intros a. unfold is_entity, corpus_class in *.
      destruct (class_ KG); try done; exfalso; apply Hcls; auto. }
    destruct (elements (result ∖ {[topic_mid]})) as [|a l]; simpl.
    + right. eauto.
    + left. by rewrite His.
Qed.

Lemma generate_query_raises_witness :
  (exists query,
     generate_query friends_yago "A" 2 "0" ∅ None [] [] = Ok query) /\
  generate_query friends_graph "A" 2 "0" ∅ None [] [] = Err AttributeError.
Proof.
  destruct (generate_query_raises friends_yago "A" 2 "0" ∅ None [] []
              (KG_wf_of_list _ _)) as [Hyago _].
  split.
  - apply Hyago. right. by left.
  - vm_compute. reflexivity.
Defined.

(** ** Metrics ([src/metrics.py]) *)

Lemma inject_nat_add (n m : nat) :
  (inject_Z (Z.of_nat (n + m)) == inject_Z (Z.of_nat n) + inject_Z (Z.of_nat m))%Q.
Proof. by rewrite Nat2Z.inj_add, inject_Z_plus. Qed.

Lemma inject_nat_nonneg (n : nat) : (0 <= inject_Z (Z.of_nat n))%Q.
Proof. unfold Qle. simpl. lia. Qed.

Lemma inject_nat_pos (n : nat) : 0 < n -> (0 < inject_Z (Z.of_nat n))%Q.
Proof. intros Hn. unfold Qlt. simpl. lia. Qed.

Lemma py_div_of_nat (n m : nat) :
  0 < m ->
  py_div (of_nat n) (of_nat m)
  = Ok (Fin (Qred (inject_Z (Z.of_nat n) / inject_Z (Z.of_nat m)))).
Proof.
  intros Hm. pose proof (inject_nat_pos m Hm) as Hpos.
  unfold py_div, Float.of_nat, div.
  rewrite Qis0_false; [done|]. intros H0. rewrite H0 in Hpos. by apply Qlt_irrefl in Hpos.
Qed.

Lemma ratio_unit (n m : nat) :
  0 < n + m ->
  (0 <= inject_Z (Z.of_nat n) / inject_Z (Z.of_nat (n + m)) <= 1)%Q.
Proof.
  intros Hnm. pose proof (inject_nat_pos _ Hnm) as Hpos.
  pose proof (inject_nat_nonneg n) as Hn. pose proof (inject_nat_nonneg m) as Hm.
  pose proof (inject_nat_add n m) as Hadd.
  split.
  - apply Qle_shift_div_l; [done|]. lra.
  - apply Qle_shift_div_r; [done|]. lra.
Qed.

Lemma precision_value (tp fp fn : nat) :
  precision tp fp fn
  = Ok (if tp + fp =? 0 then zero
        else Fin (Qred (inject_Z (Z.of_nat tp) / inject_Z (Z.of_nat (tp + fp))))).
Proof.
  unfold precision. destruct (Nat.eq_dec (tp + fp) 0) as [->|Hne]; [done|].
  replace (0 <? tp + fp) with true by (symmetry; apply Nat.ltb_lt; lia).
  replace (tp + fp =? 0) with false by (symmetry; apply Nat.eqb_neq; lia).
  apply py_div_of_nat. lia.
Qed.

Lemma recall_value (tp fp fn : nat) :
  recall tp fp fn
  = Ok (if tp + fn =? 0 then zero
        else Fin (Qred (inject_Z (Z.of_nat tp) / inject_Z (Z.of_nat (tp + fn))))).
Proof.
  unfold recall. destruct (Nat.eq_dec (tp + fn) 0) as [->|Hne]; [done|].
  replace (0 <? tp + fn) with true by (symmetry; apply Nat.ltb_lt; lia).
  replace (tp + fn =? 0) with false by (symmetry; apply Nat.eqb_neq; lia).
  apply py_div_of_nat. lia.
Qed.

Lemma unit_interval_zero : unit_interval zero.
Proof. exists 0%Q. split; [done|]. split; [apply Qle_refl|discriminate]. Qed.

Lemma unit_interval_one : unit_interval one.
Proof. exists 1%Q. split; [done|]. split; [discriminate|apply Qle_refl]. Qed.

Lemma ratio_unit_interval (n m : nat) :
  unit_interval (if n + m =? 0 then zero
                 else Fin (Qred (inject_Z (Z.of_nat n) / inject_Z (Z.of_nat (n + m))))).
Proof.
  destruct (n + m =? 0) eqn:E; [apply unit_interval_zero|].
  apply Nat.eqb_neq in E. eexists. split; [reflexivity|].
  rewrite Qred_correct. apply ratio_unit. lia.
Qed.

Lemma f1_score_value (tp fp fn : nat) :
  f1_score tp fp fn
  = Ok (if tp =? 0 then zero
        else Fin (Qred (inject_Z (Z.of_nat (2 * tp))
                        / inject_Z (Z.of_nat (2 * tp + fp + fn))))).
Proof.
  unfold f1_score. rewrite precision_value, recall_value. cbn [mbind Result_bind].
  destruct tp as [|tp'].
  { simpl Nat.add. cbn [Nat.eqb].
    assert (Hz : forall k, truthy (if k =? 0 then zero
                   else Fin (Qred (inject_Z (Z.of_nat 0) / inject_Z (Z.of_nat k)))) = false).
    { intros [|k]; [done|]. cbn [Nat.eqb truthy]. rewrite Qis0_true; [done|].
      rewrite Qred_correct. unfold Qdiv. simpl. apply Qmult_0_l. }
    by rewrite Hz. }
  set (tp := S tp'). assert (Htp : 0 < tp) by (subst tp; lia).
  replace (tp + fp =? 0) with false by (symmetry; apply Nat.eqb_neq; lia).
  replace (tp + fn =? 0) with false by (symmetry; apply Nat.eqb_neq; lia).
  replace (tp =? 0) with false by (symmetry; apply Nat.eqb_neq; lia).
  pose proof (inject_nat_pos tp Htp) as Ha.
  pose proof (inject_nat_nonneg fp) as Hb. pose proof (inject_nat_nonneg fn) as Hc.
  pose proof (inject_nat_add tp fp) as Hab. pose proof (inject_nat_add tp fn) as Hac.
  assert (H2 : (inject_Z (Z.of_nat (2 * tp)) == 2 * inject_Z (Z.of_nat tp))%Q).
  { rewrite Nat2Z.inj_mul, inject_Z_mult. reflexivity. }
  assert (Hden : (inject_Z (Z.of_nat (2 * tp + fp + fn))
                  == 2 * inject_Z (Z.of_nat tp) + inject_Z (Z.of_nat fp)
                     + inject_Z (Z.of_nat fn))%Q).
  { rewrite !inject_nat_add, H2. reflexivity. }
  set (a := inject_Z (Z.of_nat tp)) in *. set (b := inject_Z (Z.of_nat fp)) in *.
  set (c := inject_Z (Z.of_nat fn)) in *.
  set (ab := inject_Z (Z.of_nat (tp + fp))) in *.
  set (ac := inject_Z (Z.of_nat (tp + fn))) in *.
  assert (HP : (0 < a / ab)%Q).
  { apply Qlt_shift_div_l; lra. }
  assert (HR : (0 < a / ac)%Q).
  { apply Qlt_shift_div_l; lra. }
  cbn [truthy].
  rewrite !Qis0_false; cycle 1.
  { rewrite Qred_correct. intros H0. rewrite H0 in HR. by apply Qlt_irrefl in HR. }
  { rewrite Qred_correct. intros H0. rewrite H0 in HP. by apply Qlt_irrefl in HP. }
  cbn [negb andb]. unfold py_div, mul, add, Float.of_nat, div.
  rewrite !Qis0_false; cycle 1.
  { rewrite !Qred_correct. intros H0. lra. }
  f_equal. f_equal. apply Qred_complete. rewrite !Qred_correct.
  change (inject_Z (Z.of_nat 2)) with 2%Q. rewrite H2, Hden, Hab, Hac.
  assert (H1 : (0 < a * (a + c))%Q) by (apply Qmult_lt_0_compat; lra).
  assert (H3 : (0 < a * (a + b))%Q) by (apply Qmult_lt_0_compat; lra).
  field. repeat split; lra.
Qed.

(** X9: the three scores never raise and lie in [0, 1]. They are what
    their names say: [precision] is [tp / (tp + fp)], [recall] is
    [tp / (tp + fn)], each 0 when its denominator is 0, and [f1_score] is
    [2·tp / (2·tp + fp + fn)], and 0 when [tp] is 0 (exact arithmetic). *)
Theorem scores_values (tp fp fn : nat) :
  precision tp fp fn
  = Ok (if tp + fp =? 0 then zero
        else Fin (Qred (inject_Z (Z.of_nat tp) / inject_Z (Z.of_nat (tp + fp))))) /\
  recall tp fp fn
  = Ok (if tp + fn =? 0 then zero
        else Fin (Qred (inject_Z (Z.of_nat tp) / inject_Z (Z.of_nat (tp + fn))))) /\
  f1_score tp fp fn
  = Ok (if tp =? 0 then zero
        else Fin (Qred (inject_Z (Z.of_nat (2 * tp))
                        / inject_Z (Z.of_nat (2 * tp + fp + fn))))) /\
  (exists f p r,
     metrics_of tp fp fn = Ok (f, p, r) /\
     unit_interval f /\ unit_interval p /\ unit_interval r).
Proof.
  split; [apply precision_value|]. split; [apply recall_value|].
  split; [apply f1_score_value|].
  unfold metrics_of. rewrite f1_score_value, precision_value, recall_value.
  cbn [mbind Result_bind]. eexists _, _, _. split; [reflexivity|].
  split; [|split; apply ratio_unit_interval].
  destruct (tp =? 0) eqn:E; [apply unit_interval_zero|].
  apply Nat.eqb_neq in E. eexists. split; [reflexivity|]. rewrite Qred_correct.
  replace (2 * tp + fp + fn) with (2 * tp + (fp + fn)) by lia.
  apply ratio_unit. lia.
Qed.

Lemma total_counts_sums (S : Summary) (query_log : list Query) :
  total_counts S query_log
  = (sum_list_with (fun query => size (answer_query (graph S) query
                                        ∩ answer_query (parent S) query)) query_log,
     sum_list_with (fun query => size (answer_query (graph S) query
                                        ∖ answer_query (parent S) query)) query_log,
     sum_list_with (fun query => size (answer_query (parent S) query
                                        ∖ answer_query (graph S) query)) query_log).
Proof.
  unfold total_counts.
  enough (Hgen : forall acc : nat * nat * nat,
    foldl (fun '(tp, fp, fn) query =>
             let kg_matches := answer_query (parent S) query in
             let summary_matches := answer_query (graph S) query in
             let '(tp', fp', fn') := match_counts summary_matches kg_matches in
             (tp + tp', fp + fp', fn + fn'))
          acc query_log
    = (acc.1.1
       + sum_list_with (fun query => size (answer_query (graph S) query
                                            ∩ answer_query (parent S) query)) query_log,
       acc.1.2
       + sum_list_with (fun query => size (answer_query (graph S) query
                                            ∖ answer_query (parent S) query)) query_log,
       acc.2
       + sum_list_with (fun query => size (answer_query (parent S) query
                                            ∖ answer_query (graph S) query)) query_log))
    by apply (Hgen (0, 0, 0)).
  induction query_log as [|query l IH]; intros [[tp fp] fn].
  - cbn [foldl sum_list_with fst snd]. by rewrite !Nat.add_0_r.
  - cbn [foldl sum_list_with]. rewrite IH. unfold match_counts.
    cbn [fst snd]. f_equal; [f_equal|]; lia.
Qed.

Lemma ratio_one (n : nat) :
  0 < n -> Fin (Qred (inject_Z (Z.of_nat n) / inject_Z (Z.of_nat (n + 0)))) = one.
Proof.
  intros Hn. pose proof (inject_nat_pos n Hn) as Hpos.
  rewrite Nat.add_0_r. unfold one. f_equal.
  change 1%Q with (Qred 1). apply Qred_complete. field.
  intros H0. rewrite H0 in Hpos. by apply Qlt_irrefl in Hpos.
Qed.

(** X10: a summary gives no false positives. For a summary whose triples
    are triples of its parent graph, every answer found on the summary is
    an answer on the parent, so [total_query_log_metrics] counts no false
    positive: its precision is 1 as soon as the summary answers anything
    and 0 otherwise; the true positives are the answers found on the
    summary and the false negatives the answers it misses. A summary that
    holds every triple of its parent scores (1, 1, 1) on a log with an
    answer. *)
Theorem total_metrics_of_summary (S : Summary) (query_log : list Query) :
  triples (graph S) ⊆ triples (parent S) ->
  (forall query, answer_query (graph S) query ⊆ answer_query (parent S) query) /\
  total_counts S query_log
  = (sum_list_with (fun query => size (answer_query (graph S) query)) query_log,
     0,
     sum_list_with (fun query => size (answer_query (parent S) query
                                        ∖ answer_query (graph S) query)) query_log) /\
  (exists f r,
     total_query_log_metrics S query_log
     = Ok (f,
           if sum_list_with (fun query => size (answer_query (graph S) query))
                query_log =? 0
           then zero else one,
           r)) /\
  (triples (graph S) = triples (parent S) ->
   sum_list_with (fun query => size (answer_query (graph S) query)) query_log ≠ 0 ->
   total_query_log_metrics S query_log = Ok (one, one, one)).
Proof.
  intros Hsub.
  assert (Hans : forall query,
            answer_query (graph S) query ⊆ answer_query (parent S) query)
    by (intros query; by apply answer_query_subgraph).
  assert (Hcounts : total_counts S query_log
    = (sum_list_with (fun query => size (answer_query (graph S) query)) query_log,
       0,
       sum_list_with (fun query => size (answer_query (parent S) query
                                          ∖ answer_query (graph S) query)) query_log)).
  { rewrite total_counts_sums.
    assert (H1 : sum_list_with (fun query => size (answer_query (graph S) query
                                        ∩ answer_query (parent S) query)) query_log
                 = sum_list_with (fun query => size (answer_query (graph S) query))
                     query_log).
    { induction query_log as [|query l IH]; [done|]. cbn [sum_list_with].
      rewrite IH. f_equal. f_equal. specialize (Hans query). set_solver. }
    assert (H2 : sum_list_with (fun query => size (answer_query (graph S) query
                                        ∖ answer_query (parent S) query)) query_log
                 = 0).
    { clear H1. induction query_log as [|query l IH]; [done|]. cbn [sum_list_with].
      rewrite IH. replace (answer_query (graph S) query ∖ answer_query (parent S) query)
        with (∅ : gset string); [done|].
      specialize (Hans query). set_solver. }
    by rewrite H1, H2. }
  split; [exact Hans|]. split; [exact Hcounts|].
  unfold total_query_log_metrics. rewrite Hcounts.
  set (tp := sum_list_with (fun query => size (answer_query (graph S) query)) query_log).
  set (fn := sum_list_with _ query_log).
  unfold metrics_of. rewrite f1_score_value, precision_value, recall_value.
  cbn [mbind Result_bind]. split.
  - eexists _, _. f_equal. f_equal. f_equal.
    rewrite Nat.add_0_r. destruct (tp =? 0) eqn:E; [done|].
    apply Nat.eqb_neq in E. rewrite <- (ratio_one tp) by lia. by rewrite Nat.add_0_r.
  - intros Heq Htp.
    assert (Hfn : fn = 0).
    { subst fn. clear -Heq. induction query_log as [|query l IH]; [done|].
      cbn [sum_list_with]. rewrite IH.
      replace (answer_query (parent S) query ∖ answer_query (graph S) query)
        with (∅ : gset string); [done|].
      pose proof (answer_query_subgraph (parent S) (graph S) query) as H.
      rewrite Heq in H. specialize (H (reflexivity _)). set_solver. }
    rewrite Hfn.
    replace (tp =? 0) with false by (symmetry; by apply Nat.eqb_neq).
    replace (tp + 0 =? 0) with false by (symmetry; apply Nat.eqb_neq; lia).
    rewrite (ratio_one tp) by lia.
    replace (2 * tp + 0 + 0) with (2 * tp + 0) by lia.
    rewrite (ratio_one (2 * tp)) by lia. done.
Qed.

Lemma total_metrics_of_summary_witness :
  total_counts
    (Summary_add_triple (Summary_init friends_graph) ("A", "friend", "B"))
    [friends_query []]
  = (0, 0, 1).
Proof.
  destruct (total_metrics_of_summary
              (Summary_add_triple (Summary_init friends_graph) ("A", "friend", "B"))
              [friends_query []]) as (_ & Hc & _).
  - change (triples (add_triple (KG_init SummaryC) ("A", "friend", "B"))
            ⊆ triples friends_graph).
    rewrite triples_add_triple, triples_init.
    unfold friends_graph. rewrite triples_of_list. set_solver.
  - rewrite Hc. vm_compute. reflexivity.
Defined.

Lemma query_metrics_unit (S : Summary) (query : Query) :
  exists f p r,
    query_metrics S query = Ok (f, p, r) /\
    unit_interval f /\ unit_interval p /\ unit_interval r.
Proof.
  unfold query_metrics, match_counts, metrics_of. cbn zeta.
  rewrite f1_score_value, precision_value, recall_value. cbn [mbind Result_bind].
  eexists _, _, _. split; [reflexivity|].
  split; [|split; apply ratio_unit_interval].
  match goal with |- unit_interval (if ?tp =? 0 then _ else _) =>
    destruct (tp =? 0) eqn:E; [apply unit_interval_zero|];
    apply Nat.eqb_neq in E
  end.
  eexists. split; [reflexivity|]. rewrite Qred_correct.
  rewrite <- Nat.add_assoc. apply ratio_unit. lia.
Qed.

Lemma foldl_add_bounds (l : list float) :
  Forall unit_interval l ->
  forall a : Q,
    exists s, foldl add (Fin a) l = Fin s /\
              (a <= s <= a + inject_Z (Z.of_nat (length l)))%Q.
Proof.
  induction 1 as [|x l (q & -> & Hq) _ IH]; intros a.
  - exists a. split; [done|]. change (inject_Z (Z.of_nat (length []))) with 0%Q. lra.
  - cbn [foldl add]. destruct (IH (Qred (a + q))) as (s & -> & Hs).
    exists s. split; [done|]. rewrite Qred_correct in Hs.
    cbn [length]. rewrite Nat2Z.inj_succ, <- Z.add_1_r, inject_Z_plus.
    change (inject_Z 1) with 1%Q. lra.
Qed.

Lemma np_mean_unit (l : list float) :
  l ≠ [] -> Forall unit_interval l -> unit_interval (np_mean l).
Proof.
  intros Hne Hall. unfold np_mean, sum, zero.
  destruct (foldl_add_bounds l Hall 0) as (s & -> & Hs).
  assert (Hlen : 0 < length l) by (destruct l; [done|simpl; lia]).
  pose proof (inject_nat_pos _ Hlen) as Hpos.
  unfold Float.of_nat, div. rewrite (Qis0_false (inject_Z _)).
  2:{ intros H0. rewrite H0 in Hpos. by apply Qlt_irrefl in Hpos. }
  eexists. split; [reflexivity|]. rewrite Qred_correct. split.
  - apply Qle_shift_div_l; [done|]. lra.
  - apply Qle_shift_div_r; [done|]. lra.
Qed.

(** X11: [query_metrics] never raises and returns three scores in [0, 1].
    On an empty log [total_query_log_metrics] returns (0, 0, 0) while
    [average_query_log_metrics] returns (NaN, NaN, NaN), the mean of an
    empty list; on every other log the averages are in [0, 1]. *)
Theorem query_log_metrics_range (S : Summary) (query_log : list Query) :
  (forall query, exists f p r,
     query_metrics S query = Ok (f, p, r) /\
     unit_interval f /\ unit_interval p /\ unit_interval r) /\
  total_query_log_metrics S [] = Ok (zero, zero, zero) /\
  average_query_log_metrics S [] = Ok (NaN, NaN, NaN) /\
  (query_log ≠ [] ->
   exists f p r,
     average_query_log_metrics S query_log = Ok (f, p, r) /\
     unit_interval f /\ unit_interval p /\ unit_interval r).
Proof.
  split; [apply query_metrics_unit|]. split; [reflexivity|]. split; [reflexivity|].
  intros Hne. unfold average_query_log_metrics.
  assert (Hms : exists ms,
            mapM_R (query_metrics S) query_log = Ok ms /\
            length ms = length query_log /\
            Forall (fun m => unit_interval m.1.1 /\ unit_interval m.1.2 /\
                             unit_interval m.2) ms).
  { clear Hne. induction query_log as [|query l (ms & Hms & Hlen & Hall)].
    - exists []. by split.
    - destruct (query_metrics_unit S query) as (f & p & r & Hq & Hf & Hp & Hr).
      exists ((f, p, r) :: ms). simpl. rewrite Hq. simpl. rewrite Hms. simpl.
      split; [done|]. split; [by rewrite Hlen|]. by constructor. }
  destruct Hms as (ms & -> & Hlen & Hall). cbn [mbind Result_bind].
  assert (Hms : ms ≠ []) by (intros ->; by destruct query_log).
  eexists _, _, _. split; [reflexivity|].
  assert (Hmap : forall (A : Type) (h : float * float * float -> A), h <$> ms ≠ [])
    by (intros A h; by destruct ms).
  split; [|split]; (apply np_mean_unit; [apply Hmap|]); apply Forall_fmap;
    (eapply Forall_impl; [exact Hall|]); simpl; tauto.
Qed.

(** ** Query logs ([src/user.py]) *)

Lemma size_list_to_set_le (l : list string) :
  size (list_to_set l : gset string) <= length l.
Proof.
  induction l as [|a l IH]; simpl; [done|].
  rewrite size_union_alt, size_singleton.
  assert (Hsub : list_to_set l ∖ {[a]} ⊆ (list_to_set l : gset string)) by set_solver.
  apply subseteq_size in Hsub. lia.
Qed.

Lemma size_list_to_set_NoDup (l : list string) :
  size (list_to_set l : gset string) = length l <-> NoDup l.
Proof.
  split; [|apply size_list_to_set].
  induction l as [|a l IH]; [constructor|]. simpl. intros Hsize.
  pose proof (size_list_to_set_le l) as Hle.
  destruct (decide (a ∈ l)) as [Hin|Hnin].
  - exfalso. replace ({[a]} ∪ list_to_set l) with (list_to_set l : gset string)
      in Hsize by set_solver.
    lia.
  - constructor; [done|]. apply IH.
    rewrite size_union, size_singleton in Hsize by set_solver. lia.
Qed.

Lemma size_list_to_set_pos (l : list string) :
  l ≠ [] -> 0 < size (list_to_set l : gset string).
Proof.
  destruct l as [|a l]; [done|]. intros _. simpl.
  rewrite size_union_alt, size_singleton. lia.
Qed.

(** X12: [reuse] raises ZeroDivisionError on an empty log. On every other
    log it returns [1 - u/n], with [u] the number of distinct question ids
    among the [n] queries: a number in [0, 1), which is 0 exactly when no
    question id repeats. *)
Theorem reuse_range (query_log : list Query) :
  (query_log = [] -> reuse query_log = Err ZeroDivisionError) /\
  (query_log ≠ [] ->
   exists q : Q,
     reuse query_log = Ok (Fin q) /\
     (q == 1 - inject_Z (Z.of_nat (size (list_to_set (QuestionId <$> query_log)
                                           : gset string)))
              / inject_Z (Z.of_nat (length query_log)))%Q /\
     (0 <= q)%Q /\ (q < 1)%Q /\
     ((q == 0)%Q <-> NoDup (QuestionId <$> query_log))).
Proof.
  split; [by intros ->|]. intros Hne. unfold reuse. cbn zeta.
  set (u := size (list_to_set (QuestionId <$> query_log) : gset string)).
  set (n := length query_log).
  assert (Hn : 0 < n) by (subst n; destruct query_log; [done|simpl; lia]).
  assert (Hu : 0 < u) by (apply size_list_to_set_pos; by destruct query_log).
  assert (Hun : u <= n).
  { subst u n. rewrite <- (length_fmap QuestionId). apply size_list_to_set_le. }
  rewrite py_div_of_nat by done. cbn [mbind Result_bind sub one].
  pose proof (inject_nat_pos n Hn) as Hnpos. pose proof (inject_nat_pos u Hu) as Hupos.
  assert (Hle : (inject_Z (Z.of_nat u) <= inject_Z (Z.of_nat n))%Q)
    by (rewrite <- Zle_Qle; lia).
  assert (Hratio : (0 < inject_Z (Z.of_nat u) / inject_Z (Z.of_nat n) <= 1)%Q).
  { split; [apply Qlt_shift_div_l; lra|apply Qle_shift_div_r; lra]. }
  eexists. split; [reflexivity|]. rewrite !Qred_correct.
  split; [reflexivity|]. split; [lra|]. split; [lra|].
  assert (Hiff : NoDup (QuestionId <$> query_log) <-> u = n).
  { rewrite <- size_list_to_set_NoDup, length_fmap. by subst u n. }
  rewrite Hiff. split.
  - intros Hq.
    assert (Heq : (inject_Z (Z.of_nat u) == inject_Z (Z.of_nat n))%Q).
    { assert (H1 : (inject_Z (Z.of_nat u) / inject_Z (Z.of_nat n) == 1)%Q) by lra.
      rewrite <- (Qmult_1_l (inject_Z (Z.of_nat n))). rewrite <- H1. field.
      intros H0. rewrite H0 in Hnpos. by apply Qlt_irrefl in Hnpos. }
    apply Nat2Z.inj. by apply inject_Z_injective.
  - intros ->. field. intros H0. rewrite H0 in Hnpos. by apply Qlt_irrefl in Hnpos.
Qed.

Lemma increment_lookup (d : gmap string nat) (key k : string) :
  default 0 (increment d key !! k)
  = default 0 (d !! k) + (if decide (k = key) then 1 else 0).
Proof.
  unfold increment. destruct (decide (k = key)) as [->|Hne].
  - by rewrite lookup_insert_eq.
  - rewrite lookup_insert_ne by done. lia.
Qed.

Lemma foldl_increment_lookup (l : list string) :
  forall (d : gmap string nat) (k : string),
    default 0 (foldl increment d l !! k)
    = default 0 (d !! k) + length (filter (fun x => x = k) l).
Proof.
  induction l as [|a l IH]; intros d k; simpl; [lia|].
  rewrite IH, increment_lookup. destruct (decide (k = a)) as [->|Hne].
  - rewrite filter_cons_True by done. simpl. lia.
  - rewrite filter_cons_False by (intros ->; done). lia.
Qed.

Lemma foldl_increment_dom (l : list string) :
  forall (d : gmap string nat) (k : string),
    is_Some (foldl increment d l !! k) <-> is_Some (d !! k) \/ k ∈ l.
Proof.
  induction l as [|a l IH]; intros d k; simpl.
  - split; [auto|]. intros [H|[]%not_elem_of_nil]. exact H.
  - rewrite IH. unfold increment. rewrite elem_of_cons.
    destruct (decide (k = a)) as [->|Hne].
    + rewrite lookup_insert_eq. split; [auto|]. intros _. left. eauto.
    + rewrite lookup_insert_ne by done. tauto.
Qed.

Lemma entity_counts_foldl (query_log : list Query) :
  entity_counts query_log
  = foldl increment ∅ ((fun query => TopicEntityName (Parse_ query)) <$> query_log).
Proof.
  unfold entity_counts. generalize (∅ : gmap string nat).
  induction query_log as [|query l IH]; intros d; simpl; [done|]. apply IH.
Qed.

Lemma predicate_counts_foldl (query_log : list Query) :
  predicate_counts query_log
  = foldl increment ∅ (query_log ≫= fun query => InferentialChain (Parse_ query)).
Proof.
  unfold predicate_counts. generalize (∅ : gmap string nat).
  induction query_log as [|query l IH]; intros d; simpl; [done|].
  rewrite foldl_app. apply IH.
Qed.

(** X13: [entity_counts] maps every [TopicEntityName] of the log to the
    number of queries that carry it, and [predicate_counts] maps every
    relation to the number of its occurrences in the inferential chains of
    the log (repeats inside a chain counted); a name or relation that does
    not occur has no entry (it reads as 0). *)
Theorem counts_of_log (query_log : list Query) (k : string) :
  default 0 (entity_counts query_log !! k)
  = length (filter (fun query => TopicEntityName (Parse_ query) = k) query_log) /\
  (is_Some (entity_counts query_log !! k) <->
   exists query, query ∈ query_log /\ TopicEntityName (Parse_ query) = k) /\
  default 0 (predicate_counts query_log !! k)
  = sum_list_with
      (fun query => length (filter (fun p => p = k) (InferentialChain (Parse_ query))))
      query_log /\
  (is_Some (predicate_counts query_log !! k) <->
   exists query, query ∈ query_log /\ k ∈ InferentialChain (Parse_ query)).
Proof.
  split; [|split; [|split]].
  - rewrite entity_counts_foldl, foldl_increment_lookup, lookup_empty. simpl.
    induction query_log as [|query l IH]; [done|]. rewrite fmap_cons.
    destruct (decide (TopicEntityName (Parse_ query) = k)) as [Heq|Hne].
    + rewrite !filter_cons_True by done. simpl. by rewrite IH.
    + by rewrite !filter_cons_False by done.
  - rewrite entity_counts_foldl, foldl_increment_dom, lookup_empty, list_elem_of_fmap.
    split.
    + intros [[? [=]]|(query & -> & Hq)]. eauto.
    + intros (query & Hq & <-). right. eauto.
  - rewrite predicate_counts_foldl, foldl_increment_lookup, lookup_empty. simpl.
    induction query_log as [|query l IH]; [done|]. cbn [sum_list_with].
    rewrite bind_cons, filter_app, length_app. by rewrite IH.
  - rewrite predicate_counts_foldl, foldl_increment_dom, lookup_empty, list_elem_of_bind.
    split.
    + intros [[? [=]]|(query & Hk & Hq)]. eauto.
    + intros (query & Hq & Hk). right. eauto.
Qed.

(** ** Summaries ([src/glimpse.py]) *)

Lemma has_entity_record_entity (kg : KnowledgeGraph) (e e' : string) :
  has_entity kg e = true -> has_entity (record_entity kg e') e = true.
Proof.
  unfold has_entity. rewrite !bool_decide_eq_true.
  destruct (record_entity_fields kg e') as (_ & -> & _). set_solver.
Qed.

Lemma has_entity_add_triple (kg : KnowledgeGraph) (t : triple) (e : string) :
  has_entity kg e = true -> has_entity (add_triple kg t) e = true.
Proof.
  intros He. destruct t as [[e1 r] e2]. unfold add_triple.
  destruct (has_triple kg (e1, r, e2)); [done|].
  apply (has_entity_record_entity _ e e1), (has_entity_record_entity _ e e2) in He.
  exact He.
Qed.

Lemma terms_float_le (b1 b2 b3 c1 c2 c3 : bool) (x y z : float) :
  (b1 = true -> c1 = true) -> (b2 = true -> c2 = true) -> (b3 = true -> c3 = true) ->
  nonneg x -> nonneg y -> nonneg z ->
  float_le (sum ((if c1 then [] else [x]) ++ (if c2 then [] else [y])
                 ++ (if c3 then [] else [z])))
           (sum ((if b1 then [] else [x]) ++ (if b2 then [] else [y])
                 ++ (if b3 then [] else [z]))) /\
  nonneg (sum ((if c1 then [] else [x]) ++ (if c2 then [] else [y])
               ++ (if c3 then [] else [z]))) /\
  float_le (sum ((if b1 then [] else [x]) ++ (if b2 then [] else [y])
                 ++ (if b3 then [] else [z])))
           (add (add x y) z).
Proof.
  intros H1 H2 H3 (a & -> & Ha) (b & -> & Hb) (c & -> & Hc).
  destruct b1, b2, b3, c1, c2, c3;
    try (by specialize (H1 eq_refl)); try (by specialize (H2 eq_refl));
    try (by specialize (H3 eq_refl));
    (split; [|split]);
    unfold sum, float_le, nonneg; simpl;
    first [ eexists _, _; split; [reflexivity|]; split; [reflexivity|];
            rewrite ?Qred_correct; lra
          | eexists; split; [reflexivity|]; rewrite ?Qred_correct; lra ].
Qed.

(** X14: diminishing returns. On a scored parent graph without negative
    values, the marginal value of a triple is never negative, never more
    than the value [ev(e1) + ev(e2) + tv(t)] under which the pool first
    holds it, and never grows when a triple is added to the summary. *)
Theorem marginal_value_diminishing (S : Summary) (u t : triple) :
  scored (parent S) -> values_nonneg (parent S) ->
  exists m m',
    marginal_value S t = Ok m /\
    marginal_value (Summary_add_triple S u) t = Ok m' /\
    float_le m' m /\ nonneg m' /\ float_le m (total_value (parent S) t).
Proof.
  intros Hsc [Hev Htv].
  rewrite (marginal_value_terms S t Hsc).
  rewrite (marginal_value_terms (Summary_add_triple S u) t Hsc).
  eexists _, _. split; [reflexivity|]. split; [reflexivity|].
  unfold marginal_terms, total_value. cbn [graph parent parent_ Summary_add_triple].
  apply terms_float_le; auto.
  - apply has_entity_add_triple.
  - apply has_entity_add_triple.
  - intros Hh. apply has_triple_add_triple. by right.
Qed.

Lemma fork_scored_nonneg : values_nonneg fork_scored.
Proof.
  split.
  - intros e. unfold ev_of, fork_scored, with_values. simpl.
    destruct (_ !! e) as [v|] eqn:Hv; [|apply nonneg_zero]. simpl.
    apply lookup_insert_Some in Hv as [[_ <-]|[_ Hv]];
      [|apply lookup_singleton_Some in Hv as [_ <-]];
      (eexists; split; [reflexivity|discriminate]).
  - intros t. unfold tv_of, fork_scored, with_values. simpl.
    destruct (_ !! t) as [v|] eqn:Hv; [|apply nonneg_zero]. simpl.
    apply lookup_singleton_Some in Hv as [_ <-].
    eexists; split; [reflexivity|discriminate].
Qed.

Lemma marginal_value_diminishing_witness :
  exists m m',
    marginal_value (Summary_init fork_scored) ("a", "r", "c") = Ok m /\
    marginal_value (Summary_add_triple (Summary_init fork_scored) ("a", "r", "b"))
      ("a", "r", "c") = Ok m' /\
    float_le m' m /\ nonneg m' /\
    float_le m (total_value (parent (Summary_init fork_scored)) ("a", "r", "c")).
Proof.
  apply (marginal_value_diminishing (Summary_init fork_scored)
           ("a", "r", "b") ("a", "r", "c")).
  - split; eexists; reflexivity.
  - apply fork_scored_nonneg.
Defined.

Lemma fill_spec (ts : list triple) (k : nat) :
  forall S : Summary,
    KG_wf (graph S) ->
    KG_wf (graph (fill S ts k)) /\
    parent (fill S ts k) = parent S /\
    triples (graph S) ⊆ triples (graph (fill S ts k)) /\
    triples (graph (fill S ts k)) ⊆ triples (graph S) ∪ list_to_set ts /\
    (k <= number_of_triples (graph S) -> fill S ts k = S) /\
    (number_of_triples (graph S) <= k ->
     number_of_triples (graph (fill S ts k))
     = k `min` size (triples (graph S) ∪ list_to_set ts)).
Proof.
  induction ts as [|t ts IH]; intros S Hwf; cbn [fill].
  - split; [done|]. split; [done|]. split; [done|]. split; [set_solver|].
    split; [done|]. intros Hk. rewrite (number_of_triples_wf _ Hwf) in Hk |- *.
    replace (triples (graph S) ∪ list_to_set []) with (triples (graph S)) by set_solver.
    lia.
  - pose proof (number_of_triples_wf _ Hwf) as Hnum.
    destruct (k <=? number_of_triples (graph S)) eqn:Hk.
    + apply Nat.leb_le in Hk. split; [done|]. split; [done|]. split; [done|].
      split; [clear; set_solver|]. split; [done|]. intros Hle.
      assert (Hsize : size (triples (graph S))
                      <= size (triples (graph S) ∪ list_to_set (t :: ts)))
        by (apply subseteq_size; clear; set_solver).
      lia.
    + apply Nat.leb_gt in Hk.
      set (S' := Summary_add_triple S t).
      assert (Hwf' : KG_wf (graph S')) by (by apply KG_wf_add_triple).
      assert (Htr : triples (graph S') = {[t]} ∪ triples (graph S))
        by apply triples_add_triple.
      pose proof (number_of_triples_wf _ Hwf') as Hnum'.
      destruct (IH S' Hwf') as (H1 & H2 & H3 & H4 & H5 & H6).
      rewrite Htr in H3, H4, H6.
      split; [done|]. split; [done|]. split; [clear -H3; set_solver|].
      split; [clear -H4; set_solver|]. split; [lia|]. intros _.
      rewrite H6.
      * f_equal. f_equal. clear. set_solver.
      * rewrite Hnum', Htr.
        pose proof (size_union_alt ({[t]} : gset triple) (triples (graph S))) as Hu.
        rewrite size_singleton in Hu.
        assert (Hd : size (triples (graph S) ∖ {[t]}) <= size (triples (graph S)))
          by (apply subseteq_size; clear; set_solver).
        lia.
Qed.

(** X15: [Summary.fill(triples, k)] on a summary built by [add_triple]:
    it never removes a triple and adds only triples of the list; with [k]
    triples or more already, it changes nothing; otherwise the summary ends
    with [min(k, n)] triples, [n] being the number of distinct triples among
    those it held and those of the list. *)
Theorem fill_size (S : Summary) (ts : list triple) (k : nat) :
  KG_wf (graph S) ->
  parent (fill S ts k) = parent S /\
  triples (graph S) ⊆ triples (graph (fill S ts k)) /\
  triples (graph (fill S ts k)) ⊆ triples (graph S) ∪ list_to_set ts /\
  (k <= number_of_triples (graph S) -> fill S ts k = S) /\
  (number_of_triples (graph S) <= k ->
   number_of_triples (graph (fill S ts k))
   = k `min` size (triples (graph S) ∪ list_to_set ts)) /\
  number_of_triples (graph (fill S ts k)) = size (triples (graph (fill S ts k))).
Proof.
  intros Hwf. destruct (fill_spec ts k S Hwf) as (H1 & H2 & H3 & H4 & H5 & H6).
  split; [done|]. split; [done|]. split; [done|]. split; [done|]. split; [done|].
  by apply number_of_triples_wf.
Qed.

Lemma fill_size_witness :
  number_of_triples
    (graph (fill (Summary_init fork_graph)
              [("a", "r", "b"); ("a", "r", "b"); ("a", "r", "c"); ("b", "r", "c")] 2))
  = 2.
Proof.
  destruct (fill_size (Summary_init fork_graph)
              [("a", "r", "b"); ("a", "r", "b"); ("a", "r", "c"); ("b", "r", "c")] 2)
    as (_ & _ & _ & _ & H & _).
  - apply KG_wf_init.
  - rewrite H by (simpl; lia). vm_compute. reflexivity.
Defined.

(** ** The candidate pool ([src/heap.py]) *)

Lemma Heap_init_fold (iter_set : gset triple -> list triple) (KG : KnowledgeGraph)
    (l : list triple) :
  scored KG ->
  forall acc : list HeapTriple,
    foldM (fun heap_ t =>
             let '(e1, r, e2) := t in
             v1 ← entity_value KG e1;
             v2 ← entity_value KG e2;
             v3 ← triple_value KG t;
             let total := add (add v1 v2) v3 in
             Ok (if gtb total zero then (heap_ ++ [mkHeapTriple t total])%list
                 else heap_))
          acc l
    = Ok (acc ++ ((fun t => mkHeapTriple t (total_value KG t))
                    <$> filter (fun t => gtb (total_value KG t) zero = true) l)).
Proof.
  intros Hsc. destruct (scored_values KG Hsc) as [Hev Htv].
  induction l as [|[[e1 r] e2] l IH]; intros acc; cbn [foldM].
  - by rewrite filter_nil, fmap_nil, app_nil_r.
  - rewrite !Hev, Htv. cbn [mbind Result_bind].
    change (add (add (ev_of KG e1) (ev_of KG e2)) (tv_of KG (e1, r, e2)))
      with (total_value KG (e1, r, e2)).
    destruct (gtb (total_value KG (e1, r, e2)) zero) eqn:Hg.
    + rewrite IH, filter_cons_True by done. by rewrite fmap_cons, <- app_assoc.
    + rewrite IH, filter_cons_False; [done|]. by rewrite Hg.
Qed.

(** X16: [Heap(KG)] on a scored graph (after [reset()]) holds, in the
    order in which [KG.triples()] is iterated, exactly the triples whose
    value [ev(e1) + ev(e2) + tv(t)] is greater than zero, each with that
    value; triples whose value is zero, negative or NaN are left out. *)
Theorem Heap_init_pool (iter_set : gset triple -> list triple) (KG : KnowledgeGraph) :
  scored KG ->
  exists heap : list HeapTriple,
    Heap_init iter_set KG = Ok heap /\
    Heap_triples heap
    = filter (fun t => gtb (total_value KG t) zero = true) (iter_set (triples KG)) /\
    Forall (fun item => value_ item = total_value KG (triple_ item) /\
                        gtb (value_ item) zero = true /\
                        is_nan (value_ item) = false) heap.
Proof.
  intros Hsc. unfold Heap_init. rewrite (Heap_init_fold iter_set KG _ Hsc).
  eexists. split; [reflexivity|]. simpl. split.
  - unfold Heap_triples. rewrite <- list_fmap_compose. apply list_fmap_id.
  - apply Forall_fmap, Forall_forall. intros t [Ht _]%list_elem_of_filter. simpl.
    split; [done|]. split; [done|]. by destruct (total_value KG t).
Qed.

Lemma Heap_init_pool_witness :
  exists heap : list HeapTriple,
    Heap_init elements fork_scored = Ok heap /\
    Heap_triples heap
    = filter (fun t => gtb (total_value fork_scored t) zero = true)
             (elements (triples fork_scored)) /\
    Forall (fun item => value_ item = total_value fork_scored (triple_ item) /\
                        gtb (value_ item) zero = true /\
                        is_nan (value_ item) = false) heap.
Proof.
  apply (Heap_init_pool elements fork_scored). split; eexists; reflexivity.
Defined.

Lemma swap_head_perm {A} (l : list A) (j : nat) (a y : A) :
  l !! j = Some y -> y :: <[j := a]> l ≡ₚ a :: l.
Proof.
  revert j. induction l as [|b l IH]; intros [|j] Hj; simpl in *; try done.
  - injection Hj as ->. apply perm_swap.
  - etrans; [apply perm_swap|]. etrans; [|apply perm_swap].
    constructor. by apply IH.
Qed.

Lemma swap_perm {A} (l : list A) (i j : nat) (x y : A) :
  l !! i = Some x -> l !! j = Some y -> <[i := y]> (<[j := x]> l) ≡ₚ l.
Proof.
  revert i j. induction l as [|a l IH]; intros [|i] [|j] Hi Hj; simpl in *; try done.
  - injection Hi as ->. by injection Hj as ->.
  - injection Hi as ->. by apply swap_head_perm.
  - injection Hj as ->. by apply swap_head_perm.
  - constructor. by apply IH.
Qed.

Lemma _move_to_top_perm (h : list HeapTriple) (argmax : nat) :
  _move_to_top h argmax ≡ₚ h.
Proof.
  unfold _move_to_top. destruct (h !! argmax) as [a|] eqn:Ha; [|done].
  destruct (last h) as [l|] eqn:Hl; [|done].
  apply swap_perm; [done|]. by rewrite Nat.sub_1_r, <- last_lookup.
Qed.

Lemma _update_marginal_triples (S : Summary) (h h' : list HeapTriple) (i : nat) :
  _update_marginal S h i = Ok h' -> triple_ <$> h' = triple_ <$> h.
Proof.
  unfold _update_marginal.
  intros (it & Hit%of_option_Ok & (v & _ & [= <-])%bind_Ok)%bind_Ok.
  rewrite list_fmap_insert. simpl. apply list_insert_id.
  by rewrite list_lookup_fmap, Hit.
Qed.

Lemma Heap_update_triples (S : Summary) (h h' : list HeapTriple)
    (sample_size : Z) (g g' : list nat) :
  Heap_update S h sample_size g = Ok (h', g') ->
  Heap_triples h' ≡ₚ Heap_triples h.
Proof.
  intros Hupd. unfold Heap_update in Hupd.
  apply bind_Ok in Hupd as ([[indices|] g1] & Hs & Hrest).
  2:{ by injection Hrest as <- <-. }
  apply bind_Ok in Hrest as ([[before after] h1] & Hlg & Hrest).
  assert (Hh1 : triple_ <$> h1 = triple_ <$> h).
  { unfold _lazy_greedy in Hlg.
    apply bind_Ok in Hlg as (top & _ & (h2 & Hu & (a & _ & [= _ _ <-])%bind_Ok)%bind_Ok).
    by apply _update_marginal_triples in Hu. }
  unfold Heap_triples. destruct (ref_eq h1 before after).
  { injection Hrest as <- <-. rewrite <- Hh1. apply fmap_Permutation.
    apply _move_to_top_perm. }
  apply bind_Ok in Hrest as ([[h2 top] argmax] & Hfold & [= <- <-]).
  apply (foldM_invariant _ (fun st => triple_ <$> st.1.1 = triple_ <$> h))
    in Hfold; [| |done].
  - simpl in Hfold. rewrite <- Hfold. apply fmap_Permutation, _move_to_top_perm.
  - intros [[hh tp] am] i [[hh' tp'] am'] Hinv. simpl in Hinv.
    intros (item & _ & Hstep)%bind_Ok.
    destruct (triple_ item) as [[e1 r] e2].
    apply bind_Ok in Hstep as (hh1 & Hu & Hstep).
    apply bind_Ok in Hstep as (vt & _ & (vi & _ & Hstep)%bind_Ok).
    assert (Hhh1 : triple_ <$> hh1 = triple_ <$> h).
    { destruct (has_entity (graph S) e1 || has_entity (graph S) e2).
      - apply _update_marginal_triples in Hu. congruence.
      - by injection Hu as <-. }
    destruct (ltb vt vi); by injection Hstep as <- _ _.
Qed.

(** X17: [Heap.update] only reorders the pool and refreshes values: the
    triples of the pool afterwards are a rearrangement of the triples
    before, so no candidate is lost, added or repeated; with at most one
    candidate, or a sample size of zero, the pool and the generator are left
    as they are. *)
Theorem Heap_update_permutation (S : Summary) (h h' : list HeapTriple)
    (sample_size : Z) (g g' : list nat) :
  Heap_update S h sample_size g = Ok (h', g') ->
  Heap_triples h' ≡ₚ Heap_triples h /\
  length h' = length h /\
  (length h <= 1 \/ sample_size = 0%Z -> h' = h /\ g' = g).
Proof.
  intros Hupd.
  pose proof (Heap_update_triples S h h' sample_size g g' Hupd) as Hperm.
  split; [done|split].
  - apply Permutation_length in Hperm. unfold Heap_triples in Hperm.
    by rewrite !length_fmap in Hperm.
  - intros Hcase. unfold Heap_update, Heap_sample in Hupd.
    assert (Hc : (length h <=? 1)
                 || (Z.min (Z.of_nat (length h)) sample_size =? 0)%Z = true).
    { apply orb_true_iff. destruct Hcase as [Hl| ->].
      - left. by apply Nat.leb_le.
      - destruct (length h) as [|n] eqn:Hn; [left; done|]. right.
        apply Z.eqb_eq. lia. }
    rewrite Hc in Hupd. simpl in Hupd. by injection Hupd as <- <-.
Qed.

Lemma Heap_update_permutation_witness :
  exists (heap h' : list HeapTriple) (g' : list nat),
    Heap_init elements fork_scored = Ok heap /\
    Heap_update (Summary_init fork_scored) heap 2 [1; 0; 1] = Ok (h', g') /\
    Heap_triples h' ≡ₚ Heap_triples heap /\ length h' = length heap.
Proof.
  destruct (Heap_init elements fork_scored) as [heap|err] eqn:Hinit.
  2:{ vm_compute in Hinit. discriminate. }
  destruct (Heap_update (Summary_init fork_scored) heap 2 [1; 0; 1])
    as [[h' g']|err] eqn:Hupd.
  2:{ exfalso. revert Hupd. vm_compute in Hinit. injection Hinit as <-.
      vm_compute. discriminate. }
  exists heap, h', g'. split; [reflexivity|]. split; [exact Hupd|].
  destruct (Heap_update_permutation _ _ _ _ _ _ Hupd) as (Hp & Hl & _).
  split; [exact Hp|exact Hl].
Defined.

(** ** The adjacency and transition matrices, entry by entry *)

Lemma mul_of_nat (a b : nat) : mul (of_nat a) (of_nat b) = of_nat (a * b).
Proof.
  unfold of_nat. simpl. f_equal.
  rewrite <- (Qred_inject_Z (Z.of_nat (a * b))). apply Qred_complete.
  rewrite Nat2Z.inj_mul, inject_Z_mult. reflexivity.
Qed.

Lemma foldl_sp_accum_count {A} (f g : A -> nat) (l : list A) (i j : nat) :
  forall (m : gmap (nat * nat) float) (c : nat),
    m !! (i, j) = count_entry c ->
    foldl (fun m '(i, j, v) => sp_accum m i j v) m
          ((fun a => (f a, g a, one)) <$> l) !! (i, j)
    = count_entry (c + length (filter (fun a => f a = i /\ g a = j) l)).
Proof.
  induction l as [|a l IH]; intros m c Hm.
  - simpl. by rewrite Nat.add_0_r.
  - rewrite fmap_cons. cbn [foldl].
    destruct (decide (f a = i /\ g a = j)) as [[<- <-]|Hne].
    + rewrite filter_cons_True by done. cbn [length].
      rewrite (IH _ (S c)); [f_equal; lia|].
      unfold sp_accum. rewrite Hm. unfold count_entry.
      destruct c as [|c]; cbn [Nat.eqb].
      * by rewrite lookup_insert_eq.
      * by rewrite lookup_insert_eq, add_of_nat_one.
    + rewrite filter_cons_False by done. apply IH.
      rewrite <- Hm. unfold sp_accum.
      assert (Hk : (f a, g a) ≠ (i, j)) by (intros [= ? ?]; by apply Hne).
      destruct (m !! (f a, g a)); by rewrite lookup_insert_ne.
Qed.

Lemma inner_fold_skip (i k : nat) (a : float) (ly : list (nat * nat * float))
    (acc : gmap (nat * nat) float) :
  (forall k' j b, (k', j, b) ∈ ly -> k' ≠ k) ->
  foldl (fun acc '((k', j), b) =>
           if decide (k = k') then sp_accum acc i j (mul a b) else acc) acc ly
  = acc.
Proof.
  revert acc. induction ly as [|[[k' j] b] ly IH]; intros acc Hne; [done|].
  cbn [foldl]. rewrite decide_False.
  - apply IH. intros k'' j' b' Hin. eapply Hne. by right.
  - intros ->. by eapply Hne; [left|].
Qed.

Lemma inner_fold_diag (i k : nat) (a d : float) (ly : list (nat * nat * float))
    (acc : gmap (nat * nat) float) :
  NoDup ly.*1 ->
  (forall k' j b, (k', j, b) ∈ ly -> k' = j) ->
  (k, k, d) ∈ ly ->
  foldl (fun acc '((k', j), b) =>
           if decide (k = k') then sp_accum acc i j (mul a b) else acc) acc ly
  = sp_accum acc i k (mul a d).
Proof.
  revert acc. induction ly as [|[[k' j] b] ly IH]; intros acc Hnd Hdiag Hin.
  { by apply not_elem_of_nil in Hin. }
  rewrite fmap_cons in Hnd. apply NoDup_cons in Hnd as [Hnin Hnd]. simpl in Hnin.
  assert (Hkj : k' = j) by (eapply Hdiag; left). subst j.
  cbn [foldl]. destruct (decide (k = k')) as [<-|Hne].
  - assert (b = d) as ->.
    { apply elem_of_cons in Hin as [[= ->]|Hin]; [done|].
      exfalso. apply Hnin. apply list_elem_of_fmap. by exists (k, k, d). }
    apply inner_fold_skip. intros k' j b' Hin' ->.
    assert (j = k) as -> by (symmetry; eapply Hdiag; by right).
    apply Hnin. apply list_elem_of_fmap. by exists (k, k, b').
  - apply IH; [done| |].
    + intros k'' j b' Hin'. eapply Hdiag. by right.
    + apply elem_of_cons in Hin as [[= ? ?]|Hin]; [congruence|done].
Qed.

Lemma outer_fold_diag (d : nat -> float) (ly : list (nat * nat * float))
    (lx : list (nat * nat * float)) :
  NoDup ly.*1 ->
  (forall k' j b, (k', j, b) ∈ ly -> k' = j) ->
  NoDup lx.*1 ->
  (forall i k a, (i, k, a) ∈ lx -> (k, k, d k) ∈ ly) ->
  forall (acc : gmap (nat * nat) float) (p : nat * nat),
    (forall p', p' ∈ lx.*1 -> acc !! p' = None) ->
    foldl (fun acc '((i, k), a) =>
             foldl (fun acc '((k', j), b) =>
                      if decide (k = k') then sp_accum acc i j (mul a b) else acc)
                   acc ly)
          acc lx !! p
    = match (list_to_map lx : gmap (nat * nat) float) !! p with
      | Some a => Some (mul a (d p.2))
      | None => acc !! p
      end.
Proof.
  intros Hndy Hdiag. induction lx as [|[[i k] a] lx IH]; intros Hndx Hd acc p Hacc.
  { cbn [foldl]. by rewrite list_to_map_nil, lookup_empty. }
  rewrite fmap_cons in Hndx. apply NoDup_cons in Hndx as [Hnin Hndx]. simpl in Hnin.
  cbn [foldl].
  rewrite (inner_fold_diag i k a (d k) ly acc Hndy Hdiag) by (eapply Hd; left).
  assert (Hacc' : sp_accum acc i k (mul a (d k)) = <[(i, k) := mul a (d k)]> acc).
  { unfold sp_accum. rewrite Hacc; [done|]. rewrite fmap_cons. left. }
  rewrite Hacc'. rewrite IH; [|done| |].
  - rewrite list_to_map_cons.
    destruct (decide (p = (i, k))) as [->|Hne].
    + rewrite lookup_insert_eq.
      rewrite (not_elem_of_list_to_map_1 lx (i, k)) by done.
      by rewrite lookup_insert_eq.
    + by rewrite !lookup_insert_ne by done.
  - intros i' k' a' Hin. eapply Hd. by right.
  - intros p' Hp'. rewrite lookup_insert_ne.
    + apply Hacc. rewrite fmap_cons. by right.
    + intros <-. by apply Hnin.
Qed.

Lemma sp_matmul_diag (X Y : spmatrix) (d : nat -> float) :
  (shape X).2 = (shape Y).1 ->
  (forall k' j b, data Y !! (k', j) = Some b -> k' = j) ->
  (forall i k a, data X !! (i, k) = Some a -> data Y !! (k, k) = Some (d k)) ->
  exists M, sp_matmul X Y = Ok M /\ shape M = ((shape X).1, (shape Y).2) /\
    forall p, data M !! p = (fun a => mul a (d p.2)) <$> data X !! p.
Proof.
  intros Hshape Hdiag Hd. unfold sp_matmul. rewrite decide_True by done.
  eexists. split; [reflexivity|]. split; [reflexivity|]. intros p. cbn [data].
  rewrite (outer_fold_diag d).
  - rewrite list_to_map_to_list, lookup_empty. by destruct (data X !! p).
  - apply NoDup_fst_map_to_list.
  - intros k' j b Hin%elem_of_map_to_list. by eapply Hdiag.
  - apply NoDup_fst_map_to_list.
  - intros i k a Hin%elem_of_map_to_list. apply elem_of_map_to_list. by eapply Hd.
  - intros p' _. apply lookup_empty.
Qed.

Lemma NoDup_triple_list (kg : KnowledgeGraph) : NoDup (triple_list kg).
Proof.
  unfold triple_list. apply NoDup_bind.
  - intros [e1 d1] [e1' d1'] [[a r] b] H1 H2 Hy1 Hy2.
    apply list_elem_of_bind in Hy1 as ([r1 s1] & Hy1 & _).
    apply list_elem_of_bind in Hy1 as (o1 & [= -> -> ->]%list_elem_of_singleton & _).
    apply list_elem_of_bind in Hy2 as ([r2 s2] & Hy2 & _).
    apply list_elem_of_bind in Hy2 as (o2 & [= -> -> ->]%list_elem_of_singleton & _).
    apply elem_of_map_to_list in H1, H2. congruence.
  - intros [e1 d] _. apply NoDup_bind.
    + intros [r1 s1] [r2 s2] [[a r] b] H1 H2 Hy1 Hy2.
      apply list_elem_of_bind in Hy1 as (o1 & [= -> -> ->]%list_elem_of_singleton & _).
      apply list_elem_of_bind in Hy2 as (o2 & [= -> _]%list_elem_of_singleton & _).
      apply elem_of_map_to_list in H1, H2. congruence.
    + intros [r s] _. apply NoDup_bind.
      * intros o1 o2 [[a r'] b] _ _ [= -> -> ->]%list_elem_of_singleton
          [= ->]%list_elem_of_singleton. done.
      * intros o _. apply NoDup_singleton.
      * apply NoDup_elements.
    + apply NoDup_map_to_list.
  - apply NoDup_map_to_list.
Qed.

Lemma size_filter_triples (KG : KnowledgeGraph) (P : triple -> Prop)
    `{!forall t, Decision (P t)} :
  size (filter P (triples KG)) = length (filter P (triple_list KG)).
Proof.
  rewrite <- (size_list_to_set (C := gset triple)).
  - f_equal. apply set_eq. intros t.
    rewrite elem_of_filter, elem_of_list_to_set, list_elem_of_filter.
    unfold triples. by rewrite elem_of_list_to_set.
  - apply NoDup_filter, NoDup_triple_list.
Qed.

Lemma filter_ext_in {A} (P Q : A -> Prop) `{!forall x, Decision (P x)}
    `{!forall x, Decision (Q x)} (l : list A) :
  (forall x, x ∈ l -> P x <-> Q x) -> filter P l = filter Q l.
Proof.
  induction l as [|a l IH]; intros Hiff; [done|].
  assert (Ha : P a <-> Q a) by (apply Hiff; left).
  assert (Hl : filter P l = filter Q l)
    by (apply IH; intros x Hx; apply Hiff; by right).
  destruct (decide (P a)).
  - rewrite !filter_cons_True by tauto. by rewrite Hl.
  - rewrite !filter_cons_False by tauto. done.
Qed.

Lemma id_of_inj (KG : KnowledgeGraph) (e e' : string) (i : nat) :
  KG_wf KG -> e ∈ entities KG -> entity_id_ KG !! e' = Some i ->
  id_of KG e = i <-> e = e'.
Proof.
  intros Hwf He Hi. pose proof (wf_ids _ Hwf) as Hids.
  apply (wf_entity_dom _ Hids) in He as [k Hk]. unfold id_of. rewrite Hk. simpl.
  split.
  - intros ->. apply (wf_id_inverse _ Hids) in Hk, Hi. congruence.
  - intros ->. congruence.
Qed.

Lemma triple_list_entities (KG : KnowledgeGraph) (t : triple) :
  KG_wf KG -> t ∈ triple_list KG -> t.1.1 ∈ entities KG /\ t.2 ∈ entities KG.
Proof.
  intros Hwf Hin.
  assert (Ht : t ∈ triples KG) by (unfold triples; by apply elem_of_list_to_set).
  split; apply (wf_entities _ Hwf); exists t; auto.
Qed.

Lemma links_list (KG : KnowledgeGraph) (e1 e2 : string) (i j : nat) :
  KG_wf KG -> entity_id_ KG !! e1 = Some i -> entity_id_ KG !! e2 = Some j ->
  length (filter (fun t : triple => id_of KG t.1.1 = i /\ id_of KG t.2 = j)
                 (triple_list KG))
  = links KG e1 e2.
Proof.
  intros Hwf Hi Hj. unfold links. rewrite size_filter_triples. f_equal.
  apply filter_ext_in. intros t Ht.
  destruct (triple_list_entities KG t Hwf Ht) as [H1 H2].
  by rewrite (id_of_inj KG _ e1 i Hwf H1 Hi), (id_of_inj KG _ e2 j Hwf H2 Hj).
Qed.

Lemma out_links_list (KG : KnowledgeGraph) (e1 : string) (i : nat) :
  KG_wf KG -> entity_id_ KG !! e1 = Some i ->
  length (filter (fun t : triple => id_of KG t.1.1 = i /\ id_of KG t.1.1 = i)
                 (triple_list KG))
  = out_links KG e1.
Proof.
  intros Hwf Hi. unfold out_links. rewrite size_filter_triples. f_equal.
  apply filter_ext_in. intros t Ht.
  destruct (triple_list_entities KG t Hwf Ht) as [H1 _].
  rewrite (id_of_inj KG _ e1 i Hwf H1 Hi). tauto.
Qed.

Lemma links_le_out_links (KG : KnowledgeGraph) (e1 e2 : string) :
  links KG e1 e2 <= out_links KG e1.
Proof.
  unfold links, out_links. apply subseteq_size. intros t.
  rewrite !elem_of_filter. tauto.
Qed.

Lemma triple_ids (KG : KnowledgeGraph) (e1 r e2 : string) :
  KG_wf KG -> (e1, r, e2) ∈ triple_list KG ->
  entity_id KG e1 = Ok (id_of KG e1) /\ entity_id KG e2 = Ok (id_of KG e2) /\
  id_of KG e1 < number_of_entities KG /\ id_of KG e2 < number_of_entities KG.
Proof.
  intros Hwf Hin.
  destruct (wf_triple_ids _ _ _ _ Hwf Hin) as (i & j & Hi & Hj & Hlti & Hltj).
  rewrite (wf_number_of_entities _ (wf_ids _ Hwf)).
  unfold entity_id, id_of. rewrite Hi, Hj. done.
Qed.

Lemma csr_matrix_fold (KG : KnowledgeGraph) :
  KG_wf KG ->
  csr_matrix KG
  = Ok (mkSp (number_of_entities KG, number_of_entities KG)
          (foldl (fun m '(i, j, v) => sp_accum m i j v) ∅
             ((fun t : triple => (id_of KG t.1.1, id_of KG t.2, one))
                <$> triple_list KG))).
Proof.
  intros Hwf. unfold csr_matrix.
  rewrite (mapM_R_Ok _ (fun t => (id_of KG t.1.1, id_of KG t.2, one))).
  2:{ intros [[e1 r] e2] Hin. destruct (triple_ids _ _ _ _ Hwf Hin) as (-> & -> & _).
      done. }
  cbn [mbind Result_bind]. rewrite coo_to_csr_Ok; [done|].
  apply Forall_fmap, Forall_forall. intros [[e1 r] e2] Hin. simpl.
  destruct (triple_ids _ _ _ _ Hwf Hin) as (_ & _ & ? & ?). done.
Qed.

(** The stored entries of the two matrices of a graph built by
    [add_triple]: the adjacency matrix stores, at [(i, j)], the number of
    triples from the entity of [i] to the entity of [j] (nothing for none),
    and [transition_matrix] stores the entry of the transposed position
    times the number of triples whose subject is the entity of the
    column. *)
Lemma matrices_lookup (KG : KnowledgeGraph) :
  KG_wf KG ->
  exists A T : spmatrix,
    csr_matrix KG = Ok A /\ transition_matrix KG = Ok T /\
    shape A = (number_of_entities KG, number_of_entities KG) /\
    shape T = (number_of_entities KG, number_of_entities KG) /\
    (forall i j, data A !! (i, j)
       = count_entry (length (filter
           (fun t : triple => id_of KG t.1.1 = i /\ id_of KG t.2 = j)
           (triple_list KG)))) /\
    (forall p, data T !! p
       = (fun a => mul a (of_nat (length (filter
              (fun t : triple => id_of KG t.1.1 = p.2 /\ id_of KG t.1.1 = p.2)
              (triple_list KG)))))
           <$> data A !! prod_swap p).
Proof.
  intros Hwf. set (n := number_of_entities KG).
  set (cooA := (fun t : triple => (id_of KG t.1.1, id_of KG t.2, one))
                 <$> triple_list KG).
  set (cooD := (fun t : triple => (id_of KG t.1.1, id_of KG t.1.1, one))
                 <$> triple_list KG).
  set (mA := foldl (fun m '(i, j, v) => sp_accum m i j v) ∅ cooA).
  set (mD := foldl (fun m '(i, j, v) => sp_accum m i j v) ∅ cooD).
  assert (HA : csr_matrix KG = Ok (mkSp (n, n) mA)) by by apply csr_matrix_fold.
  assert (HmA : forall i j, mA !! (i, j)
            = count_entry (length (filter
                (fun t : triple => id_of KG t.1.1 = i /\ id_of KG t.2 = j)
                (triple_list KG)))).
  { intros i j. unfold mA, cooA.
    by rewrite (foldl_sp_accum_count _ _ _ i j ∅ 0) by apply lookup_empty. }
  assert (HmD : forall i, mD !! (i, i)
            = count_entry (length (filter
                (fun t : triple => id_of KG t.1.1 = i /\ id_of KG t.1.1 = i)
                (triple_list KG)))).
  { intros i. unfold mD, cooD.
    by rewrite (foldl_sp_accum_count _ _ _ i i ∅ 0) by apply lookup_empty. }
  assert (HdiagD : forall k' j b, mD !! (k', j) = Some b -> k' = j).
  { intros k' j b Hb.
    assert (Hall : map_Forall (fun k (_ : float) => k.1 = k.2) mD).
    { apply foldl_sp_accum_Forall; [done|apply map_Forall_empty|].
      apply Forall_fmap, Forall_forall. by intros [[e1 r] e2] _. }
    exact (Hall _ _ Hb). }
  set (d := fun i => of_nat (length (filter
                (fun t : triple => id_of KG t.1.1 = i /\ id_of KG t.1.1 = i)
                (triple_list KG)))).
  destruct (sp_matmul_diag (sp_transpose (mkSp (n, n) mA)) (mkSp (n, n) mD) d)
    as (T & HT & HshT & HdT).
  { done. }
  { exact HdiagD. }
  { intros i k a. cbn [data sp_transpose].
    change (i, k) with (prod_swap (k, i)). rewrite lookup_kmap by apply _.
    rewrite HmA, HmD. unfold count_entry, d.
    destruct (length (filter _ _) =? 0) eqn:Hz; [done|]. intros _.
    apply Nat.eqb_neq in Hz.
    assert (Hpos : length (filter (fun t : triple =>
                      id_of KG t.1.1 = k /\ id_of KG t.1.1 = k) (triple_list KG)) ≠ 0).
    { intros H0. apply Hz. apply length_zero_iff_nil in H0.
      destruct (filter (fun t : triple => id_of KG t.1.1 = k /\ id_of KG t.2 = i)
                  (triple_list KG)) as [|x l'] eqn:Hf; [done|].
      exfalso. assert (Hx : x ∈ x :: l') by left. rewrite <- Hf in Hx.
      apply list_elem_of_filter in Hx as [[Hx1 _] Hx].
      assert (Hx' : x ∈ filter (fun t : triple =>
                      id_of KG t.1.1 = k /\ id_of KG t.1.1 = k) (triple_list KG))
        by (by apply list_elem_of_filter).
      rewrite H0 in Hx'. by apply not_elem_of_nil in Hx'. }
    apply Nat.eqb_neq in Hpos. by rewrite Hpos. }
  exists (mkSp (n, n) mA), T.
  split; [exact HA|]. split.
  { unfold transition_matrix.
    rewrite (mapM_R_Ok _ (fun t => (id_of KG t.1.1, id_of KG t.1.1, div one one))).
    2:{ intros [[e1 r] e2] Hin. destruct (triple_ids _ _ _ _ Hwf Hin) as (-> & _).
        done. }
    cbn [mbind Result_bind]. rewrite coo_to_csr_Ok.
    2:{ apply Forall_fmap, Forall_forall. intros [[e1 r] e2] Hin. simpl.
        destruct (triple_ids _ _ _ _ Hwf Hin) as (_ & _ & ? & _). done. }
    cbn [mbind Result_bind]. rewrite HA. cbn [mbind Result_bind]. exact HT. }
  split; [done|]. split; [exact HshT|]. split; [exact HmA|].
  intros [j i]. rewrite HdT. cbn [data sp_transpose snd prod_swap fst].
  change (j, i) with (prod_swap (i, j)). by rewrite lookup_kmap by apply _.
Qed.

(** X18: the adjacency matrix counts parallel edges, and the matrix that
    [transition_matrix] returns multiplies where a column-stochastic matrix
    divides. On a graph built by [add_triple], for entities [e1], [e2] with
    identifiers [i], [j]: [csr_matrix()[i, j]] is the number of triples
    from [e1] to [e2], and [transition_matrix()[j, i]] is that number times
    the out-degree of [e1] (the number of triples with subject [e1]); both
    matrices are n x n, n the number of entities. *)
Theorem transition_matrix_entries (KG : KnowledgeGraph) :
  KG_wf KG ->
  exists A T : spmatrix,
    csr_matrix KG = Ok A /\ transition_matrix KG = Ok T /\
    shape A = (number_of_entities KG, number_of_entities KG) /\
    shape T = (number_of_entities KG, number_of_entities KG) /\
    forall e1 e2 i j,
      entity_id KG e1 = Ok i -> entity_id KG e2 = Ok j ->
      entry A i j = of_nat (links KG e1 e2) /\
      entry T j i = of_nat (links KG e1 e2 * out_links KG e1) /\
      (is_Some (data T !! (j, i)) <-> exists r, (e1, r, e2) ∈ triples KG).
Proof.
  intros Hwf.
  destruct (matrices_lookup KG Hwf) as (A & T & HA & HT & HshA & HshT & HmA & HdT).
  exists A, T. split; [exact HA|]. split; [exact HT|].
  split; [exact HshA|]. split; [exact HshT|].
  intros e1 e2 i j Hi%of_option_Ok Hj%of_option_Ok.
  pose proof (links_list KG e1 e2 i j Hwf Hi Hj) as Hl.
  pose proof (out_links_list KG e1 i Hwf Hi) as Ho.
  assert (HTji : data T !! (j, i)
                 = (fun a => mul a (of_nat (out_links KG e1)))
                     <$> count_entry (links KG e1 e2)).
  { rewrite HdT. cbn [snd prod_swap fst]. by rewrite HmA, Hl, Ho. }
  split; [|split].
  - unfold entry. rewrite HmA, Hl. unfold count_entry.
    destruct (links KG e1 e2) as [|l]; done.
  - unfold entry. rewrite HTji. unfold count_entry.
    destruct (links KG e1 e2) as [|l]; [done|]. cbn [Nat.eqb fmap option_fmap option_map default].
    apply mul_of_nat.
  - rewrite HTji. unfold count_entry, links.
    destruct (size _ =? 0) eqn:Hz.
    + apply Nat.eqb_eq, size_empty_iff in Hz. split; [by intros [? ?]|].
      intros [r Hr]. exfalso.
      apply (not_elem_of_empty (C := gset triple) (e1, r, e2)).
      rewrite <- Hz. by apply elem_of_filter.
    + split; [|by eexists]. intros _. apply Nat.eqb_neq in Hz.
      apply size_non_empty_iff, set_choose in Hz as [[[a r] b] Hin].
      apply elem_of_filter in Hin as [[Ha Hb] Hin]. simpl in Ha, Hb. subst.
      by exists r.
Qed.

Lemma transition_matrix_entries_witness :
  exists A T : spmatrix,
    csr_matrix fork_graph = Ok A /\ transition_matrix fork_graph = Ok T /\
    shape A = (number_of_entities fork_graph, number_of_entities fork_graph) /\
    shape T = (number_of_entities fork_graph, number_of_entities fork_graph) /\
    forall e1 e2 i j,
      entity_id fork_graph e1 = Ok i -> entity_id fork_graph e2 = Ok j ->
      entry A i j = of_nat (links fork_graph e1 e2) /\
      entry T j i = of_nat (links fork_graph e1 e2 * out_links fork_graph e1) /\
      (is_Some (data T !! (j, i)) <-> exists r, (e1, r, e2) ∈ triples fork_graph).
Proof. apply (transition_matrix_entries fork_graph). apply KG_wf_of_list. Defined.

(** ** Claim C5: the walk and the values it assigns *)

Lemma length_le_1_eq {A} (l : list A) (x y : A) :
  length l <= 1 -> x ∈ l -> y ∈ l -> x = y.
Proof.
  destruct l as [|a [|b l]]; simpl; intros Hlen Hx Hy; [|  |lia].
  - by apply not_elem_of_nil in Hx.
  - apply list_elem_of_singleton in Hx, Hy. congruence.
Qed.

(** Where no entity has more than one outgoing triple, the out-degrees are
    their own inverses, and the matrix [transition_matrix] returns is the
    column-stochastic [A^T · D^-1]. *)
Lemma transition_matrix_unit_degree (KG : KnowledgeGraph) (T : spmatrix) :
  KG_wf KG -> (forall e, out_links KG e <= 1) ->
  transition_matrix KG = Ok T -> column_stochastic_transition KG = Ok T.
Proof.
  intros Hwf Hdeg HT.
  destruct (matrices_lookup KG Hwf) as (A & T' & HA & HT' & HshA & HshT & HmA & HdT).
  rewrite HT in HT'. injection HT' as <-.
  unfold column_stochastic_transition. rewrite HA. cbn [mbind Result_bind]. f_equal.
  destruct T as [sh dt]. cbn [shape data] in *. subst sh.
  unfold sp_transpose. cbn [shape data]. rewrite HshA. f_equal.
  apply map_eq. intros [j i]. rewrite HdT. cbn [snd prod_swap fst].
  change (j, i) with (prod_swap (i, j)). rewrite lookup_kmap by apply _.
  rewrite map_lookup_imap.
  destruct (data A !! (i, j)) as [a|] eqn:Ha; [|done].
  cbn [fmap option_fmap option_map mbind option_bind fst]. f_equal.
  (* a triple behind the stored entry *)
  pose proof Ha as Hc. rewrite HmA in Hc. unfold count_entry in Hc.
  destruct (filter (fun t : triple => id_of KG t.1.1 = i /\ id_of KG t.2 = j)
              (triple_list KG)) as [|t l'] eqn:Hf; [done|].
  assert (Ht : t ∈ filter (fun t : triple => id_of KG t.1.1 = i /\ id_of KG t.2 = j)
                      (triple_list KG)) by (rewrite Hf; left).
  apply list_elem_of_filter in Ht as [[Ht1 Ht2] Ht].
  destruct t as [[e1 r] e2]. simpl in Ht1, Ht2.
  destruct (wf_triple_ids _ _ _ _ Hwf Ht) as (i' & j' & Hi & Hj & _).
  assert (i' = i) as -> by (unfold id_of in Ht1; rewrite Hi in Ht1; done).
  assert (j' = j) as -> by (unfold id_of in Ht2; rewrite Hj in Ht2; done).
  pose proof (links_list KG e1 e2 i j Hwf Hi Hj) as Hl.
  pose proof (out_links_list KG e1 i Hwf Hi) as Ho.
  pose proof (links_le_out_links KG e1 e2) as Hle.
  pose proof (Hdeg e1) as Hd1.
  rewrite Hf in Hl.
  assert (Hl1 : links KG e1 e2 = 1) by (simpl in Hl; lia).
  assert (Ho1 : out_links KG e1 = 1) by lia.
  assert (Hlen : length l' = 0) by (simpl in Hl; lia).
  cbn [length Nat.eqb] in Hc. rewrite Hlen in Hc. injection Hc as <-.
  rewrite Ho, Ho1.
  (* the row of [i] holds this one entry *)
  assert (Hrow : filter (fun '(k, _) => k.1 = i) (data A)
                 = ({[(i, j) := of_nat 1]} : gmap (nat * nat) float)).
  { apply map_eq. intros [i0 j0]. apply option_eq. intros v.
    rewrite map_lookup_filter_Some, lookup_singleton_Some. cbn [fst]. split.
    - intros [Hv ->]. pose proof Hv as Hv'. rewrite HmA in Hv'. unfold count_entry in Hv'.
      destruct (filter (fun t : triple => id_of KG t.1.1 = i /\ id_of KG t.2 = j0)
                  (triple_list KG)) as [|t' l''] eqn:Hf'; [done|].
      assert (Ht' : t' ∈ filter (fun t : triple => id_of KG t.1.1 = i /\ id_of KG t.2 = j0)
                      (triple_list KG)) by (rewrite Hf'; left).
      apply list_elem_of_filter in Ht' as [[Ht1' Ht2'] Ht'].
      assert (t' = (e1, r, e2)).
      { apply (length_le_1_eq (filter (fun t : triple =>
                   id_of KG t.1.1 = i /\ id_of KG t.1.1 = i) (triple_list KG))).
        - lia.
        - by apply list_elem_of_filter.
        - by apply list_elem_of_filter. }
      subst t'. simpl in Ht2'. assert (j0 = j) as -> by congruence.
      split; [done|]. congruence.
    - intros [[= -> ->] <-]. done. }
  unfold out_degree. rewrite Hrow, map_to_list_singleton. reflexivity.
Qed.

(** C5, as stated, fails in two ways. A workload with a topic that is no
    entity of the graph is not walked at all: [query_vector] raises
    KeyError. And on the graph {(a,r,b), (a,r,c)} with the workload [a] and
    one iteration, the walk on [T = A^T · D^-1] gives
    r = (20/37, 17/74, 17/74), while the value that the code assigns to [a]
    is the logarithm of 5/22 + 1: it walks on the matrix that
    [transition_matrix] returns, which is another one on this graph. *)
Lemma model_user_pref_not_spec_walk :
  model_user_pref np_log_approx fork_graph [topic_query "z"] 1 = Err KeyError /\
  exists (T : spmatrix) (KG' : KnowledgeGraph),
    column_stochastic_transition fork_graph = Ok T /\
    model_user_pref np_log_approx fork_graph [topic_query "a"] 1 = Ok KG' /\
    let r := walk_vector (number_of_entities fork_graph) T (Fin (Qred (15 # 100))) 1
               (seed_vector fork_graph [topic_query "a"]) in
    r <$> [0; 1; 2] = [Fin (20 # 37); Fin (17 # 74); Fin (17 # 74)] /\
    entity_value KG' "a" = Ok (np_log_approx (add (Fin (5 # 22)) one)) /\
    entity_value KG' "a" ≠ Ok (np_log_approx (add (r 0) one)).
Proof.
  split; [vm_compute; reflexivity|].
  eexists _, _. split; [vm_compute; reflexivity|].
  split; [vm_compute; reflexivity|].
  split; [vm_compute; reflexivity|].
  split; [vm_compute; reflexivity|].
  vm_compute. discriminate.
Qed.

(** C5, amended: on a graph built by [add_triple] and a workload whose
    topics are entities of the graph, [model_user_pref] returns, and with
    restart probability 0.15 it assigns to every entity the logarithm of its
    walk value plus one and to every triple the logarithm of the product of
    its two entities' walk values plus one. The walk vector is obtained from
    [q = r = c · x0] by [power] iterations of [q ← (1 − c) · T · q],
    [r ← r + q], [r ← r / sum(r)], where [x0] counts the queries at each
    topic entity and [T] is the matrix [transition_matrix] returns; where no
    entity has more than one outgoing triple, [T] is [A^T · D^-1]. *)
Theorem model_user_pref_walk (np_log : float -> float) (KG : KnowledgeGraph)
    (query_log : list Query) (power : nat) :
  KG_wf KG ->
  Forall (fun query => topic query ∈ entities KG) query_log ->
  exists (T : spmatrix) (KG' : KnowledgeGraph),
    transition_matrix KG = Ok T /\
    ((forall e, out_links KG e <= 1) -> column_stochastic_transition KG = Ok T) /\
    model_user_pref np_log KG query_log power = Ok KG' /\
    let r := walk_vector (number_of_entities KG) T (Fin (Qred (15 # 100))) power
               (seed_vector KG query_log) in
    (forall e i, entity_id KG e = Ok i ->
       entity_value KG' e = Ok (np_log (add (r i) one))) /\
    (forall e1 p e2 i j,
       (e1, p, e2) ∈ triples KG ->
       entity_id KG e1 = Ok i -> entity_id KG e2 = Ok j ->
       triple_value KG' (e1, p, e2) = Ok (np_log (add (mul (r i) (r j)) one))).
Proof.
  intros Hwf Hlog.
  destruct (model_user_pref_char np_log KG query_log power Hwf Hlog)
    as (T & ev & tv & HT & Hrun & Hev & Htv).
  exists T, (with_values KG ev tv). split; [exact HT|].
  split; [intros Hdeg; by apply transition_matrix_unit_degree|].
  split; [exact Hrun|].
  change (Fin (Qred (15 # 100))) with c_default. split.
  - intros e i Hi%of_option_Ok. unfold entity_value. simpl.
    by rewrite Hev, Hi.
  - intros e1 p e2 i j Hin%elem_of_triples Hi%of_option_Ok Hj%of_option_Ok.
    unfold triple_value. simpl. by rewrite Htv, Hin, Hi, Hj.
Qed.

Lemma model_user_pref_walk_witness :
  exists (T : spmatrix) (KG' : KnowledgeGraph),
    transition_matrix chain_graph = Ok T /\
    column_stochastic_transition chain_graph = Ok T /\
    model_user_pref np_log_approx chain_graph [topic_query "a"] 2 = Ok KG' /\
    let r := walk_vector (number_of_entities chain_graph) T (Fin (Qred (15 # 100))) 2
               (seed_vector chain_graph [topic_query "a"]) in
    (forall e i, entity_id chain_graph e = Ok i ->
       entity_value KG' e = Ok (np_log_approx (add (r i) one))) /\
    (forall e1 p e2 i j,
       (e1, p, e2) ∈ triples chain_graph ->
       entity_id chain_graph e1 = Ok i -> entity_id chain_graph e2 = Ok j ->
       triple_value KG' (e1, p, e2)
       = Ok (np_log_approx (add (mul (r i) (r j)) one))).
Proof.
  destruct (model_user_pref_walk np_log_approx chain_graph [topic_query "a"] 2)
    as (T & KG' & HT & Hcs & Hrest).
  - apply KG_wf_of_list.
  - repeat constructor.
  - exists T, KG'. split; [exact HT|]. split; [|exact Hrest].
    apply Hcs. intros e. unfold out_links. rewrite size_filter_triples.
    assert (Hl : triple_list chain_graph = [("a", "r", "b"); ("b", "r", "c")])
      by (vm_compute; reflexivity).
    rewrite Hl. rewrite !filter_cons, filter_nil.
    repeat case_decide; simpl in *; first [lia | congruence].
Defined.

(** ** The seed vector and the walk ([src/algorithms.py]) *)

Lemma query_vector_reset (KG : KnowledgeGraph) (query_log : list Query) :
  query_vector (reset KG) query_log = query_vector KG query_log.
Proof. reflexivity. Qed.

Lemma query_vector_unknown (KG : KnowledgeGraph) (query_log : list Query) :
  ids_wf KG ->
  ~ Forall (fun query => topic query ∈ entities KG) query_log ->
  query_vector KG query_log = Err KeyError.
Proof.
  intros Hids. unfold query_vector, entity_id.
  assert (Hlen : length (replicate (number_of_entities KG) zero)
                 = number_of_entities KG) by apply length_replicate.
  revert Hlen. generalize (replicate (number_of_entities KG) zero) as x.
  induction query_log as [|query l IH]; intros x Hlen Hnot.
  { exfalso. apply Hnot. constructor. }
  cbn [foldM].
  destruct (entity_id_ KG !! TopicEntityMid (Parse_ query)) as [i|] eqn:Hi; [|done].
  cbn [of_option mbind Result_bind].
  assert (Hlt : i < length x).
  { rewrite Hlen, (wf_number_of_entities _ Hids). by eapply wf_id_lt. }
  destruct (lookup_lt_is_Some_2 x i Hlt) as [v Hv]. rewrite Hv.
  apply IH; [by rewrite length_insert|].
  intros Hl. apply Hnot. constructor; [|done].
  apply (wf_entity_dom _ Hids). by exists i.
Qed.

(** X19: the seed vector and unknown topics. On a graph built by
    [add_triple], [query_vector] returns one component per entity, the
    component of an entity being the number of queries of the log whose
    topic it is, when every topic of the log is an entity of the graph;
    when some topic is not, it raises KeyError, and so do
    [model_user_pref] and [GLIMPSE], whatever their other arguments. *)
Theorem query_vector_counts (KG : KnowledgeGraph) (query_log : list Query) :
  KG_wf KG ->
  (Forall (fun query => TopicEntityMid (Parse_ query) ∈ entities KG) query_log ->
   exists x : list float,
     query_vector KG query_log = Ok x /\
     length x = number_of_entities KG /\
     forall e i,
       entity_id KG e = Ok i ->
       x !! i = Some (of_nat (length (filter
                  (fun query => TopicEntityMid (Parse_ query) = e) query_log)))) /\
  (~ Forall (fun query => TopicEntityMid (Parse_ query) ∈ entities KG) query_log ->
   query_vector KG query_log = Err KeyError /\
   forall (np_log : float -> float) (iter_set : gset triple -> list triple)
          (K : nat) (epsilon : option float) (power : nat) (g : list nat),
     model_user_pref np_log KG query_log power = Err KeyError /\
     GLIMPSE np_log iter_set KG K query_log epsilon power g = Err KeyError).
Proof.
  intros Hwf. pose proof (wf_ids _ Hwf) as Hids. split.
  - intros Hlog. rewrite (query_vector_ok KG query_log Hids Hlog).
    eexists. split; [reflexivity|]. split.
    { by rewrite length_fmap, length_seq. }
    intros e i Hi%of_option_Ok.
    rewrite tabulate_lookup.
    2:{ rewrite (wf_number_of_entities _ Hids). by eapply wf_id_lt. }
    unfold seed_vector. do 3 f_equal. apply filter_ext_in. intros query Hq.
    unfold topic. split.
    + intros Hq'. apply (wf_id_inverse _ Hids) in Hq', Hi. congruence.
    + by intros ->.
  - intros Hnot. pose proof (query_vector_unknown KG query_log Hids Hnot) as Hx.
    split; [exact Hx|]. intros np_log iter_set K epsilon power g.
    assert (Hm : model_user_pref np_log KG query_log power = Err KeyError).
    { unfold model_user_pref. by rewrite query_vector_reset, Hx. }
    split; [exact Hm|]. unfold GLIMPSE, GLIMPSE_exec. by rewrite Hm.
Qed.

Lemma query_vector_counts_witness :
  (Forall (fun query => TopicEntityMid (Parse_ query) ∈ entities fork_graph)
          [topic_query "a"; topic_query "a"] ->
   exists x : list float,
     query_vector fork_graph [topic_query "a"; topic_query "a"] = Ok x /\
     length x = number_of_entities fork_graph /\
     forall e i,
       entity_id fork_graph e = Ok i ->
       x !! i = Some (of_nat (length (filter
                  (fun query => TopicEntityMid (Parse_ query) = e)
                  [topic_query "a"; topic_query "a"])))) /\
  (~ Forall (fun query => TopicEntityMid (Parse_ query) ∈ entities fork_graph)
            [topic_query "a"; topic_query "a"] ->
   query_vector fork_graph [topic_query "a"; topic_query "a"] = Err KeyError /\
   forall (np_log : float -> float) (iter_set : gset triple -> list triple)
          (K : nat) (epsilon : option float) (power : nat) (g : list nat),
     model_user_pref np_log fork_graph [topic_query "a"; topic_query "a"] power
     = Err KeyError /\
     GLIMPSE np_log iter_set fork_graph K [topic_query "a"; topic_query "a"]
       epsilon power g = Err KeyError).
Proof.
  apply (query_vector_counts fork_graph [topic_query "a"; topic_query "a"]).
  apply KG_wf_of_list.
Defined.

Lemma Qred_Qred (q : Q) : Qred (Qred q) = Qred q.
Proof. apply Qred_complete, Qred_correct. Qed.

Lemma foldl_add_Fin (ql : list Q) (a : Q) :
  Qred a = a ->
  exists a', foldl add (Fin a) (Fin <$> ql) = Fin a' /\
             (a' == a + foldr Qplus 0 ql)%Q /\ Qred a' = a'.
Proof.
  revert a. induction ql as [|q ql IH]; intros a Ha.
  - exists a. split; [done|]. split; [simpl; ring|done].
  - rewrite fmap_cons. cbn [foldl add foldr].
    destruct (IH (Qred (a + q)) (Qred_Qred _)) as (a' & H1 & H2 & H3).
    exists a'. split; [done|]. split; [|done].
    rewrite H2, Qred_correct. ring.
Qed.

Lemma nonneg_list (l : list float) :
  Forall nonneg l -> exists ql : list Q, l = Fin <$> ql.
Proof.
  induction 1 as [|x l (q & -> & _) _ [ql ->]]; [by exists []|].
  by exists (q :: ql).
Qed.

Lemma foldr_Qplus_div (ql : list Q) (s : Q) :
  ~ (s == 0)%Q ->
  (foldr Qplus 0 ((fun q => Qred (q / s)) <$> ql) == foldr Qplus 0 ql / s)%Q.
Proof.
  intros Hs. induction ql as [|q ql IH]; simpl.
  - field. done.
  - rewrite IH, Qred_correct. field. done.
Qed.

Lemma sum_normalised (l : list float) :
  Forall nonneg l -> positive_float (sum l) ->
  sum ((fun v => div v (sum l)) <$> l) = one.
Proof.
  intros Hl (s & Hs & Hpos). destruct (nonneg_list l Hl) as [ql ->].
  destruct (foldl_add_Fin ql 0 eq_refl) as (s' & Hs1 & Hs2 & _).
  unfold sum in *. unfold zero in *. rewrite Hs1 in Hs. injection Hs as ->.
  rewrite Hs1.
  assert (Hs0 : ~ (s == 0)%Q) by lra.
  rewrite <- list_fmap_compose.
  erewrite (list_fmap_ext _ (Fin ∘ (fun q => Qred (q / s)))).
  2:{ intros q. simpl. by rewrite Qis0_false. }
  rewrite list_fmap_compose.
  destruct (foldl_add_Fin ((fun q => Qred (q / s)) <$> ql) 0 eq_refl)
    as (t & Ht1 & Ht2 & Ht3).
  rewrite Ht1. unfold one. f_equal. rewrite <- Ht3. apply (Qred_complete t 1).
  pose proof (foldr_Qplus_div ql s Hs0) as Hdiv.
  assert (Hsum : (foldr Qplus 0 ql == s)%Q) by (rewrite Hs2; ring).
  rewrite Ht2, Hdiv, Hsum. field. done.
Qed.

Lemma walk_iter_S (n : nat) (T : spmatrix) (c : float) (power : nat)
    (qr : vec * vec) :
  walk_iter n T c (S power) qr = walk_step n T c (walk_iter n T c power qr).
Proof.
  revert qr. induction power as [|power IH]; intros qr; [done|].
  change (walk_iter n T c (S (S power)) qr)
    with (walk_iter n T c (S power) (walk_step n T c qr)).
  by rewrite IH.
Qed.

(** X20: the walk vector is a distribution. On a graph built by
    [add_triple], with a workload that is not empty and whose topics are
    entities, and a restart probability [c] with [0 < c <= 1],
    [random_walk_with_restart] on the seed vector and the transition matrix
    returns one value per entity, none negative; after one iteration or
    more the values add up to 1 (exact arithmetic), and with [power = 0]
    the vector is [c · x], not normalised. *)
Theorem random_walk_distribution (KG : KnowledgeGraph) (query_log : list Query)
    (c : float) (power : nat) :
  KG_wf KG ->
  Forall (fun query => TopicEntityMid (Parse_ query) ∈ entities KG) query_log ->
  query_log ≠ [] ->
  positive_float c -> nonneg (sub one c) ->
  exists (x : list float) (M : spmatrix) (r : list float),
    query_vector KG query_log = Ok x /\
    transition_matrix KG = Ok M /\
    random_walk_with_restart M x c power = Ok r /\
    length r = number_of_entities KG /\
    Forall nonneg r /\
    (0 < power -> sum r = one) /\
    (power = 0 -> r = mul c <$> x).
Proof.
  intros Hwf Hlog Hne Hc Hc1. pose proof (wf_ids _ Hwf) as Hids.
  destruct (transition_matrix_ok KG Hwf) as (T & HT & Hshape & HQ).
  set (n := number_of_entities KG) in *.
  set (x0 := seed_vector KG query_log).
  exists (x0 <$> seq 0 n), T.
  assert (Hrun : random_walk_with_restart T (x0 <$> seq 0 n) c power
                 = Ok ((walk_iter n T c power
                          (fun i => mul c (x0 i), fun i => mul c (x0 i))).2
                       <$> seq 0 n)).
  { unfold random_walk_with_restart. rewrite <- list_fmap_compose.
    change (mul c ∘ x0) with (fun i => mul c (x0 i)).
    rewrite (rwr_loop_walk_iter T c n power); [done|done|].
    intros k v Hk. by destruct (HQ k v Hk) as (_ & _ & _ & ?). }
  assert (HTe : map_Forall (fun k v => nonneg v /\ id_edge KG k.2 k.1) (data T)).
  { intros k v Hk. by destruct (HQ k v Hk) as (? & ? & _). }
  pose proof (seed_inv KG query_log Hwf n c eq_refl Hc Hne Hlog) as Hseed.
  fold x0 in Hseed.
  assert (Hinv : forall p, walk_inv KG query_log n
                   (walk_iter n T c p (fun i => mul c (x0 i), fun i => mul c (x0 i)))).
  { intros p. by apply walk_iter_inv. }
  eexists. split; [by apply query_vector_ok|]. split; [exact HT|].
  split; [exact Hrun|]. split; [by rewrite length_fmap, length_seq|]. split.
  { apply Forall_fmap, Forall_forall. intros i _.
    destruct (Hinv power) as (_ & Hr & _). apply Hr. }
  split.
  - destruct power as [|p]; [lia|]. intros _. rewrite walk_iter_S.
    destruct (Hinv p) as (Hq & Hr & (i0 & Hi0 & Hpos) & _).
    set (qr := walk_iter n T c p (fun i => mul c (x0 i), fun i => mul c (x0 i))) in *.
    unfold walk_step. cbn [snd].
    set (q' := row_dot (sp_scale (sub one c) T) qr.1).
    assert (Hq' : forall i, nonneg (q' i))
      by (intros i; by apply (row_dot_scaled_nonneg KG T HTe)).
    set (r' := fun i => add (qr.2 i) (q' i)).
    etrans; [|apply (sum_normalised (r' <$> seq 0 n))].
    + by rewrite <- list_fmap_compose.
    + apply Forall_fmap, Forall_forall. intros i _. by apply nonneg_add.
    + apply positive_sum.
      * apply Forall_fmap, Forall_forall. intros i _. by apply nonneg_add.
      * apply Exists_exists. exists (r' i0). split.
        -- apply list_elem_of_fmap. exists i0. split; [done|]. apply elem_of_seq. lia.
        -- by apply positive_add_l.
  - intros ->. by rewrite <- list_fmap_compose.
Qed.

Lemma random_walk_distribution_witness :
  exists (x : list float) (M : spmatrix) (r : list float),
    query_vector fork_graph [topic_query "a"] = Ok x /\
    transition_matrix fork_graph = Ok M /\
    random_walk_with_restart M x c_default 2 = Ok r /\
    length r = number_of_entities fork_graph /\
    Forall nonneg r /\
    (0 < 2 -> sum r = one) /\
    (2 = 0 -> r = mul c_default <$> x).
Proof.
  apply (random_walk_distribution fork_graph [topic_query "a"] c_default 2).
  - apply KG_wf_of_list.
  - repeat constructor.
  - discriminate.
  - eexists. split; [reflexivity|]. reflexivity.
  - eexists. split; [vm_compute; reflexivity|]. discriminate.
Defined.

(** ** heapq keeps its invariant *)

Lemma parent_of_child (p c : nat) : child p c -> (c - 1) / 2 = p.
Proof.
  intros [-> | ->].
  - replace (2 * p + 1 - 1) with (p * 2) by lia. apply Nat.div_mul. lia.
  - replace (2 * p + 2 - 1) with (1 + p * 2) by lia.
    rewrite Nat.div_add by lia. rewrite (Nat.div_small 1 2) by lia. lia.
Qed.

Lemma child_of_parent (c : nat) : 1 <= c -> child ((c - 1) / 2) c.
Proof.
  intros Hc. unfold child. pose proof (Nat.div_mod_eq (c - 1) 2) as H.
  pose proof (Nat.mod_upper_bound (c - 1) 2). lia.
Qed.

Lemma child_lt (p c : nat) : child p c -> p < c.
Proof. intros [-> | ->]; lia. Qed.

Lemma desc_le (s p : nat) : desc s p -> s <= p.
Proof.
  induction 1 as [|p c _ IH Hc]; [lia|]. apply child_lt in Hc. lia.
Qed.

Lemma desc_parent (s c : nat) :
  desc s c -> c ≠ s -> desc s ((c - 1) / 2) /\ child ((c - 1) / 2) c.
Proof.
  intros Hd Hne. destruct Hd as [|p c Hp Hc]; [done|].
  by rewrite (parent_of_child p c Hc).
Qed.

Lemma half_leaf (n : nat) : n <= 2 * (n / 2) + 1.
Proof.
  pose proof (Nat.div_mod_eq n 2) as H. pose proof (Nat.mod_upper_bound n 2). lia.
Qed.

Lemma insert_swap {A} (l : list A) (i j : nat) (x y : A) :
  i < length l -> l !! j = Some y -> i ≠ j ->
  <[j := x]> (<[i := y]> l) ≡ₚ <[i := x]> l.
Proof.
  intros Hi Hj Hne.
  assert (H1 : <[i := x]> l !! i = Some x) by by apply list_lookup_insert_eq.
  assert (H2 : <[i := x]> l !! j = Some y) by by rewrite list_lookup_insert_ne.
  etrans; [|exact (swap_perm (<[i := x]> l) i j x y H1 H2)].
  rewrite (list_insert_insert_ne l j i x x) by done.
  rewrite list_insert_insert_eq.
  by rewrite (list_insert_insert_ne l i j y x) by done.
Qed.

Section heapq_order.
Context {A : Type} (lt : A -> A -> bool) (P : A -> Prop).
Hypothesis lt_asym : forall a b, P a -> P b -> lt a b = true -> lt b a = false.
Hypothesis le_trans : forall a b c, P a -> P b -> P c ->
  lt b a = false -> lt c b = false -> lt c a = false.

Lemma lt_at_lookup (heap : list A) (i j : nat) (a b : A) :
  heap !! i = Some a -> heap !! j = Some b -> lt_at lt heap i j = lt a b.
Proof. intros Hi Hj. unfold lt_at. by rewrite Hi, Hj. Qed.

Lemma le_at_None (heap : list A) (p c : nat) : heap !! c = None -> le_at lt heap p c.
Proof. intros Hc. unfold le_at, lt_at. by rewrite Hc. Qed.

Lemma le_at_ext (heap heap' : list A) (p c : nat) :
  heap' !! p = heap !! p -> heap' !! c = heap !! c ->
  le_at lt heap p c -> le_at lt heap' p c.
Proof. unfold le_at, lt_at. by intros -> ->. Qed.

Lemma le_at_elim (heap : list A) (p c : nat) (a b : A) :
  le_at lt heap p c -> heap !! p = Some a -> heap !! c = Some b -> lt b a = false.
Proof. unfold le_at. intros H Hp Hc. by rewrite (lt_at_lookup _ _ _ b a) in H. Qed.

Lemma le_at_intro (heap : list A) (p c : nat) :
  (forall a b, heap !! p = Some a -> heap !! c = Some b -> lt b a = false) ->
  le_at lt heap p c.
Proof.
  intros H. unfold le_at, lt_at.
  destruct (heap !! c) as [b|]; [|done]. destruct (heap !! p) as [a|]; [|done]. eauto.
Qed.

Lemma siftup_loop_order (start fuel : nat) :
  forall (heap : list A) (endpos pos : nat),
    endpos = length heap -> Forall P heap ->
    hole_inv lt start heap pos -> length heap <= fuel + pos ->
    hole_inv lt start (siftup_loop lt fuel heap endpos pos).1
                      (siftup_loop lt fuel heap endpos pos).2 /\
    length heap <= 2 * (siftup_loop lt fuel heap endpos pos).2 + 1 /\
    (forall x, <[(siftup_loop lt fuel heap endpos pos).2 := x]>
                 (siftup_loop lt fuel heap endpos pos).1
               ≡ₚ <[pos := x]> heap).
Proof.
  induction fuel as [|fuel IH]; intros heap endpos pos -> HP Hinv Hfuel.
  { destruct Hinv as (_ & Hlt & _). lia. }
  cbn [siftup_loop]. case_bool_decide as Hleaf; [|simpl; split; [done|split; [lia|done]]].
  destruct Hinv as (Hdesc & Hpos & Ha & Hb).
  set (cl := 2 * pos + 1) in *. set (cr := cl + 1).
  set (cm := if bool_decide (cr < length heap) && negb (lt_at lt heap cl cr)
             then cr else cl).
  assert (Hcm : child pos cm /\ cm < length heap /\
                forall c y ch, Forall P heap -> child pos c -> c ≠ cm ->
                  heap !! c = Some y -> heap !! cm = Some ch -> lt y ch = false).
  { unfold cm. destruct (bool_decide (cr < length heap)) eqn:Hr; simpl.
    - apply bool_decide_eq_true in Hr.
      destruct (lt_at lt heap cl cr) eqn:Hlt; simpl.
      + split; [left; done|]. split; [done|]. intros c y ch HP' [-> | ->] Hne Hy Hch.
        { done. }
        apply lt_asym.
        * exact (Forall_lookup_1 _ _ _ _ HP' Hch).
        * exact (Forall_lookup_1 _ _ _ _ HP' Hy).
        * rewrite <- Hlt. symmetry. apply lt_at_lookup; [done|].
          unfold cr, cl. by replace (2 * pos + 1 + 1) with (2 * pos + 2) by lia.
      + split; [right; unfold cr, cl; lia|]. split; [done|].
        intros c y ch HP' [-> | ->] Hne Hy Hch.
        * rewrite <- Hlt. symmetry. by apply lt_at_lookup.
        * exfalso. apply Hne. unfold cr, cl. lia.
    - apply bool_decide_eq_false in Hr.
      split; [left; done|]. split; [done|]. intros c y ch HP' [-> | ->] Hne Hy Hch.
      { done. }
      apply lookup_lt_Some in Hy. unfold cr, cl in Hr. lia. }
  destruct Hcm as (Hchild & Hcmlt & Hmin). clearbody cm.
  destruct (lookup_lt_is_Some_2 heap cm Hcmlt) as [ch Hch]. rewrite Hch.
  pose proof (child_lt _ _ Hchild) as Hlt.
  assert (HP' : Forall P (<[pos := ch]> heap)).
  { apply Forall_insert; [done|]. exact (Forall_lookup_1 _ _ _ _ HP Hch). }
  destruct (IH (<[pos := ch]> heap) (length heap) cm) as (H1 & H2 & H3).
  - by rewrite length_insert.
  - done.
  - split; [by eapply desc_child|]. split; [by rewrite length_insert|]. split.
    + intros p c Hp Hc Hpne Hcne.
      destruct (decide (p = pos)) as [->|Hppos].
      * apply le_at_intro. intros a b. rewrite list_lookup_insert_eq by done.
        intros [= <-]. rewrite list_lookup_insert_ne by (apply child_lt in Hc; lia).
        intros Hb'. by eapply Hmin.
      * destruct (decide (c = pos)) as [->|Hcpos].
        -- assert (Hne : pos ≠ start).
           { apply child_lt in Hc. lia. }
           pose proof (Hb Hne cm Hchild) as Hle.
           rewrite (parent_of_child _ _ Hc) in Hle.
           apply le_at_intro. intros a b.
           rewrite list_lookup_insert_ne by done.
           rewrite list_lookup_insert_eq by done. intros Ha' [= <-].
           by eapply le_at_elim.
        -- eapply le_at_ext; [| |by apply Ha]; by rewrite list_lookup_insert_ne.
    + intros _ c Hc. rewrite (parent_of_child _ _ Hchild).
      pose proof (child_lt _ _ Hc) as Hltc.
      apply le_at_intro. intros a b. rewrite list_lookup_insert_eq by done.
      intros [= <-]. rewrite list_lookup_insert_ne by lia. intros Hb'.
      eapply le_at_elim; [|exact Hch|exact Hb'].
      apply Ha; [|done|lia|lia]. apply desc_le in Hdesc. lia.
  - rewrite length_insert. lia.
  - rewrite length_insert in H2. split; [done|]. split; [done|].
    intros x. rewrite H3. apply insert_swap; [done|done|lia].
Qed.

Lemma up_inv_final (start : nat) (heap : list A) (pos : nat) (newitem : A) :
  up_inv lt start heap pos newitem ->
  (pos = start \/
   exists parent, heap !! ((pos - 1) / 2) = Some parent /\ lt newitem parent = false) ->
  heap_from lt start (<[pos := newitem]> heap).
Proof.
  intros [(Hdesc & Hpos & Ha & Hb) Hd] Hstop p c Hp Hc.
  destruct (decide (p = pos)) as [->|Hppos].
  - apply le_at_intro. intros a b. rewrite list_lookup_insert_eq by done.
    intros [= <-]. rewrite list_lookup_insert_ne by (apply child_lt in Hc; lia).
    by apply Hd.
  - destruct (decide (c = pos)) as [->|Hcpos].
    + destruct Hstop as [->|(parent & Hparent & Hlt)].
      { apply child_lt in Hc. lia. }
      rewrite (parent_of_child _ _ Hc) in Hparent.
      apply le_at_intro. intros a b. rewrite list_lookup_insert_ne by done.
      rewrite list_lookup_insert_eq by done. intros Ha' [= <-]. congruence.
    + eapply le_at_ext; [| |by apply Ha]; by rewrite list_lookup_insert_ne.
Qed.

Lemma siftdown_loop_order (start fuel : nat) :
  forall (heap : list A) (pos : nat) (newitem : A),
    Forall P heap -> P newitem ->
    up_inv lt start heap pos newitem -> pos < fuel ->
    heap_from lt start
      (<[(siftdown_loop lt fuel heap start pos newitem).2 := newitem]>
         (siftdown_loop lt fuel heap start pos newitem).1) /\
    <[(siftdown_loop lt fuel heap start pos newitem).2 := newitem]>
      (siftdown_loop lt fuel heap start pos newitem).1
    ≡ₚ <[pos := newitem]> heap.
Proof.
  induction fuel as [|fuel IH]; intros heap pos newitem HP Hnew Hinv Hfuel; [lia|].
  cbn [siftdown_loop]. pose proof Hinv as [(Hdesc & Hpos & Ha & Hb) Hd].
  case_bool_decide as Hstart.
  2:{ simpl. split; [|done]. apply up_inv_final; [done|]. left.
      apply desc_le in Hdesc. lia. }
  assert (Hne : pos ≠ start) by lia.
  destruct (desc_parent _ _ Hdesc Hne) as [Hdpp Hcpp].
  set (pp := (pos - 1) / 2) in *.
  pose proof (child_lt _ _ Hcpp) as Hpplt.
  destruct (lookup_lt_is_Some_2 heap pp) as [parent Hparent]; [lia|].
  rewrite Hparent.
  assert (HPp : P parent) by exact (Forall_lookup_1 _ _ _ _ HP Hparent).
  destruct (lt newitem parent) eqn:Hlt.
  2:{ simpl. split; [|done]. apply up_inv_final; [done|]. right. eauto. }
  assert (HP' : Forall P (<[pos := parent]> heap)) by by apply Forall_insert.
  destruct (IH (<[pos := parent]> heap) pp newitem) as [H1 H2]; [done|done| |lia|].
  - split; [split; [done|split; [rewrite length_insert; lia|split]]|].
    + intros p c Hp Hc Hpne Hcne.
      destruct (decide (p = pos)) as [->|Hppos].
      * pose proof (child_lt _ _ Hc) as Hltc.
        apply le_at_intro. intros a b. rewrite list_lookup_insert_eq by done.
        intros [= <-]. rewrite list_lookup_insert_ne by lia. intros Hb'.
        eapply le_at_elim; [by apply (Hb Hne c)|exact Hparent|exact Hb'].
      * destruct (decide (c = pos)) as [->|Hcpos].
        { exfalso. apply Hpne. rewrite <- (parent_of_child _ _ Hc). done. }
        eapply le_at_ext; [| |by apply Ha]; by rewrite list_lookup_insert_ne.
    + intros Hppne c Hc.
      destruct (desc_parent _ _ Hdpp Hppne) as [Hdppp Hcppp].
      set (ppp := (pp - 1) / 2) in *.
      pose proof (child_lt _ _ Hcppp) as Hppplt.
      pose proof (desc_le _ _ Hdppp) as Hppple.
      assert (Hle1 : le_at lt heap ppp pp) by (apply Ha; [done|done|lia|lia]).
      apply le_at_intro. intros a b. rewrite list_lookup_insert_ne by lia. intros Ha'.
      destruct (decide (c = pos)) as [->|Hcpos].
      * rewrite list_lookup_insert_eq by done. intros [= <-].
        exact (le_at_elim heap ppp pp a parent Hle1 Ha' Hparent).
      * rewrite list_lookup_insert_ne by done. intros Hb'.
        assert (Hle2 : le_at lt heap pp c).
        { apply Ha; [|done|lia|done]. apply desc_le in Hdpp. done. }
        apply (le_trans a parent b).
        -- exact (Forall_lookup_1 _ _ _ _ HP Ha').
        -- done.
        -- exact (Forall_lookup_1 _ _ _ _ HP Hb').
        -- exact (le_at_elim heap ppp pp a parent Hle1 Ha' Hparent).
        -- exact (le_at_elim heap pp c parent b Hle2 Hparent Hb').
    + intros c x Hc.
      destruct (decide (c = pos)) as [->|Hcpos].
      * rewrite list_lookup_insert_eq by done. intros [= <-]. by apply lt_asym.
      * rewrite list_lookup_insert_ne by done. intros Hx.
        assert (Hle2 : le_at lt heap pp c).
        { apply Ha; [|done|lia|done]. apply desc_le in Hdpp. done. }
        apply (le_trans newitem parent x); [done|done| | |].
        -- exact (Forall_lookup_1 _ _ _ _ HP Hx).
        -- by apply lt_asym.
        -- exact (le_at_elim heap pp c parent x Hle2 Hparent Hx).
  - split; [done|]. rewrite H2. apply insert_swap; [lia|done|lia].
Qed.

Lemma _siftup_order (heap : list A) (pos : nat) :
  Forall P heap -> heap_from lt (S pos) heap ->
  heap_from lt pos (_siftup lt heap pos) /\ _siftup lt heap pos ≡ₚ heap.
Proof.
  intros HP Hheap. unfold _siftup.
  destruct (heap !! pos) as [newitem|] eqn:Hn.
  2:{ split; [|done]. intros p c Hp Hc. apply le_at_None.
      apply lookup_ge_None. apply lookup_ge_None in Hn. apply child_lt in Hc. lia. }
  pose proof (lookup_lt_Some _ _ _ Hn) as Hpos.
  assert (Hinv : hole_inv lt pos heap pos).
  { split; [constructor|]. split; [done|]. split; [|done].
    intros p c Hp Hc Hpne _. apply Hheap; [lia|done]. }
  destruct (siftup_loop_order pos (length heap) heap (length heap) pos eq_refl HP Hinv)
    as (H1 & H2 & H3); [lia|].
  destruct (siftup_loop_facts lt P (length heap) heap (length heap) pos HP) as [H4 H5].
  destruct (siftup_loop lt (length heap) heap (length heap) pos) as [heap' pos'].
  simpl in *. destruct H1 as (Hdesc & Hpos' & Ha & Hb).
  assert (HPn : P newitem) by exact (Forall_lookup_1 _ _ _ _ HP Hn).
  unfold _siftdown. rewrite list_lookup_insert_eq by done.
  destruct (siftdown_loop_order pos (S pos') (<[pos' := newitem]> heap') pos' newitem)
    as [H6 H7].
  - by apply Forall_insert.
  - done.
  - split; [split; [done|split; [by rewrite length_insert|split]]|].
    + intros p c Hp Hc Hpne Hcne.
      eapply le_at_ext; [| |by apply Ha]; by rewrite list_lookup_insert_ne.
    + intros Hne c Hc. apply le_at_None. apply lookup_ge_None.
      rewrite length_insert. destruct Hc as [-> | ->]; lia.
    + intros c x Hc Hx. apply lookup_lt_Some in Hx. rewrite length_insert in Hx.
      destruct Hc as [-> | ->]; lia.
  - lia.
  - destruct (siftdown_loop lt (S pos') (<[pos' := newitem]> heap') pos pos' newitem)
      as [heap'' pos''].
    simpl in *. split; [done|]. rewrite H7, list_insert_insert_eq, H3.
    by rewrite list_insert_id.
Qed.

Lemma foldl_siftup_order (k : nat) :
  forall x : list A,
    Forall P x -> heap_from lt k x ->
    heap_from lt 0 (foldl (_siftup lt) x (reverse (seq 0 k))) /\
    foldl (_siftup lt) x (reverse (seq 0 k)) ≡ₚ x.
Proof.
  induction k as [|k IH]; intros x HP Hheap; [done|].
  rewrite seq_S, reverse_app. cbn [reverse rev_append app foldl plus].
  destruct (_siftup_order x k HP Hheap) as [H1 H2].
  destruct (_siftup_facts lt P x k HP) as [H3 _].
  destruct (IH _ H3 H1) as [H4 H5]. split; [done|]. by rewrite H5.
Qed.

Lemma heapify_order (x : list A) :
  Forall P x -> heap_from lt 0 (heapify lt x) /\ heapify lt x ≡ₚ x.
Proof.
  intros HP. apply foldl_siftup_order; [done|].
  intros p c Hp Hc. apply le_at_None, lookup_ge_None.
  pose proof (half_leaf (length x)). destruct Hc; lia.
Qed.

Lemma heap_root_least (heap : list A) (r : A) :
  Forall P heap -> heap_from lt 0 heap -> heap !! 0 = Some r ->
  forall i x, heap !! i = Some x -> lt x r = false.
Proof.
  intros HP Hheap Hr i. induction i as [i IH] using lt_wf_ind. intros x Hx.
  assert (HPr : P r) by exact (Forall_lookup_1 _ _ _ _ HP Hr).
  destruct (decide (i = 0)) as [->|Hi].
  - assert (x = r) as -> by congruence.
    destruct (lt r r) eqn:Hrr; [|done]. by rewrite (lt_asym r r) in Hrr.
  - pose proof (child_of_parent i) as Hc. specialize (Hc ltac:(lia)).
    pose proof (child_lt _ _ Hc) as Hlt.
    destruct (lookup_lt_is_Some_2 heap ((i - 1) / 2)) as [y Hy].
    { apply lookup_lt_Some in Hx. lia. }
    apply (le_trans r y x); [done| | | |].
    + exact (Forall_lookup_1 _ _ _ _ HP Hy).
    + exact (Forall_lookup_1 _ _ _ _ HP Hx).
    + by apply (IH _ Hlt).
    + eapply le_at_elim; [|exact Hy|exact Hx]. apply Hheap; [lia|done].
Qed.

End heapq_order.

(** ** The pool keeps the best candidate on top *)

Lemma float_le_refl (x : float) : is_finite x -> float_le x x.
Proof. intros [q ->]. exists q, q. split; [done|]. split; [done|]. lra. Qed.

Lemma float_le_trans (x y z : float) : float_le x y -> float_le y z -> float_le x z.
Proof.
  intros (a & b & -> & -> & Hab) (b' & c & [= <-] & -> & Hbc).
  exists a, c. split; [done|]. split; [done|]. lra.
Qed.

Lemma float_le_finite (x y : float) : float_le x y -> is_finite x /\ is_finite y.
Proof. intros (a & b & -> & -> & _). split; by eexists. Qed.

Lemma Qltb_true (a b : Q) : Qltb a b = true <-> (a < b)%Q.
Proof.
  unfold Qltb. rewrite negb_true_iff. split.
  - intros H. apply Qnot_le_lt. intros Hle. apply Qle_bool_iff in Hle. congruence.
  - intros H. destruct (Qle_bool b a) eqn:Hb; [|done].
    apply Qle_bool_iff in Hb. lra.
Qed.

Lemma Qltb_false (a b : Q) : Qltb a b = false <-> (b <= a)%Q.
Proof.
  unfold Qltb. rewrite negb_false_iff. apply Qle_bool_iff.
Qed.

Lemma ltb_false_le (x y : float) :
  is_finite x -> is_finite y -> ltb x y = false -> float_le y x.
Proof.
  intros [a ->] [b ->] H. simpl in H. apply Qltb_false in H.
  exists b, a. done.
Qed.

Lemma ltb_true_le (x y : float) :
  is_finite x -> is_finite y -> ltb x y = true -> float_le x y.
Proof.
  intros [a ->] [b ->] H. simpl in H. apply Qltb_true in H.
  exists a, b. split; [done|]. split; [done|]. lra.
Qed.

Lemma ref_lt_order (h : list HeapTriple) :
  Forall (fun item => is_finite (value_ item)) h ->
  (forall a b, a < length h -> b < length h ->
     ref_lt h a b = true -> ref_lt h b a = false) /\
  (forall a b c, a < length h -> b < length h -> c < length h ->
     ref_lt h b a = false -> ref_lt h c b = false -> ref_lt h c a = false).
Proof.
  intros Hfin.
  assert (Hv : forall i, i < length h ->
            exists it q, h !! i = Some it /\ value_ it = Fin q).
  { intros i Hi. destruct (lookup_lt_is_Some_2 h i Hi) as [it Hit].
    destruct (Forall_lookup_1 _ _ _ _ Hfin Hit) as [q Hq]. eauto. }
  split.
  - intros a b Ha Hb.
    destruct (Hv a Ha) as (ia & qa & Hia & Hqa), (Hv b Hb) as (ib & qb & Hib & Hqb).
    unfold ref_lt, gtb. rewrite Hia, Hib, Hqa, Hqb. simpl.
    rewrite Qltb_true, Qltb_false. lra.
  - intros a b c Ha Hb Hc.
    destruct (Hv a Ha) as (ia & qa & Hia & Hqa), (Hv b Hb) as (ib & qb & Hib & Hqb),
      (Hv c Hc) as (ic & qc & Hic & Hqc).
    unfold ref_lt, gtb. rewrite Hia, Hib, Hic, Hqa, Hqb, Hqc. simpl.
    rewrite !Qltb_false. lra.
Qed.

Lemma ref_lt_le (h : list HeapTriple) (i j : nat) (a b : HeapTriple) :
  h !! i = Some a -> h !! j = Some b ->
  is_finite (value_ a) -> is_finite (value_ b) ->
  ref_lt h i j = false -> float_le (value_ a) (value_ b).
Proof.
  intros Hi Hj Ha Hb. unfold ref_lt, gtb. rewrite Hi, Hj.
  by apply ltb_false_le.
Qed.

Lemma mv_bounds (S : Summary) (u t : triple) :
  values_nonneg (parent S) ->
  float_le (mv (Summary_add_triple S u) t) (mv S t) /\
  nonneg (mv S t) /\
  float_le (mv S t) (total_value (parent S) t).
Proof.
  intros [Hev Htv]. unfold mv, marginal_terms, total_value.
  cbn [graph parent parent_ Summary_add_triple].
  pose proof (terms_float_le
    (has_entity (graph S) t.1.1) (has_entity (graph S) t.2) (has_triple (graph S) t)
    (has_entity (add_triple (graph S) u) t.1.1)
    (has_entity (add_triple (graph S) u) t.2)
    (has_triple (add_triple (graph S) u) t)
    (ev_of (parent_ S) t.1.1) (ev_of (parent_ S) t.2) (tv_of (parent_ S) t)) as H.
  destruct H as (H1 & H2 & H3); auto.
  - apply has_entity_add_triple.
  - apply has_entity_add_triple.
  - intros Hh. apply has_triple_add_triple. by right.
  - split; [exact H1|]. split; [|exact H3].
    destruct H3 as (a & b & Ha & _ & _).
    pose proof (terms_float_le
      (has_entity (graph S) t.1.1) (has_entity (graph S) t.2) (has_triple (graph S) t)
      (has_entity (graph S) t.1.1) (has_entity (graph S) t.2) (has_triple (graph S) t)
      (ev_of (parent_ S) t.1.1) (ev_of (parent_ S) t.2) (tv_of (parent_ S) t)) as H'.
    destruct H' as (_ & H2' & _); auto.
Qed.

Lemma mv_nonneg (S : Summary) (t : triple) :
  values_nonneg (parent S) -> nonneg (mv S t).
Proof. intros H. by destruct (mv_bounds S t t H) as (_ & ? & _). Qed.

Lemma mv_finite (S : Summary) (t : triple) :
  values_nonneg (parent S) -> is_finite (mv S t).
Proof. intros H. by apply nonneg_finite, mv_nonneg. Qed.

Lemma marginal_value_mv (S : Summary) (t : triple) :
  scored (parent S) -> marginal_value S t = Ok (mv S t).
Proof. apply marginal_value_terms. Qed.

Lemma wf_has_triple_entities (kg : KnowledgeGraph) (t : triple) :
  KG_wf kg -> has_triple kg t = true ->
  has_entity kg t.1.1 = true /\ has_entity kg t.2 = true.
Proof.
  intros Hwf Ht. destruct t as [[e1 r] e2].
  apply elem_of_triples in Ht.
  unfold has_entity. rewrite !bool_decide_eq_true.
  split; apply (wf_entities _ Hwf); exists (e1, r, e2); auto.
Qed.

Lemma touches_false (S : Summary) (t : triple) :
  KG_wf (graph S) -> touches S t = false ->
  has_entity (graph S) t.1.1 = false /\ has_entity (graph S) t.2 = false /\
  has_triple (graph S) t = false.
Proof.
  intros Hwf Ht. apply orb_false_iff in Ht as [H1 H2].
  split; [done|]. split; [done|].
  destruct (has_triple (graph S) t) eqn:Hh; [|done].
  apply (wf_has_triple_entities _ _ Hwf) in Hh as [Hh _]. congruence.
Qed.

Lemma mv_untouched (S : Summary) (t : triple) :
  KG_wf (graph S) -> values_nonneg (parent S) -> touches S t = false ->
  mv S t = total_value (parent S) t.
Proof.
  intros Hwf [Hev Htv] Ht.
  destruct (touches_false S t Hwf Ht) as (H1 & H2 & H3).
  unfold mv, marginal_terms, total_value. rewrite H1, H2, H3.
  destruct (Hev t.1.1) as (a & -> & _), (Hev t.2) as (b & -> & _),
    (Htv t) as (c & -> & _).
  unfold sum. simpl. f_equal. apply Qred_complete.
  rewrite !Qred_correct. ring.
Qed.

Lemma touches_add_triple (S : Summary) (u t : triple) :
  touches (Summary_add_triple S u) t = false -> touches S t = false.
Proof.
  unfold touches. cbn [graph Summary_add_triple].
  intros [H1 H2]%orb_false_iff. apply orb_false_iff. split.
  - destruct (has_entity (graph S) t.1.1) eqn:Hh; [|done].
    apply (has_entity_add_triple _ u) in Hh. congruence.
  - destruct (has_entity (graph S) t.2) eqn:Hh; [|done].
    apply (has_entity_add_triple _ u) in Hh. congruence.
Qed.

Lemma pool_ok_add_triple (S : Summary) (u : triple) (h : list HeapTriple) :
  KG_wf (graph S) -> values_nonneg (parent S) ->
  pool_ok S h -> pool_ok (Summary_add_triple S u) h.
Proof.
  intros Hwf Hnn Hok. unfold pool_ok. eapply Forall_impl; [exact Hok|].
  intros item (Hfin & Hle & Hex). split; [done|]. split.
  - eapply float_le_trans; [|exact Hle]. by apply mv_bounds.
  - intros Ht. pose proof (touches_add_triple _ _ _ Ht) as Ht'.
    rewrite (Hex Ht'). rewrite (mv_untouched S _ Hwf Hnn Ht').
    symmetry. apply (mv_untouched (Summary_add_triple S u)); [|done|done].
    by apply KG_wf_add_triple.
Qed.

Lemma pool_ok_perm (S : Summary) (h h' : list HeapTriple) :
  h' ≡ₚ h -> pool_ok S h -> pool_ok S h'.
Proof. unfold pool_ok. by intros ->. Qed.

Lemma pool_ok_exact (S : Summary) (h : list HeapTriple) (i : nat) (it : HeapTriple) :
  values_nonneg (parent S) -> pool_ok S h -> h !! i = Some it ->
  pool_ok S (<[i := mkHeapTriple (triple_ it) (mv S (triple_ it))]> h).
Proof.
  intros Hnn Hok Hit. apply Forall_insert; [done|]. simpl.
  split; [by apply mv_finite|]. split; [|done].
  by apply float_le_refl, mv_finite.
Qed.

Lemma _update_marginal_mv (S : Summary) (h h' : list HeapTriple) (i : nat) :
  scored (parent S) -> _update_marginal S h i = Ok h' ->
  exists it, h !! i = Some it /\
             h' = <[i := mkHeapTriple (triple_ it) (mv S (triple_ it))]> h.
Proof.
  intros Hsc. unfold _update_marginal.
  intros (it & Hit%of_option_Ok & (v & Hv & [= <-])%bind_Ok)%bind_Ok.
  rewrite marginal_value_mv in Hv by done. injection Hv as <-. eauto.
Qed.

Lemma foldM_seq_invariant {B} (f : B -> nat -> Result B) (I : nat -> B -> Prop)
    (n : nat) :
  (forall k b b', k < n -> I k b -> f b k = Ok b' -> I (S k) b') ->
  forall b b', I 0 b -> foldM f b (seq 0 n) = Ok b' -> I n b'.
Proof.
  intros Hstep.
  enough (Hgen : forall m s b b', s + m = n -> I s b ->
            foldM f b (seq s m) = Ok b' -> I n b').
  { intros b b'. by apply Hgen. }
  induction m as [|m IH]; intros s b b' Hn Hb; simpl.
  - intros [= <-]. by replace n with s by lia.
  - intros (b1 & Hb1 & Hrest)%bind_Ok.
    apply (IH (S s) b1 b'); [lia| |done]. apply (Hstep s b); [lia|done|done].
Qed.

Lemma _move_to_top_last (h : list HeapTriple) (argmax : nat) (a : HeapTriple) :
  h !! argmax = Some a -> last (_move_to_top h argmax) = Some a.
Proof.
  intros Ha. unfold _move_to_top. rewrite Ha.
  pose proof (lookup_lt_Some _ _ _ Ha) as Hlt.
  destruct (last h) as [l|] eqn:Hl.
  2:{ rewrite last_lookup in Hl. apply lookup_ge_None in Hl. lia. }
  rewrite last_lookup, !length_insert.
  replace (pred (length h)) with (length h - 1) by lia.
  destruct (decide (argmax = length h - 1)) as [->|Hne].
  - rewrite list_lookup_insert_eq by (rewrite length_insert; lia).
    rewrite last_lookup in Hl. replace (pred (length h)) with (length h - 1) in Hl by lia.
    congruence.
  - rewrite list_lookup_insert_ne by done.
    by rewrite list_lookup_insert_eq by lia.
Qed.

Lemma pool_ok_finite (S : Summary) (h : list HeapTriple) :
  pool_ok S h -> Forall (fun item => is_finite (value_ item)) h.
Proof.
  intros Hok. eapply Forall_impl; [exact Hok|]. by intros item (? & _).
Qed.

Lemma _lazy_greedy_best (S : Summary) (h h1 : list HeapTriple) (before after : nat) :
  scored (parent S) -> values_nonneg (parent S) -> pool_ok S h ->
  _lazy_greedy S h (seq 0 (length h)) = Ok (before, after, h1) ->
  before < length h /\ after < length h /\
  (exists it, h !! before = Some it /\
     h1 = <[before := mkHeapTriple (triple_ it) (mv S (triple_ it))]> h) /\
  (forall j itj ita, h1 !! j = Some itj -> h1 !! after = Some ita ->
     float_le (value_ itj) (value_ ita)).
Proof.
  intros Hsc Hnn Hok. set (n := length h). unfold _lazy_greedy.
  set (P := fun i : nat => i < n).
  assert (HP : Forall P (seq 0 n)).
  { apply Forall_forall. intros i Hi%elem_of_seq. unfold P. lia. }
  destruct (ref_lt_order h (pool_ok_finite S h Hok)) as [Hasym Htrans].
  destruct (heapify_order (ref_lt h) P Hasym Htrans (seq 0 n) HP) as [Hheap Hperm].
  destruct (heapify_facts (ref_lt h) P (seq 0 n) HP) as [HP1 Hlen1].
  set (triples1 := heapify (ref_lt h) (seq 0 n)) in *.
  intros (top & Htop%of_option_Ok & Hrest)%bind_Ok.
  apply bind_Ok in Hrest as (h' & Hupd & Hrest).
  apply bind_Ok in Hrest as (aft & Haft%of_option_Ok & [= -> -> ->]).
  pose proof (Forall_lookup_1 _ _ _ _ HP1 Htop) as Htoplt. unfold P in Htoplt.
  destruct (_update_marginal_mv S h h1 before Hsc Hupd) as (it & Hit & Hh1).
  assert (Hok1 : pool_ok S h1) by (rewrite Hh1; by apply pool_ok_exact).
  assert (Hlen : length h1 = n) by (by rewrite Hh1, length_insert).
  destruct (ref_lt_order h1 (pool_ok_finite S h1 Hok1)) as [Hasym1 Htrans1].
  rewrite Hlen in Hasym1, Htrans1.
  assert (Hnd : NoDup triples1) by (rewrite Hperm; apply NoDup_seq).
  assert (Hfrom1 : heap_from (ref_lt h1) 1 triples1).
  { intros p c Hp Hc. specialize (Hheap p c ltac:(lia) Hc).
    unfold le_at, lt_at in *.
    destruct (triples1 !! c) as [a|] eqn:Ha; [|done].
    destruct (triples1 !! p) as [b|] eqn:Hb; [|done].
    assert (Hane : a ≠ before).
    { intros ->. pose proof (NoDup_lookup _ _ _ _ Hnd Ha Htop) as H0.
      apply child_lt in Hc. lia. }
    assert (Hbne : b ≠ before).
    { intros ->. pose proof (NoDup_lookup _ _ _ _ Hnd Hb Htop) as H0. lia. }
    rewrite <- Hheap. unfold ref_lt. rewrite Hh1.
    by rewrite !list_lookup_insert_ne by done. }
  unfold heapreplace in Haft. rewrite (list_insert_id _ _ _ Htop) in Haft.
  destruct (_siftup_order (ref_lt h1) P Hasym1 Htrans1 triples1 0 HP1 Hfrom1)
    as [Hheap2 Hperm2].
  destruct (_siftup_facts (ref_lt h1) P triples1 0 HP1) as [HP2 _].
  pose proof (heap_root_least (ref_lt h1) P Hasym1 Htrans1 _ after HP2 Hheap2 Haft)
    as Hleast.
  pose proof (Forall_lookup_1 _ _ _ _ HP2 Haft) as Haftlt. unfold P in Haftlt.
  split; [done|]. split; [done|]. split; [eauto|].
  intros j itj ita Hj Ha.
  assert (Hjn : j < n) by (apply lookup_lt_Some in Hj; lia).
  assert (Hin : j ∈ _siftup (ref_lt h1) triples1 0).
  { rewrite Hperm2, Hperm. apply elem_of_seq. lia. }
  apply list_elem_of_lookup_1 in Hin as [i Hi].
  pose proof (pool_ok_finite S h1 Hok1) as Hfin.
  eapply (ref_lt_le h1 j after); [done|done| | |by eapply Hleast].
  - exact (Forall_lookup_1 _ _ _ _ Hfin Hj).
  - exact (Forall_lookup_1 _ _ _ _ Hfin Ha).
Qed.

Lemma Heap_update_best (S : Summary) (h h' : list HeapTriple) (sample_size : Z)
    (g g' : list nat) :
  scored (parent S) -> values_nonneg (parent S) ->
  pool_ok S h -> NoDup (Heap_triples h) ->
  (Z.of_nat (length h) <= sample_size)%Z ->
  Heap_update S h sample_size g = Ok (h', g') ->
  pool_ok S h' /\ top_is_best S h'.
Proof.
  intros Hsc Hnn Hok Hnd Hsize. unfold Heap_update.
  intros ([[indices|] g1] & Hs & Hrest)%bind_Ok.
  2:{ injection Hrest as <- <-. split; [done|].
      unfold Heap_sample in Hs.
      destruct (length h <=? 1) eqn:Hn.
      - apply Nat.leb_le in Hn. intros top item Hl Hin.
        destruct h as [|x [|y h]]; simpl in Hn; [|clear Hs|lia].
        + by apply not_elem_of_nil in Hin.
        + simpl in Hl. injection Hl as <-.
          apply list_elem_of_singleton in Hin as ->.
          by apply float_le_refl, mv_finite.
      - apply Nat.leb_gt in Hn. exfalso. simpl in Hs.
        destruct (Z.min (Z.of_nat (length h)) sample_size =? 0)%Z eqn:H0.
        { apply Z.eqb_eq in H0. lia. }
        destruct (Z.min (Z.of_nat (length h)) sample_size <? Z.of_nat (length h))%Z;
          [|done].
        destruct (Z.min (Z.of_nat (length h)) sample_size <? 0)%Z; [done|].
        by destruct (randint _ _ _). }
  apply Heap_sample_facts in Hs as (Hn2 & _ & _ & _ & _ & Hfull).
  rewrite (Hfull Hsize) in Hrest. clear Hfull indices.
  apply bind_Ok in Hrest as ([[before after] h1] & Hlg & Hrest).
  destruct (_lazy_greedy_best S h h1 before after Hsc Hnn Hok Hlg)
    as (Hb & Ha & (it & Hit & Hh1) & Hleast).
  assert (Hok1 : pool_ok S h1) by (rewrite Hh1; by apply pool_ok_exact).
  assert (Hlen1 : length h1 = length h) by (by rewrite Hh1, length_insert).
  assert (Htr1 : triple_ <$> h1 = triple_ <$> h).
  { rewrite Hh1, list_fmap_insert. simpl. apply list_insert_id.
    by rewrite list_lookup_fmap, Hit. }
  destruct (ref_eq h1 before after) eqn:Heq.
  - injection Hrest as <- <-.
    assert (Hbl : h1 !! before
                  = Some (mkHeapTriple (triple_ it) (mv S (triple_ it)))).
    { rewrite Hh1. by apply list_lookup_insert_eq. }
    destruct (lookup_lt_is_Some_2 h1 after) as [ita Hita]; [lia|].
    unfold ref_eq in Heq. rewrite Hbl, Hita in Heq.
    apply bool_decide_eq_true in Heq. simpl in Heq.
    assert (before = after) as <-.
    { unfold Heap_triples in Hnd. rewrite <- Htr1 in Hnd.
      eapply (NoDup_lookup _ _ _ _ Hnd).
      - by rewrite list_lookup_fmap, Hbl.
      - rewrite list_lookup_fmap, Hita. simpl. by rewrite Heq. }
    rewrite Hbl in Hita. injection Hita as <-.
    split; [eapply pool_ok_perm; [apply _move_to_top_perm|done]|].
    intros top item Hl Hin.
    rewrite (_move_to_top_last h1 before _ Hbl) in Hl. injection Hl as <-.
    rewrite _move_to_top_perm in Hin. apply list_elem_of_lookup_1 in Hin as [j Hj].
    pose proof (Forall_lookup_1 _ _ _ _ Hok1 Hj) as (_ & Hle & _).
    eapply float_le_trans; [exact Hle|].
    exact (Hleast j item _ Hj Hbl).
  - apply bind_Ok in Hrest as ([[hh top] argmax] & Hfold & [= <- <-]).
    set (n := length h) in *.
    apply (foldM_seq_invariant _ (fun k st =>
             length st.1.1 = n /\ pool_ok S st.1.1 /\
             (st.2 < k \/ (k = 0 /\ st.2 = 0)) /\ st.1.2 = st.2 /\
             (forall i it a, i < k -> st.1.1 !! i = Some it ->
                st.1.1 !! st.2 = Some a ->
                value_ it = mv S (triple_ it) /\ float_le (value_ it) (value_ a))))
      in Hfold.
    + cbn [fst snd] in Hfold. destruct Hfold as (Hlenh & Hokh & Ham & _ & Hex).
      assert (Hamn : argmax < n) by lia.
      destruct (lookup_lt_is_Some_2 hh argmax) as [a Harg]; [lia|].
      split; [eapply pool_ok_perm; [apply _move_to_top_perm|done]|].
      intros top' item Hl Hin.
      rewrite (_move_to_top_last hh argmax _ Harg) in Hl. injection Hl as <-.
      rewrite _move_to_top_perm in Hin. apply list_elem_of_lookup_1 in Hin as [j Hj].
      assert (Hjn : j < n) by (apply lookup_lt_Some in Hj; lia).
      destruct (Hex j item a Hjn Hj Harg) as [He1 Hle].
      destruct (Hex argmax a a Hamn Harg Harg) as [He2 _].
      by rewrite <- He1, <- He2.
    + intros k [[hk tk] ak] st' Hk (Hlenk & Hokk & Hak & Htk & Hex).
      cbn [fst snd] in Hlenk, Hokk, Hak, Htk, Hex. subst tk.
      intros (item & Hitem%of_option_Ok & Hstep)%bind_Ok.
      destruct (triple_ item) as [[e1 r] e2] eqn:Htrip.
      apply bind_Ok in Hstep as (hk1 & Hu & Hstep).
      apply bind_Ok in Hstep
        as (vt & Hvt%of_option_Ok & (vi & Hvi%of_option_Ok & Hstep)%bind_Ok).
      assert (Hhk1 : length hk1 = n /\ pool_ok S hk1 /\
                (forall i, i ≠ k -> hk1 !! i = hk !! i) /\
                exists itk, hk1 !! k = Some itk /\
                            value_ itk = mv S (triple_ itk)).
      { destruct (has_entity (graph S) e1 || has_entity (graph S) e2) eqn:Ht.
        - destruct (_update_marginal_mv S hk hk1 k Hsc Hu) as (it' & Hit' & ->).
          split; [by rewrite length_insert|]. split; [by apply pool_ok_exact|]. split.
          + intros i Hi. by rewrite list_lookup_insert_ne.
          + eexists. split; [apply list_lookup_insert_eq; lia|done].
        - injection Hu as <-. split; [done|]. split; [done|]. split; [done|].
          exists item. split; [done|].
          pose proof (Forall_lookup_1 _ _ _ _ Hokk Hitem) as (_ & _ & Hexact).
          apply Hexact. unfold touches. by rewrite Htrip. }
      destruct Hhk1 as (Hlen' & Hok' & Hsame & itk & Hitk & Hexk).
      rewrite Hitk in Hvi. simpl in Hvi. injection Hvi as <-.
      pose proof (pool_ok_finite S hk1 Hok') as Hfin.
      pose proof (Forall_lookup_1 _ _ _ _ Hfin Hitk) as Hfk.
      destruct (hk1 !! ak) as [a0|] eqn:Ha0; [|done].
      simpl in Hvt. injection Hvt as <-.
      pose proof (Forall_lookup_1 _ _ _ _ Hfin Ha0) as Hf0.
      destruct Hak as [Hak|[-> ->]].
      * assert (Ha0' : hk !! ak = Some a0) by (rewrite <- Hsame by lia; done).
        destruct (ltb (value_ a0) (value_ itk)) eqn:Hlt; injection Hstep as <-;
          cbn [fst snd].
        -- split; [done|]. split; [done|]. split; [left; lia|]. split; [done|].
           intros i it' a Hi Hit' Ha'. rewrite Hitk in Ha'. injection Ha' as <-.
           destruct (decide (i = k)) as [->|Hik].
           ++ rewrite Hitk in Hit'. injection Hit' as <-.
              split; [done|by apply float_le_refl].
           ++ rewrite Hsame in Hit' by done.
              destruct (Hex i it' a0) as [He Hle]; [lia|done|done|].
              split; [done|]. eapply float_le_trans; [exact Hle|].
              by apply ltb_true_le.
        -- split; [done|]. split; [done|]. split; [left; lia|]. split; [done|].
           intros i it' a Hi Hit' Ha'. rewrite Ha0 in Ha'. injection Ha' as <-.
           destruct (decide (i = k)) as [->|Hik].
           ++ rewrite Hitk in Hit'. injection Hit' as <-. split; [done|].
              by apply ltb_false_le.
           ++ rewrite Hsame in Hit' by done. apply (Hex i it' a0); [lia|done|done].
      * rewrite Hitk in Ha0. injection Ha0 as <-.
        assert (Hlt : ltb (value_ itk) (value_ itk) = false).
        { destruct Hfk as [q ->]. simpl. apply Qltb_false. lra. }
        rewrite Hlt in Hstep. injection Hstep as <-. cbn [fst snd].
        split; [done|]. split; [done|]. split; [left; lia|]. split; [done|].
        intros i it' a Hi Hit' Ha'. assert (i = 0) as -> by lia.
        rewrite Hitk in Hit', Ha'. injection Hit' as <-. injection Ha' as <-.
        split; [done|by apply float_le_refl].
    + cbn [fst snd]. split; [done|]. split; [done|]. split; [by right|].
      split; [done|]. intros i it' a Hi. lia.
Qed.

(** ** The selection loop is greedy *)

Lemma mv_in_summary (S : Summary) (t : triple) :
  KG_wf (graph S) -> t ∈ triples (graph S) -> mv S t = zero.
Proof.
  intros Hwf Ht. apply elem_of_triples in Ht.
  destruct (wf_has_triple_entities _ _ Hwf Ht) as [H1 H2].
  unfold mv, marginal_terms. by rewrite H1, H2, Ht.
Qed.

Lemma nonneg_float_le_zero (x : float) : nonneg x -> float_le zero x.
Proof. intros (q & -> & Hq). exists 0%Q, q. done. Qed.

Lemma total_value_nonneg (KG : KnowledgeGraph) (t : triple) :
  values_nonneg KG -> nonneg (total_value KG t).
Proof.
  intros [Hev Htv]. unfold total_value. apply nonneg_add; [apply nonneg_add|]; auto.
Qed.

Lemma top_best_all (S : Summary) (heap : list HeapTriple) (top : HeapTriple) :
  values_nonneg (parent S) -> loop_inv S heap -> last heap = Some top ->
  forall t', t' ∈ triples (parent S) ->
    float_le (mv S t') (mv S (triple_ top)).
Proof.
  intros Hnn (Hwf & Hok & Hnd & Hbest & Hin & Hcov) Hl t' Ht'.
  pose proof (mv_nonneg S (triple_ top) Hnn) as Htop.
  destruct (gtb (total_value (parent S) t') zero) eqn:Hg.
  - destruct (Hcov t' Ht' Hg) as [HS|Hh].
    + rewrite (mv_in_summary S t' Hwf HS). by apply nonneg_float_le_zero.
    + apply list_elem_of_fmap in Hh as (item & -> & Hitem). by apply Hbest.
  - destruct (mv_bounds S t' t' Hnn) as (_ & _ & (a & b & Ha & Hb & Hab)).
    rewrite Ha. destruct Htop as (c & -> & Hc).
    exists a, c. split; [done|]. split; [done|].
    rewrite Hb in Hg. simpl in Hg. apply Qltb_false in Hg. lra.
Qed.

Lemma Heap_pop_last (h h' : list HeapTriple) (t : triple) :
  Heap_pop h = Ok (t, h') ->
  exists top, last h = Some top /\ t = triple_ top /\ h = (h' ++ [top])%list.
Proof.
  unfold Heap_pop. destruct (last h) as [item|] eqn:Hl; [|done].
  intros [= <- <-]. exists item. split; [done|]. split; [done|].
  revert Hl. destruct h as [|x h _] using rev_ind; intros Hl; [done|].
  rewrite last_snoc in Hl. injection Hl as ->. by rewrite removelast_last.
Qed.

Lemma GLIMPSE_loop_greedy (K : nat) (sample_size : Z) (fuel : nat) :
  forall (S : Summary) (heap : list HeapTriple) (g : list nat),
    scored (parent S) -> values_nonneg (parent S) -> loop_inv S heap ->
    length heap <= fuel -> (Z.of_nat (length heap) <= sample_size)%Z ->
    exists ts : list triple,
      (GLIMPSE_loop fuel S heap g sample_size K).2
      = Ok (foldl Summary_add_triple S ts) /\
      greedy_chain S ts /\ NoDup ts /\
      Forall (fun t => t ∈ triples (parent S) /\ t ∉ triples (graph S)) ts /\
      length ts = (K - number_of_triples (graph S)) `min` length heap /\
      KG_wf (graph (foldl Summary_add_triple S ts)) /\
      number_of_triples (graph (foldl Summary_add_triple S ts))
      = number_of_triples (graph S) + length ts.
Proof.
  induction fuel as [|fuel IH]; intros S heap g Hsc Hnn Hinv Hfuel Hsize.
  { exists []. assert (heap = []) as -> by (destruct heap; [done|simpl in Hfuel; lia]).
    destruct Hinv as (Hwf & _). split; [done|]. split; [done|].
    split; [constructor|]. split; [constructor|]. split; [simpl; lia|].
    split; [done|]. simpl. lia. }
  cbn [GLIMPSE_loop]. unfold Heap_len.
  destruct ((0 <? length heap) && (number_of_triples (graph S) <? K)) eqn:Hcond.
  2:{ exists []. destruct Hinv as (Hwf & _). split; [done|]. split; [done|].
      split; [constructor|]. split; [constructor|]. split; [|split; [done|simpl; lia]].
      simpl. apply andb_false_iff in Hcond as [H0%Nat.ltb_ge|HK%Nat.ltb_ge]; lia. }
  apply andb_true_iff in Hcond as [H0%Nat.ltb_lt HK%Nat.ltb_lt].
  destruct (Heap_pop_ok heap H0) as (t & heap1 & Hpop). rewrite Hpop.
  destruct (Heap_pop_last _ _ _ Hpop) as (top & Hlast & -> & ->).
  set (S1 := Summary_add_triple S (triple_ top)).
  destruct (Heap_update_ok S1 heap1 sample_size g Hsc) as [[heap2 g2] Hupd]; [lia|].
  rewrite Hupd.
  pose proof Hinv as (Hwf & Hok & Hnd & Hbest & Hin & Hcov).
  unfold Heap_triples in Hnd, Hin, Hcov. rewrite fmap_app in Hnd, Hin, Hcov.
  simpl in Hnd, Hin, Hcov.
  apply NoDup_app in Hnd as (Hnd1 & Hnin & _).
  assert (Hwf1 : KG_wf (graph S1)) by (by apply KG_wf_add_triple).
  assert (Hlen : length (heap1 ++ [top]) = Datatypes.S (length heap1))
    by (rewrite length_app; simpl; lia).
  rewrite Hlen in *.
  assert (Hok1 : pool_ok S1 heap1).
  { apply pool_ok_add_triple; [done|done|]. unfold pool_ok in *.
    by apply Forall_app in Hok as [? _]. }
  destruct (Heap_update_best S1 heap1 heap2 sample_size g g2 Hsc Hnn Hok1 Hnd1)
    as [Hok2 Hbest2]; [lia|done|].
  pose proof (Heap_update_triples _ _ _ _ _ _ Hupd) as Hperm.
  assert (Hlen2 : length heap2 = length heap1).
  { apply Permutation_length in Hperm. unfold Heap_triples in Hperm.
    by rewrite !length_fmap in Hperm. }
  assert (Htop : triple_ top ∈ triples (parent S) /\ triple_ top ∉ triples (graph S)).
  { apply Hin. apply elem_of_app. right. by left. }
  assert (Htr1 : triples (graph S1) = {[triple_ top]} ∪ triples (graph S))
    by apply triples_add_triple.
  assert (Hinv2 : loop_inv S1 heap2).
  { split; [done|]. split; [done|]. split; [by rewrite Hperm|]. split; [done|]. split.
    - intros t Ht. rewrite Hperm in Ht. unfold Heap_triples in Ht.
      destruct (Hin t) as [H1 H2]; [apply elem_of_app; by left|].
      split; [done|]. rewrite Htr1. intros [->%elem_of_singleton|?]%elem_of_union.
      + by apply (Hnin (triple_ top) Ht); left.
      + done.
    - intros t Ht Hg. rewrite Htr1, Hperm.
      destruct (Hcov t Ht Hg) as [HS|[Hh|Hh%list_elem_of_singleton]%elem_of_app].
      + left. apply elem_of_union. by right.
      + by right.
      + left. apply elem_of_union. left. by apply elem_of_singleton. }
  destruct (IH S1 heap2 g2 Hsc Hnn Hinv2) as (ts & Hres & Hchain & Hndts & Hall & Hlts & Hwfr & Hnum);
    [lia|lia|].
  destruct (GLIMPSE_loop fuel S1 heap2 g2 sample_size K) as [log' res].
  simpl in Hres. subst res.
  assert (Hn1 : number_of_triples (graph S1)
                = Datatypes.S (number_of_triples (graph S))).
  { rewrite !number_of_triples_wf by done. rewrite Htr1.
    rewrite size_union by (apply disjoint_singleton_l; tauto).
    by rewrite size_singleton. }
  exists (triple_ top :: ts). simpl. fold S1.
  split; [done|]. split.
  { split; [|done]. by apply (top_best_all S (heap1 ++ [top]) top). }
  split.
  { constructor; [|done]. intros Hin'.
    rewrite Forall_forall in Hall. destruct (Hall _ Hin') as [_ Hn].
    apply Hn. rewrite Htr1. apply elem_of_union. left. by apply elem_of_singleton. }
  split.
  { constructor; [done|]. eapply Forall_impl; [exact Hall|].
    intros t [H1 H2]. split; [done|]. intros Ht. apply H2. rewrite Htr1.
    apply elem_of_union. by right. }
  split; [rewrite Hlts, Hn1, Hlen2; lia|]. split; [done|].
  rewrite Hnum, Hn1. lia.
Qed.

Lemma nonnegb_nonneg (x : float) : nonnegb x = true -> nonneg x.
Proof.
  destruct x as [q| |]; try done. simpl. intros H%Qle_bool_iff. by exists q.
Qed.

Lemma values_nonneg_check (KG : KnowledgeGraph) (ev : gmap string float)
    (tv : gmap triple float) :
  entity_value_ KG = Some ev -> triple_value_ KG = Some tv ->
  forallb nonnegb (map_to_list ev).*2 && forallb nonnegb (map_to_list tv).*2 = true ->
  values_nonneg KG.
Proof.
  intros Hev Htv [H1 H2]%andb_true_iff.
  rewrite forallb_forall in H1, H2. unfold values_nonneg, ev_of, tv_of.
  rewrite Hev, Htv. simpl. split.
  - intros e. destruct (ev !! e) as [v|] eqn:Hv; [|apply nonneg_zero]. simpl.
    apply nonnegb_nonneg, H1, list_elem_of_In, list_elem_of_fmap.
    exists (e, v). split; [done|]. by apply elem_of_map_to_list.
  - intros t. destruct (tv !! t) as [v|] eqn:Hv; [|apply nonneg_zero]. simpl.
    apply nonnegb_nonneg, H2, list_elem_of_In, list_elem_of_fmap.
    exists (t, v). split; [done|]. by apply elem_of_map_to_list.
Qed.

Lemma GLIMPSE_select_greedy (np_log : float -> float)
    (iter_set : gset triple -> list triple) (KG : KnowledgeGraph) (K : nat)
    (g : list nat) :
  (forall X : gset triple, iter_set X ≡ₚ elements X) ->
  scored KG -> values_nonneg KG ->
  K < size (candidates KG) ->
  exists ts : list triple,
    (GLIMPSE_select np_log iter_set KG K None g).2
    = Ok (foldl Summary_add_triple (Summary_init KG) ts) /\
    length ts = K /\ NoDup ts /\ Forall (fun t => t ∈ triples KG) ts /\
    greedy_chain (Summary_init KG) ts.
Proof.
  intros Hperm Hsc Hnn HK. unfold GLIMPSE_select, Heap_init.
  rewrite (Heap_init_fold iter_set KG _ Hsc). cbn [app].
  set (cand := filter (fun t => gtb (total_value KG t) zero = true)
                      (iter_set (triples KG))).
  set (heap := (fun t => mkHeapTriple t (total_value KG t)) <$> cand).
  set (S0 := Summary_init KG).
  assert (Hndc : NoDup cand).
  { apply NoDup_filter. rewrite Hperm. apply NoDup_elements. }
  assert (Hcand : forall t, t ∈ cand <->
            t ∈ triples KG /\ gtb (total_value KG t) zero = true).
  { intros t. unfold cand. rewrite list_elem_of_filter, Hperm, elem_of_elements. tauto. }
  assert (Htrh : Heap_triples heap = cand).
  { unfold Heap_triples, heap. rewrite <- list_fmap_compose. apply list_fmap_id. }
  assert (Hlenh : length heap = size (candidates KG)).
  { unfold heap. rewrite length_fmap. rewrite <- (size_list_to_set (C := gset triple)) by done.
    f_equal. apply set_eq. intros t. unfold candidates.
    rewrite elem_of_list_to_set, elem_of_filter, Hcand. tauto. }
  unfold Heap_len. destruct (length heap <=? K) eqn:Hleb.
  { apply Nat.leb_le in Hleb. lia. }
  assert (Hwf0 : KG_wf (graph S0)) by apply KG_wf_init.
  assert (Hok0 : pool_ok S0 heap).
  { unfold pool_ok, heap. apply Forall_fmap, Forall_forall. intros t _. simpl.
    assert (Hmv : mv S0 t = total_value KG t) by (by apply (mv_untouched S0)).
    rewrite Hmv. split; [by apply nonneg_finite, total_value_nonneg|].
    split; [by apply float_le_refl, nonneg_finite, total_value_nonneg|done]. }
  destruct (Heap_update_ok S0 heap (Z.of_nat (length heap)) g Hsc)
    as [[heap1 g1] Hupd]; [lia|].
  rewrite Hupd. cbn [GLIMPSE_sample_size].
  destruct (Heap_update_best S0 heap heap1 (Z.of_nat (length heap)) g g1
              Hsc Hnn Hok0) as [Hok1 Hbest1];
    [by rewrite Htrh|lia|done|].
  pose proof (Heap_update_triples _ _ _ _ _ _ Hupd) as Hperm1.
  assert (Hlen1 : length heap1 = length heap).
  { apply Permutation_length in Hperm1. unfold Heap_triples in Hperm1.
    by rewrite !length_fmap in Hperm1. }
  assert (Hinv : loop_inv S0 heap1).
  { split; [done|]. split; [done|]. split; [by rewrite Hperm1, Htrh|].
    split; [done|]. split.
    - intros t Ht. rewrite Hperm1, Htrh in Ht. apply Hcand in Ht as [Ht _].
      split; [done|]. unfold S0, Summary_init. cbn [graph].
      rewrite triples_init. apply not_elem_of_empty.
    - intros t Ht Hg. right. rewrite Hperm1, Htrh. by apply Hcand. }
  destruct (GLIMPSE_loop_greedy K (Z.of_nat (length heap1)) (length heap1)
              S0 heap1 g1 Hsc Hnn Hinv)
    as (ts & Hres & Hchain & Hndts & Hall & Hlts & Hwfr & Hnum); [lia|lia|].
  destruct (GLIMPSE_loop (length heap1) S0 heap1 g1 (Z.of_nat (length heap1)) K)
    as [log' res].
  simpl in Hres. subst res. cbn [snd].
  assert (Hn0 : number_of_triples (graph S0) = 0) by done.
  rewrite Hn0 in *.
  assert (Hlen : length ts = K) by lia.
  destruct (fill_spec (iter_set (triples KG)) K (foldl Summary_add_triple S0 ts) Hwfr)
    as (_ & _ & _ & _ & Hfill & _).
  rewrite Hfill by lia.
  exists ts. split; [done|]. split; [done|]. split; [done|]. split; [|done].
  eapply Forall_impl; [exact Hall|]. by intros t [? _].
Qed.

(** X21: without sampling, [GLIMPSE] is the greedy algorithm. With
    [epsilon=None], on a graph built by [add_triple] whose value
    annotation (as [model_user_pref] leaves it) has no negative value and
    no NaN, and with more than [K] triples of positive value, [GLIMPSE]
    returns the summary obtained by adding [K] distinct triples of the
    graph one after the other, each of which has, when it is added, the
    greatest marginal value of all the triples of the graph; the padding
    adds nothing. *)
Theorem GLIMPSE_greedy (np_log : float -> float)
    (iter_set : gset triple -> list triple) (KG KG' : KnowledgeGraph) (K : nat)
    (query_log : list Query) (power : nat) (g : list nat) :
  (forall X : gset triple, iter_set X ≡ₚ elements X) ->
  KG_wf KG ->
  model_user_pref np_log KG query_log power = Ok KG' ->
  values_nonneg KG' ->
  K < size (candidates KG') ->
  exists ts : list triple,
    GLIMPSE np_log iter_set KG K query_log None power g
    = Ok (foldl Summary_add_triple (Summary_init KG') ts) /\
    length ts = K /\ NoDup ts /\ Forall (fun t => t ∈ triples KG) ts /\
    greedy_chain (Summary_init KG') ts.
Proof.
  intros Hperm Hwf Hrun Hnn HK.
  pose proof (model_user_pref_Ok_topics np_log KG KG' query_log power
                (wf_ids _ Hwf) Hrun) as Htopics.
  destruct (model_user_pref_char np_log KG query_log power Hwf Htopics)
    as (T & ev & tv & _ & Hrun' & _).
  rewrite Hrun in Hrun'. injection Hrun' as ->.
  set (KG' := with_values KG ev tv) in *.
  assert (Hsc : scored KG') by (split; eexists; reflexivity).
  assert (Htr : triples KG' = triples KG) by reflexivity.
  destruct (GLIMPSE_select_greedy np_log iter_set KG' K g Hperm Hsc Hnn HK)
    as (ts & Hres & Hlen & Hnd & Hall & Hchain).
  exists ts. unfold GLIMPSE, GLIMPSE_exec. rewrite Hrun.
  split; [exact Hres|]. split; [done|]. split; [done|]. split; [|done].
  by rewrite <- Htr.
Qed.

Lemma GLIMPSE_greedy_witness :
  exists KG' : KnowledgeGraph,
    model_user_pref np_log_approx cycle_graph [topic_query "a"] 1 = Ok KG' /\
    exists ts : list triple,
      GLIMPSE np_log_approx elements cycle_graph 2 [topic_query "a"] None 1 []
      = Ok (foldl Summary_add_triple (Summary_init KG') ts) /\
      length ts = 2 /\ NoDup ts /\ Forall (fun t => t ∈ triples cycle_graph) ts /\
      greedy_chain (Summary_init KG') ts.
Proof.
  eexists. split; [vm_compute; reflexivity|].
  apply (GLIMPSE_greedy np_log_approx elements cycle_graph _ 2 [topic_query "a"] 1 []).
  - intros X. reflexivity.
  - apply KG_wf_of_list.
  - vm_compute. reflexivity.
  - eapply values_nonneg_check; [reflexivity|reflexivity|]. vm_compute. reflexivity.
  - vm_compute. lia.
Defined.

Lemma GLIMPSE_select_small (np_log : float -> float)
    (iter_set : gset triple -> list triple) (KG : KnowledgeGraph) (K : nat)
    (epsilon : option float) (g : list nat) :
  (forall X : gset triple, iter_set X ≡ₚ elements X) ->
  scored KG -> size (candidates KG) <= K ->
  exists S : Summary,
    (GLIMPSE_select np_log iter_set KG K epsilon g).2 = Ok S /\
    candidates KG ⊆ triples (graph S).
Proof.
  intros Hperm Hsc HK. unfold GLIMPSE_select, Heap_init.
  rewrite (Heap_init_fold iter_set KG _ Hsc). cbn [app].
  set (cand := filter (fun t => gtb (total_value KG t) zero = true)
                      (iter_set (triples KG))).
  set (heap := (fun t => mkHeapTriple t (total_value KG t)) <$> cand).
  assert (Hndc : NoDup cand).
  { apply NoDup_filter. rewrite Hperm. apply NoDup_elements. }
  assert (Hset : list_to_set cand = candidates KG).
  { apply set_eq. intros t. unfold candidates, cand.
    rewrite elem_of_list_to_set, elem_of_filter, list_elem_of_filter, Hperm,
      elem_of_elements. tauto. }
  assert (Htrh : Heap_triples heap = cand).
  { unfold Heap_triples, heap. rewrite <- list_fmap_compose. apply list_fmap_id. }
  assert (Hlenh : length heap = size (candidates KG)).
  { unfold heap. rewrite length_fmap, <- Hset. symmetry. by apply size_list_to_set. }
  unfold Heap_len. destruct (length heap <=? K) eqn:Hleb.
  2:{ apply Nat.leb_gt in Hleb. lia. }
  cbn [snd]. rewrite Htrh. eexists. split; [reflexivity|].
  set (S0 := Summary_init KG).
  destruct (fill_spec cand K S0 (KG_wf_init _)) as (Hwf1 & _ & _ & Hsub & _ & Hnum).
  assert (Hempty : triples (graph S0) = ∅) by apply triples_init.
  rewrite Hempty in Hsub, Hnum. rewrite union_empty_l_L, Hset in Hsub, Hnum.
  specialize (Hnum ltac:(unfold S0; simpl; lia)).
  rewrite (number_of_triples_wf _ Hwf1) in Hnum.
  assert (Heq : triples (graph (fill S0 cand K)) = candidates KG).
  { apply set_subseteq_size_eq; [done|]. lia. }
  destruct (fill_spec (iter_set (triples KG)) K (fill S0 cand K) Hwf1)
    as (_ & _ & Hsub2 & _).
  by rewrite <- Heq.
Qed.

(** X22: with few candidates [GLIMPSE] takes them all and never looks at
    [epsilon]. On a graph built by [add_triple], when at most [K] triples
    have a positive value after [model_user_pref], [GLIMPSE] returns
    whatever [epsilon] is (the default, None, or even 0), and its summary
    holds every triple of positive value. *)
Theorem GLIMPSE_few_candidates (np_log : float -> float)
    (iter_set : gset triple -> list triple) (KG KG' : KnowledgeGraph) (K : nat)
    (query_log : list Query) (epsilon : option float) (power : nat) (g : list nat) :
  (forall X : gset triple, iter_set X ≡ₚ elements X) ->
  KG_wf KG ->
  model_user_pref np_log KG query_log power = Ok KG' ->
  size (candidates KG') <= K ->
  exists S : Summary,
    GLIMPSE np_log iter_set KG K query_log epsilon power g = Ok S /\
    candidates KG' ⊆ triples (graph S).
Proof.
  intros Hperm Hwf Hrun HK.
  pose proof (model_user_pref_Ok_topics np_log KG KG' query_log power
                (wf_ids _ Hwf) Hrun) as Htopics.
  destruct (model_user_pref_char np_log KG query_log power Hwf Htopics)
    as (T & ev & tv & _ & Hrun' & _).
  rewrite Hrun in Hrun'. injection Hrun' as ->.
  assert (Hsc : scored (with_values KG ev tv)) by (split; eexists; reflexivity).
  destruct (GLIMPSE_select_small np_log iter_set _ K epsilon g Hperm Hsc HK)
    as (S & HS & Hsub).
  exists S. unfold GLIMPSE, GLIMPSE_exec. rewrite Hrun. done.
Qed.

Lemma GLIMPSE_few_candidates_witness :
  exists KG' : KnowledgeGraph,
    model_user_pref np_log_approx fork_graph [topic_query "c"] 1 = Ok KG' /\
    exists S : Summary,
      GLIMPSE np_log_approx elements fork_graph 2 [topic_query "c"]
        (Some zero) 1 [] = Ok S /\
      candidates KG' ⊆ triples (graph S).
Proof.
  eexists. split; [vm_compute; reflexivity|].
  apply (GLIMPSE_few_candidates np_log_approx elements fork_graph _ 2
           [topic_query "c"] (Some zero) 1 []).
  - intros X. reflexivity.
  - apply KG_wf_of_list.
  - vm_compute. reflexivity.
  - vm_compute. lia.
Defined.

(** ** A budget of zero *)

Lemma GLIMPSE_select_zero_budget (np_log : float -> float)
    (iter_set : gset triple -> list triple) (KG : KnowledgeGraph)
    (eps : float) (g : list nat) :
  (forall X : gset triple, iter_set X ≡ₚ elements X) ->
  scored KG -> candidates KG ≠ ∅ ->
  (GLIMPSE_select np_log iter_set KG 0 (Some eps) g).2 = Err ZeroDivisionError.
Proof.
  intros Hperm Hsc Hne. unfold GLIMPSE_select, Heap_init.
  rewrite (Heap_init_fold iter_set KG _ Hsc). cbn [app].
  set (cand := filter (fun t => gtb (total_value KG t) zero = true)
                      (iter_set (triples KG))).
  set (heap := (fun t => mkHeapTriple t (total_value KG t)) <$> cand).
  assert (Hlen : 0 < length heap).
  { apply set_choose_L in Hne as [t Ht]. unfold candidates in Ht.
    apply elem_of_filter in Ht as [Hg Ht].
    assert (Hin : t ∈ cand).
    { unfold cand. apply list_elem_of_filter. split; [done|].
      rewrite Hperm. by apply elem_of_elements. }
    unfold heap. rewrite length_fmap. destruct cand; [|simpl; lia].
    by apply not_elem_of_nil in Hin. }
  unfold Heap_len. destruct (length heap <=? 0) eqn:Hleb.
  { apply Nat.leb_le in Hleb. lia. }
  destruct (Heap_update_ok (Summary_init KG) heap (Z.of_nat (length heap)) g Hsc)
    as [[heap1 g1] Hupd]; [lia|].
  rewrite Hupd. done.
Qed.

(** X23: a budget of zero. [main.py] computes the budget as
    [int(percent_triples * number_of_triples())], which is 0 whenever the
    product is below 1 (with the default 0.001: for every graph of fewer
    than 1000 triples). With [K = 0] and [epsilon] set, as by default,
    [GLIMPSE] raises ZeroDivisionError on a graph built by [add_triple] as
    soon as one triple has a positive value after [model_user_pref]. *)
Theorem zero_budget_raises (percent_triples : Q) (KG : KnowledgeGraph) :
  KG_wf KG ->
  (0 <= percent_triples)%Q ->
  (percent_triples * inject_Z (Z.of_nat (number_of_triples KG)) < 1)%Q ->
  main_K (Fin percent_triples) KG = Ok 0%Z /\
  forall (np_log : float -> float) (iter_set : gset triple -> list triple)
         (KG' : KnowledgeGraph) (query_log : list Query) (eps : float)
         (power : nat) (g : list nat),
    (forall X : gset triple, iter_set X ≡ₚ elements X) ->
    model_user_pref np_log KG query_log power = Ok KG' ->
    candidates KG' ≠ ∅ ->
    GLIMPSE np_log iter_set KG 0 query_log (Some eps) power g
    = Err ZeroDivisionError.
Proof.
  intros Hwf Hp Hlt. split.
  - unfold main_K, of_nat. cbn [mul py_int]. f_equal.
    set (r := Qred (percent_triples * inject_Z (Z.of_nat (number_of_triples KG)))).
    assert (Hr : (0 <= r < 1)%Q).
    { unfold r. rewrite Qred_correct. split; [|done].
      apply Qmult_le_0_compat; [done|]. rewrite <- (Zle_Qle 0). lia. }
    destruct Hr as [Hr0 Hr1]. unfold Qle, Qlt in Hr0, Hr1. simpl in Hr0, Hr1.
    apply Z.quot_small. lia.
  - intros np_log iter_set KG' query_log eps power g Hperm Hrun Hne.
    pose proof (model_user_pref_Ok_topics np_log KG KG' query_log power
                  (wf_ids _ Hwf) Hrun) as Htopics.
    destruct (model_user_pref_char np_log KG query_log power Hwf Htopics)
      as (T & ev & tv & _ & Hrun' & _).
    rewrite Hrun in Hrun'. injection Hrun' as ->.
    assert (Hsc : scored (with_values KG ev tv)) by (split; eexists; reflexivity).
    unfold GLIMPSE, GLIMPSE_exec. rewrite Hrun.
    by apply GLIMPSE_select_zero_budget.
Qed.

Lemma zero_budget_raises_witness :
  main_K (Fin (1 # 1000)) cycle_graph = Ok 0%Z /\
  forall (np_log : float -> float) (iter_set : gset triple -> list triple)
         (KG' : KnowledgeGraph) (query_log : list Query) (eps : float)
         (power : nat) (g : list nat),
    (forall X : gset triple, iter_set X ≡ₚ elements X) ->
    model_user_pref np_log cycle_graph query_log power = Ok KG' ->
    candidates KG' ≠ ∅ ->
    GLIMPSE np_log iter_set cycle_graph 0 query_log (Some eps) power g
    = Err ZeroDivisionError.
Proof.
  apply (zero_budget_raises (1 # 1000) cycle_graph).
  - apply KG_wf_of_list.
  - discriminate.
  - vm_compute. reflexivity.
Defined.

(** ** Loading a dump *)

Lemma rstrip_newline_snoc (s : string) (c : Ascii.ascii) :
  c ≠ newline -> rstrip_newline (s +:+ String c "") = s +:+ String c "".
Proof.
  intros Hc. induction s as [|a s IH]; simpl.
  - by rewrite (proj2 (Ascii.eqb_neq c newline) Hc).
  - rewrite IH. by destruct s.
Qed.

Lemma rstrip_newline_newline (s : string) :
  rstrip_newline (s +:+ String newline "") = rstrip_newline s.
Proof.
  induction s as [|a s IH]; simpl; [done|]. by rewrite IH.
Qed.

Lemma append_cons (x : Ascii.ascii) (a b : string) :
  String x a +:+ b = String x (a +:+ b).
Proof. reflexivity. Qed.

Lemma append_nil (b : string) : "" +:+ b = b.
Proof. reflexivity. Qed.

Lemma string_app_assoc (a b c : string) : (a +:+ b) +:+ c = a +:+ (b +:+ c).
Proof.
  induction a as [|x a IH]; [done|]. by rewrite !append_cons, IH.
Qed.

Lemma string_length_app (a b : string) :
  String.length (a +:+ b) = String.length a + String.length b.
Proof.
  induction a as [|x a IH]; [done|]. rewrite append_cons. simpl. by rewrite IH.
Qed.

Lemma substring_prefix (a b : string) :
  String.substring 0 (String.length a) (a +:+ b) = a.
Proof.
  induction a as [|x a IH].
  - rewrite append_nil. by destruct b.
  - rewrite append_cons. simpl. by rewrite IH.
Qed.

Lemma drop_last2_app (s : string) (x y : Ascii.ascii) :
  drop_last2 (s +:+ String x (String y "")) = s.
Proof.
  unfold drop_last2. rewrite string_length_app. simpl.
  replace (String.length s + 2 - 2) with (String.length s) by lia.
  apply substring_prefix.
Qed.

Lemma split_space_cons (s : string) : exists w ws, split_space s = w :: ws.
Proof.
  induction s as [|c s (w & ws & IH)]; simpl; [eauto|].
  destruct (Ascii.eqb c space); [eauto|]. rewrite IH. eauto.
Qed.

Lemma split_space_field (a b : string) :
  has_char space a = false ->
  split_space (a +:+ String space b) = a :: split_space b.
Proof.
  intros Ha. induction a as [|x a IH]; simpl.
  - done.
  - simpl in Ha. apply orb_false_iff in Ha as [Hx Ha].
    rewrite Hx, (IH Ha). done.
Qed.

Lemma join_split_space (s : string) : join_space (split_space s) = s.
Proof.
  induction s as [|c s IH]; [done|]. cbn [split_space].
  destruct (split_space_cons s) as (w & ws & Hs). rewrite Hs in IH |- *.
  destruct (Ascii.eqb c space) eqn:Hc.
  - apply Ascii.eqb_eq in Hc as ->.
    change (join_space ("" :: w :: ws))
      with ("" +:+ String space (join_space (w :: ws))).
    by rewrite IH.
  - destruct ws as [|w' ws].
    + cbn [join_space] in IH |- *. by rewrite IH.
    + change (join_space (String c w :: w' :: ws))
        with (String c w +:+ String space (join_space (w' :: ws))).
      change (join_space (w :: w' :: ws))
        with (w +:+ String space (join_space (w' :: ws))) in IH.
      by rewrite append_cons, IH.
Qed.

Lemma DBPedia_fact_dump_line (t : triple) :
  dumpable t -> DBPedia_fact (dump_line t) = Ok (Some t).
Proof.
  destruct t as [[e1 r] e2]. intros (H1 & H2 & H3 & H4). simpl in *.
  unfold DBPedia_fact, dump_line. cbn [fst snd].
  set (body := e1 +:+ String space (r +:+ String space e2)).
  assert (Hline : e1 +:+ String space (r +:+ String space (e2 +:+ String space
                    ("." +:+ String newline "")))
                  = ((body +:+ String space "") +:+ ".") +:+ String newline "").
  { unfold body. repeat (progress (rewrite ?string_app_assoc, ?append_cons, ?append_nil)).
    done. }
  rewrite Hline, rstrip_newline_newline.
  rewrite rstrip_newline_snoc by (cbv; discriminate).
  rewrite string_app_assoc, append_cons, append_nil, drop_last2_app.
  unfold body. rewrite (split_space_field e1) by done.
  rewrite (split_space_field r) by done.
  rewrite join_split_space.
  by rewrite !bool_decide_eq_false_2.
Qed.

Lemma DBPedia_load_all (ts : list triple) :
  Forall dumpable ts ->
  forall kg, DBPedia_load kg None (dump_line <$> ts) = Ok (foldl add_triple kg ts).
Proof.
  induction 1 as [|t ts Ht _ IH]; intros kg; [done|].
  rewrite fmap_cons. cbn [DBPedia_load foldl].
  rewrite (DBPedia_fact_dump_line t Ht). cbn [mbind Result_bind].
  rewrite bool_decide_eq_false_2 by done. apply IH.
Qed.

Lemma number_of_triples_add_pos (kg : KnowledgeGraph) (t : triple) :
  KG_wf kg -> 0 < number_of_triples (add_triple kg t).
Proof.
  intros Hwf. rewrite (number_of_triples_wf _ (KG_wf_add_triple _ t Hwf)).
  rewrite triples_add_triple, size_union_alt, size_singleton. lia.
Qed.

Lemma DBPedia_load_head0 (ts : list triple) :
  Forall dumpable ts ->
  forall kg, KG_wf kg ->
    DBPedia_load kg (Some 0) (dump_line <$> ts) = Ok (foldl add_triple kg ts).
Proof.
  induction 1 as [|t ts Ht _ IH]; intros kg Hwf; [done|].
  rewrite fmap_cons. cbn [DBPedia_load foldl].
  rewrite (DBPedia_fact_dump_line t Ht). cbn [mbind Result_bind].
  pose proof (number_of_triples_add_pos kg t Hwf).
  rewrite bool_decide_eq_false_2 by (intros [= ?]; lia).
  apply IH. by apply KG_wf_add_triple.
Qed.

Lemma DBPedia_load_head (h : nat) (ts : list triple) :
  Forall dumpable ts ->
  forall kg, KG_wf kg -> number_of_triples kg < h ->
    exists n, n <= length ts /\
      DBPedia_load kg (Some h) (dump_line <$> ts)
      = Ok (foldl add_triple kg (take n ts)) /\
      number_of_triples (foldl add_triple kg (take n ts))
      = h `min` size (triples kg ∪ list_to_set ts).
Proof.
  induction 1 as [|t ts Ht _ IH]; intros kg Hwf Hlt.
  - exists 0. split; [done|]. split; [done|]. simpl.
    rewrite union_empty_r_L. rewrite (number_of_triples_wf _ Hwf) in Hlt |- *. lia.
  - rewrite fmap_cons. cbn [DBPedia_load].
    rewrite (DBPedia_fact_dump_line t Ht). cbn [mbind Result_bind].
    pose proof (KG_wf_add_triple kg t Hwf) as Hwf1.
    assert (Hn1 : number_of_triples (add_triple kg t) <= S (number_of_triples kg)).
    { rewrite !number_of_triples_wf by done.
      rewrite triples_add_triple, size_union_alt, size_singleton.
      assert (Hs : triples kg ∖ {[t]} ⊆ triples kg) by set_solver.
      apply subseteq_size in Hs. lia. }
    assert (Hsub : triples (add_triple kg t)
                   ⊆ triples kg ∪ list_to_set (t :: ts)).
    { rewrite triples_add_triple. simpl. set_solver. }
    case_bool_decide as Hh.
    + injection Hh as Hh. exists 1. split; [simpl; lia|]. split; [done|].
      cbn [take foldl]. apply subseteq_size in Hsub. rewrite take_0. cbn [foldl].
      rewrite (number_of_triples_wf _ Hwf1) in Hh |- *. lia.
    + assert (Hlt1 : number_of_triples (add_triple kg t) < h).
      { assert (number_of_triples (add_triple kg t) ≠ h) by congruence. lia. }
      destruct (IH _ Hwf1 Hlt1) as (n & Hn & Hrun & Hnum).
      exists (S n). split; [simpl; lia|]. split; [done|]. simpl.
      rewrite Hnum. f_equal. f_equal. rewrite triples_add_triple. set_solver.
Qed.

(** X24: [DBPedia.load] on a well-formed dump. A line made of a subject,
    a relation and an object separated by single spaces and ended by [" ."]
    and a newline is read back as that triple, provided the subject and the
    relation hold no space and the subject and the object are not empty
    (the object may hold spaces). On such lines, [load()] builds the graph
    of all the triples, and so does [load(head=0)], which never stops early;
    [load(head=h)] with [h >= 1] on an empty graph stops after a prefix of
    the dump, with [min(h, d)] triples, [d] the number of distinct triples of
    the dump. *)
Theorem DBPedia_load_dump (ts : list triple) :
  Forall dumpable ts ->
  Forall (fun t => DBPedia_fact (dump_line t) = Ok (Some t)) ts /\
  (forall kg, DBPedia_load kg None (dump_line <$> ts)
              = Ok (foldl add_triple kg ts)) /\
  DBPedia_load (KG_init DBPediaC) (Some 0) (dump_line <$> ts)
  = Ok (KG_of_list DBPediaC ts) /\
  (forall h, 1 <= h ->
     exists n, n <= length ts /\
       DBPedia_load (KG_init DBPediaC) (Some h) (dump_line <$> ts)
       = Ok (KG_of_list DBPediaC (take n ts)) /\
       number_of_triples (KG_of_list DBPediaC (take n ts))
       = h `min` size (list_to_set ts : gset triple)).
Proof.
  intros Hts. split; [|split; [|split]].
  - eapply Forall_impl; [exact Hts|]. apply DBPedia_fact_dump_line.
  - by apply DBPedia_load_all.
  - apply DBPedia_load_head0; [done|apply KG_wf_init].
  - intros h Hh.
    destruct (DBPedia_load_head h ts Hts (KG_init DBPediaC) (KG_wf_init _))
      as (n & Hn & Hrun & Hnum); [simpl; lia|].
    exists n. split; [done|]. split; [exact Hrun|].
    unfold KG_of_list. rewrite Hnum, triples_init. by rewrite union_empty_l_L.
Qed.

Lemma DBPedia_load_dump_witness :
  Forall (fun t => DBPedia_fact (dump_line t) = Ok (Some t))
         [("<a>", "<r>", "<b>"); ("<a>", "<r>", "a b"); ("<a>", "<r>", "<b>")] /\
  (forall kg,
     DBPedia_load kg None
       (dump_line <$> [("<a>", "<r>", "<b>"); ("<a>", "<r>", "a b");
                       ("<a>", "<r>", "<b>")])
     = Ok (foldl add_triple kg
             [("<a>", "<r>", "<b>"); ("<a>", "<r>", "a b"); ("<a>", "<r>", "<b>")])) /\
  DBPedia_load (KG_init DBPediaC) (Some 0)
    (dump_line <$> [("<a>", "<r>", "<b>"); ("<a>", "<r>", "a b");
                    ("<a>", "<r>", "<b>")])
  = Ok (KG_of_list DBPediaC
          [("<a>", "<r>", "<b>"); ("<a>", "<r>", "a b"); ("<a>", "<r>", "<b>")]) /\
  (forall h, 1 <= h ->
     exists n,
       n <= length [("<a>", "<r>", "<b>"); ("<a>", "<r>", "a b");
                    ("<a>", "<r>", "<b>")] /\
       DBPedia_load (KG_init DBPediaC) (Some h)
         (dump_line <$> [("<a>", "<r>", "<b>"); ("<a>", "<r>", "a b");
                         ("<a>", "<r>", "<b>")])
       = Ok (KG_of_list DBPediaC
               (take n [("<a>", "<r>", "<b>"); ("<a>", "<r>", "a b");
                        ("<a>", "<r>", "<b>")])) /\
       number_of_triples
         (KG_of_list DBPediaC
            (take n [("<a>", "<r>", "<b>"); ("<a>", "<r>", "a b");
                     ("<a>", "<r>", "<b>")]))
       = h `min` size (list_to_set
                         [("<a>", "<r>", "<b>"); ("<a>", "<r>", "a b");
                          ("<a>", "<r>", "<b>")] : gset triple)).
Proof.
  apply (DBPedia_load_dump
           [("<a>", "<r>", "<b>"); ("<a>", "<r>", "a b"); ("<a>", "<r>", "<b>")]).
  repeat constructor; done.
Defined.

(** ** The outcome of [GLIMPSE] *)

Lemma Heap_update_negative (S : Summary) (h : list HeapTriple) (m : Z)
    (g : list nat) :
  (m < 0)%Z ->
  Heap_update S h m g = if length h <=? 1 then Ok (h, g) else Err ValueError.
Proof.
  intros Hm. unfold Heap_update, Heap_sample.
  destruct (length h <=? 1) eqn:Hn; [done|]. apply Nat.leb_gt in Hn.
  replace (Z.min (Z.of_nat (length h)) m) with m by lia.
  destruct (m =? 0)%Z eqn:H0; [apply Z.eqb_eq in H0; lia|].
  destruct (m <? Z.of_nat (length h))%Z eqn:H1; [|apply Z.ltb_ge in H1; lia].
  destruct (m <? 0)%Z eqn:H2; [|apply Z.ltb_ge in H2; lia].
  done.
Qed.

Lemma GLIMPSE_loop_negative (K : nat) (m : Z) (fuel : nat) :
  (m < 0)%Z ->
  forall (S : Summary) (heap : list HeapTriple) (g : list nat),
    length heap <= fuel ->
    ((exists S', (GLIMPSE_loop fuel S heap g m K).2 = Ok S') \/
     (GLIMPSE_loop fuel S heap g m K).2 = Err ValueError) /\
    (length heap <= 2 -> exists S', (GLIMPSE_loop fuel S heap g m K).2 = Ok S') /\
    (3 <= length heap -> number_of_triples (graph S) < K ->
     (GLIMPSE_loop fuel S heap g m K).2 = Err ValueError).
Proof.
  intros Hm. induction fuel as [|fuel IH]; intros S heap g Hfuel.
  - destruct heap; [|simpl in Hfuel; lia]. simpl.
    split; [eauto|]. split; [eauto|]. lia.
  - cbn [GLIMPSE_loop].
    destruct ((0 <? Heap_len heap) && (number_of_triples (graph S) <? K)) eqn:Hcond.
    2:{ simpl. split; [eauto|]. split; [eauto|]. intros H3 HK.
        apply andb_false_iff in Hcond as [H%Nat.ltb_ge|H%Nat.ltb_ge];
          unfold Heap_len in *; lia. }
    apply andb_true_iff in Hcond as [Hlen%Nat.ltb_lt Hnum%Nat.ltb_lt].
    destruct (Heap_pop_ok heap Hlen) as (t & heap1 & Hpop). rewrite Hpop.
    apply (Heap_pop_facts (fun _ => True)) in Hpop as [Hlen1 _].
    rewrite (Heap_update_negative (Summary_add_triple S t) heap1 m g Hm).
    destruct (length heap1 <=? 1) eqn:Hl1.
    + apply Nat.leb_le in Hl1.
      destruct (IH (Summary_add_triple S t) heap1 g) as (_ & HS' & _); [lia|].
      destruct (HS' ltac:(lia)) as [S' HS].
      destruct (GLIMPSE_loop fuel (Summary_add_triple S t) heap1 g m K) as [log' res].
      simpl in *. split; [eauto|]. split; [eauto|]. lia.
    + apply Nat.leb_gt in Hl1. simpl. split; [by right|]. split; [lia|done].
Qed.

Lemma GLIMPSE_sample_size_errors (np_log : float -> float) (n K : nat)
    (epsilon : option float) (e : error) :
  GLIMPSE_sample_size np_log n K epsilon = Err e ->
  e = ZeroDivisionError \/ e = OverflowError \/ e = ValueError.
Proof.
  destruct epsilon as [eps|]; [|done]. cbn [GLIMPSE_sample_size].
  destruct (py_div (of_nat n) (of_nat K)) as [ratio|e1] eqn:H1.
  2:{ cbn [mbind Result_bind]. intros [= <-]. left.
      unfold py_div, of_nat in H1. destruct (Qis0 _); congruence. }
  cbn [mbind Result_bind].
  destruct (py_div one eps) as [inv|e2] eqn:H2.
  2:{ cbn [mbind Result_bind]. intros [= <-]. left.
      unfold py_div in H2. destruct eps as [q| |]; try done.
      destruct (Qis0 q); congruence. }
  cbn [mbind Result_bind]. unfold py_int.
  destruct (mul ratio (np_log inv)); [done| |]; intros [= <-]; auto.
Qed.

Lemma GLIMPSE_sample_size_budget (np_log : float -> float) (n K : nat)
    (epsilon : option float) (m : Z) :
  GLIMPSE_sample_size np_log n K epsilon = Ok m -> (m < 0)%Z -> 0 < K.
Proof.
  destruct epsilon as [eps|]; cbn [GLIMPSE_sample_size].
  - destruct K as [|K]; [|lia]. done.
  - intros [= <-]. lia.
Qed.

Lemma GLIMPSE_select_outcome (np_log : float -> float)
    (iter_set : gset triple -> list triple) (KG : KnowledgeGraph) (K : nat)
    (epsilon : option float) (g : list nat) :
  (forall X : gset triple, iter_set X ≡ₚ elements X) ->
  scored KG -> K < size (candidates KG) ->
  match GLIMPSE_sample_size np_log (size (candidates KG)) K epsilon with
  | Err e => (GLIMPSE_select np_log iter_set KG K epsilon g).2 = Err e
  | Ok m =>
      if decide ((m < 0)%Z /\ 3 <= size (candidates KG))
      then (GLIMPSE_select np_log iter_set KG K epsilon g).2 = Err ValueError
      else exists S, (GLIMPSE_select np_log iter_set KG K epsilon g).2 = Ok S
  end.
Proof.
  intros Hperm Hsc HK. unfold GLIMPSE_select, Heap_init.
  rewrite (Heap_init_fold iter_set KG _ Hsc). cbn [app].
  set (cand := filter (fun t => gtb (total_value KG t) zero = true)
                      (iter_set (triples KG))).
  set (heap := (fun t => mkHeapTriple t (total_value KG t)) <$> cand).
  assert (Hlenh : length heap = size (candidates KG)).
  { unfold heap. rewrite length_fmap.
    rewrite <- (size_list_to_set (C := gset triple)).
    - f_equal. apply set_eq. intros t. unfold candidates, cand.
      rewrite elem_of_list_to_set, elem_of_filter, list_elem_of_filter, Hperm,
        elem_of_elements. tauto.
    - apply NoDup_filter. rewrite Hperm. apply NoDup_elements. }
  rewrite <- Hlenh in *. unfold Heap_len.
  destruct (length heap <=? K) eqn:Hleb; [apply Nat.leb_le in Hleb; lia|].
  destruct (Heap_update_ok (Summary_init KG) heap (Z.of_nat (length heap)) g Hsc)
    as [[heap1 g1] Hupd]; [lia|].
  rewrite Hupd.
  apply (Heap_update_facts (fun _ => True)) in Hupd as [Hlen1 _]. rewrite Hlen1.
  destruct (GLIMPSE_sample_size np_log (length heap) K epsilon) as [m|e] eqn:Hm;
    [|done].
  destruct (Z_lt_le_dec m 0) as [Hneg|Hpos].
  - pose proof (GLIMPSE_sample_size_budget _ _ _ _ _ Hm Hneg) as HK0.
    destruct (GLIMPSE_loop_negative K m (length heap) Hneg (Summary_init KG) heap1 g1)
      as (_ & Hsmall & Hbig); [lia|].
    destruct (decide ((m < 0)%Z /\ 3 <= length heap)) as [[_ H3]|Hno].
    + specialize (Hbig ltac:(lia) HK0).
      destruct (GLIMPSE_loop (length heap) (Summary_init KG) heap1 g1 m K)
        as [log' res].
      simpl in *. by subst res.
    + destruct Hsmall as [S' HS']; [lia|].
      destruct (GLIMPSE_loop (length heap) (Summary_init KG) heap1 g1 m K)
        as [log' res].
      simpl in *. subst res. simpl. eauto.
  - rewrite decide_False by lia.
    destruct (GLIMPSE_loop_ok K m (length heap) Hpos (Summary_init KG) heap1 g1)
      as [S' HS']; [lia|done|].
    destruct (GLIMPSE_loop (length heap) (Summary_init KG) heap1 g1 m K)
      as [log' res].
    simpl in *. subst res. simpl. eauto.
Qed.

(** X25: the outcome of [GLIMPSE] when it has to choose. On a graph built
    by [add_triple], with [n > K] triples of positive value after
    [model_user_pref], [sample_size] is computed from [n], and: an error of
    that computation (ZeroDivisionError for [K = 0] or [epsilon = 0],
    OverflowError or ValueError when [int()] meets an infinity or NaN) is
    the error of [GLIMPSE]; a negative [sample_size] (an [epsilon] above 1)
    makes [np.random.randint] raise ValueError as soon as [n >= 3]; in every
    other case [GLIMPSE] returns a summary. So [GLIMPSE] raises no
    IndexError and no AttributeError, and [pop] never finds the pool
    empty. *)
Theorem GLIMPSE_outcome (np_log : float -> float)
    (iter_set : gset triple -> list triple) (KG KG' : KnowledgeGraph) (K : nat)
    (query_log : list Query) (epsilon : option float) (power : nat) (g : list nat) :
  (forall X : gset triple, iter_set X ≡ₚ elements X) ->
  KG_wf KG ->
  model_user_pref np_log KG query_log power = Ok KG' ->
  K < size (candidates KG') ->
  match GLIMPSE_sample_size np_log (size (candidates KG')) K epsilon with
  | Err e =>
      GLIMPSE np_log iter_set KG K query_log epsilon power g = Err e /\
      (e = ZeroDivisionError \/ e = OverflowError \/ e = ValueError)
  | Ok m =>
      if decide ((m < 0)%Z /\ 3 <= size (candidates KG'))
      then GLIMPSE np_log iter_set KG K query_log epsilon power g = Err ValueError
      else exists S, GLIMPSE np_log iter_set KG K query_log epsilon power g = Ok S
  end.
Proof.
  intros Hperm Hwf Hrun HK.
  pose proof (model_user_pref_Ok_topics np_log KG KG' query_log power
                (wf_ids _ Hwf) Hrun) as Htopics.
  destruct (model_user_pref_char np_log KG query_log power Hwf Htopics)
    as (T & ev & tv & _ & Hrun' & _).
  rewrite Hrun in Hrun'. injection Hrun' as ->.
  assert (Hsc : scored (with_values KG ev tv)) by (split; eexists; reflexivity).
  pose proof (GLIMPSE_select_outcome np_log iter_set _ K epsilon g Hperm Hsc HK)
    as Hout.
  unfold GLIMPSE, GLIMPSE_exec. rewrite Hrun.
  destruct (GLIMPSE_sample_size np_log _ K epsilon) as [m|e] eqn:Hm; [done|].
  split; [done|]. by eapply GLIMPSE_sample_size_errors.
Qed.

Lemma GLIMPSE_outcome_witness :
  exists KG' : KnowledgeGraph,
    model_user_pref np_log_approx cycle_graph [topic_query "a"] 1 = Ok KG' /\
    match GLIMPSE_sample_size np_log_approx (size (candidates KG')) 2
            (Some (Fin 2)) with
    | Err e =>
        GLIMPSE np_log_approx elements cycle_graph 2 [topic_query "a"]
          (Some (Fin 2)) 1 [] = Err e /\
        (e = ZeroDivisionError \/ e = OverflowError \/ e = ValueError)
    | Ok m =>
        if decide ((m < 0)%Z /\ 3 <= size (candidates KG'))
        then GLIMPSE np_log_approx elements cycle_graph 2 [topic_query "a"]
               (Some (Fin 2)) 1 [] = Err ValueError
        else exists S, GLIMPSE np_log_approx elements cycle_graph 2
                         [topic_query "a"] (Some (Fin 2)) 1 [] = Ok S
    end.
Proof.
  eexists. split; [vm_compute; reflexivity|].
  apply (GLIMPSE_outcome np_log_approx elements cycle_graph _ 2 [topic_query "a"]
           (Some (Fin 2)) 1 []).
  - intros X. reflexivity.
  - apply KG_wf_of_list.
  - vm_compute. reflexivity.
  - vm_compute. lia.
Defined.
